(** * Problema do Carteiro Chines: a model of [problema_carteiro_chines.py]

    The program solves the route-inspection problem on a weighted undirected
    graph held in a [networkx.Graph]: it finds the odd-degree vertices,
    matches them at minimum cost, duplicates the shortest path of every
    matched pair into a [networkx.MultiGraph] and walks an Eulerian circuit
    of the result.

    The graph containers are modelled as networkx stores them: a dict of
    dicts in insertion order, here an association list of association lists.
    The shortest-path and matching routines of networkx are parameters of
    the development (record [NxLib]); the graph classes, the connectivity
    test and the circuit extraction are modelled after the library's own
    code. *)

From Stdlib Require Import String.
From Stdlib Require Import List ZArith Lia Bool Arith PeanoNat Permutation.
Import ListNotations.

(** ** Exceptions and fallible results *)

Inductive exn : Type :=
| NetworkXError            (* raised by find_eulerian_circuit / nx.eulerian_circuit *)
| NetworkXPointlessConcept (* connectivity of the null graph *)
| NetworkXNoPath           (* shortest path between different components *)
| KeyError                 (* missing dict key *)
| IndexError               (* list(graph.nodes())[0] on an empty list *)
| RuntimeError.            (* StopIteration escaping a generator *)

Inductive result (A : Type) : Type :=
| Ok (a : A)
| Raise (e : exn).
Arguments Ok {A} a.
Arguments Raise {A} e.

Definition bind {A B} (r : result A) (k : A -> result B) : result B :=
  match r with
  | Ok a => k a
  | Raise e => Raise e
  end.

Notation "x <- r ;; k" := (bind r (fun x => k))
  (at level 61, r at next level, right associativity).
Notation "' p <- r ;; k" := (bind r (fun p => k))
  (at level 61, p pattern, r at next level, right associativity).

Definition of_option {A} (e : exn) (o : option A) : result A :=
  match o with
  | Some a => Ok a
  | None => Raise e
  end.

(** A loop body folded over a list, stopping at the first exception. *)
Fixpoint foldM {A B} (f : B -> A -> result B) (l : list A) (b : B) : result B :=
  match l with
  | [] => Ok b
  | a :: l' => b' <- f b a ;; foldM f l' b'
  end.

(** ** Insertion-ordered dictionaries *)

(** Keys are hashable Python values: all that is used is their equality. *)
Class EqDec (K : Type) : Type :=
  eq_dec : forall x y : K, {x = y} + {x <> y}.

#[export] Instance nat_EqDec : EqDec nat := Nat.eq_dec.
#[export] Instance string_EqDec : EqDec string := string_dec.

Section Dict.
Context {K : Type} {K_dec : EqDec K} {A : Type}.

Fixpoint dict_get (d : list (K * A)) (k : K) : option A :=
  match d with
  | [] => None
  | (k', a) :: d' => if eq_dec k k' then Some a else dict_get d' k
  end.

Definition dict_mem (d : list (K * A)) (k : K) : bool :=
  match dict_get d k with
  | Some _ => true
  | None => false
  end.

(** [d[k] = a]: an existing key keeps its position, a new key goes last. *)
Fixpoint dict_set (d : list (K * A)) (k : K) (a : A) : list (K * A) :=
  match d with
  | [] => [(k, a)]
  | (k', a') :: d' =>
      if eq_dec k k' then (k, a) :: d' else (k', a') :: dict_set d' k a
  end.

(** [del d[k]]; a missing key is left to the caller to rule out. *)
Fixpoint dict_del (d : list (K * A)) (k : K) : list (K * A) :=
  match d with
  | [] => []
  | (k', a') :: d' =>
      if eq_dec k k' then d' else (k', a') :: dict_del d' k
  end.

Definition dict_keys (d : list (K * A)) : list K := map fst d.
End Dict.

(** ** The two graph classes *)

(** What one adjacency entry [adj[u][v]] holds: the attribute dict of the
    edge for [nx.Graph] (here its weight), the dict of parallel edges by key
    for [nx.MultiGraph].  [copies] counts the edges the entry stands for,
    [drop_first] is the entry after its first edge is deleted ([None] when
    the entry itself goes away), [weights] lists the weights of those
    edges in the order [G.edges(data=True)] reports them. *)
Class EdgeData (A : Type) : Type := {
  copies : A -> nat;
  drop_first : A -> option A;
  weights : A -> list Z;
}.

Definition KeyDict : Type := list (nat * Z).

#[export] Instance Graph_data : EdgeData Z := {|
  copies := fun _ => 1;
  drop_first := fun _ => None;
  weights := fun w => [w];
|}.

#[export] Instance MultiGraph_data : EdgeData KeyDict := {|
  copies := fun kd => length kd;
  drop_first := fun kd =>
    match kd with
    | _ :: (_ :: _) as rest => Some rest
    | _ => None
    end;
  weights := fun kd => map snd kd;
|}.

Definition sum_nat (l : list nat) : nat := fold_right Nat.add 0 l.
Definition sum_Z (l : list Z) : Z := fold_right Z.add 0%Z l.

Section Grafo.
Context {V : Type} {V_dec : EqDec V}.

Definition mem (x : V) (l : list V) : bool :=
  if in_dec eq_dec x l then true else false.

(** [G._adj]: node -> neighbour -> entry. *)
Definition AdjMap (A : Type) : Type := list (V * list (V * A)).
Definition Graph : Type := AdjMap Z.
Definition MultiGraph : Type := AdjMap KeyDict.

Inductive AnyGraph : Type :=
| Simple (g : Graph)
| Multi (m : MultiGraph).

Section Generic.
Context {A : Type} `{EdgeData A}.

Definition nodes (g : AdjMap A) : list V := map fst g.

Definition adj (g : AdjMap A) (u : V) : list (V * A) :=
  match dict_get g u with
  | Some nbrs => nbrs
  | None => []
  end.

Definition neighbors (g : AdjMap A) (u : V) : list V := map fst (adj g u).

(** [G[u][v]] *)
Definition get_edge (g : AdjMap A) (u v : V) : option A :=
  dict_get (adj g u) v.

(** Number of edges stored between [u] and [v]. *)
Definition mult (g : AdjMap A) (u v : V) : nat :=
  match get_edge g u v with
  | Some a => copies a
  | None => 0
  end.

(** [G.degree(n)]: [len(nbrs) + (n in nbrs)] for a Graph,
    [sum(len(keys)) + len(nbrs[n])] for a MultiGraph: a self-loop
    counts twice. *)
Definition degree (g : AdjMap A) (n : V) : nat :=
  sum_nat (map (fun e => copies (snd e)) (adj g n)) + mult g n n.

Definition add_node (g : AdjMap A) (u : V) : AdjMap A :=
  if dict_mem g u then g else g ++ [(u, [])].

(** [adj[u][v] = a] for a node [u] already present. *)
Definition set_entry (g : AdjMap A) (u v : V) (a : A) : AdjMap A :=
  dict_set g u (dict_set (adj g u) v a).

Definition del_entry (g : AdjMap A) (u v : V) : AdjMap A :=
  dict_set g u (dict_del (adj g u) v).

(** [G.edges()] with its data: every node's adjacency in order,
    skipping neighbours already seen as a node. *)
Fixpoint edge_items_from (seen : list V) (g : AdjMap A) : list (V * V * A) :=
  match g with
  | [] => []
  | (n, nbrs) :: g' =>
      map (fun e => (n, fst e, snd e))
          (filter (fun e => negb (mem (fst e) seen)) nbrs)
      ++ edge_items_from (n :: seen) g'
  end.

Definition edge_items (g : AdjMap A) : list (V * V * A) :=
  edge_items_from [] g.

(** One [(u, v, weight)] per stored edge. *)
Definition edges_data (g : AdjMap A) : list (V * V * Z) :=
  flat_map (fun e => map (fun w => (fst (fst e), snd (fst e), w)) (weights (snd e)))
           (edge_items g).

Definition edges (g : AdjMap A) : list (V * V) :=
  map fst (edges_data g).

Definition number_of_edges (g : AdjMap A) : nat := length (edges g).

(** Both endpoints become nodes, then [adj[u][v]] and [adj[v][u]] are
    bound to the same entry. *)
Definition add_entry (g : AdjMap A) (u v : V) (a : A) : AdjMap A :=
  let g := add_node g u in
  let g := add_node g v in
  let g := set_entry g u v a in
  set_entry g v u a.

(** [G.copy()]: the nodes first ([add_nodes_from]), then every
    adjacency entry as an edge ([add_edges_from]), in the order of
    [_adj].  For a MultiGraph the keys of one entry are added one after
    the other to one shared key dict; the entry is written here at
    once. *)
Definition adjacency_triples (g : AdjMap A) : list (V * V * A) :=
  flat_map (fun e => map (fun nb => (fst e, fst nb, snd nb)) (snd e)) g.

Definition add_triples (l : list (V * V * A)) (g : AdjMap A) : AdjMap A :=
  fold_left (fun acc e => add_entry acc (fst (fst e)) (snd (fst e)) (snd e)) l g.

Definition copy (g : AdjMap A) : AdjMap A :=
  add_triples (adjacency_triples g) (map (fun e => (fst e, [])) g).

(** [arbitrary_element(G.edges(u))] followed by [G.remove_edge] of that
    edge: the first edge of the first neighbour of [u].  The entry is
    shared by both directions, so both lose the edge. *)
Definition put_entry (g : AdjMap A) (u v : V) (o : option A) : AdjMap A :=
  match o with
  | Some a => set_entry g u v a
  | None => del_entry g u v
  end.

Definition remove_first_edge (g : AdjMap A) (u : V) : option (V * AdjMap A) :=
  match adj g u with
  | [] => None
  | (v, a) :: _ =>
      let g1 := put_entry g u v (drop_first a) in
      Some (v, if eq_dec u v then g1 else put_entry g1 v u (drop_first a))
  end.

(** [_plain_bfs]: the nodes reached from [source], level by level, in
    the order they are first seen. *)
Definition visit (st : list V * list V) (w : V) : list V * list V :=
  if mem w (fst st) then st else (fst st ++ [w], snd st ++ [w]).

Definition scan_level (g : AdjMap A) (thislevel seen : list V) : list V * list V :=
  fold_left (fun st v => fold_left visit (neighbors g v) st) thislevel (seen, []).

Fixpoint plain_bfs_levels (g : AdjMap A) (fuel : nat) (thislevel seen : list V) : list V :=
  match fuel with
  | 0 => seen
  | S fuel' =>
      match thislevel with
      | [] => seen
      | _ :: _ =>
          let st := scan_level g thislevel seen in
          plain_bfs_levels g fuel' (snd st) (fst st)
      end
  end.

Definition plain_bfs (g : AdjMap A) (source : V) : list V :=
  plain_bfs_levels g (S (length g)) [source] [source].

(** [nx.is_connected] *)
Definition is_connected (g : AdjMap A) : result bool :=
  match nodes g with
  | [] => Raise NetworkXPointlessConcept
  | source :: _ => Ok (length (plain_bfs g source) =? length g)
  end.

(** [nx.is_eulerian]: [all(d % 2 == 0 ...) and nx.is_connected(G)] *)
Definition is_eulerian (g : AdjMap A) : result bool :=
  if forallb (fun n => degree g n mod 2 =? 0) (nodes g)
  then is_connected g
  else Ok false.

(** [_simplegraph_eulerian_circuit] / [_multigraph_eulerian_circuit]:
    the stack of vertices has its top first; [out] collects what the
    generator yields.  [None] stands for a run cut short by [fuel]. *)
Fixpoint circuit_loop (fuel : nat) (g : AdjMap A) (vertex_stack : list V)
         (last_vertex : option V) (out : list (V * V)) : option (result (list (V * V))) :=
  match fuel with
  | 0 => None
  | S fuel' =>
      match vertex_stack with
      | [] => Some (Ok out)
      | current_vertex :: rest =>
          if degree g current_vertex =? 0 then
            circuit_loop fuel' g rest (Some current_vertex)
              (match last_vertex with
               | Some l => out ++ [(l, current_vertex)]
               | None => out
               end)
          else
            match remove_first_edge g current_vertex with
            | Some (next_vertex, g') =>
                circuit_loop fuel' g' (next_vertex :: vertex_stack) last_vertex out
            | None => Some (Raise RuntimeError)
            end
      end
  end.

(** Edges stored in the adjacency, each counted from both ends. *)
Definition adj_size (g : AdjMap A) : nat :=
  sum_nat (map (fun e => sum_nat (map (fun nb => copies (snd nb)) (snd e))) g).

(** [nx.eulerian_circuit(G, source)], without keys: the test, the
    working copy, the loop.  The loop is run with fuel it cannot use
    up (lemma [circuit_loop_fuel]). *)
Definition eulerian_circuit (g : AdjMap A) (source : V) : result (list (V * V)) :=
  e <- is_eulerian g ;;
  if negb e then Raise NetworkXError
  else if negb (mem source (nodes g)) then Raise RuntimeError
  else
    let g' := copy g in
    match circuit_loop (2 * adj_size g' + 2) g' [source] None [] with
    | Some r => r
    | None => Ok []
    end.
End Generic.

(** *** nx.Graph *)

(** [Graph.add_edge(u, v, weight=w)] *)
Definition add_edge (g : Graph) (u v : V) (w : Z) : Graph :=
  add_entry g u v w.

(** *** nx.MultiGraph *)

(** [new_edge_key]: the number of keys, moved up while already taken. *)
Fixpoint free_key (fuel key : nat) (kd : KeyDict) : nat :=
  match fuel with
  | 0 => key
  | S fuel' =>
      if dict_mem kd key then free_key fuel' (S key) kd else key
  end.

Definition new_edge_key (m : MultiGraph) (u v : V) : nat :=
  match get_edge m u v with
  | None => 0
  | Some kd => free_key (S (length kd)) (length kd) kd
  end.

(** [MultiGraph.add_edge(u, v, weight=w)]: the key dict is one object
    shared by [adj[u][v]] and [adj[v][u]], so both entries are written. *)
Definition madd_edge (m : MultiGraph) (u v : V) (w : Z) : MultiGraph :=
  let m := add_node m u in
  let m := add_node m v in
  let key := new_edge_key m u v in
  let keydict :=
    match get_edge m u v with
    | Some kd => dict_set kd key w
    | None => [(key, w)]
    end in
  let m := set_entry m u v keydict in
  set_entry m v u keydict.

(** ** The routines taken from networkx as they are documented *)

Record NxLib : Type := {
  has_path : Graph -> V -> V -> bool;
  shortest_path_length : Graph -> V -> V -> result Z;
  shortest_path : Graph -> V -> V -> result (list V);
  min_weight_matching : Graph -> list (V * V);
}.

Variable nx : NxLib.

(** ** find_odd_degree_vertices *)

Definition find_odd_degree_vertices (graph : Graph) : list V :=
  filter (fun node => negb (degree graph node mod 2 =? 0)) (nodes graph).

(** [itertools.combinations(l, 2)] *)
Fixpoint combinations2 (l : list V) : list (V * V) :=
  match l with
  | [] => []
  | x :: l' => map (pair x) l' ++ combinations2 l'
  end.

(** ** add_minimum_weight_matching *)

Definition build_complete_graph (graph : Graph) (odd_vertices : list V) : result Graph :=
  foldM (fun complete_graph uv =>
           if has_path nx graph (fst uv) (snd uv) then
             path_length <- shortest_path_length nx graph (fst uv) (snd uv) ;;
             Ok (add_edge complete_graph (fst uv) (snd uv) path_length)
           else Ok complete_graph)
        (combinations2 odd_vertices) [].

Definition original_edges (graph : Graph) : MultiGraph :=
  fold_left (fun eg e => madd_edge eg (fst (fst e)) (snd (fst e)) (snd e))
            (edges_data graph) [].

Definition duplicate_path (graph : Graph) (path : list V)
           (st : MultiGraph * Z) : result (MultiGraph * Z) :=
  foldM (fun st e =>
           weight <- of_option KeyError (get_edge graph (fst e) (snd e)) ;;
           Ok (madd_edge (fst st) (fst e) (snd e) weight, (snd st + weight)%Z))
        (combine path (tl path)) st.

Definition duplicate_matching (graph : Graph) (matching : list (V * V))
           (st : MultiGraph * Z) : result (MultiGraph * Z) :=
  foldM (fun st uv =>
           path <- shortest_path nx graph (fst uv) (snd uv) ;;
           duplicate_path graph path st)
        matching st.

Definition add_minimum_weight_matching (graph : Graph) : result (AnyGraph * Z) :=
  let odd_vertices := find_odd_degree_vertices graph in
  match odd_vertices with
  | [] => Ok (Simple (copy graph), 0%Z)
  | _ :: _ =>
      complete_graph <- build_complete_graph graph odd_vertices ;;
      let matching := min_weight_matching nx complete_graph in
      let eulerian_graph := original_edges graph in
      st <- duplicate_matching graph matching (eulerian_graph, 0%Z) ;;
      Ok (Multi (fst st), snd st)
  end.

(** ** find_eulerian_circuit *)

Definition any_nodes (graph : AnyGraph) : list V :=
  match graph with
  | Simple g => nodes g
  | Multi m => nodes m
  end.

Definition any_is_eulerian (graph : AnyGraph) : result bool :=
  match graph with
  | Simple g => is_eulerian g
  | Multi m => is_eulerian m
  end.

Definition any_eulerian_circuit (graph : AnyGraph) (source : V) : result (list (V * V)) :=
  match graph with
  | Simple g => eulerian_circuit g source
  | Multi m => eulerian_circuit m source
  end.

Definition find_eulerian_circuit (graph : AnyGraph) (start_node : option V)
  : result (list (V * V)) :=
  e <- any_is_eulerian graph ;;
  if negb e then Raise NetworkXError
  else
    start_node <- match start_node with
                  | Some s => Ok s
                  | None => of_option IndexError (hd_error (any_nodes graph))
                  end ;;
    any_eulerian_circuit graph start_node.

(** ** solve_chinese_postman *)

Record Solution : Type := {
  total_cost : Z;
  circuit : list (V * V * Z);
}.

(** [eulerian_graph[u][v][0]['weight']] for a MultiGraph,
    [eulerian_graph[u][v]['weight']] otherwise. *)
Definition edge_weight (eulerian_graph : AnyGraph) (u v : V) : result Z :=
  match eulerian_graph with
  | Multi m =>
      keydict <- of_option KeyError (get_edge m u v) ;;
      of_option KeyError (dict_get keydict 0)
  | Simple g => of_option KeyError (get_edge g u v)
  end.

Definition original_cost (graph : Graph) : result Z :=
  foldM (fun acc e =>
           w <- of_option KeyError (get_edge graph (fst e) (snd e)) ;;
           Ok (acc + w)%Z)
        (edges graph) 0%Z.

Definition format_circuit (eulerian_graph : AnyGraph) (circ : list (V * V))
  : result (list (V * V * Z)) :=
  foldM (fun formatted_circuit e =>
           weight <- edge_weight eulerian_graph (fst e) (snd e) ;;
           Ok (formatted_circuit ++ [(fst e, snd e, weight)]))
        circ [].

Definition solve_chinese_postman (graph : Graph) (start_node : option V)
  : result Solution :=
  original <- original_cost graph ;;
  st <- add_minimum_weight_matching graph ;;
  circ <- find_eulerian_circuit (fst st) start_node ;;
  formatted_circuit <- format_circuit (fst st) circ ;;
  Ok {| total_cost := original + snd st; circuit := formatted_circuit |}.

End Grafo.

Arguments AdjMap : clear implicits.
Arguments Graph : clear implicits.
Arguments MultiGraph : clear implicits.
Arguments AnyGraph : clear implicits.
Arguments NxLib : clear implicits.
Arguments Solution : clear implicits.

(** ** A reference instance of the library routines

    Plain executable versions of the four networkx routines, used to run
    the program on concrete graphs: reachability for [has_path], rounds of
    edge relaxation for the shortest paths, exhaustive search for the
    matching. *)

Section Reference.
Context {V : Type} {V_dec : EqDec V}.

Definition ref_has_path (g : Graph V) (u v : V) : bool :=
  mem v (plain_bfs g u).

(** Best known distance and path (last vertex first) per reached node. *)
Definition relax (g : Graph V) (best : list (V * (Z * list V))) (x : V)
  : list (V * (Z * list V)) :=
  match dict_get best x with
  | None => best
  | Some (d, p) =>
      fold_left (fun b nb =>
                   let cand := (d + snd nb)%Z in
                   match dict_get b (fst nb) with
                   | Some (d', _) =>
                       if (cand <? d')%Z
                       then dict_set b (fst nb) (cand, fst nb :: p)
                       else b
                   | None => dict_set b (fst nb) (cand, fst nb :: p)
                   end)
                (adj g x) best
  end.

Fixpoint relax_rounds (g : Graph V) (rounds : nat) (best : list (V * (Z * list V)))
  : list (V * (Z * list V)) :=
  match rounds with
  | 0 => best
  | S r => relax_rounds g r (fold_left (relax g) (nodes g) best)
  end.

Definition ref_best (g : Graph V) (u v : V) : option (Z * list V) :=
  dict_get (relax_rounds g (length g) [(u, (0%Z, [u]))]) v.

Definition ref_shortest_path_length (g : Graph V) (u v : V) : result Z :=
  match ref_best g u v with
  | Some (d, _) => Ok d
  | None => Raise NetworkXNoPath
  end.

Definition ref_shortest_path (g : Graph V) (u v : V) : result (list V) :=
  match ref_best g u v with
  | Some (_, p) => Ok (rev p)
  | None => Raise NetworkXNoPath
  end.

(** All matchings of [k] over the node list [vs]. *)
Fixpoint all_matchings (k : Graph V) (fuel : nat) (vs : list V) : list (list (V * V)) :=
  match fuel with
  | 0 => [[]]
  | S fuel' =>
      match vs with
      | [] => [[]]
      | x :: rest =>
          flat_map (fun y =>
                      match get_edge k x y with
                      | Some _ =>
                          map (cons (x, y))
                              (all_matchings k fuel' (remove eq_dec y rest))
                      | None => []
                      end) rest
          ++ all_matchings k fuel' rest
      end
  end.

Definition ref_weight (k : Graph V) (m : list (V * V)) : Z :=
  sum_Z (map (fun uv => match get_edge k (fst uv) (snd uv) with
                        | Some w => w
                        | None => 0%Z
                        end) m).

Definition better (k : Graph V) (m1 m2 : list (V * V)) : bool :=
  (length m2 <? length m1)
  || ((length m1 =? length m2) && (ref_weight k m1 <? ref_weight k m2)%Z).

Definition ref_min_weight_matching (k : Graph V) : list (V * V) :=
  fold_left (fun best m => if better k m best then m else best)
            (all_matchings k (length k) (nodes k)) [].

Definition ref_nx : NxLib V := {|
  has_path := ref_has_path;
  shortest_path_length := ref_shortest_path_length;
  shortest_path := ref_shortest_path;
  min_weight_matching := ref_min_weight_matching;
|}.
End Reference.

(** ** The graphs of the program's own driver *)

Module Exemplos.
Open Scope string_scope.
Open Scope Z_scope.

Definition build (es : list (string * string * Z)) : Graph string :=
  fold_left (fun g e => add_edge g (fst (fst e)) (snd (fst e)) (snd e))
            es [].

Definition G : Graph string :=
  build [("A", "B", 10); ("A", "C", 15); ("B", "D", 20); ("C", "D", 25);
         ("C", "E", 30); ("D", "E", 10); ("E", "F", 12); ("F", "A", 5)].

Definition G2 : Graph string :=
  build [("A", "B", 1); ("B", "C", 1); ("C", "D", 1); ("D", "A", 1)].

Definition G3 : Graph string :=
  build [("A", "B", 1); ("B", "C", 2); ("C", "D", 3); ("D", "E", 4);
         ("E", "A", 5); ("A", "D", 6)].

(** A single street. *)
Definition AB : Graph string := build [("A", "B", 3)].

(** Two streets with no end in common. *)
Definition Separados : Graph string := build [("A", "B", 1); ("C", "D", 1)].

(** A street, and a vertex on its own. *)
Definition ComIsolado : Graph string := add_node AB "D".

(** One vertex and no street. *)
Definition Ponto : Graph string := add_node [] "A".

(** A block of three streets, and a vertex on its own. *)
Definition BlocoComIsolado : Graph string :=
  add_node (build [("A", "B", 1); ("B", "C", 1); ("C", "A", 1)]) "D".

Definition solve (g : Graph string) (start : option string) :=
  solve_chinese_postman ref_nx g start.
End Exemplos.

(** ** Vocabulary of the statements *)

(** The laws the two kinds of adjacency entry share. *)
Class EdgeDataLaws (A : Type) `{EdgeData A} : Prop := {
  drop_first_copies : forall a : A, 0 < copies a ->
    match drop_first a with
    | Some a' => S (copies a') = copies a /\ 0 < copies a'
    | None => copies a = 1
    end;
  weights_length : forall a : A, length (weights a) = copies a;
}.

Section Vocabulary.
Context {V : Type} {V_dec : EqDec V}.

Fixpoint nodupb (l : list V) : bool :=
  match l with
  | [] => true
  | x :: l' => negb (mem x l') && nodupb l'
  end.

(** The invariant networkx keeps on [_adj]: distinct nodes, distinct
    neighbours, and [adj[u][v]] and [adj[v][u]] bound to one non-empty
    entry. *)
Record wf {A : Type} `{EdgeData A} (g : AdjMap V A) : Prop := {
  wf_nodes : NoDup (nodes g);
  wf_keys : forall u, NoDup (map fst (adj g u));
  wf_sym : forall u v a, get_edge g u v = Some a -> get_edge g v u = Some a;
  wf_pos : forall u v a, get_edge g u v = Some a -> 0 < copies a;
}.

(** The same invariant as a test, for an [nx.Graph]. *)
Definition wf_graph (g : Graph V) : bool :=
  nodupb (nodes g)
  && forallb (fun e =>
                nodupb (map fst (snd e))
                && forallb (fun nb =>
                              match get_edge g (fst nb) (fst e) with
                              | Some w => Z.eqb w (snd nb)
                              | None => false
                              end) (snd e)) g.
End Vocabulary.

Section Walks.
Context {V : Type} {V_dec : EqDec V}.

Definition eqv (x y : V) : bool := if eq_dec x y then true else false.

Definition b2n (b : bool) : nat := if b then 1 else 0.

(** [e] joins [u] and [v], in either direction. *)
Definition same_edge (e : V * V) (u v : V) : bool :=
  (eqv (fst e) u && eqv (snd e) v) || (eqv (fst e) v && eqv (snd e) u).

(** How often a list of vertex pairs passes between [u] and [v]. *)
Definition occ (c : list (V * V)) (u v : V) : nat :=
  length (filter (fun e => same_edge e u v) c).

(** Where a walk that starts at [s] and follows [c] ends; [None] when an
    entry does not start where the one before it ended. *)
Fixpoint walk_end (s : V) (c : list (V * V)) : option V :=
  match c with
  | [] => Some s
  | e :: c' => if eq_dec (fst e) s then walk_end (snd e) c' else None
  end.

Fixpoint chained (c : list (V * V)) : Prop :=
  match c with
  | e1 :: ((e2 :: _) as c') => snd e1 = fst e2 /\ chained c'
  | _ => True
  end.

(** Consecutive entries share a vertex and the last one returns to the
    source of the first. *)
Definition closed_walk (c : list (V * V)) : Prop :=
  chained c /\
  match c with
  | [] => True
  | e :: _ => snd (last c e) = fst e
  end.

(** The edges between consecutive vertices of the stack. *)
Definition stack_edges (stack : list V) : list (V * V) :=
  combine (tl stack) stack.

Inductive reach {A : Type} (g : AdjMap V A) (s : V) : V -> Prop :=
| reach_refl : reach g s s
| reach_step x y : reach g s x -> In y (neighbors g x) -> reach g s y.

(** Entry lookup folded into a count. *)
Definition look {A : Type} (f : A -> nat) (d : list (V * A)) (v : V) : nat :=
  match dict_get d v with
  | Some a => f a
  | None => 0
  end.

Definition copies_opt {A : Type} `{EdgeData A} (o : option A) : nat :=
  match o with
  | Some a => copies a
  | None => 0
  end.

Definition degree_sum {A : Type} `{EdgeData A} (g : AdjMap V A) : nat :=
  sum_nat (map (degree g) (nodes g)).
End Walks.

Section EdgeChange.
Context {V : Type} {V_dec : EqDec V} {A : Type} `{EdgeData A}.

(** [g] is [g'] with one more edge between [u] and [v]. *)
Definition one_more (g g' : AdjMap V A) (u v : V) : Prop :=
  wf g /\ wf g' /\ nodes g' = nodes g /\ In u (nodes g) /\ In v (nodes g)
  /\ forall x y, mult g x y = mult g' x y + occ [(u, v)] x y.
End EdgeChange.

Section LoopInvariant.
Context {V : Type} {V_dec : EqDec V} {A : Type} `{EdgeData A}.

(** What holds of the circuit loop each time round, for a run that began
    on [g0] with the stack [[s]]: the edges of [g0] are those still in
    [g], those between stack neighbours, the one ([pend]) between the
    vertex popped last and the vertex [c] that was under it, and those
    yielded; the degrees left are even but at [c] and at the top of the
    stack; what was yielded is a walk from [s] to the vertex popped
    last; and every vertex popped has no edge left. *)
Definition loop_inv (g0 : AdjMap V A) (s : V)
           (g : AdjMap V A) (stack : list V) (lastv : option V)
           (out : list (V * V)) : Prop :=
  wf g /\ nodes g = nodes g0 /\
  exists (c : V) (pend : list (V * V)),
    (forall x y, mult g0 x y
                 = mult g x y + occ (stack_edges stack) x y
                   + occ pend x y + occ out x y)
    /\ (forall top rest, stack = top :: rest ->
          last stack top = s
          /\ forall x, Nat.even (degree g x + b2n (eqv x c) + b2n (eqv x top)) = true)
    /\ match lastv with
       | None => pend = [] /\ out = [] /\ c = s /\ stack <> []
       | Some l =>
           walk_end s out = Some l /\ degree g l = 0
           /\ match stack with
              | [] => pend = [] /\ l = s
              | _ :: _ => pend = [(c, l)]
              end
       end
    /\ (forall x, In x (map fst out) \/ In x (map snd out) -> degree g x = 0).
End LoopInvariant.

Section EdgeSums.
Context {V : Type} {V_dec : EqDec V} {A : Type} `{EdgeData A}.

(** A table summed over the unordered pairs of a list of vertices. *)
Fixpoint usum (W : V -> V -> Z) (l : list V) : Z :=
  match l with
  | [] => 0%Z
  | a :: l' => (W a a + sum_Z (map (W a) l') + usum W l')%Z
  end.

(** The value [h] gives to the entry between [u] and [v], if any. *)
Definition entry_val (h : V -> V -> A -> Z) (g : AdjMap V A) (u v : V) : Z :=
  match get_edge g u v with
  | Some a => h u v a
  | None => 0%Z
  end.

(** [h] summed over what [G.edges()] reports. *)
Definition items_sum (h : V -> V -> A -> Z) (l : list (V * V * A)) : Z :=
  sum_Z (map (fun t => h (fst (fst t)) (snd (fst t)) (snd t)) l).

(** [G.size(weight='weight')]: the weights of all edges added up. *)
Definition total_weight (g : AdjMap V A) : Z :=
  sum_Z (map snd (edges_data g)).

(** 1 when the pair [x, y] is the pair [u, v], in either order. *)
Definition delta (u v x y : V) : Z := if same_edge (u, v) x y then 1%Z else 0%Z.

Definition look_at (f : V -> A -> Z) (d : list (V * A)) (v : V) : Z :=
  match dict_get d v with
  | Some a => f v a
  | None => 0%Z
  end.
End EdgeSums.

Section Eulerization.
Context {V : Type} {V_dec : EqDec V}.

(** Keys of parallel edges are handed out in order and never taken back
    while the multigraph is built. *)
Definition keys_ok (m : MultiGraph V) : Prop :=
  forall u v kd, get_edge m u v = Some kd -> map fst kd = seq 0 (length kd).

(** The key dict after one more edge. *)
Definition next_keydict (o : option KeyDict) (w : Z) : KeyDict :=
  match o with
  | Some kd => kd ++ [(length kd, w)]
  | None => [(0, w)]
  end.

(** Weighted edges added one after the other. *)
Definition build_from (l : list (V * V * Z)) (m : MultiGraph V) : MultiGraph V :=
  fold_left (fun eg e => madd_edge eg (fst (fst e)) (snd (fst e)) (snd e)) l m.

(** [graph[u][v]['weight']], 0 standing for a missing edge. *)
Definition edge_w (g : Graph V) (e : V * V) : Z :=
  match get_edge g (fst e) (snd e) with
  | Some w => w
  | None => 0%Z
  end.

Definition with_weights (g : Graph V) (d : list (V * V)) : list (V * V * Z) :=
  map (fun e => (fst e, snd e, edge_w g e)) d.

(** The vertex pairs along a path. *)
Definition path_edges (path : list V) : list (V * V) := combine path (tl path).

Definition endpoints (l : list (V * V)) : list V := map fst l ++ map snd l.
End Eulerization.

Section Results.
Context {V : Type} {V_dec : EqDec V}.

Definition any_edges (eg : AnyGraph V) : list (V * V) :=
  match eg with
  | Simple g => edges g
  | Multi m => edges m
  end.

Definition any_total_weight (eg : AnyGraph V) : Z :=
  match eg with
  | Simple g => total_weight g
  | Multi m => total_weight m
  end.

Definition any_mult (eg : AnyGraph V) (u v : V) : nat :=
  match eg with
  | Simple g => mult g u v
  | Multi m => mult m u v
  end.

(** The weights stored between [u] and [v]. *)
Definition any_weights (eg : AnyGraph V) (u v : V) : list Z :=
  match eg with
  | Simple g => match get_edge g u v with Some w => [w] | None => [] end
  | Multi m => match get_edge m u v with Some kd => map snd kd | None => [] end
  end.

(** The vertex pairs of an annotated circuit. *)
Definition pairs_of (c : list (V * V * Z)) : list (V * V) := map fst c.

(** What [add_minimum_weight_matching] returns on [g], given the paths
    the library found for the matched pairs: the copy when no vertex is
    odd, else the original edges followed by the edges of the paths. *)
Definition eulerized (g : Graph V) (paths : list (list V)) : AnyGraph V * Z :=
  match find_odd_degree_vertices g with
  | [] => (Simple (copy g), 0%Z)
  | _ :: _ =>
      let d := flat_map path_edges paths in
      (Multi (build_from (edges_data g ++ with_weights g d) []),
       sum_Z (map (edge_w g) d))
  end.
End Results.

(** ** What the program relies on from networkx *)

Section Contract.
Context {V : Type} {V_dec : EqDec V}.

(** [p] lists the vertices of a walk from [u] to [v] along edges of [g]. *)
Definition is_path (g : Graph V) (u v : V) (p : list V) : Prop :=
  hd_error p = Some u /\ last p u = v
  /\ forall e, In e (path_edges p) -> get_edge g (fst e) (snd e) <> None.

Definition path_weight (g : Graph V) (p : list V) : Z :=
  sum_Z (map (edge_w g) (path_edges p)).

(** [d] is the least weight of a path from [u] to [v]. *)
Definition is_shortest_dist (g : Graph V) (u v : V) (d : Z) : Prop :=
  (exists p, is_path g u v p /\ path_weight g p = d)
  /\ forall p, is_path g u v p -> (d <= path_weight g p)%Z.

(** Edges of [k] no two of which share a vertex. *)
Definition is_matching (k : Graph V) (m : list (V * V)) : Prop :=
  NoDup (endpoints m)
  /\ forall e, In e m -> get_edge k (fst e) (snd e) <> None.

(** A matching that leaves no node of [k] out. *)
Definition is_perfect_matching (k : Graph V) (m : list (V * V)) : Prop :=
  is_matching k m /\ forall x, In x (nodes k) -> In x (endpoints m).

Definition matching_weight (k : Graph V) (m : list (V * V)) : Z :=
  sum_Z (map (edge_w k) m).

(** [nx.min_weight_matching]: of the matchings with the most edges, one
    of least weight. *)
Definition is_min_weight_matching (k : Graph V) (m : list (V * V)) : Prop :=
  is_matching k m
  /\ (forall m', is_matching k m' -> length m' <= length m)
  /\ (forall m', is_matching k m' -> length m' = length m ->
                 (matching_weight k m <= matching_weight k m')%Z).

(** The documented behaviour of the four routines, on the pairs of
    odd-degree vertices of [g] the program asks about. *)
Record nx_contract (nx : NxLib V) (g : Graph V) : Prop := {
  nx_has_path : forall u v,
    In u (find_odd_degree_vertices g) -> In v (find_odd_degree_vertices g) ->
    u <> v -> (has_path nx g u v = true <-> reach g u v);
  nx_shortest_path_length : forall u v,
    In u (find_odd_degree_vertices g) -> In v (find_odd_degree_vertices g) ->
    u <> v -> reach g u v ->
    exists d, shortest_path_length nx g u v = Ok d /\ is_shortest_dist g u v d;
  nx_shortest_path : forall u v,
    In u (find_odd_degree_vertices g) -> In v (find_odd_degree_vertices g) ->
    u <> v -> reach g u v ->
    exists p, shortest_path nx g u v = Ok p /\ is_path g u v p
              /\ is_shortest_dist g u v (path_weight g p);
  nx_min_weight_matching : forall k,
    build_complete_graph nx g (find_odd_degree_vertices g) = Ok k ->
    is_min_weight_matching k (min_weight_matching nx k);
}.

(** The start node, when one is given, is a node of the graph. *)
Definition start_ok (g : Graph V) (start_node : option V) : Prop :=
  match start_node with
  | Some s => In s (nodes g)
  | None => True
  end.

(** How often [x] is an end of a pair of [l]. *)
Definition inc (l : list (V * V)) (x : V) : nat :=
  sum_nat (map (fun e => b2n (eqv x (fst e)) + b2n (eqv x (snd e))) l).

Definition ind (x u : V) : Z := if eqv x u then 1%Z else 0%Z.

(** The distance the library reports, 0 standing for an exception. *)
Definition dist_of (nx : NxLib V) (g : Graph V) (u v : V) : Z :=
  match shortest_path_length nx g u v with
  | Ok d => d
  | Raise _ => 0%Z
  end.

(** Neighbours in a list paired up. *)
Fixpoint pair_up (l : list V) : list (V * V) :=
  match l with
  | a :: b :: rest => (a, b) :: pair_up rest
  | _ => []
  end.
End Contract.

Section CompleteGraph.
Context {V : Type} {V_dec : EqDec V}.

(** The pairs of [l] with the distances the library reports for them. *)
Definition weighted_pairs (nx : NxLib V) (g : Graph V) (l : list (V * V))
  : list (V * V * Z) :=
  map (fun uv => (fst uv, snd uv, dist_of nx g (fst uv) (snd uv))) l.

(** The auxiliary graph over the odd-degree vertices. *)
Definition complete_graph_of (nx : NxLib V) (g : Graph V) : Graph V :=
  add_triples (weighted_pairs nx g (combinations2 (find_odd_degree_vertices g))) [].

(** The edges of [k] join odd vertices of [g] that lie in one piece of
    [g]. *)
Definition joins_reachable (g k : Graph V) : Prop :=
  forall x y d, get_edge k x y = Some d ->
                In x (find_odd_degree_vertices g)
                /\ In y (find_odd_degree_vertices g)
                /\ x <> y /\ reach g x y.

(** Every node is reached from every other. *)
Definition connected {A : Type} (g : AdjMap V A) : Prop :=
  forall u v, In u (nodes g) -> In v (nodes g) -> reach g u v.
End CompleteGraph.

Section AnyGraphs.
Context {V : Type} {V_dec : EqDec V}.

(** Every edge stored in [m] carries the weight [g] gives to its ends. *)
Definition weights_from_graph (g : Graph V) (m : MultiGraph V) : Prop :=
  forall u v kd, get_edge m u v = Some kd ->
                 forall k w, In (k, w) kd -> get_edge g u v = Some w.

(** The invariants of whichever graph the eulerization returned. *)
Definition any_ok (eg : AnyGraph V) : Prop :=
  match eg with
  | Simple g => wf g
  | Multi m => wf m /\ keys_ok m
  end.
End AnyGraphs.

(** ** The program on a store of graph objects

    The same program with its graphs as objects in a store, as Python has
    them: [nx.Graph()], [nx.MultiGraph()] and [copy()] allocate, [add_edge]
    and [remove_edge] write to the object they are called on.  A reference
    is an index into the store. *)

Section Heap.
Context {V : Type} {V_dec : EqDec V}.
Variable nx : NxLib V.

Definition Store : Type := list (AnyGraph V).

Definition St (A : Type) : Type := Store -> result A * Store.

Definition ret {A} (a : A) : St A := fun s => (Ok a, s).

Definition lift {A} (r : result A) : St A := fun s => (r, s).

Definition sbind {A B} (c : St A) (k : A -> St B) : St B :=
  fun s =>
    match c s with
    | (Ok a, s') => k a s'
    | (Raise e, s') => (Raise e, s')
    end.

Definition alloc (x : AnyGraph V) : St nat :=
  fun s => (Ok (length s), s ++ [x]).

Definition read (r : nat) : St (AnyGraph V) :=
  fun s => (of_option KeyError (nth_error s r), s).

Fixpoint set_nth (r : nat) (x : AnyGraph V) (s : Store) : Store :=
  match s, r with
  | [], _ => []
  | _ :: s', 0 => x :: s'
  | y :: s', S r' => y :: set_nth r' x s'
  end.

Definition write (r : nat) (x : AnyGraph V) : St unit :=
  fun s => (Ok tt, set_nth r x s).

(** The object at [r], which has to be an [nx.Graph]. *)
Definition read_graph (r : nat) : St (Graph V) :=
  sbind (read r) (fun x =>
    match x with
    | Simple g => ret g
    | Multi _ => lift (Raise KeyError)
    end).

(** [G.add_edge(u, v, weight=w)] on the object at [r]. *)
Definition add_edge_at (r : nat) (u v : V) (w : Z) : St unit :=
  sbind (read r) (fun x =>
    match x with
    | Simple g => write r (Simple (add_edge g u v w))
    | Multi m => write r (Multi (madd_edge m u v w))
    end).

Fixpoint foldS {A B} (body : B -> A -> St B) (l : list A) (b : B) : St B :=
  match l with
  | [] => ret b
  | a :: l' => sbind (body b a) (fun b' => foldS body l' b')
  end.

Definition any_copy (x : AnyGraph V) : AnyGraph V :=
  match x with
  | Simple g => Simple (copy g)
  | Multi m => Multi (copy m)
  end.

Definition any_degree (x : AnyGraph V) (n : V) : nat :=
  match x with
  | Simple g => degree g n
  | Multi m => degree m n
  end.

Definition any_remove_first_edge (x : AnyGraph V) (u : V) : option (V * AnyGraph V) :=
  match x with
  | Simple g =>
      match remove_first_edge g u with
      | Some (v, g') => Some (v, Simple g')
      | None => None
      end
  | Multi m =>
      match remove_first_edge m u with
      | Some (v, m') => Some (v, Multi m')
      | None => None
      end
  end.

Definition any_adj_size (x : AnyGraph V) : nat :=
  match x with
  | Simple g => adj_size g
  | Multi m => adj_size m
  end.

Definition add_minimum_weight_matching_st (graph : nat) : St (nat * Z) :=
  sbind (read_graph graph) (fun g =>
  let odd_vertices := find_odd_degree_vertices g in
  match odd_vertices with
  | [] =>
      sbind (read_graph graph) (fun g' =>
      sbind (alloc (Simple (copy g'))) (fun r => ret (r, 0%Z)))
  | _ :: _ =>
      sbind (alloc (Simple [])) (fun complete_graph =>
      sbind (foldS (fun _ uv =>
               sbind (read_graph graph) (fun g1 =>
               if has_path nx g1 (fst uv) (snd uv) then
                 sbind (lift (shortest_path_length nx g1 (fst uv) (snd uv)))
                       (fun path_length =>
                          add_edge_at complete_graph (fst uv) (snd uv) path_length)
               else ret tt))
             (combinations2 odd_vertices) tt) (fun _ =>
      sbind (read_graph complete_graph) (fun k =>
      let matching := min_weight_matching nx k in
      sbind (alloc (Multi [])) (fun eulerian_graph =>
      sbind (read_graph graph) (fun g2 =>
      sbind (foldS (fun _ e =>
               add_edge_at eulerian_graph (fst (fst e)) (snd (fst e)) (snd e))
             (edges_data g2) tt) (fun _ =>
      sbind (foldS (fun added_weight uv =>
               sbind (read_graph graph) (fun g3 =>
               sbind (lift (shortest_path nx g3 (fst uv) (snd uv))) (fun path =>
               foldS (fun added_weight e =>
                        sbind (read_graph graph) (fun g4 =>
                        sbind (lift (of_option KeyError
                                       (get_edge g4 (fst e) (snd e)))) (fun weight =>
                        sbind (add_edge_at eulerian_graph (fst e) (snd e) weight)
                              (fun _ => ret (added_weight + weight)%Z))))
                     (combine path (tl path)) added_weight)))
             matching 0%Z) (fun added_weight =>
      ret (eulerian_graph, added_weight))))))))
  end).

(** The circuit loop on the working copy at [w]. *)
Fixpoint circuit_loop_st (fuel : nat) (w : nat) (vertex_stack : list V)
         (last_vertex : option V) (out : list (V * V)) : St (list (V * V)) :=
  match fuel with
  | 0 => ret []
  | S fuel' =>
      match vertex_stack with
      | [] => ret out
      | current_vertex :: rest =>
          sbind (read w) (fun wg =>
          if any_degree wg current_vertex =? 0 then
            circuit_loop_st fuel' w rest (Some current_vertex)
              (match last_vertex with
               | Some l => out ++ [(l, current_vertex)]
               | None => out
               end)
          else
            match any_remove_first_edge wg current_vertex with
            | Some (next_vertex, wg') =>
                sbind (write w wg') (fun _ =>
                circuit_loop_st fuel' w (next_vertex :: vertex_stack) last_vertex out)
            | None => lift (Raise RuntimeError)
            end)
      end
  end.

Definition eulerian_circuit_st (r : nat) (source : V) : St (list (V * V)) :=
  sbind (read r) (fun eg =>
  sbind (lift (any_is_eulerian eg)) (fun e =>
  if negb e then lift (Raise NetworkXError)
  else if negb (mem source (any_nodes eg)) then lift (Raise RuntimeError)
  else
    sbind (alloc (any_copy eg)) (fun w =>
    circuit_loop_st (2 * any_adj_size (any_copy eg) + 2) w [source] None []))).

Definition find_eulerian_circuit_st (r : nat) (start_node : option V)
  : St (list (V * V)) :=
  sbind (read r) (fun eg =>
  sbind (lift (any_is_eulerian eg)) (fun e =>
  if negb e then lift (Raise NetworkXError)
  else
    sbind (lift (match start_node with
                 | Some s => Ok s
                 | None => of_option IndexError (hd_error (any_nodes eg))
                 end)) (fun start_node =>
    eulerian_circuit_st r start_node))).

Definition solve_chinese_postman_st (graph : nat) (start_node : option V)
  : St (Solution V) :=
  sbind (read_graph graph) (fun g =>
  sbind (lift (original_cost g)) (fun original =>
  sbind (add_minimum_weight_matching_st graph) (fun st =>
  sbind (find_eulerian_circuit_st (fst st) start_node) (fun circ =>
  sbind (read (fst st)) (fun eg =>
  sbind (lift (format_circuit eg circ)) (fun formatted_circuit =>
  ret {| total_cost := (original + snd st)%Z; circuit := formatted_circuit |})))))).

(** The store [s'] is [s] with new objects after it: nothing that was in
    [s] has changed. *)
Definition extends (s s' : Store) : Prop := exists new, s' = s ++ new.
End Heap.

(** ** Vocabulary of the further properties *)

Section Further.
Context {V : Type} {V_dec : EqDec V}.

Definition any_connected (eg : AnyGraph V) : Prop :=
  match eg with
  | Simple g => connected g
  | Multi m => connected m
  end.

Definition any_wf (eg : AnyGraph V) : Prop :=
  match eg with
  | Simple g => wf g
  | Multi m => wf m
  end.

(** The weights written on the entries of a circuit, added up. *)
Definition circuit_weight (c : list (V * V * Z)) : Z := sum_Z (map snd c).

(** No weight of [g] is negative. *)
Definition nonneg_weights (g : Graph V) : bool :=
  forallb (fun e => forallb (fun nb => (0 <=? snd nb)%Z) (snd e)) g.

(** Every pair of [c] is joined by an edge of [g]. *)
Definition in_graph (g : Graph V) (c : list (V * V)) : bool :=
  forallb (fun e => match get_edge g (fst e) (snd e) with
                    | Some _ => true
                    | None => false
                    end) c.

(** [c] passes along every edge of [g]. *)
Definition covers (g : Graph V) (c : list (V * V)) : bool :=
  forallb (fun e => mult g (fst e) (snd e) <=? occ c (fst e) (snd e)) (edges g).

(** The weight of a walk given by its pairs. *)
Definition walk_weight (g : Graph V) (c : list (V * V)) : Z :=
  sum_Z (map (edge_w g) c).

(** Pairs of vertices, each with a walk of [g] that joins the two. *)
Definition joined_ends (ps : list (V * V * list V)) : list V :=
  flat_map (fun t => [fst (fst t); snd (fst t)]) ps.

Definition joined_weight (g : Graph V) (ps : list (V * V * list V)) : Z :=
  sum_Z (map (fun t => path_weight g (snd t)) ps).

Definition joined_ok (g : Graph V) (ps : list (V * V * list V)) : Prop :=
  forall t, In t ps -> is_path g (fst (fst t)) (snd (fst t)) (snd t).
End Further.

(** ** Checking the reference routines on a given graph

    Tests that, when they succeed, show the answers of the reference
    routines on one graph to be right: a potential bounds every distance
    from below, the path found attains it, and the matchings of the
    auxiliary graph are few enough to be tried one by one. *)

Section Certificates.
Context {V : Type} {V_dec : EqDec V}.

(** No edge lets the potential rise by more than its weight. *)
Definition potential_ok (g : Graph V) (pi : V -> Z) : bool :=
  forallb (fun e =>
             forallb (fun nb => (pi (fst nb) <=? pi (fst e) + snd nb)%Z) (snd e))
          g.

Definition pi_of (best : list (V * (Z * list V))) (x : V) : Z :=
  match dict_get best x with
  | Some (d, _) => d
  | None => 0%Z
  end.

Definition path_ok (g : Graph V) (u v : V) (p : list V) : bool :=
  match p with
  | [] => false
  | a :: _ => eqv a u && eqv (last p u) v && in_graph g (path_edges p)
  end.

(** The table of the reference routine from [u] is a potential, and the
    path it holds for [v] is a path of the weight it holds. *)
Definition dist_cert (g : Graph V) (u v : V) : bool :=
  let best := relax_rounds g (length g) [(u, (0%Z, [u]))] in
  potential_ok g (pi_of best)
  && (pi_of best u =? 0)%Z
  && match dict_get best v with
     | Some (d, p) => path_ok g u v (rev p) && (path_weight g (rev p) =? d)%Z
     | None => false
     end.

Definition is_matching_b (k : Graph V) (m : list (V * V)) : bool :=
  nodupb (endpoints m) && in_graph k m.

(** The lists of [n] entries of [l]. *)
Fixpoint lists_of {X : Type} (n : nat) (l : list X) : list (list X) :=
  match n with
  | 0 => [[]]
  | S n' => flat_map (fun x => map (cons x) (lists_of n' l)) l
  end.

(** [m] is a matching that leaves at most one node out, and no matching
    with as many edges weighs less. *)
Definition matching_cert (k : Graph V) (m : list (V * V)) : bool :=
  is_matching_b k m
  && (length (nodes k) <? 2 * length m + 2)
  && forallb (fun m' => negb (is_matching_b k m')
                        || (matching_weight k m <=? matching_weight k m')%Z)
             (lists_of (length m) (list_prod (nodes k) (nodes k))).

Definition contract_cert (g : Graph V) : bool :=
  let odd := find_odd_degree_vertices g in
  forallb (fun uv =>
             eqv (fst uv) (snd uv)
             || negb (ref_has_path g (fst uv) (snd uv))
             || dist_cert g (fst uv) (snd uv))
          (list_prod odd odd)
  && match build_complete_graph ref_nx g odd with
     | Ok k => wf_graph k && matching_cert k (ref_min_weight_matching k)
     | Raise _ => true
     end.
End Certificates.

(** ** The labels of the drawings

    [draw_graph] and [visualize_circuit] hand matplotlib a table of edge
    labels; the drawing itself is outside this model, the table is
    not. *)

#[export] Instance pair_EqDec {V : Type} {V_dec : EqDec V} : EqDec (V * V) :=
  fun x y =>
    match eq_dec (fst x) (fst y), eq_dec (snd x) (snd y) with
    | left H1, left H2 =>
        left (eq_trans (surjective_pairing x)
                (eq_trans (f_equal2 pair H1 H2) (eq_sym (surjective_pairing y))))
    | right H1, _ => right (fun H => H1 (f_equal fst H))
    | _, right H2 => right (fun H => H2 (f_equal snd H))
    end.

Section Labels.
Context {V : Type} {V_dec : EqDec V}.

(** One round of the loop over [graph.edges(data=True, keys=True)]:
    [edge_labels[(u, v)] += weight] for a pair already there,
    [edge_labels[(u, v)] = weight] for a new one. *)
Definition label_step (edge_labels : list (V * V * Z)) (e : V * V * Z)
  : list (V * V * Z) :=
  match dict_get edge_labels (fst e) with
  | Some x => dict_set edge_labels (fst e) (x + snd e)%Z
  | None => dict_set edge_labels (fst e) (snd e)
  end.

(** The table: summed up over parallel edges for a MultiGraph, the dict
    comprehension [{(u, v): data['weight'] ...}] otherwise. *)
Definition edge_labels (graph : AnyGraph V) : list (V * V * Z) :=
  match graph with
  | Multi m => fold_left label_step (edges_data m) []
  | Simple g =>
      fold_left (fun labels e => dict_set labels (fst e) (snd e)) (edges_data g) []
  end.

(** The label of [key], 0 when it has none. *)
Definition label_or_zero (labels : list (V * V * Z)) (key : V * V) : Z :=
  match dict_get labels key with
  | Some x => x
  | None => 0%Z
  end.

(** The weights [G.edges] reports for the pair [key], in order. *)
Definition reported (key : V * V) (es : list (V * V * Z)) : list Z :=
  map snd (filter (fun e => if eq_dec (fst e) key then true else false) es).
End Labels.

(** * Facts about the model *)

(** ** Dictionaries *)

Section DictFacts.
Context {K : Type} {K_dec : EqDec K} {A : Type}.
Implicit Types (d : list (K * A)) (k : K) (a : A).

Lemma dict_get_set_eq d k a : dict_get (dict_set d k a) k = Some a.
Proof.
  induction d as [|[k' a'] d IH]; simpl.
  - destruct (eq_dec k k); congruence.
  - destruct (eq_dec k k') as [->|Hne]; simpl.
    + destruct (eq_dec k' k'); congruence.
    + destruct (eq_dec k k'); [contradiction|exact IH].
Qed.

Lemma dict_get_set_ne d k k' a :
  k <> k' -> dict_get (dict_set d k a) k' = dict_get d k'.
Proof.
  intros Hne. induction d as [|[k0 a0] d IH]; simpl.
  - destruct (eq_dec k' k); congruence.
  - destruct (eq_dec k k0) as [->|Hk]; simpl.
    + destruct (eq_dec k' k0); congruence.
    + destruct (eq_dec k' k0); [reflexivity|exact IH].
Qed.

Lemma dict_get_set d k k' a :
  dict_get (dict_set d k a) k' = if eq_dec k k' then Some a else dict_get d k'.
Proof.
  destruct (eq_dec k k') as [<-|Hne].
  - apply dict_get_set_eq.
  - apply dict_get_set_ne; assumption.
Qed.

Lemma dict_get_In d k a : dict_get d k = Some a -> In (k, a) d.
Proof.
  induction d as [|[k' a'] d IH]; simpl; [discriminate|].
  destruct (eq_dec k k') as [->|Hne].
  - intros [= ->]. now left.
  - intros Hg. right. auto.
Qed.

Lemma dict_get_None d k : dict_get d k = None <-> ~ In k (map fst d).
Proof.
  induction d as [|[k' a'] d IH]; simpl.
  - tauto.
  - destruct (eq_dec k k') as [->|Hne].
    + split; [discriminate|]. intros Hn. exfalso. apply Hn. now left.
    + rewrite IH. split.
      * intros Hn [Heq|Hin]; [congruence|contradiction].
      * intros Hn Hin. apply Hn. now right.
Qed.

Lemma dict_get_Some_key d k a : dict_get d k = Some a -> In k (map fst d).
Proof.
  intros Hg. apply dict_get_In in Hg.
  change k with (fst (k, a)). now apply in_map.
Qed.

Lemma dict_get_key d k : In k (map fst d) -> exists a, dict_get d k = Some a.
Proof.
  intros Hin. destruct (dict_get d k) as [a|] eqn:E; [eauto|].
  apply dict_get_None in E. contradiction.
Qed.

Lemma In_dict_get d k a :
  NoDup (map fst d) -> In (k, a) d -> dict_get d k = Some a.
Proof.
  induction d as [|[k' a'] d IH]; simpl; [tauto|].
  intros Hnd [Heq|Hin].
  - inversion Heq; subst. destruct (eq_dec k k); congruence.
  - inversion Hnd as [|? ? Hnin Hnd']; subst.
    destruct (eq_dec k k') as [->|Hne].
    + exfalso. apply Hnin. change k' with (fst (k', a)). now apply in_map.
    + auto.
Qed.

Lemma dict_mem_true d k : dict_mem d k = true <-> In k (map fst d).
Proof.
  unfold dict_mem. split.
  - destruct (dict_get d k) eqn:E; [|discriminate].
    intros _. eapply dict_get_Some_key; eauto.
  - intros Hin. destruct (dict_get_key d k Hin) as [a ->]. reflexivity.
Qed.

Lemma dict_mem_false d k : dict_mem d k = false <-> ~ In k (map fst d).
Proof.
  rewrite <- dict_mem_true. destruct (dict_mem d k); split; congruence.
Qed.

Lemma dict_keys_set_mem d k a :
  In k (map fst d) -> map fst (dict_set d k a) = map fst d.
Proof.
  induction d as [|[k' a'] d IH]; simpl; [tauto|].
  intros Hin. destruct (eq_dec k k') as [->|Hne]; simpl; [reflexivity|].
  f_equal. apply IH. destruct Hin; congruence.
Qed.

Lemma dict_keys_set_new d k a :
  ~ In k (map fst d) -> map fst (dict_set d k a) = map fst d ++ [k].
Proof.
  induction d as [|[k' a'] d IH]; simpl; [reflexivity|].
  intros Hnin. destruct (eq_dec k k') as [->|Hne]; simpl.
  - exfalso. apply Hnin. now left.
  - f_equal. apply IH. tauto.
Qed.

Lemma dict_keys_set_In d k a x :
  In x (map fst (dict_set d k a)) <-> x = k \/ In x (map fst d).
Proof.
  destruct (in_dec eq_dec k (map fst d)) as [Hin|Hnin].
  - rewrite dict_keys_set_mem by assumption. split; [tauto|].
    intros [->|?]; assumption.
  - rewrite dict_keys_set_new by assumption. rewrite in_app_iff. simpl.
    split; intros; intuition congruence.
Qed.

Lemma dict_set_NoDup d k a :
  NoDup (map fst d) -> NoDup (map fst (dict_set d k a)).
Proof.
  intros Hnd. destruct (in_dec eq_dec k (map fst d)) as [Hin|Hnin].
  - rewrite dict_keys_set_mem; assumption.
  - rewrite dict_keys_set_new by assumption.
    apply NoDup_app; [assumption|repeat constructor; simpl; tauto|].
    intros x Hx [<-|[]]. contradiction.
Qed.

Lemma dict_del_keys_incl d k x :
  In x (map fst (dict_del d k)) -> In x (map fst d).
Proof.
  induction d as [|[k' a'] d IH]; simpl; [tauto|].
  destruct (eq_dec k k'); simpl; intuition.
Qed.

Lemma dict_del_NoDup d k :
  NoDup (map fst d) -> NoDup (map fst (dict_del d k)).
Proof.
  induction d as [|[k' a'] d IH]; simpl; [constructor|].
  intros Hnd. inversion Hnd; subst.
  destruct (eq_dec k k'); simpl; [assumption|].
  constructor; [|auto]. intros Hin. apply dict_del_keys_incl in Hin. contradiction.
Qed.

Lemma dict_get_del_eq d k :
  NoDup (map fst d) -> dict_get (dict_del d k) k = None.
Proof.
  induction d as [|[k' a'] d IH]; simpl; [reflexivity|].
  intros Hnd. inversion Hnd; subst.
  destruct (eq_dec k k') as [->|Hne]; simpl.
  - now apply dict_get_None.
  - destruct (eq_dec k k'); [contradiction|auto].
Qed.

Lemma dict_get_del_ne d k k' :
  k <> k' -> dict_get (dict_del d k) k' = dict_get d k'.
Proof.
  intros Hne. induction d as [|[k0 a0] d IH]; simpl; [reflexivity|].
  destruct (eq_dec k k0) as [->|Hk]; simpl.
  - destruct (eq_dec k' k0); congruence.
  - destruct (eq_dec k' k0); [reflexivity|exact IH].
Qed.

(** A dictionary with distinct keys is determined, up to order, by its
    lookups. *)
Lemma dict_Permutation d1 d2 :
  NoDup (map fst d1) -> NoDup (map fst d2) ->
  (forall k, dict_get d1 k = dict_get d2 k) ->
  Permutation d1 d2.
Proof.
  intros H1 H2 Hget. apply NoDup_Permutation.
  - eapply NoDup_map_inv; eassumption.
  - eapply NoDup_map_inv; eassumption.
  - intros [k a]. split; intros Hin.
    + apply dict_get_In. rewrite <- Hget. now apply In_dict_get.
    + apply dict_get_In. rewrite Hget. now apply In_dict_get.
Qed.
End DictFacts.

(** ** The adjacency structure *)

Lemma Graph_laws : EdgeDataLaws Z.
Proof. split; simpl; intros; reflexivity. Qed.

#[export] Existing Instance Graph_laws.

Lemma MultiGraph_laws : EdgeDataLaws KeyDict.
Proof.
  split; simpl.
  - intros [|x [|y t]]; simpl; intros Hpos; lia.
  - intros a. apply length_map.
Qed.

#[export] Existing Instance MultiGraph_laws.

Section AdjFacts.
Context {V : Type} {V_dec : EqDec V} {A : Type} `{EdgeData A}.
Implicit Types (g : AdjMap V A) (u v x y : V) (a : A).

Lemma mem_true x (l : list V) : mem x l = true <-> In x l.
Proof. unfold mem. destruct (in_dec eq_dec x l); split; congruence || tauto. Qed.

Lemma mem_false x (l : list V) : mem x l = false <-> ~ In x l.
Proof. unfold mem. destruct (in_dec eq_dec x l); split; congruence || tauto. Qed.

Lemma nodupb_NoDup (l : list V) : nodupb l = true <-> NoDup l.
Proof.
  induction l as [|x l IH]; simpl.
  - split; [constructor|reflexivity].
  - rewrite andb_true_iff, negb_true_iff, mem_false, IH. split.
    + intros [? ?]. now constructor.
    + intros Hnd. inversion Hnd. tauto.
Qed.

Lemma adj_dict_set g u (nbrs : list (V * A)) x :
  adj (dict_set g u nbrs) x = if eq_dec u x then nbrs else adj g x.
Proof. unfold adj. rewrite dict_get_set. destruct (eq_dec u x); reflexivity. Qed.

Lemma nodes_dict_set g u (nbrs : list (V * A)) :
  In u (nodes g) -> nodes (dict_set g u nbrs) = nodes g.
Proof. apply dict_keys_set_mem. Qed.

Lemma adj_nil_not_node g u : ~ In u (nodes g) -> adj g u = [].
Proof.
  intros Hn. unfold adj. apply dict_get_None in Hn. now rewrite Hn.
Qed.

Lemma adj_In_nodes g u e : In e (adj g u) -> In u (nodes g).
Proof.
  intros Hin. destruct (in_dec eq_dec u (nodes g)) as [?|Hn]; [assumption|].
  rewrite (adj_nil_not_node g u Hn) in Hin. destruct Hin.
Qed.

Lemma get_edge_node g u v a : get_edge g u v = Some a -> In u (nodes g).
Proof.
  unfold get_edge. intros Hg. apply dict_get_In in Hg. eapply adj_In_nodes; eauto.
Qed.

Lemma adj_In g u (nbrs : list (V * A)) :
  NoDup (nodes g) -> In (u, nbrs) g -> adj g u = nbrs.
Proof.
  intros Hnd Hin. unfold adj. now rewrite (In_dict_get g u nbrs Hnd Hin).
Qed.

Lemma In_adj g u : In u (nodes g) -> In (u, adj g u) g.
Proof.
  intros Hin. unfold adj. destruct (dict_get_key g u Hin) as [nbrs E].
  rewrite E. now apply dict_get_In.
Qed.

(** *** add_node *)

Lemma adj_add_node g u x : adj (add_node g u) x = adj g x.
Proof.
  unfold add_node. destruct (dict_mem g u) eqn:E; [reflexivity|].
  apply dict_mem_false in E. unfold adj.
  destruct (dict_get g x) as [nbrs|] eqn:Eg.
  - assert (Hx : dict_get (g ++ [(u, [])]) x = Some nbrs).
    { clear E. induction g as [|[k b] g IH]; simpl in *; [discriminate|].
      destruct (eq_dec x k); [assumption|auto]. }
    now rewrite Hx.
  - assert (Hx : dict_get (g ++ [(u, [])]) x = if eq_dec x u then Some [] else None).
    { clear E. induction g as [|[k b] g IH]; simpl in *; [reflexivity|].
      destruct (eq_dec x k); [discriminate|auto]. }
    rewrite Hx. destruct (eq_dec x u); reflexivity.
Qed.

Lemma get_edge_add_node g u x y : get_edge (add_node g u) x y = get_edge g x y.
Proof. unfold get_edge. now rewrite adj_add_node. Qed.

Lemma nodes_add_node g u :
  nodes (add_node g u) = if mem u (nodes g) then nodes g else nodes g ++ [u].
Proof.
  unfold add_node. destruct (dict_mem g u) eqn:E.
  - apply dict_mem_true in E. apply mem_true in E. fold (nodes g) in E. now rewrite E.
  - apply dict_mem_false in E. apply mem_false in E. fold (nodes g) in E. rewrite E.
    unfold nodes. now rewrite map_app.
Qed.

Lemma In_nodes_add_node g u x :
  In x (nodes (add_node g u)) <-> x = u \/ In x (nodes g).
Proof.
  rewrite nodes_add_node. destruct (mem u (nodes g)) eqn:E.
  - apply mem_true in E. split; [tauto|]. intros [->|?]; assumption.
  - rewrite in_app_iff. simpl. intuition congruence.
Qed.

Lemma NoDup_nodes_add_node g u : NoDup (nodes g) -> NoDup (nodes (add_node g u)).
Proof.
  intros Hnd. rewrite nodes_add_node. destruct (mem u (nodes g)) eqn:E; [assumption|].
  apply mem_false in E. apply NoDup_app; [assumption|repeat constructor; simpl; tauto|].
  intros x Hx [<-|[]]. contradiction.
Qed.

(** *** set_entry, del_entry *)

Lemma adj_set_entry g u v a x :
  adj (set_entry g u v a) x = if eq_dec u x then dict_set (adj g u) v a else adj g x.
Proof. apply adj_dict_set. Qed.

Lemma adj_del_entry g u v x :
  adj (del_entry g u v) x = if eq_dec u x then dict_del (adj g u) v else adj g x.
Proof. apply adj_dict_set. Qed.

Lemma get_edge_set_entry g u v a x y :
  get_edge (set_entry g u v a) x y =
  if eq_dec u x then (if eq_dec v y then Some a else get_edge g x y)
  else get_edge g x y.
Proof.
  unfold get_edge. rewrite adj_set_entry.
  destruct (eq_dec u x) as [->|]; [|reflexivity]. apply dict_get_set.
Qed.

Lemma get_edge_del_entry g u v x y :
  NoDup (map fst (adj g u)) ->
  get_edge (del_entry g u v) x y =
  if eq_dec u x then (if eq_dec v y then None else get_edge g x y)
  else get_edge g x y.
Proof.
  intros Hnd. unfold get_edge. rewrite adj_del_entry.
  destruct (eq_dec u x) as [->|]; [|reflexivity].
  destruct (eq_dec v y) as [->|Hne].
  - now apply dict_get_del_eq.
  - now apply dict_get_del_ne.
Qed.

Lemma nodes_set_entry g u v a : In u (nodes g) -> nodes (set_entry g u v a) = nodes g.
Proof. apply nodes_dict_set. Qed.

Lemma nodes_del_entry g u v : In u (nodes g) -> nodes (del_entry g u v) = nodes g.
Proof. apply nodes_dict_set. Qed.

(** *** add_entry *)

Lemma nodes_add_entry g u v a :
  nodes (add_entry g u v a) = nodes (add_node (add_node g u) v).
Proof.
  unfold add_entry. rewrite !nodes_set_entry; [reflexivity| |].
  - apply In_nodes_add_node. right. apply In_nodes_add_node. now left.
  - rewrite nodes_set_entry.
    + apply In_nodes_add_node. now left.
    + apply In_nodes_add_node. right. apply In_nodes_add_node. now left.
Qed.

Lemma In_nodes_add_entry g u v a x :
  In x (nodes (add_entry g u v a)) <-> x = u \/ x = v \/ In x (nodes g).
Proof. rewrite nodes_add_entry, !In_nodes_add_node. tauto. Qed.

Lemma nodes_add_entry_old g u v a :
  In u (nodes g) -> In v (nodes g) -> nodes (add_entry g u v a) = nodes g.
Proof.
  intros Hu Hv. rewrite nodes_add_entry, !nodes_add_node.
  apply mem_true in Hu. rewrite Hu. apply mem_true in Hv. now rewrite Hv.
Qed.

Lemma get_edge_add_entry g u v a x y :
  get_edge (add_entry g u v a) x y =
  if eq_dec v x then (if eq_dec u y then Some a
                      else if eq_dec u x then (if eq_dec v y then Some a else get_edge g x y)
                      else get_edge g x y)
  else if eq_dec u x then (if eq_dec v y then Some a else get_edge g x y)
  else get_edge g x y.
Proof.
  unfold add_entry. rewrite !get_edge_set_entry, !get_edge_add_node. reflexivity.
Qed.

Lemma get_edge_add_entry_same g u v a : get_edge (add_entry g u v a) u v = Some a.
Proof.
  rewrite get_edge_add_entry.
  destruct (eq_dec v u), (eq_dec u v), (eq_dec u u), (eq_dec v v); congruence.
Qed.

Lemma get_edge_add_entry_swap g u v a : get_edge (add_entry g u v a) v u = Some a.
Proof.
  rewrite get_edge_add_entry.
  destruct (eq_dec v v), (eq_dec u u), (eq_dec u v); congruence.
Qed.

Lemma get_edge_add_entry_other g u v a x y :
  ~ (x = u /\ y = v) -> ~ (x = v /\ y = u) ->
  get_edge (add_entry g u v a) x y = get_edge g x y.
Proof.
  intros H1 H2. rewrite get_edge_add_entry.
  destruct (eq_dec v x), (eq_dec u y), (eq_dec u x), (eq_dec v y); subst; tauto.
Qed.

Lemma adj_keys_add_entry g u v a x :
  NoDup (map fst (adj g x)) -> NoDup (map fst (adj (add_entry g u v a) x)).
Proof.
  intros Hnd. unfold add_entry.
  rewrite adj_set_entry. destruct (eq_dec v x) as [->|Hv].
  - apply dict_set_NoDup. rewrite adj_set_entry.
    destruct (eq_dec u x) as [->|Hu].
    + apply dict_set_NoDup. now rewrite !adj_add_node.
    + now rewrite !adj_add_node.
  - rewrite adj_set_entry. destruct (eq_dec u x) as [->|Hu].
    + apply dict_set_NoDup. now rewrite !adj_add_node.
    + now rewrite !adj_add_node.
Qed.

Lemma wf_nil : wf ([] : AdjMap V A).
Proof.
  split; simpl.
  - constructor.
  - intros u. constructor.
  - intros u v a. discriminate.
  - intros u v a. discriminate.
Qed.

Lemma wf_add_entry g u v a : wf g -> 0 < copies a -> wf (add_entry g u v a).
Proof.
  intros [Hn Hk Hs Hp] Hpos. split.
  - rewrite nodes_add_entry. now do 2 apply NoDup_nodes_add_node.
  - intros x. apply adj_keys_add_entry. apply Hk.
  - intros x y b. rewrite !get_edge_add_entry.
    destruct (eq_dec v x), (eq_dec u y), (eq_dec u x), (eq_dec v y); subst;
      try congruence; try apply Hs.
  - intros x y b. rewrite get_edge_add_entry.
    destruct (eq_dec v x), (eq_dec u y), (eq_dec u x), (eq_dec v y); subst;
      try (intros [= <-]; assumption); apply Hp.
Qed.

Lemma wf_add_node g u : wf g -> wf (add_node g u).
Proof.
  intros [Hn Hk Hs Hp]. split.
  - now apply NoDup_nodes_add_node.
  - intros x. rewrite adj_add_node. apply Hk.
  - intros x y b. rewrite !get_edge_add_node. apply Hs.
  - intros x y b. rewrite get_edge_add_node. apply Hp.
Qed.

Lemma wf_neighbor_node g u v a : wf g -> get_edge g u v = Some a -> In v (nodes g).
Proof.
  intros Hwf Hg. apply (wf_sym g Hwf) in Hg. eapply get_edge_node; eauto.
Qed.

Lemma neighbors_In g u v : In v (neighbors g u) <-> exists a, get_edge g u v = Some a.
Proof.
  unfold neighbors, get_edge. split.
  - apply dict_get_key.
  - intros [a Ha]. eapply dict_get_Some_key; eauto.
Qed.

Lemma mult_pos g u v : wf g -> (0 < mult g u v <-> In v (neighbors g u)).
Proof.
  intros Hwf. rewrite neighbors_In. unfold mult. split.
  - destruct (get_edge g u v) as [a|]; [eauto|lia].
  - intros [a Ha]. rewrite Ha. eapply wf_pos; eauto.
Qed.

Lemma mult_sym g u v : wf g -> mult g u v = mult g v u.
Proof.
  intros Hwf. unfold mult.
  destruct (get_edge g u v) as [a|] eqn:E1.
  - now rewrite (wf_sym g Hwf _ _ _ E1).
  - destruct (get_edge g v u) as [b|] eqn:E2; [|reflexivity].
    apply (wf_sym g Hwf) in E2. congruence.
Qed.
End AdjFacts.

(** *** The test [wf_graph] establishes the invariant *)

Section WfGraph.
Context {V : Type} {V_dec : EqDec V}.

Lemma wf_graph_wf (g : Graph V) : wf_graph g = true -> wf g.
Proof.
  unfold wf_graph. rewrite andb_true_iff, forallb_forall.
  intros [Hn Hall]. apply nodupb_NoDup in Hn.
  assert (Hkeys : forall u, NoDup (map fst (adj g u))).
  { intros u. destruct (in_dec eq_dec u (nodes g)) as [Hin|Hnin].
    - apply In_adj in Hin. specialize (Hall _ Hin). simpl in Hall.
      apply andb_true_iff in Hall. now apply nodupb_NoDup.
    - rewrite adj_nil_not_node by assumption. constructor. }
  split; try assumption.
  - intros u v a Hg.
    assert (Hu : In u (nodes g)) by (eapply get_edge_node; eauto).
    apply In_adj in Hu. specialize (Hall _ Hu). simpl in Hall.
    apply andb_true_iff in Hall. destruct Hall as [_ Hall].
    rewrite forallb_forall in Hall.
    unfold get_edge in Hg. apply dict_get_In in Hg.
    specialize (Hall _ Hg). simpl in Hall.
    destruct (get_edge g v u) as [w|]; [|discriminate].
    apply Z.eqb_eq in Hall. now subst.
  - intros u v a _. simpl. lia.
Qed.
End WfGraph.

(** ** Degrees and the handshake lemma *)

Section Sums.
Lemma sum_nat_app (l1 l2 : list nat) : sum_nat (l1 ++ l2) = sum_nat l1 + sum_nat l2.
Proof. induction l1; simpl; lia. Qed.

Lemma sum_nat_map_add {X : Type} (f h : X -> nat) (l : list X) :
  sum_nat (map (fun x => f x + h x) l) = sum_nat (map f l) + sum_nat (map h l).
Proof. induction l; simpl; lia. Qed.

Lemma sum_nat_map_ext {X : Type} (f h : X -> nat) (l : list X) :
  (forall x, In x l -> f x = h x) -> sum_nat (map f l) = sum_nat (map h l).
Proof.
  induction l as [|x l IH]; simpl; intros Hext; [reflexivity|].
  rewrite Hext by now left. rewrite IH; [reflexivity|]. intros; apply Hext; now right.
Qed.

Lemma sum_nat_zero {X : Type} (f : X -> nat) (l : list X) :
  (forall x, In x l -> f x = 0) -> sum_nat (map f l) = 0.
Proof.
  induction l as [|x l IH]; simpl; intros Hz; [reflexivity|].
  rewrite Hz by now left. rewrite IH; [reflexivity|]. intros; apply Hz; now right.
Qed.

Lemma sum_nat_Permutation (l1 l2 : list nat) :
  Permutation l1 l2 -> sum_nat l1 = sum_nat l2.
Proof. induction 1; simpl; lia. Qed.

Lemma mod2_even (n : nat) : (n mod 2 =? 0) = Nat.even n.
Proof.
  destruct (Nat.even n) eqn:E.
  - apply Nat.even_spec in E. destruct E as [k ->].
    apply Nat.eqb_eq. rewrite Nat.mul_comm. apply Nat.Div0.mod_mul.
  - apply Nat.eqb_neq. intros Hm.
    assert (Nat.even n = true); [|congruence].
    apply Nat.even_spec. exists (n / 2).
    pose proof (Nat.div_mod_eq n 2). lia.
Qed.

(** The number of odd terms has the parity of the sum. *)
Lemma even_sum_filter_odd {X : Type} (d : X -> nat) (l : list X) :
  Nat.even (length (filter (fun x => negb (d x mod 2 =? 0)) l))
  = Nat.even (sum_nat (map d l)).
Proof.
  induction l as [|x l IH]; [reflexivity|].
  cbn [map filter]. rewrite mod2_even.
  change (sum_nat (d x :: map d l)) with (d x + sum_nat (map d l)).
  rewrite Nat.even_add, <- IH.
  destruct (Nat.even (d x)); cbn [negb length].
  - now destruct (Nat.even _).
  - rewrite Nat.even_succ, <- Nat.negb_even. now destruct (Nat.even _).
Qed.

(** A symmetric table summed over all pairs, diagonal counted twice. *)
Lemma even_symmetric_sum {X : Type} (m : X -> X -> nat) (l : list X) :
  (forall u v, m u v = m v u) ->
  Nat.even (sum_nat (map (fun u => sum_nat (map (m u) l) + m u u) l)) = true.
Proof.
  intros Hsym. induction l as [|a l IH]; [reflexivity|].
  assert (Hstep :
    sum_nat (map (fun u => sum_nat (map (m u) (a :: l)) + m u u) (a :: l))
    = 2 * (m a a + sum_nat (map (m a) l))
      + sum_nat (map (fun u => sum_nat (map (m u) l) + m u u) l)).
  { cbn [map sum_nat fold_right]. fold (sum_nat (map (m a) l)).
    replace (fold_right Nat.add 0
               (map (fun u => m u a + fold_right Nat.add 0 (map (m u) l) + m u u) l))
      with (sum_nat (map (fun u => m u a + (sum_nat (map (m u) l) + m u u)) l)).
    - rewrite sum_nat_map_add.
      rewrite (sum_nat_map_ext (fun u => m u a) (m a)) by (intros; apply Hsym).
      lia.
    - apply sum_nat_map_ext. intros; unfold sum_nat; lia. }
  rewrite Hstep, Nat.even_add, Nat.even_mul, IH. reflexivity.
Qed.
End Sums.

Section Degrees.
Context {V : Type} {V_dec : EqDec V} {A : Type} `{EdgeData A}.
Implicit Types (g : AdjMap V A) (u v x y : V).

Lemma sum_dict_del (f : A -> nat) (d : list (V * A)) (k : V) :
  sum_nat (map (fun e => f (snd e)) d)
  = look f d k + sum_nat (map (fun e => f (snd e)) (dict_del d k)).
Proof.
  unfold look. induction d as [|[k' a] d IH]; simpl; [reflexivity|].
  destruct (eq_dec k k'); simpl; [reflexivity|]. rewrite IH. lia.
Qed.

Lemma sum_dict_over_keys (f : A -> nat) (N : list V) :
  NoDup N ->
  forall d : list (V * A),
    NoDup (map fst d) -> incl (map fst d) N ->
    sum_nat (map (fun e => f (snd e)) d) = sum_nat (map (look f d) N).
Proof.
  induction 1 as [|n N Hnin Hnd IH]; intros d Hd Hincl.
  - destruct d as [|[k a] d]; [reflexivity|].
    exfalso. apply (Hincl k). now left.
  - simpl. rewrite (sum_dict_del f d n). f_equal.
    rewrite (IH (dict_del d n)).
    + apply sum_nat_map_ext. intros v Hv. unfold look.
      rewrite dict_get_del_ne; [reflexivity|]. intros ->. contradiction.
    + now apply dict_del_NoDup.
    + intros k Hk. assert (Hk' := dict_del_keys_incl _ _ _ Hk).
      destruct (Hincl k Hk') as [<-|?]; [|assumption].
      exfalso. destruct (dict_get_key _ _ Hk) as [a Ha].
      rewrite dict_get_del_eq in Ha by assumption. discriminate.
Qed.

Lemma degree_as_mult g u :
  wf g -> degree g u = sum_nat (map (mult g u) (nodes g)) + mult g u u.
Proof.
  intros Hwf. unfold degree. f_equal.
  rewrite (sum_dict_over_keys copies (nodes g)).
  - reflexivity.
  - apply Hwf.
  - apply Hwf.
  - intros v Hv. destruct (dict_get_key _ _ Hv) as [a Ha].
    eapply wf_neighbor_node; eauto.
Qed.

Theorem handshake g :
  wf g -> Nat.even (degree_sum g) = true.
Proof.
  intros Hwf.
  unfold degree_sum.
  rewrite (sum_nat_map_ext (degree g)
             (fun u => sum_nat (map (mult g u) (nodes g)) + mult g u u)).
  - apply even_symmetric_sum. intros u v. now apply mult_sym.
  - intros u _. now apply degree_as_mult.
Qed.

Lemma degree_not_node g u : ~ In u (nodes g) -> degree g u = 0.
Proof.
  intros Hn. unfold degree, mult, get_edge. now rewrite adj_nil_not_node.
Qed.

Lemma mult_le_degree g u v : wf g -> mult g u v <= degree g u.
Proof.
  intros Hwf. unfold degree.
  rewrite (sum_dict_del copies (adj g u) v). unfold look, mult, get_edge.
  destruct (dict_get (adj g u) v); lia.
Qed.
End Degrees.

Section OddVertices.
Context {V : Type} {V_dec : EqDec V}.

Lemma find_odd_degree_vertices_In (g : Graph V) (v : V) :
  In v (find_odd_degree_vertices g) <-> In v (nodes g) /\ Nat.odd (degree g v) = true.
Proof.
  unfold find_odd_degree_vertices. rewrite filter_In, mod2_even, <- Nat.negb_even.
  reflexivity.
Qed.
End OddVertices.

(** ** Counting the passes of a walk *)

Ltac eqv_cases :=
  unfold occ, same_edge, eqv, b2n; simpl;
  repeat match goal with
         | |- context [eq_dec ?a ?b] => destruct (eq_dec a b)
         end;
  subst; simpl; try congruence; try reflexivity.

Section Occ.
Context {V : Type} {V_dec : EqDec V}.
Implicit Types (c : list (V * V)) (u v x y : V).

Lemma eqv_true x y : eqv x y = true <-> x = y.
Proof. unfold eqv. destruct (eq_dec x y); split; congruence. Qed.

Lemma eqv_refl x : eqv x x = true.
Proof. now apply eqv_true. Qed.

Lemma eqv_false x y : eqv x y = false <-> x <> y.
Proof. unfold eqv. destruct (eq_dec x y); split; congruence. Qed.

Lemma eqv_sym x y : eqv x y = eqv y x.
Proof. unfold eqv. destruct (eq_dec x y), (eq_dec y x); congruence. Qed.

Lemma same_edge_sym e u v : same_edge e u v = same_edge e v u.
Proof. unfold same_edge. apply orb_comm. Qed.

Lemma same_edge_swap a b u v : same_edge (a, b) u v = same_edge (b, a) u v.
Proof.
  unfold same_edge. simpl.
  destruct (eqv a u), (eqv b v), (eqv a v), (eqv b u); reflexivity.
Qed.

Lemma same_edge_true e u v :
  same_edge e u v = true <-> e = (u, v) \/ e = (v, u).
Proof.
  destruct e as [a b]. unfold same_edge. simpl.
  rewrite orb_true_iff, !andb_true_iff, !eqv_true.
  split; intros [Hh|Hh]; [left|right|left|right];
    first [destruct Hh; congruence | inversion Hh; tauto].
Qed.

Lemma occ_cons e c u v : occ (e :: c) u v = b2n (same_edge e u v) + occ c u v.
Proof. unfold occ. simpl. now destruct (same_edge e u v). Qed.

Lemma occ_nil u v : occ [] u v = 0.
Proof. reflexivity. Qed.

Lemma occ_app c1 c2 u v : occ (c1 ++ c2) u v = occ c1 u v + occ c2 u v.
Proof. unfold occ. now rewrite filter_app, length_app. Qed.

Lemma occ_sym c u v : occ c u v = occ c v u.
Proof.
  unfold occ. f_equal. apply filter_ext. intros e. apply same_edge_sym.
Qed.

Lemma occ_single_swap a b u v : occ [(a, b)] u v = occ [(b, a)] u v.
Proof. rewrite !occ_cons. now rewrite same_edge_swap. Qed.

Lemma occ_pos_In c u v :
  0 < occ c u v -> In (u, v) c \/ In (v, u) c.
Proof.
  unfold occ. intros Hpos.
  destruct (filter (fun e => same_edge e u v) c) as [|e l] eqn:E; [simpl in Hpos; lia|].
  assert (Hin : In e (filter (fun e => same_edge e u v) c)) by (rewrite E; now left).
  apply filter_In in Hin. destruct Hin as [Hin Hs].
  apply same_edge_true in Hs. destruct Hs; subst; tauto.
Qed.

Lemma occ_le_length c u v : occ c u v <= length c.
Proof. unfold occ. apply filter_length_le. Qed.

(** One pair counted from a vertex [x] over a list of distinct vertices
    holding both its ends, the pair [x, x] counted once more. *)
Lemma sum_b2n_eqv (N : list V) v :
  NoDup N -> In v N -> sum_nat (map (fun y => b2n (eqv y v)) N) = 1.
Proof.
  induction 1 as [|n N Hnin Hnd IH]; simpl; [tauto|].
  intros [->|Hin].
  - rewrite eqv_refl. simpl. f_equal. apply sum_nat_zero.
    intros y Hy. destruct (eqv y v) eqn:E; [|reflexivity].
    apply eqv_true in E. subst. contradiction.
  - rewrite IH by assumption.
    destruct (eqv n v) eqn:E; [|reflexivity].
    apply eqv_true in E. subst. contradiction.
Qed.

Lemma sum_occ_single (N : list V) u v x :
  NoDup N -> In u N -> In v N ->
  sum_nat (map (occ [(u, v)] x) N) + occ [(u, v)] x x
  = b2n (eqv x u) + b2n (eqv x v).
Proof.
  intros Hnd Hu Hv.
  destruct (eq_dec x u) as [->|Hxu]; [destruct (eq_dec u v) as [->|Huv]|
                                       destruct (eq_dec x v) as [->|Hxv]].
  - (* x = u = v *)
    rewrite (sum_nat_map_ext _ (fun y => b2n (eqv y v))) by (intros; eqv_cases).
    rewrite sum_b2n_eqv by assumption. eqv_cases.
  - (* x = u <> v *)
    rewrite (sum_nat_map_ext _ (fun y => b2n (eqv y v))) by (intros; eqv_cases).
    rewrite sum_b2n_eqv by assumption. eqv_cases.
  - (* x = v <> u *)
    rewrite (sum_nat_map_ext _ (fun y => b2n (eqv y u))) by (intros; eqv_cases).
    rewrite sum_b2n_eqv by assumption. eqv_cases.
  - (* x is neither end *)
    rewrite sum_nat_zero by (intros; eqv_cases). eqv_cases.
Qed.
End Occ.

(** ** Adding or removing one edge *)

Section OneEdge.
Context {V : Type} {V_dec : EqDec V} {A : Type} `{EdgeDataLaws A}.
Implicit Types (g : AdjMap V A) (u v x y : V) (a : A).

Lemma one_more_degree g g' u v x :
  one_more g g' u v ->
  degree g x = degree g' x + b2n (eqv x u) + b2n (eqv x v).
Proof.
  intros (Hwf & Hwf' & Hn & Hu & Hv & Hm).
  rewrite (degree_as_mult g x Hwf), (degree_as_mult g' x Hwf'), Hn.
  rewrite (sum_nat_map_ext (mult g x) (fun y => mult g' x y + occ [(u, v)] x y))
    by (intros; apply Hm).
  rewrite sum_nat_map_add, Hm.
  pose proof (sum_occ_single (nodes g) u v x (wf_nodes g Hwf) Hu Hv). lia.
Qed.

Lemma one_more_degree_sum g g' u v :
  one_more g g' u v -> degree_sum g = degree_sum g' + 2.
Proof.
  intros Hom. assert (Hd := fun x => one_more_degree g g' u v x Hom).
  destruct Hom as (Hwf & Hwf' & Hn & Hu & Hv & Hm).
  unfold degree_sum. rewrite Hn.
  rewrite (sum_nat_map_ext (degree g)
             (fun x => degree g' x + (b2n (eqv x u) + b2n (eqv x v)))).
  - rewrite !sum_nat_map_add.
    rewrite !sum_b2n_eqv by (assumption || apply Hwf). lia.
  - intros x _. rewrite Hd. lia.
Qed.
End OneEdge.

(** ** Taking the first edge of a vertex away *)

Section RemoveFirst.
Context {V : Type} {V_dec : EqDec V} {A : Type} `{EdgeDataLaws A}.
Implicit Types (g : AdjMap V A) (u v x y : V) (a : A).

Lemma get_edge_put_entry g u v o x y :
  NoDup (map fst (adj g u)) ->
  get_edge (put_entry g u v o) x y =
  if eq_dec u x then (if eq_dec v y then o else get_edge g x y)
  else get_edge g x y.
Proof.
  intros Hnd. destruct o as [a|]; simpl.
  - apply get_edge_set_entry.
  - now apply get_edge_del_entry.
Qed.

Lemma nodes_put_entry g u v o : In u (nodes g) -> nodes (put_entry g u v o) = nodes g.
Proof. destruct o; simpl; [apply nodes_set_entry|apply nodes_del_entry]. Qed.

Lemma adj_keys_put_entry g u v o x :
  NoDup (map fst (adj g x)) -> NoDup (map fst (adj (put_entry g u v o) x)).
Proof.
  intros Hnd. destruct o as [a|]; simpl.
  - rewrite adj_set_entry. destruct (eq_dec u x) as [->|]; [|assumption].
    now apply dict_set_NoDup.
  - rewrite adj_del_entry. destruct (eq_dec u x) as [->|]; [|assumption].
    now apply dict_del_NoDup.
Qed.

Lemma remove_first_edge_get g u v g' :
  wf g -> remove_first_edge g u = Some (v, g') ->
  exists a, get_edge g u v = Some a
    /\ nodes g' = nodes g
    /\ (forall x, NoDup (map fst (adj g' x)))
    /\ forall x y, get_edge g' x y =
                   if same_edge (u, v) x y then drop_first a else get_edge g x y.
Proof.
  intros Hwf. unfold remove_first_edge.
  destruct (adj g u) as [|[v0 a] rest] eqn:Eadj; [discriminate|].
  intros [= <- <-]. exists a.
  assert (Hg : get_edge g u v0 = Some a).
  { unfold get_edge. rewrite Eadj. simpl. destruct (eq_dec v0 v0); congruence. }
  assert (Hu : In u (nodes g)) by (eapply get_edge_node; eauto).
  assert (Hv : In v0 (nodes g)) by (eapply wf_neighbor_node; eauto).
  assert (Hk := wf_keys g Hwf).
  split; [assumption|]. destruct (eq_dec u v0) as [<-|Hne].
  - split; [now apply nodes_put_entry|]. split.
    + intros x. now apply adj_keys_put_entry.
    + intros x y. rewrite get_edge_put_entry by apply Hk. eqv_cases.
  - split; [|split].
    + rewrite nodes_put_entry; [now apply nodes_put_entry|].
      rewrite nodes_put_entry; assumption.
    + intros x. now do 2 apply adj_keys_put_entry.
    + intros x y. rewrite get_edge_put_entry by (apply adj_keys_put_entry, Hk).
      rewrite get_edge_put_entry by apply Hk. eqv_cases.
Qed.

Lemma remove_first_edge_one_more g u v g' :
  wf g -> remove_first_edge g u = Some (v, g') -> one_more g g' u v.
Proof.
  intros Hwf Hr.
  destruct (remove_first_edge_get g u v g' Hwf Hr) as (a & Hg & Hn & Hk & Hget).
  assert (Hpos : 0 < copies a) by (eapply wf_pos; eauto).
  assert (Hlaw := drop_first_copies a Hpos).
  assert (Hgs : get_edge g v u = Some a) by (now apply (wf_sym g Hwf)).
  assert (Hhit : forall x y, same_edge (u, v) x y = true -> get_edge g x y = Some a).
  { intros x y Hs. apply same_edge_true in Hs.
    destruct Hs as [Hs|Hs]; inversion Hs; subst; assumption. }
  assert (Hwf' : wf g').
  { split.
    - rewrite Hn. apply Hwf.
    - apply Hk.
    - intros x y b. rewrite !Hget, (same_edge_sym (u, v) y x).
      destruct (same_edge (u, v) x y); [tauto|]. apply (wf_sym g Hwf).
    - intros x y b. rewrite Hget.
      destruct (same_edge (u, v) x y).
      + intros Hd. rewrite Hd in Hlaw. tauto.
      + apply (wf_pos g Hwf). }
  refine (conj Hwf (conj Hwf' (conj Hn (conj _ (conj _ _))))).
  - eapply get_edge_node; eauto.
  - eapply wf_neighbor_node; eauto.
  - intros x y. unfold mult. rewrite Hget, occ_cons, occ_nil.
    rewrite (same_edge_sym (u, v) x y).
    replace (same_edge (u, v) y x) with (same_edge (u, v) x y)
      by apply same_edge_sym.
    destruct (same_edge (u, v) x y) eqn:Es.
    + rewrite (Hhit x y Es). simpl.
      destruct (drop_first a); simpl in *; lia.
    + simpl. lia.
Qed.

Lemma remove_first_edge_None g u :
  wf g -> remove_first_edge g u = None -> degree g u = 0.
Proof.
  intros Hwf. unfold remove_first_edge, degree, mult, get_edge.
  destruct (adj g u) as [|[v a] rest]; [reflexivity|discriminate].
Qed.

Lemma degree_zero_mult g u v : wf g -> degree g u = 0 -> mult g u v = 0.
Proof. intros Hwf Hd. pose proof (mult_le_degree g u v Hwf). lia. Qed.

Lemma degree_pos_remove g u :
  wf g -> degree g u <> 0 -> exists v g', remove_first_edge g u = Some (v, g').
Proof.
  intros Hwf Hd. destruct (remove_first_edge g u) as [[v g']|] eqn:E; [eauto|].
  apply remove_first_edge_None in E; [contradiction|assumption].
Qed.
End RemoveFirst.

(** ** The circuit loop *)

Section Walk.
Context {V : Type} {V_dec : EqDec V}.
Implicit Types (c : list (V * V)) (s : V).

Lemma walk_end_app s c1 c2 :
  walk_end s (c1 ++ c2)
  = match walk_end s c1 with
    | Some m => walk_end m c2
    | None => None
    end.
Proof.
  revert s. induction c1 as [|e c1 IH]; intros s; simpl; [reflexivity|].
  destruct (eq_dec (fst e) s); [apply IH|reflexivity].
Qed.

Lemma walk_end_snoc s c l t :
  walk_end s c = Some l -> walk_end s (c ++ [(l, t)]) = Some t.
Proof.
  intros Hw. rewrite walk_end_app, Hw. simpl.
  destruct (eq_dec l l); congruence.
Qed.

Lemma walk_end_chained s c t : walk_end s c = Some t -> chained c.
Proof.
  revert s. induction c as [|e1 c IH]; intros s; simpl; [trivial|].
  destruct (eq_dec (fst e1) s); [|discriminate]. intros Hw.
  destruct c as [|e2 c']; [trivial|]. split.
  - simpl in Hw. destruct (eq_dec (fst e2) (snd e1)); congruence.
  - eapply IH; eauto.
Qed.

Lemma walk_end_last s c t e d :
  walk_end s (e :: c) = Some t -> snd (last (e :: c) d) = t.
Proof.
  revert s e. induction c as [|e2 c IH]; intros s e.
  - simpl. destruct (eq_dec (fst e) s); congruence.
  - intros Hw. cbn [walk_end] in Hw. destruct (eq_dec (fst e) s); [|discriminate].
    change (last (e :: e2 :: c) d) with (last (e2 :: c) d). eapply IH; eauto.
Qed.

Lemma walk_end_closed_walk s c :
  walk_end s c = Some s ->
  closed_walk c /\ (forall e, hd_error c = Some e -> fst e = s).
Proof.
  intros Hw. split; [split|].
  - eapply walk_end_chained; eauto.
  - destruct c as [|e c]; [trivial|].
    rewrite (walk_end_last s c s e e Hw).
    simpl in Hw. destruct (eq_dec (fst e) s); congruence.
  - destruct c as [|e c]; simpl; [discriminate|].
    intros e' [= <-]. simpl in Hw. destruct (eq_dec (fst e) s); congruence.
Qed.

Lemma stack_edges_push (n t : V) (rest : list V) :
  stack_edges (n :: t :: rest) = (t, n) :: stack_edges (t :: rest).
Proof. reflexivity. Qed.

Lemma last_cons2 (a b d d' : V) (l : list V) :
  last (a :: b :: l) d = last (b :: l) d'.
Proof.
  revert a b. induction l as [|x l IH]; intros a b; [reflexivity|].
  change (last (a :: b :: x :: l) d) with (last (b :: x :: l) d).
  change (last (b :: x :: l) d') with (last (x :: l) d').
  rewrite (IH b x). destruct l; reflexivity.
Qed.
End Walk.

Section Parity.
Lemma even_drop_double (n b : nat) : Nat.even (n + b + b) = Nat.even n.
Proof.
  rewrite <- Nat.add_assoc, Nat.even_add.
  replace (b + b) with (2 * b) by lia. rewrite Nat.even_mul. simpl.
  now destruct (Nat.even n).
Qed.

Lemma even_swap_top (d d' bc bt bn : nat) :
  d = d' + bt + bn ->
  Nat.even (d + bc + bt) = true -> Nat.even (d' + bc + bn) = true.
Proof.
  intros -> He.
  replace (d' + bt + bn + bc + bt) with (d' + bc + bn + bt + bt) in He by lia.
  now rewrite even_drop_double in He.
Qed.
End Parity.

Section Loop.
Context {V : Type} {V_dec : EqDec V} {A : Type} `{EdgeDataLaws A}.
Variable g0 : AdjMap V A.
Variable s : V.
Implicit Types (g : AdjMap V A) (stack : list V) (out : list (V * V)).

Lemma loop_inv_init :
  wf g0 -> (forall x, Nat.even (degree g0 x) = true) ->
  loop_inv g0 s g0 [s] None [].
Proof.
  intros Hwf Heven. split; [assumption|]. split; [reflexivity|].
  exists s, []. split; [|split; [|split]].
  - intros x y. change (stack_edges [s]) with (@nil (V * V)).
    rewrite !occ_nil. lia.
  - intros top rest [= <- <-]. split; [reflexivity|].
    intros x. rewrite even_drop_double. apply Heven.
  - repeat split. discriminate.
  - simpl. tauto.
Qed.

Lemma loop_inv_pop g top rest lastv out :
  loop_inv g0 s g (top :: rest) lastv out ->
  degree g top = 0 ->
  loop_inv g0 s g rest (Some top)
           (match lastv with
            | Some l => out ++ [(l, top)]
            | None => out
            end).
Proof.
  intros (Hwf & Hn & c & pend & Hm & Hpar & Hlast & Hout) Hd.
  destruct (Hpar top rest eq_refl) as [Hbot Hev].
  assert (Hc : top = c).
  { specialize (Hev top). rewrite Hd, eqv_refl in Hev. simpl in Hev.
    destruct (eqv top c) eqn:E; [now apply eqv_true in E|discriminate]. }
  subst c.
  assert (Heven : forall x, Nat.even (degree g x) = true).
  { intros x. specialize (Hev x). now rewrite even_drop_double in Hev. }
  (* the edge count once the pending edge has been yielded *)
  assert (Hm' : forall x y,
             mult g0 x y
             = mult g x y + occ (stack_edges (top :: rest)) x y
               + occ (match lastv with
                      | Some l => out ++ [(l, top)]
                      | None => out
                      end) x y).
  { intros x y. rewrite Hm. destruct lastv as [l|].
    - destruct Hlast as (_ & _ & ->).
      rewrite occ_app, (occ_single_swap l top). lia.
    - destruct Hlast as (-> & -> & _). rewrite !occ_nil. lia. }
  assert (Hw : walk_end s (match lastv with
                           | Some l => out ++ [(l, top)]
                           | None => out
                           end) = Some top).
  { destruct lastv as [l|].
    - destruct Hlast as (Hw & _). now apply walk_end_snoc.
    - destruct Hlast as (_ & -> & <- & _). reflexivity. }
  assert (Hout' : forall x,
             In x (map fst (match lastv with
                            | Some l => out ++ [(l, top)]
                            | None => out
                            end))
             \/ In x (map snd (match lastv with
                               | Some l => out ++ [(l, top)]
                               | None => out
                               end)) -> degree g x = 0).
  { intros x. destruct lastv as [l|]; [|apply Hout].
    destruct Hlast as (_ & Hl & _).
    rewrite !map_app, !in_app_iff. simpl.
    intros [[?|[<-|[]]]|[?|[<-|[]]]]; auto. }
  split; [assumption|]. split; [assumption|].
  destruct rest as [|t2 r].
  - exists s, []. split; [|split; [|split]].
    + intros x y. rewrite Hm'. change (stack_edges [top]) with (@nil (V * V)).
      change (stack_edges []) with (@nil (V * V)). rewrite !occ_nil. lia.
    + intros ? ? [=].
    + split; [assumption|]. split; [assumption|]. split; [reflexivity|].
      simpl in Hbot. assumption.
    + assumption.
  - exists t2, [(t2, top)]. split; [|split; [|split]].
    + intros x y. rewrite Hm', stack_edges_push, occ_cons.
      rewrite (occ_cons (t2, top) []), occ_nil. lia.
    + intros top' rest' [= <- <-]. split.
      * rewrite <- Hbot. symmetry. apply last_cons2.
      * intros x. rewrite even_drop_double. apply Heven.
    + split; [assumption|]. split; [assumption|reflexivity].
    + assumption.
Qed.

Lemma loop_inv_push g top rest lastv out nxt g' :
  loop_inv g0 s g (top :: rest) lastv out ->
  remove_first_edge g top = Some (nxt, g') ->
  loop_inv g0 s g' (nxt :: top :: rest) lastv out
  /\ degree_sum g = degree_sum g' + 2.
Proof.
  intros (Hwf & Hn & c & pend & Hm & Hpar & Hlast & Hout) Hr.
  assert (Hom := remove_first_edge_one_more g top nxt g' Hwf Hr).
  assert (Hdeg := fun x => one_more_degree g g' top nxt x Hom).
  split; [|eapply one_more_degree_sum; eauto].
  destruct Hom as (_ & Hwf' & Hn' & _ & _ & Hm1).
  split; [assumption|]. split; [congruence|].
  exists c, pend. split; [|split; [|split]].
  - intros x y. rewrite Hm, Hm1, stack_edges_push, !occ_cons, occ_nil. lia.
  - intros top' rest' [= <- <-].
    destruct (Hpar top rest eq_refl) as [Hbot Hev]. split.
    + rewrite <- Hbot. apply last_cons2.
    + intros x. eapply even_swap_top; [apply Hdeg|apply Hev].
  - destruct lastv as [l|].
    + destruct Hlast as (Hw & Hl & Hp). split; [assumption|]. split; [|assumption].
      specialize (Hdeg l). lia.
    + destruct Hlast as (? & ? & ? & ?). repeat split; try assumption. discriminate.
  - intros x Hx. specialize (Hout x Hx). specialize (Hdeg x). lia.
Qed.

Lemma circuit_loop_inv fuel :
  forall g stack lastv out,
    loop_inv g0 s g stack lastv out ->
    degree_sum g + length stack < fuel ->
    exists out' g',
      circuit_loop fuel g stack lastv out = Some (Ok out')
      /\ loop_inv g0 s g' [] (Some s) out'.
Proof.
  induction fuel as [|fuel IH]; intros g stack lastv out Hinv Hfuel; [lia|].
  destruct stack as [|top rest].
  - exists out, g. split; [reflexivity|].
    destruct Hinv as (Hwf & Hn & c & pend & Hm & Hpar & Hlast & Hout).
    destruct lastv as [l|].
    + destruct Hlast as (Hw & Hl & Hp & ->).
      split; [assumption|]. split; [assumption|].
      exists c, pend. split; [assumption|]. split; [intros ? ? [=]|].
      split; [|assumption]. repeat split; assumption.
    + destruct Hlast as (_ & _ & _ & Hne). contradiction.
  - cbn [circuit_loop]. destruct (degree g top =? 0) eqn:Ed.
    + apply Nat.eqb_eq in Ed. apply IH.
      * now apply loop_inv_pop.
      * simpl in Hfuel. lia.
    + apply Nat.eqb_neq in Ed.
      assert (Hwf : wf g) by apply Hinv.
      destruct (degree_pos_remove g top Hwf Ed) as (nxt & g' & Hr).
      rewrite Hr. destruct (loop_inv_push g top rest lastv out nxt g' Hinv Hr)
        as [Hinv' Hsum].
      apply IH; [assumption|]. simpl in *. lia.
Qed.

(** What the invariant says once the stack is empty. *)
Lemma loop_inv_final g out :
  wf g0 ->
  loop_inv g0 s g [] (Some s) out ->
  walk_end s out = Some s
  /\ (forall x y, occ out x y <= mult g0 x y)
  /\ (forall x y, reach g0 s x -> mult g0 x y = occ out x y).
Proof.
  intros Hwf0 (Hwf & Hn & c & pend & Hm & _ & (Hw & Hs & -> & _) & Hout).
  assert (Hm' : forall x y, mult g0 x y = mult g x y + occ out x y).
  { intros x y. rewrite Hm. change (stack_edges []) with (@nil (V * V)).
    rewrite !occ_nil. lia. }
  split; [assumption|]. split.
  - intros x y. rewrite Hm'. lia.
  - assert (Hzero : forall x, reach g0 s x -> degree g x = 0).
    { induction 1 as [|x y Hreach IHr Hy]; [assumption|].
      apply neighbors_In in Hy. destruct Hy as [a Ha].
      assert (Hpos : 0 < occ out x y).
      { pose proof (Hm' x y) as E.
        rewrite (degree_zero_mult g x y Hwf IHr) in E.
        assert (0 < mult g0 x y)
          by (unfold mult; rewrite Ha; exact (wf_pos g0 Hwf0 x y a Ha)).
        lia. }
      apply occ_pos_In in Hpos. apply Hout.
      destruct Hpos as [Hin|Hin].
      - right. change y with (snd (x, y)). now apply in_map.
      - left. change y with (fst (y, x)). now apply in_map. }
    intros x y Hreach. rewrite Hm'.
    rewrite (degree_zero_mult g x y Hwf (Hzero x Hreach)). reflexivity.
Qed.
End Loop.

(** ** Reachability and the connectivity test *)

Section Reach.
Context {V : Type} {V_dec : EqDec V} {A : Type} `{EdgeData A}.
Implicit Types (g : AdjMap V A) (s u v x y : V).

Lemma reach_trans g s x y : reach g s x -> reach g x y -> reach g s y.
Proof.
  intros Hsx Hxy. induction Hxy as [|y z Hxy IH Hz]; [assumption|].
  eapply reach_step; eauto.
Qed.

Lemma neighbors_sym g u v : wf g -> In v (neighbors g u) -> In u (neighbors g v).
Proof.
  intros Hwf Hin. apply neighbors_In in Hin. destruct Hin as [a Ha].
  apply neighbors_In. exists a. now apply (wf_sym g Hwf).
Qed.

Lemma reach_sym g s x : wf g -> reach g s x -> reach g x s.
Proof.
  intros Hwf. induction 1 as [|x y Hsx IH Hy]; [constructor|].
  eapply reach_trans; [|exact IH].
  eapply reach_step; [constructor|]. now apply neighbors_sym.
Qed.

Lemma neighbors_node g u v : wf g -> In v (neighbors g u) -> In v (nodes g).
Proof.
  intros Hwf Hin. apply neighbors_In in Hin. destruct Hin as [a Ha].
  eapply wf_neighbor_node; eauto.
Qed.

Lemma reach_node g s x : wf g -> In s (nodes g) -> reach g s x -> In x (nodes g).
Proof.
  intros Hwf Hs. induction 1 as [|x y Hsx IH Hy]; [assumption|].
  eapply neighbors_node; eauto.
Qed.

Lemma reach_ext {B : Type} (g : AdjMap V A) (g' : AdjMap V B) s x :
  (forall u v, In v (neighbors g u) -> In v (neighbors g' u)) ->
  reach g s x -> reach g' s x.
Proof.
  intros Hext. induction 1 as [|x y Hsx IH Hy]; [constructor|].
  eapply reach_step; eauto.
Qed.

(** *** One level of the search *)

Lemma fold_visit (ws : list V) :
  forall st : list V * list V,
  exists new,
    fold_left visit ws st = (fst st ++ new, snd st ++ new)
    /\ incl new ws
    /\ (NoDup (fst st) -> NoDup (fst st ++ new))
    /\ (forall w, In w ws -> In w (fst st ++ new)).
Proof.
  induction ws as [|w ws IH]; intros st; simpl.
  - exists []. rewrite !app_nil_r. repeat split; auto.
    + now destruct st.
    + intros x [].
    + intros w [].
  - unfold visit at 2. destruct (mem w (fst st)) eqn:E.
    + destruct (IH st) as (new & Hf & Hi & Hn & Hc). exists new.
      split; [assumption|]. split; [now apply incl_tl|]. split; [assumption|].
      intros x [<-|Hx]; [|auto]. apply mem_true in E. apply in_or_app. now left.
    + destruct (IH (fst st ++ [w], snd st ++ [w])) as (new & Hf & Hi & Hn & Hc).
      simpl in *. exists (w :: new). rewrite <- !app_assoc in *. simpl in *.
      split; [assumption|]. split; [|split].
      * intros x [<-|Hx]; [now left|right; auto].
      * intros Hnd. apply Hn. apply mem_false in E.
        apply NoDup_app; [assumption|repeat constructor; simpl; tauto|].
        intros x Hx [<-|[]]. contradiction.
      * intros x [<-|Hx]; [|auto]. apply in_or_app. right. now left.
Qed.

Lemma scan_level_spec g (level : list V) :
  forall seen acc,
  exists new,
    fold_left (fun st v => fold_left visit (neighbors g v) st) level (seen, acc)
    = (seen ++ new, acc ++ new)
    /\ (forall x, In x new -> exists v, In v level /\ In x (neighbors g v))
    /\ (NoDup seen -> NoDup (seen ++ new))
    /\ (forall v w, In v level -> In w (neighbors g v) -> In w (seen ++ new)).
Proof.
  induction level as [|v level IH]; intros seen acc; simpl.
  - exists []. rewrite !app_nil_r. repeat split; auto.
    + intros x [].
    + intros v w [].
  - destruct (fold_visit (neighbors g v) (seen, acc)) as (n1 & Hf1 & Hi1 & Hn1 & Hc1).
    simpl in *. rewrite Hf1.
    destruct (IH (seen ++ n1) (acc ++ n1)) as (n2 & Hf2 & Hi2 & Hn2 & Hc2).
    exists (n1 ++ n2). rewrite !app_assoc. split; [assumption|]. split; [|split].
    + intros x Hx. apply in_app_or in Hx. destruct Hx as [Hx|Hx].
      * exists v. split; [now left|auto].
      * destruct (Hi2 x Hx) as (v' & Hv' & Hx'). exists v'. split; [now right|auto].
    + intros Hnd. auto.
    + intros v' w [<-|Hv'] Hw.
      * apply in_or_app. left. auto.
      * eapply Hc2; eauto.
Qed.

Lemma scan_level_eq g level seen :
  exists new,
    scan_level g level seen = (seen ++ new, new)
    /\ (forall x, In x new -> exists v, In v level /\ In x (neighbors g v))
    /\ (NoDup seen -> NoDup (seen ++ new))
    /\ (forall v w, In v level -> In w (neighbors g v) -> In w (seen ++ new)).
Proof. apply (scan_level_spec g level seen []). Qed.

(** *** The whole search *)

Lemma plain_bfs_levels_sound g s fuel :
  forall level seen,
    (forall x, In x level -> reach g s x) ->
    (forall x, In x seen -> reach g s x) ->
    forall x, In x (plain_bfs_levels g fuel level seen) -> reach g s x.
Proof.
  induction fuel as [|fuel IH]; intros level seen Hl Hs; simpl; [assumption|].
  destruct level as [|v level]; [assumption|].
  destruct (scan_level_eq g (v :: level) seen) as (new & -> & Hi & _ & _).
  simpl. apply IH.
  - intros x Hx. destruct (Hi x Hx) as (v' & Hv' & Hx').
    eapply reach_step; eauto.
  - intros x Hx. apply in_app_or in Hx. destruct Hx as [Hx|Hx]; [auto|].
    destruct (Hi x Hx) as (v' & Hv' & Hx'). eapply reach_step; eauto.
Qed.

Lemma plain_bfs_levels_NoDup g fuel :
  forall level seen,
    NoDup seen -> NoDup (plain_bfs_levels g fuel level seen).
Proof.
  induction fuel as [|fuel IH]; intros level seen Hnd; simpl; [assumption|].
  destruct level as [|v level]; [assumption|].
  destruct (scan_level_eq g (v :: level) seen) as (new & -> & _ & Hn & _).
  simpl. apply IH. auto.
Qed.

Lemma plain_bfs_levels_closed g fuel :
  forall level seen,
    NoDup seen -> incl seen (nodes g) ->
    (forall u v, In u (nodes g) -> In v (neighbors g u) -> In v (nodes g)) ->
    incl level seen ->
    (forall x, In x seen ->
               In x level \/ forall w, In w (neighbors g x) -> In w seen) ->
    (level = [] \/ length (nodes g) < fuel + length seen) ->
    let r := plain_bfs_levels g fuel level seen in
    incl seen r
    /\ forall x w, In x r -> In w (neighbors g x) -> In w r.
Proof.
  induction fuel as [|fuel IH]; intros level seen Hnd Hincl Hnb Hls Hcl Hfuel.
  - assert (Hlen := NoDup_incl_length Hnd Hincl).
    destruct Hfuel as [->|Hf]; [|simpl in Hf; lia].
    simpl. split; [apply incl_refl|].
    intros x w Hx Hw. destruct (Hcl x Hx) as [[]|Hc]. auto.
  - destruct level as [|v level].
    + simpl. split; [apply incl_refl|].
      intros x w Hx Hw. destruct (Hcl x Hx) as [[]|Hc]. auto.
    + cbn [plain_bfs_levels].
      destruct (scan_level_eq g (v :: level) seen) as (new & -> & Hi & Hn & Hc).
      cbn [fst snd].
      assert (Hincl' : incl (seen ++ new) (nodes g)).
      { intros x Hx. apply in_app_or in Hx. destruct Hx as [Hx|Hx]; [auto|].
        destruct (Hi x Hx) as (v' & Hv' & Hx'). eapply Hnb; eauto. }
      destruct (IH new (seen ++ new)) as [Hr1 Hr2].
      * auto.
      * assumption.
      * assumption.
      * intros x Hx. apply in_or_app. now right.
      * intros x Hx. apply in_app_or in Hx. destruct Hx as [Hx|Hx]; [|now left].
        right. destruct (Hcl x Hx) as [Hlv|Hc'].
        -- intros w Hw. eapply Hc; eauto.
        -- intros w Hw. apply in_or_app. left. auto.
      * destruct new as [|n new]; [now left|right].
        destruct Hfuel as [Hf|Hf]; [discriminate|].
        rewrite length_app. simpl in *. lia.
      * split; [|assumption].
        intros x Hx. apply Hr1. apply in_or_app. now left.
Qed.

Lemma plain_bfs_sound g s x : In x (plain_bfs g s) -> reach g s x.
Proof.
  apply plain_bfs_levels_sound; intros y [<-|[]]; constructor.
Qed.

Lemma plain_bfs_NoDup g s : NoDup (plain_bfs g s).
Proof.
  apply plain_bfs_levels_NoDup. repeat constructor. simpl; tauto.
Qed.

Lemma plain_bfs_complete g s x :
  wf g -> In s (nodes g) -> reach g s x -> In x (plain_bfs g s).
Proof.
  intros Hwf Hs Hreach.
  destruct (plain_bfs_levels_closed g (S (length g)) [s] [s]) as [Hr1 Hr2].
  - repeat constructor. simpl; tauto.
  - intros y [<-|[]]. assumption.
  - intros u v _. now apply neighbors_node.
  - apply incl_refl.
  - intros y Hy. now left.
  - right. unfold nodes. rewrite length_map. simpl. lia.
  - fold (plain_bfs g s) in Hr1, Hr2.
    induction Hreach as [|y z Hsy IH Hz].
    + apply Hr1. now left.
    + eapply Hr2; eauto.
Qed.

(** [nx.is_connected] answers [True] exactly when every node is reached
    from the first one. *)
Lemma is_connected_true g :
  wf g ->
  (is_connected g = Ok true
   <-> exists s rest, nodes g = s :: rest /\ forall x, In x (nodes g) -> reach g s x).
Proof.
  intros Hwf. unfold is_connected.
  destruct (nodes g) as [|s rest] eqn:En.
  - split; [discriminate|]. intros (s & rest & [=] & _).
  - assert (Hs : In s (nodes g)) by (rewrite En; now left).
    assert (Hlen : length g = length (nodes g))
      by (unfold nodes; now rewrite length_map).
    assert (Hsub : incl (plain_bfs g s) (nodes g)).
    { intros x Hx. eapply reach_node; eauto. now apply plain_bfs_sound. }
    split.
    + intros [= Hl]. apply Nat.eqb_eq in Hl. exists s, rest. split; [reflexivity|].
      intros x Hx. apply plain_bfs_sound. rewrite <- En in Hx.
      apply (@NoDup_length_incl V (plain_bfs g s) (nodes g));
        [apply plain_bfs_NoDup|lia|assumption|assumption].
    + intros (s' & rest' & [= <- <-] & Hall). f_equal. apply Nat.eqb_eq.
      rewrite Hlen. apply Nat.le_antisymm.
      * apply NoDup_incl_length; [apply plain_bfs_NoDup|assumption].
      * apply NoDup_incl_length; [apply Hwf|].
        intros x Hx. apply plain_bfs_complete; try assumption.
        apply Hall. rewrite <- En. assumption.
Qed.

Lemma is_connected_reach g s x :
  wf g -> is_connected g = Ok true ->
  In s (nodes g) -> In x (nodes g) -> reach g s x.
Proof.
  intros Hwf Hc Hs Hx. apply (is_connected_true g Hwf) in Hc.
  destruct Hc as (s0 & rest & En & Hall).
  eapply reach_trans; [|apply Hall; assumption].
  apply reach_sym; [assumption|]. now apply Hall.
Qed.
End Reach.

(** ** Copies of a graph *)

Section Copy.
Context {V : Type} {V_dec : EqDec V} {A : Type} `{EdgeDataLaws A}.
Implicit Types (g : AdjMap V A) (u v x y : V) (a : A).

Lemma In_adjacency_triples g u v a :
  In (u, v, a) (adjacency_triples g)
  <-> exists nbrs, In (u, nbrs) g /\ In (v, a) nbrs.
Proof.
  unfold adjacency_triples. rewrite in_flat_map. split.
  - intros ([u' nbrs] & Hin & Ht). simpl in Ht. apply in_map_iff in Ht.
    destruct Ht as ([v' a'] & [= <- <- <-] & Hnb). eauto.
  - intros (nbrs & Hin & Hnb). exists (u, nbrs). split; [assumption|].
    simpl. apply in_map_iff. exists (v, a). auto.
Qed.

Lemma adjacency_triples_get g u v a :
  wf g -> (In (u, v, a) (adjacency_triples g) <-> get_edge g u v = Some a).
Proof.
  intros Hwf. rewrite In_adjacency_triples. split.
  - intros (nbrs & Hin & Hnb). unfold get_edge.
    rewrite (adj_In g u nbrs (wf_nodes g Hwf) Hin).
    apply In_dict_get; [|assumption].
    rewrite <- (adj_In g u nbrs (wf_nodes g Hwf) Hin). apply Hwf.
  - intros Hg. exists (adj g u). split.
    + apply In_adj. eapply get_edge_node; eauto.
    + now apply dict_get_In.
Qed.

Lemma get_edge_add_entry_hit g u v a x y :
  get_edge (add_entry g u v a) x y
  = if same_edge (u, v) x y then Some a else get_edge g x y.
Proof. rewrite get_edge_add_entry. eqv_cases. Qed.

Lemma add_triples_get (F : V -> V -> option A) (l : list (V * V * A)) :
  (forall u v a, In (u, v, a) l -> F u v = Some a /\ F v u = Some a) ->
  forall g x y,
    get_edge (add_triples l g) x y
    = if existsb (fun t => same_edge (fst t) x y) l then F x y else get_edge g x y.
Proof.
  induction l as [|[[u v] a] l IH]; intros HF g x y; [reflexivity|].
  cbn [add_triples fold_left existsb fst snd].
  fold (add_triples l (add_entry g u v a)).
  rewrite IH by (intros; apply HF; now right).
  destruct (existsb _ l); [now rewrite orb_true_r|].
  rewrite orb_false_r, get_edge_add_entry_hit.
  destruct (same_edge (u, v) x y) eqn:Es; [|reflexivity].
  destruct (HF u v a (or_introl eq_refl)) as [H1 H2].
  apply same_edge_true in Es. destruct Es as [[= <- <-]|[= <- <-]]; congruence.
Qed.

Lemma add_triples_nodes (l : list (V * V * A)) :
  forall g,
    (forall u v a, In (u, v, a) l -> In u (nodes g) /\ In v (nodes g)) ->
    nodes (add_triples l g) = nodes g.
Proof.
  induction l as [|[[u v] a] l IH]; intros g Hin; [reflexivity|].
  cbn [add_triples fold_left fst snd]. fold (add_triples l (add_entry g u v a)).
  destruct (Hin u v a (or_introl eq_refl)) as [Hu Hv].
  assert (Hn : nodes (add_entry g u v a) = nodes g) by now apply nodes_add_entry_old.
  rewrite IH; [assumption|]. intros u' v' a' H'. rewrite Hn. apply (Hin u' v' a'). now right.
Qed.

Lemma add_triples_wf (l : list (V * V * A)) :
  forall g,
    wf g -> (forall u v a, In (u, v, a) l -> 0 < copies a) ->
    wf (add_triples l g).
Proof.
  induction l as [|[[u v] a] l IH]; intros g Hwf Hpos; [assumption|].
  cbn [add_triples fold_left fst snd]. apply IH.
  - apply wf_add_entry; [assumption|]. eapply Hpos. now left.
  - intros; eapply Hpos; right; eauto.
Qed.

Lemma nodes_empty_copy g : nodes (map (fun e => (fst e, @nil (V * A))) g) = nodes g.
Proof. unfold nodes. rewrite map_map. reflexivity. Qed.

Lemma adj_empty_copy g x : adj (map (fun e => (fst e, @nil (V * A))) g) x = [].
Proof.
  unfold adj. induction g as [|[k nb] g IH]; simpl; [reflexivity|].
  destruct (eq_dec x k); [reflexivity|assumption].
Qed.

Lemma wf_empty_copy g : wf g -> wf (map (fun e => (fst e, @nil (V * A))) g).
Proof.
  intros Hwf. split.
  - rewrite nodes_empty_copy. apply Hwf.
  - intros u. rewrite adj_empty_copy. constructor.
  - intros u v a. unfold get_edge. rewrite adj_empty_copy. discriminate.
  - intros u v a. unfold get_edge. rewrite adj_empty_copy. discriminate.
Qed.

Lemma copy_nodes g : wf g -> nodes (copy g) = nodes g.
Proof.
  intros Hwf. unfold copy. fold (add_triples (adjacency_triples g)
                                   (map (fun e => (fst e, @nil (V * A))) g)).
  rewrite add_triples_nodes; [apply nodes_empty_copy|].
  intros u v a Hin. rewrite nodes_empty_copy.
  apply (adjacency_triples_get g u v a Hwf) in Hin. split.
  - eapply get_edge_node; eauto.
  - eapply wf_neighbor_node; eauto.
Qed.

Lemma copy_wf g : wf g -> wf (copy g).
Proof.
  intros Hwf. apply add_triples_wf; [now apply wf_empty_copy|].
  intros u v a Hin. apply (adjacency_triples_get g u v a Hwf) in Hin.
  eapply wf_pos; eauto.
Qed.

Lemma copy_get_edge g x y : wf g -> get_edge (copy g) x y = get_edge g x y.
Proof.
  intros Hwf. unfold copy.
  fold (add_triples (adjacency_triples g) (map (fun e => (fst e, @nil (V * A))) g)).
  rewrite (add_triples_get (get_edge g)).
  - destruct (existsb _ _) eqn:Ee; [reflexivity|].
    unfold get_edge at 1. rewrite adj_empty_copy. simpl.
    destruct (get_edge g x y) as [a|] eqn:Eg; [|reflexivity].
    apply (adjacency_triples_get g x y a Hwf) in Eg.
    assert (Ht : existsb (fun t => same_edge (fst t) x y) (adjacency_triples g) = true).
    { apply existsb_exists. exists (x, y, a). split; [assumption|].
      apply same_edge_true. now left. }
    congruence.
  - intros u v a Hin. apply (adjacency_triples_get g u v a Hwf) in Hin.
    split; [assumption|]. now apply (wf_sym g Hwf).
Qed.

Lemma copy_mult g x y : wf g -> mult (copy g) x y = mult g x y.
Proof. intros Hwf. unfold mult. now rewrite copy_get_edge. Qed.

Lemma copy_degree g x : wf g -> degree (copy g) x = degree g x.
Proof.
  intros Hwf.
  rewrite (degree_as_mult (copy g) x (copy_wf g Hwf)), (degree_as_mult g x Hwf).
  rewrite copy_nodes by assumption. rewrite copy_mult by assumption.
  f_equal. apply sum_nat_map_ext. intros; now apply copy_mult.
Qed.

Lemma copy_neighbors g u v :
  wf g -> (In v (neighbors (copy g) u) <-> In v (neighbors g u)).
Proof. intros Hwf. rewrite !neighbors_In. now rewrite copy_get_edge. Qed.

Lemma copy_reach g s x : wf g -> (reach (copy g) s x <-> reach g s x).
Proof.
  intros Hwf. split; apply reach_ext; intros u v; now apply copy_neighbors.
Qed.
End Copy.

(** ** nx.eulerian_circuit returns an Eulerian circuit *)

Section Circuit.
Context {V : Type} {V_dec : EqDec V} {A : Type} `{EdgeDataLaws A}.
Implicit Types (g : AdjMap V A) (u v x y : V) (a : A).

Lemma sum_nat_map_le {X : Type} (f h : X -> nat) (l : list X) :
  (forall z, In z l -> f z <= h z) -> sum_nat (map f l) <= sum_nat (map h l).
Proof.
  induction l as [|z l IH]; simpl; intros Hle; [lia|].
  specialize (Hle z (or_introl eq_refl)) as Hx.
  assert (sum_nat (map f l) <= sum_nat (map h l)) by (apply IH; intros; apply Hle; now right).
  lia.
Qed.

Lemma degree_sum_le_adj_size g : wf g -> degree_sum g <= 2 * adj_size g.
Proof.
  intros Hwf. unfold degree_sum, adj_size, nodes. rewrite map_map.
  transitivity (sum_nat (map (fun e : V * list (V * A) =>
                                2 * sum_nat (map (fun nb => copies (snd nb)) (snd e))) g)).
  - apply sum_nat_map_le. intros [u nbrs] Hin. simpl.
    unfold degree. rewrite (adj_In g u nbrs (wf_nodes g Hwf) Hin).
    assert (Hle : mult g u u <= sum_nat (map (fun e => copies (snd e)) nbrs)).
    { rewrite (sum_dict_del copies nbrs u). unfold look, mult, get_edge.
      rewrite (adj_In g u nbrs (wf_nodes g Hwf) Hin).
      destruct (dict_get nbrs u); lia. }
    lia.
  - clear Hwf. induction g as [|e g IH]; simpl in *; lia.
Qed.

Lemma is_eulerian_true g :
  is_eulerian g = Ok true
  <-> forallb (fun n => degree g n mod 2 =? 0) (nodes g) = true
      /\ is_connected g = Ok true.
Proof.
  unfold is_eulerian. destruct (forallb _ _); split; intros Hh;
    try tauto; try discriminate. destruct Hh; discriminate.
Qed.

Lemma is_eulerian_even g x :
  is_eulerian g = Ok true -> Nat.even (degree g x) = true.
Proof.
  intros He. apply is_eulerian_true in He. destruct He as [Hall _].
  destruct (in_dec eq_dec x (nodes g)) as [Hin|Hnin].
  - rewrite forallb_forall in Hall. specialize (Hall x Hin).
    now rewrite mod2_even in Hall.
  - now rewrite degree_not_node.
Qed.

Theorem eulerian_circuit_spec g source :
  wf g -> is_eulerian g = Ok true -> In source (nodes g) ->
  exists out,
    eulerian_circuit g source = Ok out
    /\ walk_end source out = Some source
    /\ forall x y, occ out x y = mult g x y.
Proof.
  intros Hwf He Hs. unfold eulerian_circuit. rewrite He. cbn [bind negb].
  apply mem_true in Hs. rewrite Hs. cbn [negb]. apply mem_true in Hs.
  assert (Hwf' := copy_wf g Hwf).
  assert (Hinit : loop_inv (copy g) source (copy g) [source] None []).
  { apply loop_inv_init; [assumption|].
    intros x. rewrite copy_degree by assumption. now apply is_eulerian_even. }
  destruct (circuit_loop_inv (copy g) source (2 * adj_size (copy g) + 2)
              (copy g) [source] None [] Hinit) as (out & gf & Hrun & Hfin).
  { pose proof (degree_sum_le_adj_size (copy g) Hwf'). simpl. lia. }
  rewrite Hrun. exists out. split; [reflexivity|].
  destruct (loop_inv_final (copy g) source gf out Hwf' Hfin) as (Hw & Hle & Heq).
  split; [assumption|].
  intros x y. rewrite <- (copy_mult g x y Hwf).
  destruct (in_dec eq_dec x (nodes g)) as [Hx|Hx].
  - symmetry. apply Heq. apply copy_reach; [assumption|].
    apply is_eulerian_true in He. destruct He as [_ Hc].
    now apply is_connected_reach.
  - specialize (Hle x y).
    assert (mult (copy g) x y = 0).
    { unfold mult, get_edge. rewrite adj_nil_not_node; [reflexivity|].
      now rewrite copy_nodes. }
    lia.
Qed.

Lemma eulerian_circuit_Ok g source out :
  eulerian_circuit g source = Ok out ->
  is_eulerian g = Ok true /\ In source (nodes g).
Proof.
  unfold eulerian_circuit. destruct (is_eulerian g) as [[|]|e]; simpl; try discriminate.
  destruct (mem source (nodes g)) eqn:E; simpl; [|discriminate].
  intros _. split; [reflexivity|now apply mem_true].
Qed.
End Circuit.

(** ** Sums over the edges a graph reports *)

Section SumsZ.
Open Scope Z_scope.

Lemma sum_Z_app (l1 l2 : list Z) : sum_Z (l1 ++ l2) = sum_Z l1 + sum_Z l2.
Proof. induction l1; simpl; lia. Qed.

Lemma sum_Z_map_add {X : Type} (f h : X -> Z) (l : list X) :
  sum_Z (map (fun x => f x + h x) l) = sum_Z (map f l) + sum_Z (map h l).
Proof. induction l; simpl; lia. Qed.

Lemma sum_Z_map_ext {X : Type} (f h : X -> Z) (l : list X) :
  (forall x, In x l -> f x = h x) -> sum_Z (map f l) = sum_Z (map h l).
Proof.
  induction l as [|x l IH]; simpl; intros Hext; [reflexivity|].
  rewrite Hext by now left. rewrite IH; [reflexivity|]. intros; apply Hext; now right.
Qed.

Lemma sum_Z_zero {X : Type} (f : X -> Z) (l : list X) :
  (forall x, In x l -> f x = 0) -> sum_Z (map f l) = 0.
Proof.
  induction l as [|x l IH]; simpl; intros Hz; [reflexivity|].
  rewrite Hz by now left. rewrite IH; [reflexivity|]. intros; apply Hz; now right.
Qed.

Lemma sum_Z_Permutation (l1 l2 : list Z) :
  Permutation l1 l2 -> sum_Z l1 = sum_Z l2.
Proof. induction 1; simpl; lia. Qed.

Lemma sum_Z_flat_map {X : Type} (f : X -> list Z) (l : list X) :
  sum_Z (flat_map f l) = sum_Z (map (fun x => sum_Z (f x)) l).
Proof. induction l; simpl; [reflexivity|]. rewrite sum_Z_app. lia. Qed.

Lemma sum_Z_nonneg (l : list Z) : (forall z, In z l -> 0 <= z) -> 0 <= sum_Z l.
Proof.
  induction l as [|z l IH]; simpl; intros Hz; [lia|].
  assert (0 <= z) by (apply Hz; now left).
  assert (0 <= sum_Z l) by (apply IH; intros; apply Hz; now right). lia.
Qed.
End SumsZ.

Section USum.
Context {V : Type} {V_dec : EqDec V}.
Open Scope Z_scope.
Implicit Types (W : V -> V -> Z) (l : list V).

Lemma usum_ext W W' l :
  (forall x y, In x l -> In y l -> W x y = W' x y) -> usum W l = usum W' l.
Proof.
  induction l as [|a l IH]; intros Hext; simpl; [reflexivity|].
  rewrite (Hext a a) by (now left).
  rewrite (sum_Z_map_ext (W a) (W' a)) by (intros; apply Hext; simpl; auto).
  rewrite IH; [reflexivity|]. intros; apply Hext; simpl; auto.
Qed.

Lemma usum_add W W' l :
  usum (fun x y => W x y + W' x y) l = usum W l + usum W' l.
Proof.
  induction l as [|a l IH]; simpl; [reflexivity|].
  rewrite sum_Z_map_add, IH. lia.
Qed.

Lemma usum_app_zero W l l' :
  (forall x y, In y l' -> W x y = 0) -> (forall x y, In x l' -> W x y = 0) ->
  usum W (l ++ l') = usum W l.
Proof.
  intros Hz1 Hz2. induction l as [|a l IH]; simpl.
  - induction l' as [|b l' IH']; simpl; [reflexivity|].
    rewrite Hz1 by now left. rewrite sum_Z_zero by (intros; apply Hz2; now left).
    rewrite IH'; [reflexivity| |]; intros; [apply Hz1|apply Hz2]; now right.
  - rewrite IH, map_app, sum_Z_app.
    rewrite (sum_Z_zero (W a) l') by (intros; now apply Hz1). lia.
Qed.

Lemma usum_zero W l :
  (forall x y, In x l -> In y l -> W x y = 0) -> usum W l = 0.
Proof.
  induction l as [|a l IH]; intros Hz; simpl; [reflexivity|].
  rewrite Hz by (now left). rewrite sum_Z_zero by (intros; apply Hz; simpl; auto).
  rewrite IH; [reflexivity|]. intros; apply Hz; simpl; auto.
Qed.

Lemma sum_Z_single (f : V -> Z) v l :
  NoDup l -> In v l -> (forall y, In y l -> y <> v -> f y = 0) ->
  sum_Z (map f l) = f v.
Proof.
  induction 1 as [|a l Hnin Hnd IH]; simpl; [tauto|].
  intros [->|Hv] Hz.
  - rewrite sum_Z_zero; [lia|]. intros y Hy. apply Hz; [now right|].
    intros ->. contradiction.
  - rewrite IH by (auto). rewrite Hz; [lia|now left|].
    intros ->. contradiction.
Qed.

Lemma delta_hit u v x y :
  delta u v x y = 1 <-> (x = u /\ y = v) \/ (x = v /\ y = u).
Proof.
  unfold delta. destruct (same_edge (u, v) x y) eqn:Es.
  - apply same_edge_true in Es. split; [|reflexivity]. intros _.
    destruct Es as [[= -> ->]|[= -> ->]]; tauto.
  - split; [discriminate|]. intros Hh.
    assert (same_edge (u, v) x y = true); [|congruence].
    apply same_edge_true. destruct Hh as [[-> ->]|[-> ->]]; tauto.
Qed.

Lemma delta_miss u v x y :
  ~ (x = u /\ y = v) -> ~ (x = v /\ y = u) -> delta u v x y = 0.
Proof.
  intros H1 H2. unfold delta. destruct (same_edge (u, v) x y) eqn:Es; [|reflexivity].
  apply same_edge_true in Es. destruct Es as [[= -> ->]|[= -> ->]]; tauto.
Qed.

(** One unordered pair of a duplicate-free list. *)
Lemma usum_delta u v l :
  NoDup l -> In u l -> In v l -> usum (delta u v) l = 1.
Proof.
  induction 1 as [|a l Hnin Hnd IH]; simpl; [tauto|].
  intros Hu Hv.
  destruct (eq_dec a u) as [Eu|Hau]; destruct (eq_dec a v) as [Ev|Hav].
  - subst u v.
    rewrite (proj2 (delta_hit a a a a)) by tauto.
    rewrite sum_Z_zero, usum_zero; [reflexivity| |].
    + intros x y Hx Hy. apply delta_miss; intros [-> _]; contradiction.
    + intros y Hy. apply delta_miss; intros [_ ->]; contradiction.
  - subst u. destruct Hv as [Hv|Hv]; [congruence|].
    rewrite (delta_miss a v a a) by (intros [? ?]; congruence).
    rewrite (sum_Z_single (delta a v a) v l Hnd Hv).
    + rewrite (proj2 (delta_hit a v a v)) by tauto.
      rewrite usum_zero; [reflexivity|].
      intros x y Hx Hy. apply delta_miss; intros [-> ->]; contradiction.
    + intros y Hy Hne. apply delta_miss; intros [? ?]; congruence.
  - subst v. destruct Hu as [Hu|Hu]; [congruence|].
    rewrite (delta_miss u a a a) by (intros [? ?]; congruence).
    rewrite (sum_Z_single (delta u a a) u l Hnd Hu).
    + rewrite (proj2 (delta_hit u a a u)) by tauto.
      rewrite usum_zero; [reflexivity|].
      intros x y Hx Hy. apply delta_miss; intros [-> ->]; contradiction.
    + intros y Hy Hne. apply delta_miss; intros [? ?]; congruence.
  - destruct Hu as [Hu|Hu]; [congruence|]. destruct Hv as [Hv|Hv]; [congruence|].
    rewrite IH by assumption.
    rewrite (delta_miss u v a a) by (intros [? ?]; congruence).
    rewrite sum_Z_zero; [reflexivity|].
    intros y Hy. apply delta_miss; intros [? ?]; congruence.
Qed.

Lemma usum_scale W (k : Z) l : usum (fun x y => k * W x y) l = k * usum W l.
Proof.
  induction l as [|a l IH]; simpl; [lia|]. rewrite IH.
  assert (Hs : sum_Z (map (fun y => k * W a y) l) = k * sum_Z (map (W a) l)).
  { clear. induction l; simpl; lia. }
  rewrite Hs. lia.
Qed.

(** Changing a table at one pair changes the sum by as much. *)
Lemma usum_change W W' u v (k : Z) l :
  NoDup l -> In u l -> In v l ->
  (forall x y, W' x y = W x y + k * delta u v x y) ->
  usum W' l = usum W l + k.
Proof.
  intros Hnd Hu Hv Hw.
  rewrite (usum_ext W' (fun x y => W x y + k * delta u v x y)) by (intros; apply Hw).
  rewrite usum_add, usum_scale, usum_delta by assumption. lia.
Qed.
End USum.

Section ItemsSum.
Context {V : Type} {V_dec : EqDec V} {A : Type} `{EdgeDataLaws A}.
Open Scope Z_scope.
Implicit Types (g : AdjMap V A) (u v x y : V) (a : A) (d : list (V * A)).

Lemma sumZ_dict_del (f : V -> A -> Z) d (k : V) :
  sum_Z (map (fun e => f (fst e) (snd e)) d)
  = look_at f d k + sum_Z (map (fun e => f (fst e) (snd e)) (dict_del d k)).
Proof.
  unfold look_at. induction d as [|[k' a] d IH]; simpl; [reflexivity|].
  destruct (eq_dec k k') as [->|]; simpl; [reflexivity|]. rewrite IH. lia.
Qed.

Lemma sumZ_dict_over_keys (f : V -> A -> Z) (N : list V) :
  NoDup N ->
  forall d,
    NoDup (map fst d) -> incl (map fst d) N ->
    sum_Z (map (fun e => f (fst e) (snd e)) d) = sum_Z (map (look_at f d) N).
Proof.
  induction 1 as [|n N Hnin Hnd IH]; intros d Hd Hincl.
  - destruct d as [|[k a] d]; [reflexivity|].
    exfalso. apply (Hincl k). now left.
  - simpl. rewrite (sumZ_dict_del f d n). f_equal.
    rewrite (IH (dict_del d n)).
    + apply sum_Z_map_ext. intros v Hv. unfold look_at.
      rewrite dict_get_del_ne; [reflexivity|]. intros ->. contradiction.
    + now apply dict_del_NoDup.
    + intros k Hk. assert (Hk' := dict_del_keys_incl _ _ _ Hk).
      destruct (Hincl k Hk') as [<-|?]; [|assumption].
      exfalso. destruct (dict_get_key _ _ Hk) as [a Ha].
      rewrite dict_get_del_eq in Ha by assumption. discriminate.
Qed.

Lemma dict_get_filter (p : V -> bool) d k :
  dict_get (filter (fun e => p (fst e)) d) k
  = if p k then dict_get d k else None.
Proof.
  induction d as [|[k' a] d IH]; simpl; [now destruct (p k)|].
  destruct (p k') eqn:Ep; simpl.
  - destruct (eq_dec k k') as [->|]; [now rewrite Ep|assumption].
  - rewrite IH. destruct (eq_dec k k') as [->|]; [now rewrite Ep|reflexivity].
Qed.

Lemma filter_keys_NoDup (p : V -> bool) d :
  NoDup (map fst d) -> NoDup (map fst (filter (fun e => p (fst e)) d)).
Proof.
  induction d as [|[k a] d IH]; simpl; intros Hnd; [constructor|].
  inversion Hnd as [|? ? Hnin Hnd']; subst.
  destruct (p k); simpl; [|auto]. constructor; [|auto].
  intros Hin. apply Hnin. apply in_map_iff in Hin.
  destruct Hin as (e & He & Hin). apply filter_In in Hin.
  apply in_map_iff. exists e. tauto.
Qed.

Lemma sumZ_filter_over (f : V -> A -> Z) (p : V -> bool) (N : list V) d :
  NoDup N -> NoDup (map fst d) ->
  (forall y, In y N -> p y = true) ->
  (forall k, In k (map fst d) -> p k = true -> In k N) ->
  sum_Z (map (fun e => f (fst e) (snd e)) (filter (fun e => p (fst e)) d))
  = sum_Z (map (look_at f d) N).
Proof.
  intros HN Hd Hp Hk.
  rewrite (sumZ_dict_over_keys f N HN).
  - apply sum_Z_map_ext. intros y Hy. unfold look_at.
    rewrite dict_get_filter, (Hp y Hy). reflexivity.
  - now apply filter_keys_NoDup.
  - intros k Hin. apply in_map_iff in Hin. destruct Hin as (e & <- & Hin).
    apply filter_In in Hin. destruct Hin as [Hin Hpe].
    apply Hk; [|assumption]. now apply in_map.
Qed.

Lemma items_sum_app (h : V -> V -> A -> Z) (l1 l2 : list (V * V * A)) :
  items_sum h (l1 ++ l2) = items_sum h l1 + items_sum h l2.
Proof. unfold items_sum. now rewrite map_app, sum_Z_app. Qed.

Lemma items_sum_from (h : V -> V -> A -> Z) g :
  (forall u, NoDup (map fst (adj g u))) ->
  forall suf seen,
    (forall n nbrs, In (n, nbrs) suf -> adj g n = nbrs) ->
    NoDup (nodes suf) ->
    (forall y, In y (nodes suf) -> ~ In y seen) ->
    (forall n v a, In n (nodes suf) -> get_edge g n v = Some a ->
                   In v seen \/ In v (nodes suf)) ->
    items_sum h (edge_items_from seen suf) = usum (entry_val h g) (nodes suf).
Proof.
  intros Hkeys. induction suf as [|[n nbrs] suf IH]; intros seen Hadj Hnd Hseen Hnb;
    [reflexivity|].
  cbn [edge_items_from nodes map fst usum]. fold (nodes suf).
  inversion Hnd as [|? ? Hnin Hnd']; subst.
  rewrite items_sum_app, IH.
  - assert (Hfirst :
      items_sum h (map (fun e => (n, fst e, snd e))
                       (filter (fun e => negb (mem (fst e) seen)) nbrs))
      = sum_Z (map (look_at (h n) nbrs) (n :: nodes suf))).
    { unfold items_sum. rewrite map_map. cbn [fst snd].
      apply (sumZ_filter_over (h n) (fun k => negb (mem k seen)) (n :: nodes suf) nbrs).
      - assumption.
      - rewrite <- (Hadj n nbrs) by now left. apply Hkeys.
      - intros y Hy. apply negb_true_iff, mem_false. apply Hseen. exact Hy.
      - intros k Hk Hp. apply negb_true_iff, mem_false in Hp.
        rewrite <- (Hadj n nbrs (or_introl eq_refl)) in Hk.
        destruct (dict_get_key _ _ Hk) as [a Ha].
        destruct (Hnb n k a (or_introl eq_refl) Ha) as [?|?]; [contradiction|assumption]. }
    rewrite Hfirst. cbn [map sum_Z fold_right].
    assert (Hval : forall y, look_at (h n) nbrs y = entry_val h g n y).
    { intros y. unfold look_at, entry_val, get_edge.
      now rewrite (Hadj n nbrs (or_introl eq_refl)). }
    rewrite Hval. rewrite (sum_Z_map_ext _ _ _ (fun y _ => Hval y)).
    unfold sum_Z. lia.
  - intros n' nbrs' Hin. apply Hadj. now right.
  - assumption.
  - intros y Hy [<-|Hin]; [contradiction|]. apply (Hseen y); [now right|assumption].
  - intros n' v a Hn' Hg.
    destruct (Hnb n' v a (or_intror Hn') Hg) as [?|[<-|?]]; simpl; auto.
Qed.

Theorem items_sum_usum (h : V -> V -> A -> Z) g :
  wf g -> items_sum h (edge_items g) = usum (entry_val h g) (nodes g).
Proof.
  intros Hwf. apply items_sum_from.
  - apply Hwf.
  - intros n nbrs Hin. apply adj_In; [apply Hwf|assumption].
  - apply Hwf.
  - intros y _ [].
  - intros n v a _ Hg. right. eapply wf_neighbor_node; eauto.
Qed.

(** *** The total weight *)

Lemma total_weight_items g :
  total_weight g = items_sum (fun _ _ a => sum_Z (weights a)) (edge_items g).
Proof.
  unfold total_weight, edges_data, items_sum.
  induction (edge_items g) as [|[[u v] a] l IH]; simpl; [reflexivity|].
  rewrite map_app, sum_Z_app, IH, map_map. simpl. now rewrite map_id.
Qed.

(** *** How often an edge is reported *)

Lemma occ_edges_items g x y :
  Z.of_nat (occ (edges g) x y)
  = items_sum (fun u v a => Z.of_nat (copies a) * delta u v x y) (edge_items g).
Proof.
  unfold edges, edges_data, items_sum.
  induction (edge_items g) as [|[[u v] a] l IH]; simpl; [reflexivity|].
  rewrite map_app, occ_app, Nat2Z.inj_add, IH. f_equal.
  rewrite map_map. simpl. rewrite <- (weights_length a).
  unfold delta. induction (weights a) as [|w ws IHw]; simpl; [reflexivity|].
  rewrite occ_cons. destruct (same_edge (u, v) x y); simpl b2n; lia.
Qed.

Lemma delta_sym_pairs u v x y : delta u v x y = delta x y u v.
Proof. unfold delta. f_equal. eqv_cases. Qed.

Theorem occ_edges g x y : wf g -> occ (edges g) x y = mult g x y.
Proof.
  intros Hwf. apply Nat2Z.inj. rewrite occ_edges_items, items_sum_usum by assumption.
  rewrite (usum_ext _ (fun u v => Z.of_nat (mult g x y) * delta x y u v)).
  - rewrite usum_scale.
    destruct (in_dec eq_dec x (nodes g)) as [Hx|Hx];
      [destruct (in_dec eq_dec y (nodes g)) as [Hy|Hy]|].
    + rewrite usum_delta; [lia|apply Hwf|assumption|assumption].
    + assert (Hm : mult g x y = 0%nat).
      { unfold mult. destruct (get_edge g x y) as [a|] eqn:E; [|reflexivity].
        exfalso. apply Hy. eapply wf_neighbor_node; eauto. }
      rewrite Hm. lia.
    + assert (Hm : mult g x y = 0%nat).
      { unfold mult, get_edge. now rewrite adj_nil_not_node. }
      rewrite Hm. lia.
  - intros u v _ _. unfold entry_val. rewrite (delta_sym_pairs u v x y).
    destruct (Z.eq_dec (delta x y u v) 0) as [->|Hd]; [destruct (get_edge g u v); lia|].
    assert (Hhit : delta x y u v = 1).
    { unfold delta in *. destruct (same_edge (x, y) u v); congruence. }
    apply delta_hit in Hhit. unfold mult.
    destruct Hhit as [[-> ->]|[-> ->]].
    + destruct (get_edge g x y); lia.
    + fold (mult g y x). fold (mult g x y). rewrite (mult_sym g x y Hwf).
      unfold mult. destruct (get_edge g y x); lia.
Qed.

(** Two lists of pairs that pass equally often between any two vertices
    have the same length. *)
Lemma occ_length (c1 : list (V * V)) :
  forall c2 : list (V * V),
    (forall x y, occ c1 x y = occ c2 x y) -> length c1 = length c2.
Proof.
  induction c1 as [|[a b] c1 IH]; intros c2 Hocc.
  - destruct c2 as [|[a b] c2]; [reflexivity|].
    specialize (Hocc a b). rewrite occ_nil, occ_cons in Hocc.
    assert (same_edge (a, b) a b = true) by (apply same_edge_true; now left).
    rewrite H1 in Hocc. simpl in Hocc. lia.
  - assert (Hpos : (0 < occ c2 a b)%nat).
    { rewrite <- Hocc, occ_cons.
      assert (same_edge (a, b) a b = true) by (apply same_edge_true; now left).
      rewrite H1. simpl. lia. }
    apply occ_pos_In in Hpos.
    assert (Hex : exists e l1 l2, c2 = l1 ++ e :: l2
                                  /\ forall x y, same_edge e x y = same_edge (a, b) x y).
    { destruct Hpos as [Hin|Hin]; apply in_split in Hin;
        destruct Hin as (l1 & l2 & ->).
      - exists (a, b), l1, l2. split; reflexivity.
      - exists (b, a), l1, l2. split; [reflexivity|].
        intros x y. apply same_edge_swap. }
    destruct Hex as (e & l1 & l2 & -> & Hsame).
    rewrite length_app. simpl. rewrite Nat.add_succ_r, <- length_app. f_equal.
    apply IH. intros x y. specialize (Hocc x y).
    rewrite occ_cons, !occ_app, occ_cons, Hsame in Hocc.
    rewrite occ_app. lia.
Qed.
End ItemsSum.

(** ** Building the multigraph *)

Section MultiBuild.
Context {V : Type} {V_dec : EqDec V}.
Implicit Types (m : MultiGraph V) (u v x y : V) (w : Z) (kd : KeyDict).

Lemma dict_set_fresh (kd : KeyDict) (k : nat) w :
  ~ In k (map fst kd) -> dict_set kd k w = kd ++ [(k, w)].
Proof.
  induction kd as [|[k' w'] kd IH]; simpl; intros Hn; [reflexivity|].
  destruct (eq_dec k k') as [->|Hne]; [exfalso; apply Hn; now left|].
  f_equal. apply IH. tauto.
Qed.

Lemma free_key_fresh kd fuel :
  map fst kd = seq 0 (length kd) -> free_key (S fuel) (length kd) kd = length kd.
Proof.
  intros Hk. simpl.
  assert (Hm : dict_mem kd (length kd) = false).
  { apply dict_mem_false. rewrite Hk, in_seq. lia. }
  now rewrite Hm.
Qed.

Lemma madd_edge_entry m u v w :
  keys_ok m ->
  madd_edge m u v w = add_entry m u v (next_keydict (get_edge m u v) w).
Proof.
  intros Hk. unfold madd_edge, add_entry, new_edge_key.
  rewrite !get_edge_add_node.
  destruct (get_edge m u v) as [kd|] eqn:E; [|reflexivity].
  assert (Hkeys := Hk u v kd E).
  rewrite free_key_fresh by assumption.
  rewrite dict_set_fresh; [reflexivity|]. rewrite Hkeys, in_seq. lia.
Qed.

Lemma next_keydict_keys o w :
  (forall kd, o = Some kd -> map fst kd = seq 0 (length kd)) ->
  map fst (next_keydict o w) = seq 0 (length (next_keydict o w)).
Proof.
  intros Hk. destruct o as [kd|]; simpl; [|reflexivity].
  rewrite map_app, length_app. cbn [map fst length].
  rewrite seq_app, (Hk kd eq_refl). reflexivity.
Qed.

Lemma next_keydict_length o w :
  length (next_keydict o w) = S (copies_opt o).
Proof.
  destruct o as [kd|]; simpl; [|reflexivity]. rewrite length_app. simpl. lia.
Qed.

Lemma next_keydict_sum o w :
  sum_Z (weights (next_keydict o w))
  = (match o with Some kd => sum_Z (weights kd) | None => 0 end + w)%Z.
Proof.
  destruct o as [kd|]; simpl; [|lia]. rewrite map_app, sum_Z_app. simpl. lia.
Qed.

Lemma madd_edge_wf m u v w : wf m -> keys_ok m -> wf (madd_edge m u v w).
Proof.
  intros Hwf Hk. rewrite madd_edge_entry by assumption.
  apply wf_add_entry; [assumption|]. simpl. rewrite next_keydict_length. lia.
Qed.

Lemma madd_edge_get m u v w x y :
  keys_ok m ->
  get_edge (madd_edge m u v w) x y
  = if same_edge (u, v) x y then Some (next_keydict (get_edge m u v) w)
    else get_edge m x y.
Proof.
  intros Hk. rewrite madd_edge_entry by assumption. apply get_edge_add_entry_hit.
Qed.

Lemma madd_edge_keys_ok m u v w : wf m -> keys_ok m -> keys_ok (madd_edge m u v w).
Proof.
  intros Hwf Hk x y kd. rewrite madd_edge_get by assumption.
  destruct (same_edge (u, v) x y).
  - intros [= <-]. apply next_keydict_keys. intros kd' E. eapply Hk; eauto.
  - apply Hk.
Qed.

Lemma madd_edge_nodes m u v w x :
  keys_ok m -> (In x (nodes (madd_edge m u v w)) <-> x = u \/ x = v \/ In x (nodes m)).
Proof.
  intros Hk. rewrite madd_edge_entry by assumption. apply In_nodes_add_entry.
Qed.

Lemma madd_edge_mult m u v w x y :
  wf m -> keys_ok m ->
  mult (madd_edge m u v w) x y = mult m x y + occ [(u, v)] x y.
Proof.
  intros Hwf Hk. unfold mult. rewrite madd_edge_get by assumption.
  rewrite occ_cons, occ_nil.
  destruct (same_edge (u, v) x y) eqn:Es; simpl b2n; [|lia].
  cbn [copies MultiGraph_data]. rewrite next_keydict_length.
  assert (Hg : get_edge m x y = get_edge m u v).
  { apply same_edge_true in Es. destruct Es as [[= <- <-]|[= <- <-]]; [reflexivity|].
    destruct (get_edge m u v) as [kd|] eqn:E.
    - now apply (wf_sym m Hwf).
    - destruct (get_edge m v u) as [kd|] eqn:E'; [|reflexivity].
      apply (wf_sym m Hwf) in E'. congruence. }
  rewrite Hg. destruct (get_edge m u v); simpl; lia.
Qed.

(** *** The total weight grows by the weight added *)

Lemma edge_items_from_app {A : Type} (seen : list V) (g1 g2 : AdjMap V A) :
  edge_items_from seen (g1 ++ g2)
  = edge_items_from seen g1 ++ edge_items_from (rev (nodes g1) ++ seen) g2.
Proof.
  revert seen. induction g1 as [|[n nbrs] g1 IH]; intros seen; [reflexivity|].
  cbn [edge_items_from app nodes map fst rev]. rewrite IH, <- !app_assoc. reflexivity.
Qed.

Lemma edge_items_add_node {A : Type} (g : AdjMap V A) u :
  edge_items (add_node g u) = edge_items g.
Proof.
  unfold add_node. destruct (dict_mem g u); [reflexivity|].
  unfold edge_items. rewrite edge_items_from_app. simpl. now rewrite app_nil_r.
Qed.

Lemma total_weight_add_node {A : Type} `{EdgeData A} (g : AdjMap V A) u :
  total_weight (add_node g u) = total_weight g.
Proof. unfold total_weight, edges_data. now rewrite edge_items_add_node. Qed.

Lemma total_weight_add_entry {A : Type} `{EdgeDataLaws A} (g : AdjMap V A) u v (a : A) :
  wf g -> (0 < copies a)%nat ->
  total_weight (add_entry g u v a)
  = (total_weight g + sum_Z (weights a)
     - match get_edge g u v with Some b => sum_Z (weights b) | None => 0 end)%Z.
Proof.
  intros Hwf Hpos.
  set (g2 := add_node (add_node g u) v).
  assert (Hwf2 : wf g2) by (now do 2 apply wf_add_node).
  assert (Ht2 : total_weight g2 = total_weight g)
    by (unfold g2; now rewrite !total_weight_add_node).
  assert (Hu : In u (nodes g2)).
  { apply In_nodes_add_node. right. apply In_nodes_add_node. now left. }
  assert (Hv : In v (nodes g2)) by (apply In_nodes_add_node; now left).
  assert (Hget2 : forall x y, get_edge g2 x y = get_edge g x y)
    by (intros; unfold g2; now rewrite !get_edge_add_node).
  rewrite <- Ht2, !total_weight_items.
  rewrite !items_sum_usum by (assumption || now apply wf_add_entry).
  rewrite nodes_add_entry. fold g2.
  rewrite (usum_change (entry_val (fun _ _ b => sum_Z (weights b)) g2)
             (entry_val (fun _ _ b => sum_Z (weights b)) (add_entry g u v a)) u v
             (sum_Z (weights a)
              - match get_edge g u v with Some b => sum_Z (weights b) | None => 0 end)%Z
             (nodes g2) (wf_nodes g2 Hwf2) Hu Hv); [lia|].
  intros x y. unfold entry_val, delta. rewrite get_edge_add_entry_hit, Hget2.
  destruct (same_edge (u, v) x y) eqn:Es; [|lia].
  assert (Hg : get_edge g x y = get_edge g u v).
  { apply same_edge_true in Es. destruct Es as [[= <- <-]|[= <- <-]]; [reflexivity|].
    destruct (get_edge g u v) as [b|] eqn:E.
    - now apply (wf_sym g Hwf).
    - destruct (get_edge g v u) as [b|] eqn:E'; [|reflexivity].
      apply (wf_sym g Hwf) in E'. congruence. }
  rewrite Hg. destruct (get_edge g u v); lia.
Qed.

Lemma madd_edge_total_weight m u v w :
  wf m -> keys_ok m ->
  total_weight (madd_edge m u v w) = (total_weight m + w)%Z.
Proof.
  intros Hwf Hk. rewrite madd_edge_entry by assumption.
  rewrite total_weight_add_entry.
  - rewrite next_keydict_sum. destruct (get_edge m u v); lia.
  - assumption.
  - simpl. rewrite next_keydict_length. lia.
Qed.

(** *** A whole list of edges *)

Lemma keys_ok_nil : keys_ok ([] : MultiGraph V).
Proof. intros u v kd. discriminate. Qed.

Lemma build_from_inv (l : list (V * V * Z)) :
  forall m,
    wf m -> keys_ok m ->
    let m' := build_from l m in
    wf m' /\ keys_ok m'
    /\ (forall x y, mult m' x y = mult m x y + occ (map fst l) x y)
    /\ total_weight m' = (total_weight m + sum_Z (map snd l))%Z
    /\ (forall x, In x (nodes m') <-> In x (nodes m) \/ In x (endpoints (map fst l))).
Proof.
  induction l as [|[[u v] w] l IH]; intros m Hwf Hk; cbn zeta.
  - unfold build_from, endpoints. cbn [fold_left map app].
    split; [assumption|]. split; [assumption|]. split; [|split].
    + intros; rewrite occ_nil; lia.
    + simpl. lia.
    + intros x. simpl. tauto.
  - cbn [build_from fold_left fst snd].
    fold (build_from l (madd_edge m u v w)).
    destruct (IH (madd_edge m u v w)) as (Hwf' & Hk' & Hm' & Ht' & Hn').
    + now apply madd_edge_wf.
    + now apply madd_edge_keys_ok.
    + split; [assumption|]. split; [assumption|]. split; [|split].
      * intros x y. rewrite Hm', madd_edge_mult by assumption.
        cbn [map fst]. rewrite !occ_cons, occ_nil. lia.
      * rewrite Ht', madd_edge_total_weight by assumption. simpl. lia.
      * intros x. rewrite Hn', madd_edge_nodes by assumption.
        unfold endpoints. cbn [map fst snd]. rewrite !in_app_iff. simpl.
        intuition (subst; auto).
Qed.
End MultiBuild.

(** ** The steps of add_minimum_weight_matching *)

Lemma bind_Ok {X Y : Type} (r : result X) (k : X -> result Y) (b : Y) :
  bind r k = Ok b -> exists a, r = Ok a /\ k a = Ok b.
Proof. destruct r as [a|e]; simpl; [eauto|discriminate]. Qed.

Lemma of_option_Ok {X : Type} (e : exn) (o : option X) (a : X) :
  of_option e o = Ok a -> o = Some a.
Proof. destruct o; simpl; congruence. Qed.

Section Steps.
Context {V : Type} {V_dec : EqDec V}.
Variable nx : NxLib V.
Implicit Types (g : Graph V) (m : MultiGraph V) (u v x y : V) (w : Z).

Lemma build_from_app (l1 l2 : list (V * V * Z)) m :
  build_from (l1 ++ l2) m = build_from l2 (build_from l1 m).
Proof. unfold build_from. apply fold_left_app. Qed.

Lemma In_edge_items_from {A : Type} (g : AdjMap V A) seen u v (a : A) :
  In (u, v, a) (edge_items_from seen g) ->
  exists nbrs, In (u, nbrs) g /\ In (v, a) nbrs.
Proof.
  revert seen. induction g as [|[n nbrs] g IH]; intros seen; simpl; [tauto|].
  rewrite in_app_iff, in_map_iff. intros [([v' a'] & [= <- <- <-] & Hin)|Hin].
  - apply filter_In in Hin. exists nbrs. split; [now left|tauto].
  - destruct (IH _ Hin) as (nbrs' & H1 & H2). exists nbrs'. split; [now right|assumption].
Qed.

Lemma In_edge_items_get {A : Type} `{EdgeData A} (g : AdjMap V A) u v (a : A) :
  wf g -> In (u, v, a) (edge_items g) -> get_edge g u v = Some a.
Proof.
  intros Hwf Hin. apply In_edge_items_from in Hin.
  apply (adjacency_triples_get g u v a Hwf). now apply In_adjacency_triples.
Qed.

Lemma In_edges_data_get g u v w :
  wf g -> In (u, v, w) (edges_data g) -> get_edge g u v = Some w.
Proof.
  intros Hwf Hin. unfold edges_data in Hin. apply in_flat_map in Hin.
  destruct Hin as ([[u' v'] a] & Hin & Hw). simpl in Hw.
  destruct Hw as [[= <- <- <-]|[]]. now apply In_edge_items_get.
Qed.

Lemma In_edges_get g u v :
  wf g -> In (u, v) (edges g) -> exists w, get_edge g u v = Some w.
Proof.
  intros Hwf Hin. unfold edges in Hin. apply in_map_iff in Hin.
  destruct Hin as ([[u' v'] w] & [= <- <-] & Hin). exists w.
  now apply In_edges_data_get.
Qed.

Lemma original_edges_build g : original_edges g = build_from (edges_data g) [].
Proof. reflexivity. Qed.

Lemma duplicate_path_spec g path st st' :
  duplicate_path g path st = Ok st' ->
  (forall e, In e (path_edges path) -> get_edge g (fst e) (snd e) <> None)
  /\ fst st' = build_from (with_weights g (path_edges path)) (fst st)
  /\ snd st' = (snd st + sum_Z (map (edge_w g) (path_edges path)))%Z.
Proof.
  unfold duplicate_path. fold (path_edges path).
  revert st. induction (path_edges path) as [|e l IH]; intros st; simpl.
  - intros [= <-]. repeat split; [tauto|lia].
  - intros Hb. apply bind_Ok in Hb. destruct Hb as (st1 & Hstep & Hrest).
    apply bind_Ok in Hstep. destruct Hstep as (w & Hw & [= <-]).
    apply of_option_Ok in Hw.
    destruct (IH _ Hrest) as (Hall & Hm & Hs). simpl in *.
    assert (Hew : edge_w g e = w) by (unfold edge_w; now rewrite Hw).
    split; [|split].
    + intros e' [<-|Hin]; [congruence|auto].
    + rewrite Hm, Hew. reflexivity.
    + rewrite Hs, Hew. lia.
Qed.

Lemma duplicate_matching_spec g (M : list (V * V)) :
  forall st st',
    duplicate_matching nx g M st = Ok st' ->
    exists paths,
      Forall2 (fun uv p => shortest_path nx g (fst uv) (snd uv) = Ok p) M paths
      /\ (forall e, In e (flat_map path_edges paths) ->
                    get_edge g (fst e) (snd e) <> None)
      /\ fst st' = build_from (with_weights g (flat_map path_edges paths)) (fst st)
      /\ snd st' = (snd st + sum_Z (map (edge_w g) (flat_map path_edges paths)))%Z.
Proof.
  unfold duplicate_matching. induction M as [|uv M IH]; intros st st'; simpl.
  - intros [= <-]. exists []. simpl. repeat split; [constructor|tauto|lia].
  - intros Hb. apply bind_Ok in Hb. destruct Hb as (st1 & Hstep & Hrest).
    apply bind_Ok in Hstep. destruct Hstep as (p & Hp & Hdup).
    apply duplicate_path_spec in Hdup. destruct Hdup as (Hall1 & Hm1 & Hs1).
    destruct (IH _ _ Hrest) as (paths & Hf & Hall & Hm & Hs).
    exists (p :: paths). split; [now constructor|]. simpl. split; [|split].
    + intros e He. apply in_app_or in He. destruct He; auto.
    + unfold with_weights in *. rewrite map_app, build_from_app, <- Hm1. exact Hm.
    + rewrite map_app, sum_Z_app, Hs, Hs1. lia.
Qed.

(** [add_minimum_weight_matching] returns what [eulerized] describes. *)
Theorem add_minimum_weight_matching_spec g eg aw :
  add_minimum_weight_matching nx g = Ok (eg, aw) ->
  exists paths,
    (eg, aw) = eulerized g paths
    /\ (forall e, In e (flat_map path_edges paths) ->
                  get_edge g (fst e) (snd e) <> None)
    /\ (find_odd_degree_vertices g = [] -> paths = [])
    /\ (find_odd_degree_vertices g <> [] ->
        exists K,
          build_complete_graph nx g (find_odd_degree_vertices g) = Ok K
          /\ Forall2 (fun uv p => shortest_path nx g (fst uv) (snd uv) = Ok p)
                     (min_weight_matching nx K) paths).
Proof.
  unfold add_minimum_weight_matching, eulerized.
  destruct (find_odd_degree_vertices g) as [|o odd] eqn:Eodd.
  - intros [= <- <-]. exists []. repeat split; simpl; tauto.
  - intros Hb. apply bind_Ok in Hb. destruct Hb as (K & HK & Hb).
    apply bind_Ok in Hb. destruct Hb as (st & Hdup & [= <- <-]).
    apply duplicate_matching_spec in Hdup.
    destruct Hdup as (paths & Hf & Hall & Hm & Hs). simpl in *.
    exists paths. split; [|split; [assumption|split; [discriminate|]]].
    + rewrite Hm, Hs, original_edges_build, build_from_app. f_equal; lia.
    + intros _. exists K. split; assumption.
Qed.
End Steps.

(** ** The steps of solve_chinese_postman *)

Section Solve.
Context {V : Type} {V_dec : EqDec V}.
Variable nx : NxLib V.
Implicit Types (g : Graph V) (m : MultiGraph V) (u v x y : V) (w : Z).

Lemma solve_Ok g start sol :
  solve_chinese_postman nx g start = Ok sol ->
  exists oc eg aw circ,
    original_cost g = Ok oc
    /\ add_minimum_weight_matching nx g = Ok (eg, aw)
    /\ find_eulerian_circuit eg start = Ok circ
    /\ format_circuit eg circ = Ok (circuit sol)
    /\ total_cost sol = (oc + aw)%Z.
Proof.
  unfold solve_chinese_postman. intros Hb.
  apply bind_Ok in Hb. destruct Hb as (oc & Hoc & Hb).
  apply bind_Ok in Hb. destruct Hb as ([eg aw] & Hst & Hb).
  apply bind_Ok in Hb. destruct Hb as (circ & Hcirc & Hb).
  apply bind_Ok in Hb. destruct Hb as (fc & Hfc & [= <-]).
  exists oc, eg, aw, circ. simpl in *. repeat split; assumption.
Qed.

Lemma original_cost_from g (l : list (V * V * Z)) :
  (forall u v w, In (u, v, w) l -> get_edge g u v = Some w) ->
  forall acc,
    foldM (fun acc e =>
             w <- of_option KeyError (get_edge g (fst e) (snd e)) ;;
             Ok (acc + w)%Z) (map fst l) acc
    = Ok (acc + sum_Z (map snd l))%Z.
Proof.
  induction l as [|[[u v] w] l IH]; intros Hget acc; simpl.
  - f_equal. lia.
  - rewrite (Hget u v w) by now left. simpl. rewrite IH.
    + f_equal. lia.
    + intros; apply Hget; now right.
Qed.

Lemma original_cost_total g : wf g -> original_cost g = Ok (total_weight g).
Proof.
  intros Hwf. unfold original_cost, edges, total_weight.
  rewrite (original_cost_from g (edges_data g)).
  - reflexivity.
  - intros u v w. now apply In_edges_data_get.
Qed.

Lemma format_circuit_from eg (circ : list (V * V)) :
  forall acc fc,
    foldM (fun formatted_circuit e =>
             weight <- edge_weight eg (fst e) (snd e) ;;
             Ok (formatted_circuit ++ [(fst e, snd e, weight)])) circ acc = Ok fc ->
    exists fc',
      fc = acc ++ fc' /\ pairs_of fc' = circ
      /\ forall u v w, In (u, v, w) fc' -> edge_weight eg u v = Ok w.
Proof.
  induction circ as [|[a b] circ IH]; intros acc fc; simpl.
  - intros [= <-]. exists []. rewrite app_nil_r. repeat split. intros ? ? ? [].
  - intros Hb. apply bind_Ok in Hb. destruct Hb as (acc1 & Hstep & Hrest).
    apply bind_Ok in Hstep. destruct Hstep as (w & Hw & [= <-]).
    destruct (IH _ _ Hrest) as (fc' & -> & Hp & Hall).
    exists ((a, b, w) :: fc'). rewrite <- app_assoc. split; [reflexivity|].
    split; [simpl; now rewrite Hp|].
    intros u v w' [[= <- <- <-]|Hin]; [assumption|auto].
Qed.

Lemma format_circuit_spec eg circ fc :
  format_circuit eg circ = Ok fc ->
  pairs_of fc = circ
  /\ forall u v w, In (u, v, w) fc -> edge_weight eg u v = Ok w.
Proof.
  intros Hf. apply format_circuit_from in Hf.
  destruct Hf as (fc' & -> & Hp & Hall). simpl. tauto.
Qed.

Lemma format_circuit_total eg (circ : list (V * V)) :
  (forall e, In e circ -> exists w, edge_weight eg (fst e) (snd e) = Ok w) ->
  forall acc, exists fc,
    foldM (fun formatted_circuit e =>
             weight <- edge_weight eg (fst e) (snd e) ;;
             Ok (formatted_circuit ++ [(fst e, snd e, weight)])) circ acc = Ok fc.
Proof.
  induction circ as [|e circ IH]; intros Hall acc; simpl; [eauto|].
  destruct (Hall e (or_introl eq_refl)) as [w Hw]. rewrite Hw. simpl.
  apply IH. intros; apply Hall; now right.
Qed.

Lemma find_eulerian_circuit_Ok eg start circ :
  find_eulerian_circuit eg start = Ok circ ->
  any_is_eulerian eg = Ok true
  /\ exists source,
       any_eulerian_circuit eg source = Ok circ
       /\ match start with
          | Some s => source = s
          | None => hd_error (any_nodes eg) = Some source
          end.
Proof.
  unfold find_eulerian_circuit. intros Hb.
  apply bind_Ok in Hb. destruct Hb as (e & He & Hb).
  destruct e; simpl in Hb; [|discriminate]. split; [assumption|].
  apply bind_Ok in Hb. destruct Hb as (source & Hs & Hc).
  exists source. split; [assumption|].
  destruct start as [s|]; [congruence|]. now apply of_option_Ok in Hs.
Qed.

(** *** An Eulerian graph stays Eulerian when copied *)

Lemma copy_is_eulerian g : wf g -> is_eulerian g = Ok true -> is_eulerian (copy g) = Ok true.
Proof.
  intros Hwf He. apply is_eulerian_true in He. destruct He as [Hall Hc].
  apply is_eulerian_true. split.
  - rewrite copy_nodes by assumption. rewrite forallb_forall in *.
    intros x Hx. rewrite copy_degree by assumption. now apply Hall.
  - apply (is_connected_true g Hwf) in Hc. destruct Hc as (s & rest & En & Hr).
    apply (is_connected_true (copy g) (copy_wf g Hwf)). exists s, rest.
    rewrite copy_nodes by assumption. split; [assumption|].
    intros x Hx. apply copy_reach; auto.
Qed.

Lemma is_eulerian_no_odd g :
  is_eulerian g = Ok true -> find_odd_degree_vertices g = [].
Proof.
  intros He. unfold find_odd_degree_vertices.
  apply is_eulerian_true in He. destruct He as [Hall _].
  rewrite forallb_forall in Hall.
  induction (nodes g) as [|n l IH]; [reflexivity|]. cbn [filter].
  rewrite (Hall n) by now left. cbn [negb]. apply IH. intros; apply Hall; now right.
Qed.

Lemma copy_total_weight g : wf g -> total_weight (copy g) = total_weight g.
Proof.
  intros Hwf. rewrite !total_weight_items.
  rewrite !items_sum_usum by (assumption || now apply copy_wf).
  rewrite copy_nodes by assumption. apply usum_ext. intros x y _ _.
  unfold entry_val. now rewrite copy_get_edge.
Qed.

Lemma copy_occ_edges g x y : wf g -> occ (edges (copy g)) x y = occ (edges g) x y.
Proof.
  intros Hwf. rewrite !occ_edges by (assumption || now apply copy_wf).
  now apply copy_mult.
Qed.

Lemma copy_number_of_edges g : wf g -> number_of_edges (copy g) = number_of_edges g.
Proof.
  intros Hwf. unfold number_of_edges. apply occ_length.
  intros x y. now apply copy_occ_edges.
Qed.
End Solve.

(** ** Degrees counted on the list of edges *)

Section Incidence.
Context {V : Type} {V_dec : EqDec V}.
Implicit Types (l : list (V * V)) (x y u v : V).

Lemma inc_nil x : inc [] x = 0.
Proof. reflexivity. Qed.

Lemma inc_cons e l x :
  inc (e :: l) x = b2n (eqv x (fst e)) + b2n (eqv x (snd e)) + inc l x.
Proof. reflexivity. Qed.

Lemma inc_app l1 l2 x : inc (l1 ++ l2) x = inc l1 x + inc l2 x.
Proof. unfold inc. now rewrite map_app, sum_nat_app. Qed.

Lemma inc_endpoints l x :
  inc l x = sum_nat (map (fun y => b2n (eqv x y)) (endpoints l)).
Proof.
  unfold inc, endpoints. rewrite map_app, sum_nat_app, !map_map.
  induction l as [|e l IH]; simpl in *; lia.
Qed.

Lemma inc_pos_In l x : 0 < inc l x -> In x (endpoints l).
Proof.
  rewrite inc_endpoints. induction (endpoints l) as [|y ep IH]; simpl; [lia|].
  destruct (eqv x y) eqn:E.
  - apply eqv_true in E. now left.
  - simpl. intros Hpos. right. auto.
Qed.

Lemma inc_NoDup l x :
  NoDup (endpoints l) -> inc l x = b2n (mem x (endpoints l)).
Proof.
  intros Hnd. rewrite inc_endpoints.
  destruct (mem x (endpoints l)) eqn:E.
  - apply mem_true in E.
    rewrite (sum_nat_map_ext _ (fun y => b2n (eqv y x))) by (intros; now rewrite eqv_sym).
    now apply sum_b2n_eqv.
  - apply mem_false in E. apply sum_nat_zero. intros y Hy.
    destruct (eqv x y) eqn:Exy; [|reflexivity].
    apply eqv_true in Exy. subst. contradiction.
Qed.

(** A walk passes an even number of times through every vertex but its
    two ends. *)
Lemma inc_path_edges (rest : list V) :
  forall a x,
    Nat.even (inc (path_edges (a :: rest)) x
              + b2n (eqv x a) + b2n (eqv x (last (a :: rest) a))) = true.
Proof.
  induction rest as [|b r IH]; intros a x.
  - cbn [path_edges tl combine last]. rewrite inc_nil. simpl.
    rewrite Nat.even_add. now destruct (eqv x a).
  - change (path_edges (a :: b :: r)) with ((a, b) :: path_edges (b :: r)).
    rewrite inc_cons. cbn [fst snd].
    rewrite (last_cons2 a b a b r).
    specialize (IH b x).
    replace (b2n (eqv x a) + b2n (eqv x b) + inc (path_edges (b :: r)) x
             + b2n (eqv x a) + b2n (eqv x (last (b :: r) b)))
      with (inc (path_edges (b :: r)) x + b2n (eqv x b)
            + b2n (eqv x (last (b :: r) b)) + b2n (eqv x a) + b2n (eqv x a)) by lia.
    now rewrite even_drop_double.
Qed.
End Incidence.

Section DegreeInc.
Context {V : Type} {V_dec : EqDec V} {A : Type} `{EdgeDataLaws A}.
Open Scope Z_scope.
Implicit Types (g : AdjMap V A) (x y u v : V).

Lemma inc_edges_items g x :
  Z.of_nat (inc (edges g) x)
  = items_sum (fun u v a => Z.of_nat (copies a) * (ind x u + ind x v)) (edge_items g).
Proof.
  unfold edges, edges_data, items_sum.
  induction (edge_items g) as [|[[u v] a] l IH]; simpl; [reflexivity|].
  rewrite map_app, inc_app, Nat2Z.inj_add, IH. f_equal.
  rewrite map_map. simpl. rewrite <- (weights_length a).
  induction (weights a) as [|w ws IHw]; [reflexivity|].
  cbn [map fst snd length]. rewrite inc_cons, Nat2Z.inj_succ, !Nat2Z.inj_add.
  cbn [fst snd]. rewrite IHw. unfold ind.
  destruct (eqv x u), (eqv x v); simpl b2n; lia.
Qed.

Lemma usum_incident (m : V -> V -> Z) x (l : list V) :
  NoDup l -> (forall u v, m u v = m v u) ->
  usum (fun u v => m u v * (ind x u + ind x v)) l
  = if mem x l then sum_Z (map (m x) l) + m x x else 0.
Proof.
  intros Hnd Hsym. induction Hnd as [|a l Hnin Hnd IH]; [reflexivity|].
  cbn [usum]. rewrite IH.
  destruct (eq_dec a x) as [->|Hax].
  - assert (Hm : mem x (x :: l) = true) by (apply mem_true; now left).
    assert (Hl : mem x l = false) by (now apply mem_false).
    rewrite Hm, Hl. unfold ind at 1 2. rewrite eqv_refl.
    rewrite (sum_Z_map_ext _ (m x)).
    + simpl. lia.
    + intros y Hy. unfold ind. rewrite eqv_refl.
      destruct (eqv x y) eqn:E; [|lia].
      apply eqv_true in E. subst. contradiction.
  - assert (Ha : eqv x a = false) by (apply eqv_false; congruence).
    unfold ind at 1 2. rewrite Ha.
    destruct (mem x l) eqn:El.
    + apply mem_true in El.
      assert (Hm : mem x (a :: l) = true) by (apply mem_true; now right).
      rewrite Hm.
      rewrite (sum_Z_single (fun y => m a y * (ind x a + ind x y)) x l Hnd El).
      * unfold ind. rewrite Ha, eqv_refl. simpl. rewrite (Hsym a x). lia.
      * intros y Hy Hne. unfold ind. rewrite Ha.
        assert (Hxy : eqv x y = false) by (apply eqv_false; congruence).
        rewrite Hxy. lia.
    + assert (Hm : mem x (a :: l) = false).
      { apply mem_false. apply mem_false in El. simpl. intros [?|?]; auto. }
      rewrite Hm. rewrite sum_Z_zero; [lia|].
      intros y Hy. unfold ind. rewrite Ha.
      destruct (eqv x y) eqn:E; [|lia].
      apply eqv_true in E. subst. apply mem_false in El. contradiction.
Qed.

Lemma sum_nat_Z {X : Type} (f : X -> nat) (l : list X) :
  Z.of_nat (sum_nat (map f l)) = sum_Z (map (fun z => Z.of_nat (f z)) l).
Proof. induction l; simpl; [reflexivity|]. rewrite Nat2Z.inj_add. now f_equal. Qed.

(** The degree of a vertex is the number of edge ends at it. *)
Theorem degree_inc g x : wf g -> degree g x = inc (edges g) x.
Proof.
  intros Hwf. apply Nat2Z.inj. rewrite inc_edges_items, items_sum_usum by assumption.
  rewrite (usum_ext _ (fun u v => Z.of_nat (mult g u v) * (ind x u + ind x v))).
  - rewrite usum_incident; [|apply Hwf|intros; f_equal; now apply mult_sym].
    destruct (mem x (nodes g)) eqn:E.
    + rewrite (degree_as_mult g x Hwf), Nat2Z.inj_add, sum_nat_Z. reflexivity.
    + apply mem_false in E. now rewrite degree_not_node.
  - intros u v _ _. unfold entry_val, mult. destruct (get_edge g u v); lia.
Qed.
End DegreeInc.

(** ** Paths and distances *)

Section Paths.
Context {V : Type} {V_dec : EqDec V}.
Implicit Types (g : Graph V) (p : list V) (u v x y : V).

Lemma path_edges_cons2 a b (r : list V) :
  path_edges (a :: b :: r) = (a, b) :: path_edges (b :: r).
Proof. reflexivity. Qed.

Lemma path_edges_snoc p a x :
  path_edges ((a :: p) ++ [x]) = path_edges (a :: p) ++ [(last (a :: p) a, x)].
Proof.
  revert a. induction p as [|b p IH]; intros a; [reflexivity|].
  change ((a :: b :: p) ++ [x]) with (a :: ((b :: p) ++ [x])).
  change ((b :: p) ++ [x]) with (b :: (p ++ [x])).
  rewrite path_edges_cons2. change (b :: p ++ [x]) with ((b :: p) ++ [x]).
  rewrite IH, path_edges_cons2, (last_cons2 a b a b p). reflexivity.
Qed.

Lemma last_rev_cons (a : V) (p : list V) d : last (rev (a :: p)) d = a.
Proof. simpl. apply last_last. Qed.

Lemma path_edges_rev p :
  path_edges (rev p) = map (fun e => (snd e, fst e)) (rev (path_edges p)).
Proof.
  induction p as [|a [|b r] IH]; [reflexivity|reflexivity|].
  rewrite path_edges_cons2. cbn [rev] in *. rewrite map_app. cbn [map fst snd].
  rewrite <- IH.
  destruct (rev r ++ [b]) as [|c q] eqn:E.
  - destruct (rev r); discriminate.
  - rewrite path_edges_snoc. f_equal. f_equal. f_equal.
    rewrite <- E. apply last_last.
Qed.

Lemma edge_w_sym g u v : wf g -> edge_w g (u, v) = edge_w g (v, u).
Proof.
  intros Hwf. unfold edge_w. simpl.
  destruct (get_edge g u v) as [w|] eqn:E.
  - now rewrite (wf_sym g Hwf _ _ _ E).
  - destruct (get_edge g v u) as [w|] eqn:E'; [|reflexivity].
    apply (wf_sym g Hwf) in E'. congruence.
Qed.

Lemma path_weight_rev g p : wf g -> path_weight g (rev p) = path_weight g p.
Proof.
  intros Hwf. unfold path_weight. rewrite path_edges_rev, map_map.
  rewrite (sum_Z_map_ext _ (edge_w g)).
  - apply sum_Z_Permutation. apply Permutation_map. symmetry. apply Permutation_rev.
  - intros [a b] _. simpl. symmetry. now apply edge_w_sym.
Qed.

Lemma is_path_rev g u v p : wf g -> is_path g u v p -> is_path g v u (rev p).
Proof.
  intros Hwf (Hhd & Hlast & Hedges).
  destruct p as [|a r]; [discriminate|]. injection Hhd as ->.
  split; [|split].
  - destruct (rev (u :: r)) as [|c q] eqn:E.
    + simpl in E. destruct (rev r); discriminate.
    + simpl. f_equal. rewrite <- Hlast.
      rewrite <- (rev_involutive (u :: r)), E.
      simpl. now rewrite last_last.
  - apply last_rev_cons.
  - intros e. rewrite path_edges_rev, in_map_iff.
    intros ([a b] & <- & Hin). simpl. apply in_rev in Hin.
    specialize (Hedges _ Hin). simpl in Hedges.
    destruct (get_edge g a b) as [w|] eqn:E; [|congruence].
    rewrite (wf_sym g Hwf _ _ _ E). discriminate.
Qed.

Lemma is_shortest_dist_sym g u v d :
  wf g -> is_shortest_dist g u v d -> is_shortest_dist g v u d.
Proof.
  intros Hwf [(p & Hp & Hw) Hmin]. split.
  - exists (rev p). split; [now apply is_path_rev|]. now rewrite path_weight_rev.
  - intros q Hq. rewrite <- (path_weight_rev g q Hwf). apply Hmin.
    now apply is_path_rev.
Qed.

Lemma is_shortest_dist_unique g u v d d' :
  is_shortest_dist g u v d -> is_shortest_dist g u v d' -> d = d'.
Proof.
  intros [(p & Hp & Hw) Hmin] [(p' & Hp' & Hw') Hmin'].
  specialize (Hmin p' Hp'). specialize (Hmin' p Hp). lia.
Qed.

(** *** Pairs of a list *)

Lemma In_combinations2 (l : list V) x y :
  In (x, y) (combinations2 l) -> In x l /\ In y l.
Proof.
  induction l as [|a l IH]; simpl; [tauto|].
  rewrite in_app_iff, in_map_iff.
  intros [(b & [= <- <-] & Hb)|Hin]; [tauto|]. destruct (IH Hin). tauto.
Qed.

Lemma combinations2_neq (l : list V) x y :
  NoDup l -> In (x, y) (combinations2 l) -> x <> y.
Proof.
  induction 1 as [|a l Hnin Hnd IH]; simpl; [tauto|].
  rewrite in_app_iff, in_map_iff.
  intros [(b & [= <- <-] & Hb)|Hin]; [|auto].
  intros ->. contradiction.
Qed.

Lemma combinations2_In (l : list V) x y :
  In x l -> In y l -> x <> y ->
  In (x, y) (combinations2 l) \/ In (y, x) (combinations2 l).
Proof.
  induction l as [|a l IH]; simpl; [tauto|].
  intros [->|Hx] [->|Hy] Hne; try congruence.
  - left. apply in_or_app. left. now apply in_map.
  - right. apply in_or_app. left. now apply in_map.
  - destruct (IH Hx Hy Hne); [left|right]; apply in_or_app; now right.
Qed.
End Paths.

(** ** The auxiliary complete graph *)

Section Complete.
Context {V : Type} {V_dec : EqDec V}.
Variable nx : NxLib V.
Variable g : Graph V.
Hypothesis Hwf : wf g.
Hypothesis Hconn : connected g.
Hypothesis Hnx : nx_contract nx g.
Implicit Types (u v x y : V).

Let odd := find_odd_degree_vertices g.

Lemma odd_NoDup : NoDup odd.
Proof. apply NoDup_filter. apply Hwf. Qed.

Lemma odd_node x : In x odd -> In x (nodes g).
Proof. intros Hin. apply find_odd_degree_vertices_In in Hin. tauto. Qed.

Lemma odd_reach u v : In u odd -> In v odd -> reach g u v.
Proof. intros Hu Hv. apply Hconn; now apply odd_node. Qed.

Lemma odd_dist u v :
  In u odd -> In v odd -> u <> v ->
  shortest_path_length nx g u v = Ok (dist_of nx g u v)
  /\ is_shortest_dist g u v (dist_of nx g u v).
Proof.
  intros Hu Hv Hne.
  destruct (nx_shortest_path_length nx g Hnx u v Hu Hv Hne (odd_reach u v Hu Hv))
    as (d & Hd & Hs).
  unfold dist_of. rewrite Hd. tauto.
Qed.

Lemma dist_of_sym u v :
  In u odd -> In v odd -> u <> v -> dist_of nx g u v = dist_of nx g v u.
Proof.
  intros Hu Hv Hne.
  destruct (odd_dist u v Hu Hv Hne) as [_ H1].
  destruct (odd_dist v u Hv Hu (not_eq_sym Hne)) as [_ H2].
  eapply is_shortest_dist_unique; [exact H1|]. now apply is_shortest_dist_sym.
Qed.

Lemma build_complete_graph_from (l : list (V * V)) :
  (forall uv, In uv l -> In (fst uv) odd /\ In (snd uv) odd /\ fst uv <> snd uv) ->
  forall acc,
    foldM (fun complete_graph uv =>
             if has_path nx g (fst uv) (snd uv) then
               path_length <- shortest_path_length nx g (fst uv) (snd uv) ;;
               Ok (add_edge complete_graph (fst uv) (snd uv) path_length)
             else Ok complete_graph) l acc
    = Ok (add_triples (weighted_pairs nx g l) acc).
Proof.
  induction l as [|[u v] l IH]; intros Hall acc; [reflexivity|].
  destruct (Hall (u, v) (or_introl eq_refl)) as (Hu & Hv & Hne). simpl in Hu, Hv, Hne.
  cbn [foldM fst snd].
  assert (Hhp : has_path nx g u v = true).
  { apply (nx_has_path nx g Hnx u v Hu Hv Hne). now apply odd_reach. }
  rewrite Hhp. destruct (odd_dist u v Hu Hv Hne) as [-> _]. cbn [bind].
  rewrite IH by (intros; apply Hall; now right). reflexivity.
Qed.

Lemma combinations2_odd uv :
  In uv (combinations2 odd) -> In (fst uv) odd /\ In (snd uv) odd /\ fst uv <> snd uv.
Proof.
  destruct uv as [u v]. intros Hin. simpl.
  destruct (In_combinations2 _ _ _ Hin). split; [assumption|]. split; [assumption|].
  eapply combinations2_neq; eauto. apply odd_NoDup.
Qed.

Lemma build_complete_graph_Ok :
  build_complete_graph nx g odd = Ok (complete_graph_of nx g).
Proof.
  unfold build_complete_graph. apply build_complete_graph_from.
  apply combinations2_odd.
Qed.

Lemma complete_graph_wf : wf (complete_graph_of nx g).
Proof. apply add_triples_wf; [apply wf_nil|]. intros. simpl. lia. Qed.

Lemma complete_graph_get x y :
  get_edge (complete_graph_of nx g) x y
  = if existsb (fun t => same_edge (fst t) x y)
               (weighted_pairs nx g (combinations2 odd))
    then Some (dist_of nx g x y) else None.
Proof.
  unfold complete_graph_of.
  rewrite (add_triples_get (fun a b => Some (dist_of nx g a b))); [reflexivity|].
  intros u v a Hin. unfold weighted_pairs in Hin. apply in_map_iff in Hin.
  destruct Hin as ([u' v'] & [= <- <- <-] & Hin).
  destruct (combinations2_odd _ Hin) as (Hu & Hv & Hne). simpl in *.
  split; [reflexivity|]. f_equal. symmetry. now apply dist_of_sym.
Qed.

Lemma weighted_pairs_hit x y :
  existsb (fun t => same_edge (fst t) x y)
          (weighted_pairs nx g (combinations2 odd)) = true
  <-> In x odd /\ In y odd /\ x <> y.
Proof.
  rewrite existsb_exists. split.
  - intros ([[u v] a] & Hin & Hs). unfold weighted_pairs in Hin.
    apply in_map_iff in Hin. destruct Hin as ([u' v'] & [= <- <- <-] & Hin).
    destruct (combinations2_odd _ Hin) as (Hu & Hv & Hne). simpl in *.
    apply same_edge_true in Hs. destruct Hs as [[= <- <-]|[= <- <-]]; auto.
  - intros (Hx & Hy & Hne).
    destruct (combinations2_In odd x y Hx Hy Hne) as [Hin|Hin].
    + exists (x, y, dist_of nx g x y). split.
      * unfold weighted_pairs. apply in_map_iff. exists (x, y). auto.
      * apply same_edge_true. now left.
    + exists (y, x, dist_of nx g y x). split.
      * unfold weighted_pairs. apply in_map_iff. exists (y, x). auto.
      * apply same_edge_true. now right.
Qed.

Lemma complete_graph_edge x y :
  In x odd -> In y odd -> x <> y ->
  get_edge (complete_graph_of nx g) x y = Some (dist_of nx g x y).
Proof.
  intros Hx Hy Hne. rewrite complete_graph_get.
  assert (Hh := proj2 (weighted_pairs_hit x y) (conj Hx (conj Hy Hne))).
  now rewrite Hh.
Qed.

Lemma complete_graph_edge_inv x y a :
  get_edge (complete_graph_of nx g) x y = Some a ->
  In x odd /\ In y odd /\ x <> y.
Proof.
  rewrite complete_graph_get.
  destruct (existsb _ _) eqn:E; [|discriminate].
  intros _. now apply weighted_pairs_hit.
Qed.

Lemma complete_graph_edge_w x y :
  In x odd -> In y odd -> x <> y ->
  edge_w (complete_graph_of nx g) (x, y) = dist_of nx g x y.
Proof.
  intros Hx Hy Hne. unfold edge_w. simpl. now rewrite complete_graph_edge.
Qed.
End Complete.

(** ** The matching covers the odd-degree vertices *)

Section PairUp.
Context {V : Type}.

Lemma endpoints_length (m : list (V * V)) : length (endpoints m) = 2 * length m.
Proof. unfold endpoints. rewrite length_app, !length_map. lia. Qed.

Lemma endpoints_cons (a b : V) (m : list (V * V)) :
  Permutation (endpoints ((a, b) :: m)) (a :: b :: endpoints m).
Proof.
  unfold endpoints. simpl. constructor. symmetry. apply Permutation_middle.
Qed.

Lemma pair_up_spec (n : nat) :
  forall l : list V,
    length l = 2 * n ->
    Permutation (endpoints (pair_up l)) l /\ length (pair_up l) = n.
Proof.
  induction n as [|n IH]; intros l Hlen.
  - destruct l; [|discriminate]. split; [constructor|reflexivity].
  - destruct l as [|a [|b rest]]; try (simpl in Hlen; lia).
    destruct (IH rest) as [Hp Hl]; [simpl in Hlen; lia|].
    cbn [pair_up]. split.
    + rewrite endpoints_cons. now do 2 constructor.
    + simpl. now rewrite Hl.
Qed.

Lemma NoDup_app_disjoint (l1 l2 : list V) :
  NoDup (l1 ++ l2) -> forall z, In z l1 -> ~ In z l2.
Proof.
  induction l1 as [|a l1 IH]; simpl; intros Hnd z; [tauto|].
  inversion Hnd as [|? ? Hnin Hnd']; subst.
  intros [->|Hin] Hz.
  - apply Hnin. apply in_or_app. now right.
  - eapply IH; eauto.
Qed.

Lemma even_length_half (l : list V) :
  Nat.even (length l) = true -> exists n, length l = 2 * n.
Proof. intros He. apply Nat.even_spec in He. exact He. Qed.
End PairUp.

Section OddCount.
Context {V : Type} {V_dec : EqDec V}.

Lemma odd_count_even (g : Graph V) :
  wf g -> Nat.even (length (find_odd_degree_vertices g)) = true.
Proof.
  intros Hwf. unfold find_odd_degree_vertices.
  rewrite even_sum_filter_odd. now apply (handshake g).
Qed.
End OddCount.

Section Perfect.
Context {V : Type} {V_dec : EqDec V}.
Variable nx : NxLib V.
Variable g : Graph V.
Hypothesis Hwf : wf g.
Hypothesis Hconn : connected g.
Hypothesis Hnx : nx_contract nx g.
Implicit Types (u v x y : V) (m : list (V * V)).

Let odd := find_odd_degree_vertices g.
Let K := complete_graph_of nx g.

Lemma matching_endpoints_odd m x :
  is_matching K m -> In x (endpoints m) -> In x odd.
Proof.
  intros [_ Hedges] Hin. unfold endpoints in Hin. apply in_app_or in Hin.
  destruct Hin as [Hin|Hin]; apply in_map_iff in Hin;
    destruct Hin as ([a b] & <- & Hin); specialize (Hedges _ Hin); simpl in *;
    destruct (get_edge K a b) as [w|] eqn:E; try congruence;
    destruct (complete_graph_edge_inv nx g Hwf Hconn Hnx a b w E) as (? & ? & ?);
    assumption.
Qed.

Lemma matching_pair_distinct m u v :
  is_matching K m -> In (u, v) m -> In u odd /\ In v odd /\ u <> v.
Proof.
  intros Hm Hin. assert (Hedges := proj2 Hm _ Hin). simpl in Hedges.
  destruct (get_edge K u v) as [w|] eqn:E; [|congruence].
  exact (complete_graph_edge_inv nx g Hwf Hconn Hnx u v w E).
Qed.

Lemma pair_up_matching : is_matching K (pair_up odd).
Proof.
  destruct (even_length_half odd (odd_count_even g Hwf)) as [n Hn].
  destruct (pair_up_spec n odd Hn) as [Hp _].
  assert (Hnd : NoDup (endpoints (pair_up odd))).
  { eapply Permutation_NoDup; [symmetry; exact Hp|]. now apply odd_NoDup. }
  split; [assumption|].
  intros [a b] Hin. simpl.
  assert (Ha : In a odd).
  { eapply Permutation_in; [exact Hp|]. unfold endpoints. apply in_or_app. left.
    change a with (fst (a, b)). now apply in_map. }
  assert (Hb : In b odd).
  { eapply Permutation_in; [exact Hp|]. unfold endpoints. apply in_or_app. right.
    change b with (snd (a, b)). now apply in_map. }
  assert (Hne : a <> b).
  { intros ->. apply (NoDup_app_disjoint _ _ Hnd b).
    - change b with (fst (b, b)). now apply in_map.
    - change b with (snd (b, b)). now apply in_map. }
  unfold K. rewrite (complete_graph_edge nx g Hwf Hconn Hnx a b Ha Hb Hne). discriminate.
Qed.

(** A matching of [K] with the most edges touches every odd vertex. *)
Lemma max_matching_covers m :
  is_matching K m -> (forall m', is_matching K m' -> length m' <= length m) ->
  (forall x, In x (endpoints m) <-> In x odd) /\ 2 * length m = length odd.
Proof.
  intros Hm Hmax.
  destruct (even_length_half odd (odd_count_even g Hwf)) as [n Hn].
  destruct (pair_up_spec n odd Hn) as [_ Hl].
  assert (Hge : n <= length m).
  { rewrite <- Hl. apply Hmax. apply pair_up_matching. }
  assert (Hincl : incl (endpoints m) odd)
    by (intros x Hx; eapply matching_endpoints_odd; eauto).
  assert (Hle : length (endpoints m) <= length odd)
    by (apply NoDup_incl_length; [apply Hm|assumption]).
  rewrite endpoints_length in Hle.
  split.
  - intros x. split; [apply Hincl|].
    apply (@NoDup_length_incl V (endpoints m) odd); [apply Hm| |assumption].
    rewrite endpoints_length. lia.
  - lia.
Qed.

(** A perfect matching of [K] has as many edges as one with the most. *)
Lemma perfect_matching_length m :
  odd <> [] -> is_perfect_matching K m -> 2 * length m = length odd.
Proof.
  intros Hne [Hm Hcov].
  assert (Hincl : incl (endpoints m) odd)
    by (intros x Hx; eapply matching_endpoints_odd; eauto).
  assert (Hle : length (endpoints m) <= length odd)
    by (apply NoDup_incl_length; [apply Hm|assumption]).
  assert (Hge : length odd <= length (endpoints m)).
  { apply NoDup_incl_length; [now apply odd_NoDup|].
    intros x Hx. apply Hcov.
    (* x has an edge to another odd vertex *)
    destruct (even_length_half odd (odd_count_even g Hwf)) as [n Hn].
    assert (Hex : exists y, In y odd /\ x <> y).
    { fold odd in Hx. destruct odd as [|a [|b rest]] eqn:E.
      - destruct Hx.
      - simpl in Hn. lia.
      - destruct (eq_dec x a) as [->|Hxa].
        + exists b. split; [simpl; tauto|].
          pose proof (odd_NoDup g Hwf) as Hnd. fold odd in Hnd. rewrite E in Hnd.
          inversion Hnd as [|? ? Hnin _]; subst. intros ->. apply Hnin. now left.
        + exists a. split; [now left|assumption]. }
    destruct Hex as (y & Hy & Hxy).
    eapply get_edge_node.
    exact (complete_graph_edge nx g Hwf Hconn Hnx x y Hx Hy Hxy). }
  rewrite endpoints_length in *. lia.
Qed.
End Perfect.

(** ** The graph returned by add_minimum_weight_matching *)

Section Eulerized.
Context {V : Type} {V_dec : EqDec V}.
Implicit Types (g : Graph V) (m : MultiGraph V) (u v x y : V) (w : Z).

Lemma map_fst_with_weights g (d : list (V * V)) : map fst (with_weights g d) = d.
Proof.
  unfold with_weights. rewrite map_map. simpl.
  induction d as [|[a b] d IH]; simpl; [reflexivity|]. now rewrite IH.
Qed.

Lemma map_snd_with_weights g (d : list (V * V)) :
  map snd (with_weights g d) = map (edge_w g) d.
Proof. unfold with_weights. now rewrite map_map. Qed.

Lemma degree_add_node {A : Type} `{EdgeData A} (h : AdjMap V A) u x :
  degree (add_node h u) x = degree h x.
Proof. unfold degree, mult. now rewrite adj_add_node, get_edge_add_node. Qed.

Lemma madd_edge_degree m u v w x :
  wf m -> keys_ok m ->
  degree (madd_edge m u v w) x = degree m x + b2n (eqv x u) + b2n (eqv x v).
Proof.
  intros Hwf Hk.
  rewrite <- (degree_add_node m u x), <- (degree_add_node (add_node m u) v x).
  apply one_more_degree. unfold one_more.
  assert (Hwf2 : wf (add_node (add_node m u) v)) by (now do 2 apply wf_add_node).
  split; [now apply madd_edge_wf|]. split; [assumption|].
  split; [|split; [|split]].
  - rewrite madd_edge_entry by assumption. symmetry. apply nodes_add_entry.
  - apply madd_edge_nodes; [assumption|now left].
  - apply madd_edge_nodes; [assumption|right; now left].
  - intros a b. rewrite madd_edge_mult by assumption.
    unfold mult. now rewrite !get_edge_add_node.
Qed.

Lemma build_from_degree (l : list (V * V * Z)) x :
  forall m, wf m -> keys_ok m ->
            degree (build_from l m) x = degree m x + inc (map fst l) x.
Proof.
  induction l as [|[[u v] w] l IH]; intros m Hwf Hk.
  - simpl. rewrite inc_nil. lia.
  - cbn [build_from fold_left fst snd]. fold (build_from l (madd_edge m u v w)).
    rewrite IH by (now apply madd_edge_wf || now apply madd_edge_keys_ok).
    rewrite madd_edge_degree by assumption. cbn [map fst]. rewrite inc_cons. simpl. lia.
Qed.

(** What is known of the multigraph whatever the library returned. *)
Lemma eulerized_multi g (d : list (V * V)) :
  wf g ->
  let m := build_from (edges_data g ++ with_weights g d) [] in
  wf m /\ keys_ok m
  /\ (forall x y, mult m x y = mult g x y + occ d x y)
  /\ (forall x, degree m x = degree g x + inc d x)
  /\ total_weight m = (total_weight g + sum_Z (map (edge_w g) d))%Z
  /\ (forall x, In x (nodes m) <-> In x (endpoints (edges g ++ d))).
Proof.
  intros Hwf m.
  destruct (build_from_inv (edges_data g ++ with_weights g d) [] wf_nil keys_ok_nil)
    as (Hwfm & Hkm & Hmult & Htot & Hnodes).
  fold m in Hwfm, Hkm, Hmult, Htot, Hnodes.
  assert (Hfst : map fst (edges_data g ++ with_weights g d) = edges g ++ d).
  { rewrite map_app, map_fst_with_weights. reflexivity. }
  rewrite Hfst in *.
  split; [assumption|]. split; [assumption|]. split; [|split; [|split]].
  - intros x y. rewrite Hmult, occ_app, occ_edges by assumption. reflexivity.
  - intros x. unfold m. rewrite build_from_degree by (apply wf_nil || apply keys_ok_nil).
    rewrite Hfst, inc_app, <- degree_inc by assumption. reflexivity.
  - rewrite Htot, map_app, sum_Z_app, map_snd_with_weights. reflexivity.
  - intros x. rewrite Hnodes. simpl. tauto.
Qed.

Lemma eulerized_cases g paths eg aw :
  (eg, aw) = eulerized g paths ->
  (find_odd_degree_vertices g = [] /\ eg = Simple (copy g) /\ aw = 0%Z)
  \/ (find_odd_degree_vertices g <> []
      /\ eg = Multi (build_from (edges_data g
                                 ++ with_weights g (flat_map path_edges paths)) [])
      /\ aw = sum_Z (map (edge_w g) (flat_map path_edges paths))).
Proof.
  unfold eulerized. destruct (find_odd_degree_vertices g).
  - intros [= -> ->]. now left.
  - intros [= -> ->]. right. split; [discriminate|]. split; reflexivity.
Qed.
End Eulerized.

(** ** What holds of every route solve_chinese_postman returns *)

Section Route.
Context {V : Type} {V_dec : EqDec V}.
Variable nx : NxLib V.
Implicit Types (g : Graph V) (m : MultiGraph V) (u v x y : V) (w : Z).

Lemma any_circuit_spec eg source circ :
  (match eg with Simple h => wf h | Multi m => wf m end) ->
  any_eulerian_circuit eg source = Ok circ ->
  walk_end source circ = Some source
  /\ forall x y, occ circ x y = any_mult eg x y.
Proof.
  destruct eg as [h|m]; simpl; intros Hwf Hc.
  - destruct (eulerian_circuit_Ok h source circ Hc) as [He Hs].
    destruct (eulerian_circuit_spec h source Hwf He Hs) as (out & Ho & Hw & Hocc).
    rewrite Ho in Hc. injection Hc as <-. tauto.
  - destruct (eulerian_circuit_Ok m source circ Hc) as [He Hs].
    destruct (eulerian_circuit_spec m source Hwf He Hs) as (out & Ho & Hw & Hocc).
    rewrite Ho in Hc. injection Hc as <-. tauto.
Qed.

Lemma any_mult_edges eg x y :
  (match eg with Simple h => wf h | Multi m => wf m end) ->
  any_mult eg x y = occ (any_edges eg) x y.
Proof. destruct eg; simpl; intros Hwf; now rewrite occ_edges. Qed.

Lemma eulerized_wf g paths eg aw :
  wf g -> (eg, aw) = eulerized g paths ->
  match eg with Simple h => wf h | Multi m => wf m end.
Proof.
  intros Hwf He. destruct (eulerized_cases g paths eg aw He) as [(_ & -> & _)|(_ & -> & _)].
  - now apply copy_wf.
  - now apply eulerized_multi.
Qed.

Theorem solve_route g start sol :
  wf g -> solve_chinese_postman nx g start = Ok sol ->
  exists eg aw paths source,
    add_minimum_weight_matching nx g = Ok (eg, aw)
    /\ (eg, aw) = eulerized g paths
    /\ (forall e, In e (flat_map path_edges paths) ->
                  get_edge g (fst e) (snd e) <> None)
    /\ total_cost sol = (total_weight g + aw)%Z
    /\ find_eulerian_circuit eg start = Ok (pairs_of (circuit sol))
    /\ match start with
       | Some s => source = s
       | None => hd_error (any_nodes eg) = Some source
       end
    /\ walk_end source (pairs_of (circuit sol)) = Some source
    /\ (forall x y, occ (pairs_of (circuit sol)) x y = any_mult eg x y)
    /\ (forall u v w, In (u, v, w) (circuit sol) -> edge_weight eg u v = Ok w).
Proof.
  intros Hwf Hs. apply solve_Ok in Hs.
  destruct Hs as (oc & eg & aw & circ & Hoc & Hst & Hfc & Hfmt & Htot).
  rewrite (original_cost_total g Hwf) in Hoc. injection Hoc as <-.
  destruct (add_minimum_weight_matching_spec nx g eg aw Hst)
    as (paths & Heul & Hedges & _ & _).
  apply format_circuit_spec in Hfmt. destruct Hfmt as [Hpairs Hweights].
  destruct (find_eulerian_circuit_Ok eg start circ Hfc) as (He & source & Hc & Hsrc).
  destruct (any_circuit_spec eg source circ (eulerized_wf g paths eg aw Hwf Heul) Hc)
    as [Hwalk Hocc].
  exists eg, aw, paths, source. rewrite Hpairs. repeat split; assumption.
Qed.
End Route.

(** ** solve_chinese_postman returns a route on connected graphs *)

Section Helpers.
Context {V : Type} {V_dec : EqDec V}.
Implicit Types (g : Graph V) (m : MultiGraph V) (u v x y : V) (w : Z).

Lemma connected_of_is_connected {A : Type} `{EdgeData A} (h : AdjMap V A) :
  wf h -> is_connected h = Ok true -> connected h.
Proof. intros Hwf Hc u v Hu Hv. now apply is_connected_reach. Qed.

Lemma is_connected_of_connected {A : Type} `{EdgeData A} (h : AdjMap V A) :
  wf h -> nodes h <> [] -> connected h -> is_connected h = Ok true.
Proof.
  intros Hwf Hne Hc. apply (is_connected_true h Hwf).
  destruct (nodes h) as [|s rest] eqn:E; [contradiction|].
  exists s, rest. split; [reflexivity|].
  intros x Hx. apply Hc; rewrite E; [now left|assumption].
Qed.

Lemma reach_neighbor {A : Type} (h : AdjMap V A) s x :
  reach h s x -> s <> x -> exists y, In y (neighbors h s).
Proof.
  induction 1 as [|x y Hsx IH Hy]; intros Hne; [contradiction|].
  destruct (eq_dec s x) as [->|Hsx']; [eauto|auto].
Qed.

Lemma neighbor_degree_pos {A : Type} `{EdgeData A} (h : AdjMap V A) u v :
  wf h -> In v (neighbors h u) -> 0 < degree h u.
Proof.
  intros Hwf Hin. apply (mult_pos h u v Hwf) in Hin.
  pose proof (mult_le_degree h u v Hwf). lia.
Qed.

Lemma In_endpoints_app (l1 l2 : list (V * V)) x :
  In x (endpoints (l1 ++ l2)) <-> In x (endpoints l1) \/ In x (endpoints l2).
Proof. unfold endpoints. rewrite !map_app, !in_app_iff. tauto. Qed.

Lemma In_endpoints (l : list (V * V)) x :
  In x (endpoints l) <-> exists e, In e l /\ (x = fst e \/ x = snd e).
Proof.
  unfold endpoints. rewrite in_app_iff, !in_map_iff. split.
  - intros [(e & Hx & He)|(e & Hx & He)]; exists e; split; auto.
  - intros (e & He & [Hx|Hx]); [left|right]; exists e; split; auto.
Qed.

Lemma edges_endpoints_nodes g x :
  wf g -> In x (endpoints (edges g)) -> In x (nodes g).
Proof.
  intros Hwf Hin. apply In_endpoints in Hin. destruct Hin as ([a b] & He & Hx).
  destruct (In_edges_get g a b Hwf He) as [w Hw]. simpl in Hx.
  destruct Hx as [-> | ->].
  - eapply get_edge_node; eauto.
  - eapply wf_neighbor_node; eauto.
Qed.

Lemma no_odd_all_even g :
  find_odd_degree_vertices g = [] ->
  forallb (fun n => degree g n mod 2 =? 0) (nodes g) = true.
Proof.
  unfold find_odd_degree_vertices. intros Hf. apply forallb_forall. intros x Hx.
  destruct (degree g x mod 2 =? 0) eqn:E; [reflexivity|].
  assert (Hin : In x (filter (fun node => negb (degree g node mod 2 =? 0)) (nodes g))).
  { apply filter_In. rewrite E. tauto. }
  rewrite Hf in Hin. destruct Hin.
Qed.

Lemma even_cancel (a b c : nat) :
  Nat.even (a + b) = true -> Nat.even (c + b) = true -> Nat.even (c + a) = true.
Proof.
  rewrite !Nat.even_add.
  destruct (Nat.even a), (Nat.even b), (Nat.even c); simpl; congruence.
Qed.

Lemma paths_inc_parity g (M : list (V * V)) (paths : list (list V)) x :
  Forall2 (fun uv p => is_path g (fst uv) (snd uv) p) M paths ->
  Nat.even (inc (flat_map path_edges paths) x + inc M x) = true.
Proof.
  induction 1 as [|[u v] p M paths Hp Hf IH]; [reflexivity|].
  cbn [flat_map]. rewrite inc_app, inc_cons. cbn [fst snd] in *.
  destruct Hp as (Hhd & Hlast & _).
  destruct p as [|a rest]; [discriminate|]. injection Hhd as ->.
  pose proof (inc_path_edges rest u x) as Hpe. rewrite Hlast in Hpe.
  replace (inc (path_edges (u :: rest)) x + inc (flat_map path_edges paths) x
           + (b2n (eqv x u) + b2n (eqv x v) + inc M x))
    with ((inc (path_edges (u :: rest)) x + b2n (eqv x u) + b2n (eqv x v))
          + (inc (flat_map path_edges paths) x + inc M x)) by lia.
  rewrite Nat.even_add, Hpe, IH. reflexivity.
Qed.

Lemma odd_vertex_parity g x :
  Nat.even (degree g x + b2n (mem x (find_odd_degree_vertices g))) = true.
Proof.
  destruct (mem x (find_odd_degree_vertices g)) eqn:E.
  - apply mem_true, find_odd_degree_vertices_In in E. destruct E as [_ Ho].
    rewrite Nat.even_add. rewrite <- Nat.negb_even in Ho.
    destruct (Nat.even (degree g x)); [discriminate|reflexivity].
  - apply mem_false in E. simpl. rewrite Nat.add_0_r.
    destruct (in_dec eq_dec x (nodes g)) as [Hin|Hnin].
    + destruct (Nat.even (degree g x)) eqn:Ee; [reflexivity|].
      exfalso. apply E. apply find_odd_degree_vertices_In.
      split; [assumption|]. now rewrite <- Nat.negb_even, Ee.
    + now rewrite degree_not_node.
Qed.

Lemma keydict_first (kd : KeyDict) :
  kd <> [] -> map fst kd = seq 0 (length kd) -> exists w, dict_get kd 0 = Some w.
Proof.
  destruct kd as [|[k w] kd]; [contradiction|]. simpl.
  intros _ [= -> _]. exists w. reflexivity.
Qed.

Lemma duplicate_path_total g p st :
  (forall e, In e (path_edges p) -> get_edge g (fst e) (snd e) <> None) ->
  exists st', duplicate_path g p st = Ok st'.
Proof.
  unfold duplicate_path. fold (path_edges p). revert st.
  induction (path_edges p) as [|e l IH]; intros st Hall; simpl; [eauto|].
  destruct (get_edge g (fst e) (snd e)) as [w|] eqn:E.
  - simpl. apply IH. intros; apply Hall; now right.
  - exfalso. apply (Hall e); [now left|assumption].
Qed.
End Helpers.

Section Exists.
Context {V : Type} {V_dec : EqDec V}.
Variable nx : NxLib V.
Variable g : Graph V.
Hypothesis Hwf : wf g.
Hypothesis Hcon : is_connected g = Ok true.
Hypothesis Hnx : nx_contract nx g.
Implicit Types (m : MultiGraph V) (u v x y : V) (w : Z).

Let odd := find_odd_degree_vertices g.
Let K := complete_graph_of nx g.
Let M := min_weight_matching nx K.

Lemma g_connected : connected g.
Proof. now apply connected_of_is_connected. Qed.

Lemma M_min : is_min_weight_matching K M.
Proof.
  apply (nx_min_weight_matching nx g Hnx). apply build_complete_graph_Ok; try assumption.
  apply g_connected.
Qed.

Lemma M_cover x : In x (endpoints M) <-> In x odd.
Proof.
  destruct M_min as (Hm & Hmax & _).
  apply (max_matching_covers nx g Hwf g_connected Hnx M Hm Hmax).
Qed.

Lemma M_path uv :
  In uv M ->
  exists p, shortest_path nx g (fst uv) (snd uv) = Ok p
            /\ is_path g (fst uv) (snd uv) p
            /\ is_shortest_dist g (fst uv) (snd uv) (path_weight g p).
Proof.
  destruct uv as [u v]. intros Hin. simpl.
  destruct (matching_pair_distinct nx g Hwf g_connected Hnx M u v (proj1 M_min) Hin)
    as (Hu & Hv & Hne).
  apply (nx_shortest_path nx g Hnx u v Hu Hv Hne). apply g_connected.
  - now apply (odd_node g).
  - now apply (odd_node g).
Qed.

Lemma duplicate_matching_total (l : list (V * V)) :
  (forall uv, In uv l -> In uv M) ->
  forall st, exists st', duplicate_matching nx g l st = Ok st'.
Proof.
  unfold duplicate_matching. induction l as [|uv l IH]; intros Hall st; simpl; [eauto|].
  destruct (M_path uv (Hall uv (or_introl eq_refl))) as (p & -> & (_ & _ & Hp) & _).
  simpl. destruct (duplicate_path_total g p st Hp) as [st1 ->]. simpl.
  apply IH. intros; apply Hall; now right.
Qed.

Lemma amwm_total :
  exists eg aw, add_minimum_weight_matching nx g = Ok (eg, aw).
Proof.
  unfold add_minimum_weight_matching.
  destruct (find_odd_degree_vertices g) as [|o rest] eqn:E; [eauto|].
  rewrite <- E. fold odd.
  unfold odd. rewrite (build_complete_graph_Ok nx g Hwf g_connected Hnx). cbn [bind].
  fold K. fold M.
  destruct (duplicate_matching_total M (fun _ H => H) (original_edges g, 0%Z)) as [st ->].
  simpl. eauto.
Qed.

Lemma paths_valid_from (l : list (V * V)) (paths : list (list V)) :
  Forall2 (fun uv p => shortest_path nx g (fst uv) (snd uv) = Ok p) l paths ->
  (forall uv, In uv l -> In uv M) ->
  Forall2 (fun uv p => is_path g (fst uv) (snd uv) p
                       /\ is_shortest_dist g (fst uv) (snd uv) (path_weight g p))
          l paths.
Proof.
  induction 1 as [|uv p l ps Hp Hf IH]; intros Hall; constructor.
  - destruct (M_path uv (Hall uv (or_introl eq_refl))) as (p' & Hp' & Hpath & Hd).
    rewrite Hp in Hp'. injection Hp' as <-. tauto.
  - apply IH. intros; apply Hall; now right.
Qed.

Lemma paths_valid (paths : list (list V)) :
  Forall2 (fun uv p => shortest_path nx g (fst uv) (snd uv) = Ok p) M paths ->
  Forall2 (fun uv p => is_path g (fst uv) (snd uv) p
                       /\ is_shortest_dist g (fst uv) (snd uv) (path_weight g p))
          M paths.
Proof. intros Hf. apply paths_valid_from; auto. Qed.
End Exists.

Section Finish.
Context {V : Type} {V_dec : EqDec V}.
Variable nx : NxLib V.
Implicit Types (g : Graph V) (m : MultiGraph V) (u v x y : V) (w : Z).

Lemma In_occ_pos (c : list (V * V)) a b : In (a, b) c -> 0 < occ c a b.
Proof.
  intros Hin. apply in_split in Hin. destruct Hin as (l1 & l2 & ->).
  rewrite occ_app, occ_cons.
  assert (Hs : same_edge (a, b) a b = true) by (apply same_edge_true; now left).
  rewrite Hs. simpl. lia.
Qed.

Lemma paths_edges_exist g (l : list (V * V)) (ps : list (list V)) :
  Forall2 (fun uv p => is_path g (fst uv) (snd uv) p) l ps ->
  forall e, In e (flat_map path_edges ps) -> get_edge g (fst e) (snd e) <> None.
Proof.
  induction 1 as [|uv p l ps (_ & _ & Hp) Hf IH]; simpl; [tauto|].
  intros e Hin. apply in_app_or in Hin. destruct Hin; auto.
Qed.

Lemma any_ok_wf eg :
  any_ok eg -> match eg with Simple h => wf h | Multi m => wf m end.
Proof. destruct eg; simpl; tauto. Qed.

Lemma edge_weight_total eg u v :
  any_ok eg -> 0 < any_mult eg u v -> exists w, edge_weight eg u v = Ok w.
Proof.
  destruct eg as [h|m]; simpl; unfold mult.
  - intros _. destruct (get_edge h u v) as [w|]; intros Hpos; [|lia].
    exists w. reflexivity.
  - intros [Hwf Hk]. destruct (get_edge m u v) as [kd|] eqn:E; [|lia].
    intros Hpos. simpl.
    destruct (keydict_first kd) as [w Hw].
    + intros ->. simpl in Hpos. lia.
    + eapply Hk; eauto.
    + rewrite Hw. exists w. reflexivity.
Qed.

Lemma any_circuit_exists eg source :
  any_ok eg -> any_is_eulerian eg = Ok true -> In source (any_nodes eg) ->
  exists circ, any_eulerian_circuit eg source = Ok circ.
Proof.
  destruct eg as [h|m]; simpl.
  - intros Hwf He Hs.
    destruct (eulerian_circuit_spec h source Hwf He Hs) as (out & Ho & _). eauto.
  - intros [Hwf _] He Hs.
    destruct (eulerian_circuit_spec m source Hwf He Hs) as (out & Ho & _). eauto.
Qed.

(** Once the eulerized graph passes the Eulerian test, a route comes
    back. *)
Lemma solve_finish g eg aw start :
  wf g ->
  add_minimum_weight_matching nx g = Ok (eg, aw) ->
  any_ok eg -> any_is_eulerian eg = Ok true ->
  match start with
  | Some s => In s (any_nodes eg)
  | None => any_nodes eg <> []
  end ->
  exists sol, solve_chinese_postman nx g start = Ok sol.
Proof.
  intros Hwf Hst Hok He Hstart.
  assert (Hsrc : exists source,
             match start with
             | Some s => Ok s
             | None => of_option IndexError (hd_error (any_nodes eg))
             end = Ok source /\ In source (any_nodes eg)).
  { destruct start as [s|]; [eauto|].
    destruct (any_nodes eg) as [|s rest]; [contradiction|].
    exists s. split; [reflexivity|now left]. }
  destruct Hsrc as (source & Hsrc & Hin).
  destruct (any_circuit_exists eg source Hok He Hin) as [circ Hc].
  destruct (any_circuit_spec eg source circ (any_ok_wf eg Hok) Hc) as [_ Hocc].
  destruct (format_circuit_total eg circ) with (acc := @nil (V * V * Z)) as [fc Hfc].
  { intros [a b] Hin'. simpl. apply edge_weight_total; [assumption|].
    rewrite <- Hocc. now apply In_occ_pos. }
  unfold solve_chinese_postman.
  rewrite (original_cost_total g Hwf), Hst. cbn [bind fst snd].
  unfold find_eulerian_circuit. rewrite He. cbn [bind negb].
  rewrite Hsrc. cbn [bind]. rewrite Hc. cbn [bind].
  unfold format_circuit. rewrite Hfc. cbn [bind]. eauto.
Qed.
End Finish.

Section ExistsRoute.
Context {V : Type} {V_dec : EqDec V}.
Variable nx : NxLib V.
Variable g : Graph V.
Hypothesis Hwf : wf g.
Hypothesis Hcon : is_connected g = Ok true.
Hypothesis Hnx : nx_contract nx g.
Implicit Types (m : MultiGraph V) (u v x y : V) (w : Z).

Lemma nodes_nonempty : nodes g <> [].
Proof.
  unfold is_connected in Hcon. destruct (nodes g); [discriminate|]. discriminate.
Qed.

(** *** No odd vertex: the copy is Eulerian *)

Lemma even_case_eulerian :
  find_odd_degree_vertices g = [] -> is_eulerian (copy g) = Ok true.
Proof.
  intros Hodd. apply copy_is_eulerian; [assumption|].
  apply is_eulerian_true. split; [now apply no_odd_all_even|assumption].
Qed.

(** *** Odd vertices: the multigraph is Eulerian *)

Section OddCase.
Variable paths : list (list V).
Hypothesis Hodd : find_odd_degree_vertices g <> [].
Hypothesis Hpaths :
  Forall2 (fun uv p => shortest_path nx g (fst uv) (snd uv) = Ok p)
          (min_weight_matching nx (complete_graph_of nx g)) paths.

Let d := flat_map path_edges paths.
Let m := build_from (edges_data g ++ with_weights g d) [].
Let M := min_weight_matching nx (complete_graph_of nx g).

Lemma paths_are_paths :
  Forall2 (fun uv p => is_path g (fst uv) (snd uv) p) M paths.
Proof.
  pose proof (paths_valid nx g Hwf Hcon Hnx paths Hpaths) as Hv.
  fold M in Hv. eapply Forall2_impl; [|exact Hv]. simpl. tauto.
Qed.

Lemma dup_edges_exist e : In e d -> get_edge g (fst e) (snd e) <> None.
Proof.
  unfold d. eapply paths_edges_exist. apply paths_are_paths.
Qed.

Lemma dup_degree_even x : Nat.even (degree m x) = true.
Proof.
  destruct (eulerized_multi g d Hwf) as (_ & _ & _ & Hdeg & _).
  fold m in Hdeg. rewrite Hdeg.
  apply (even_cancel (inc d x) (b2n (mem x (find_odd_degree_vertices g)))).
  - pose proof (paths_inc_parity g M paths x paths_are_paths) as Hp.
    fold d in Hp. pose proof (M_min nx g Hwf Hcon Hnx) as ((Hnd & _) & _).
    rewrite (inc_NoDup M x Hnd) in Hp.
    replace (mem x (find_odd_degree_vertices g)) with (mem x (endpoints M)); [exact Hp|].
    pose proof (M_cover nx g Hwf Hcon Hnx x) as Hc. fold M in Hc.
    destruct (mem x (endpoints M)) eqn:E1, (mem x (find_odd_degree_vertices g)) eqn:E2;
      try reflexivity.
    + apply mem_true in E1. apply mem_false in E2. tauto.
    + apply mem_false in E1. apply mem_true in E2. tauto.
  - apply odd_vertex_parity.
Qed.

Lemma dup_nodes x : In x (nodes m) -> In x (nodes g).
Proof.
  destruct (eulerized_multi g d Hwf) as (_ & _ & _ & _ & _ & Hn).
  fold m in Hn. rewrite Hn, In_endpoints_app.
  intros [Hin|Hin]; [now apply edges_endpoints_nodes|].
  apply In_endpoints in Hin. destruct Hin as ([a b] & He & Hx).
  pose proof (dup_edges_exist _ He) as Hg. simpl in *.
  destruct (get_edge g a b) as [w|] eqn:E; [|congruence].
  destruct Hx as [-> | ->].
  - eapply get_edge_node; eauto.
  - eapply wf_neighbor_node; eauto.
Qed.

Lemma degree_pos_dup_node x : 0 < degree g x -> In x (nodes m).
Proof.
  intros Hpos. destruct (eulerized_multi g d Hwf) as (_ & _ & _ & _ & _ & Hn).
  fold m in Hn. rewrite Hn, In_endpoints_app. left.
  apply inc_pos_In. now rewrite <- degree_inc.
Qed.

Lemma dup_reach s x : reach g s x -> reach m s x.
Proof.
  destruct (eulerized_multi g d Hwf) as (Hwfm & _ & Hmult & _).
  fold m in Hwfm, Hmult.
  apply reach_ext. intros u v Hin.
  apply (mult_pos g u v Hwf) in Hin. apply (mult_pos m u v Hwfm).
  rewrite Hmult. lia.
Qed.

Lemma odd_vertex_dup_node : exists o, In o (nodes m).
Proof.
  destruct (find_odd_degree_vertices g) as [|o rest] eqn:E; [contradiction|].
  exists o. apply degree_pos_dup_node.
  assert (Ho : In o (find_odd_degree_vertices g)) by (rewrite E; now left).
  apply find_odd_degree_vertices_In in Ho. destruct Ho as [_ Ho].
  destruct (degree g o); [discriminate|lia].
Qed.

Lemma node_dup_node s : In s (nodes g) -> In s (nodes m).
Proof.
  intros Hs. destruct odd_vertex_dup_node as [o Ho].
  destruct (eq_dec s o) as [->|Hne]; [assumption|].
  apply degree_pos_dup_node.
  assert (Hr : reach g s o).
  { apply (g_connected g Hwf Hcon); [assumption|now apply dup_nodes]. }
  destruct (reach_neighbor g s o Hr Hne) as [y Hy].
  eapply neighbor_degree_pos; eauto.
Qed.

Lemma odd_case_eulerian : is_eulerian m = Ok true.
Proof.
  destruct (eulerized_multi g d Hwf) as (Hwfm & _).
  fold m in Hwfm. apply is_eulerian_true. split.
  - apply forallb_forall. intros x _. rewrite mod2_even. apply dup_degree_even.
  - apply is_connected_of_connected; [assumption| |].
    + destruct odd_vertex_dup_node as [o Ho]. intros E. rewrite E in Ho. destruct Ho.
    + intros u v Hu Hv. apply dup_reach.
      apply (g_connected g Hwf Hcon); now apply dup_nodes.
Qed.
End OddCase.

(** *** The route *)

Theorem solve_total start :
  start_ok g start -> exists sol, solve_chinese_postman nx g start = Ok sol.
Proof.
  intros Hstart.
  destruct (amwm_total nx g Hwf Hcon Hnx) as (eg & aw & Hst).
  destruct (add_minimum_weight_matching_spec nx g eg aw Hst)
    as (paths & Heul & _ & _ & Hodd).
  destruct (eulerized_cases g paths eg aw Heul) as [(Hno & -> & ->)|(Hsome & -> & ->)].
  - apply (solve_finish nx g (Simple (copy g)) 0%Z start Hwf Hst).
    + simpl. now apply copy_wf.
    + simpl. now apply even_case_eulerian.
    + simpl. rewrite copy_nodes by assumption.
      destruct start as [s|]; [exact Hstart|apply nodes_nonempty].
  - destruct (Hodd Hsome) as (K & HK & Hpaths).
    rewrite (build_complete_graph_Ok nx g Hwf (g_connected g Hwf Hcon) Hnx) in HK.
    injection HK as <-.
    eapply (solve_finish nx g _ _ start Hwf Hst).
    + simpl. destruct (eulerized_multi g (flat_map path_edges paths) Hwf) as (? & ? & _).
      split; assumption.
    + simpl. now apply odd_case_eulerian.
    + simpl. destruct start as [s|].
      * apply node_dup_node; assumption.
      * destruct (odd_vertex_dup_node paths Hsome) as [o Ho].
        intros E. rewrite E in Ho. destruct Ho.
Qed.
End ExistsRoute.

(** ** The weight added by the eulerization *)

Section AddedWeight.
Context {V : Type} {V_dec : EqDec V}.
Variable nx : NxLib V.
Variable g : Graph V.
Hypothesis Hwf : wf g.
Hypothesis Hcon : is_connected g = Ok true.
Hypothesis Hnx : nx_contract nx g.
Implicit Types (u v x y : V) (w : Z).

Let odd := find_odd_degree_vertices g.
Let K := complete_graph_of nx g.
Let M := min_weight_matching nx K.

Lemma add_triples_nodes_In {A : Type} `{EdgeData A} (l : list (V * V * A)) :
  forall (h : AdjMap V A) x,
    In x (nodes (add_triples l h)) -> In x (nodes h) \/ In x (endpoints (map fst l)).
Proof.
  induction l as [|[[a b] c] l IH]; intros h x; [simpl; tauto|].
  cbn [add_triples fold_left fst snd]. fold (add_triples l (add_entry h a b c)).
  intros Hin. apply IH in Hin. rewrite In_nodes_add_entry in Hin.
  change (map fst ((a, b, c) :: l)) with ((a, b) :: map fst l).
  change ((a, b) :: map fst l) with ([(a, b)] ++ map fst l).
  rewrite In_endpoints_app. unfold endpoints at 1. simpl. intuition.
Qed.

Lemma complete_graph_nodes x : In x (nodes K) -> In x odd.
Proof.
  intros Hin. unfold K, complete_graph_of in Hin.
  apply add_triples_nodes_In in Hin. destruct Hin as [[]|Hin].
  apply In_endpoints in Hin. destruct Hin as ([a b] & He & Hx).
  apply in_map_iff in He. destruct He as ([[a' b'] c] & [= <- <-] & He).
  unfold weighted_pairs in He. apply in_map_iff in He.
  destruct He as ([a'' b''] & [= <- <- _] & He).
  destruct (combinations2_odd g Hwf _ He) as (Ha & Hb & _). simpl in *.
  destruct Hx as [-> | ->]; assumption.
Qed.

Lemma M_perfect : is_perfect_matching K M.
Proof.
  split; [apply (M_min nx g Hwf Hcon Hnx)|].
  intros x Hx. apply (M_cover nx g Hwf Hcon Hnx). now apply complete_graph_nodes.
Qed.

Lemma M_least m' :
  odd <> [] -> is_perfect_matching K m' ->
  (matching_weight K M <= matching_weight K m')%Z.
Proof.
  intros Hodd Hp. destruct (M_min nx g Hwf Hcon Hnx) as (Hm & Hmax & Hmin).
  apply Hmin; [apply Hp|].
  pose proof (perfect_matching_length nx g Hwf (g_connected g Hwf Hcon) Hnx m' Hodd Hp)
    as Hl'.
  pose proof (max_matching_covers nx g Hwf (g_connected g Hwf Hcon) Hnx M Hm Hmax)
    as [_ Hl].
  unfold M, K, odd in *. lia.
Qed.

Lemma paths_weight_from (l : list (V * V)) (paths : list (list V)) :
  Forall2 (fun uv p => is_path g (fst uv) (snd uv) p
                       /\ is_shortest_dist g (fst uv) (snd uv) (path_weight g p))
          l paths ->
  (forall uv, In uv l -> In uv M) ->
  sum_Z (map (edge_w g) (flat_map path_edges paths)) = matching_weight K l.
Proof.
  induction 1 as [|[u v] p l ps [Hp Hd] Hf IH]; intros Hall; [reflexivity|].
  cbn [flat_map]. rewrite map_app, sum_Z_app, IH by (intros; apply Hall; now right).
  unfold matching_weight. cbn [map sum_Z fold_right]. f_equal.
  fold (path_weight g p). simpl in Hd.
  destruct (matching_pair_distinct nx g Hwf (g_connected g Hwf Hcon) Hnx M u v)
    as (Hu & Hv & Hne).
  - apply (M_min nx g Hwf Hcon Hnx).
  - apply Hall. now left.
  - unfold K. rewrite (complete_graph_edge_w nx g Hwf (g_connected g Hwf Hcon) Hnx u v Hu Hv Hne).
    destruct (odd_dist nx g (g_connected g Hwf Hcon) Hnx u v Hu Hv Hne) as [_ Hd'].
    eapply is_shortest_dist_unique; eauto.
Qed.

Lemma complete_graph_distance u v :
  In u odd -> In v odd -> u <> v ->
  exists d, get_edge K u v = Some d /\ is_shortest_dist g u v d.
Proof.
  intros Hu Hv Hne. exists (dist_of nx g u v). split.
  - apply (complete_graph_edge nx g Hwf (g_connected g Hwf Hcon) Hnx); assumption.
  - apply (odd_dist nx g (g_connected g Hwf Hcon) Hnx); assumption.
Qed.
End AddedWeight.

(** ** The weights of parallel edges *)

Section Weights.
Context {V : Type} {V_dec : EqDec V}.
Variable g : Graph V.
Hypothesis Hwf : wf g.
Implicit Types (m : MultiGraph V) (u v x y : V) (w : Z).

Lemma madd_edge_weights m u v w :
  wf m -> keys_ok m -> weights_from_graph g m ->
  get_edge g u v = Some w ->
  weights_from_graph g (madd_edge m u v w).
Proof.
  intros Hwfm Hk Hm Hg x y kd. rewrite madd_edge_get by assumption.
  destruct (same_edge (u, v) x y) eqn:Es; [|apply Hm].
  intros [= <-] k w' Hin.
  assert (Hxy : get_edge g x y = Some w).
  { apply same_edge_true in Es. destruct Es as [[= <- <-]|[= <- <-]]; [assumption|].
    now apply (wf_sym g Hwf). }
  assert (Hold : forall kd', get_edge m u v = Some kd' ->
                             forall k' w'', In (k', w'') kd' -> w'' = w).
  { intros kd' E k' w'' Hin'. specialize (Hm u v kd' E k' w'' Hin'). congruence. }
  destruct (get_edge m u v) as [kd'|] eqn:E; simpl in Hin.
  - apply in_app_or in Hin. destruct Hin as [Hin|[[= _ <-]|[]]]; [|assumption].
    rewrite (Hold kd' eq_refl k w' Hin). assumption.
  - destruct Hin as [[= _ <-]|[]]. assumption.
Qed.

Lemma build_from_weights (l : list (V * V * Z)) :
  (forall u v w, In (u, v, w) l -> get_edge g u v = Some w) ->
  forall m, wf m -> keys_ok m -> weights_from_graph g m ->
            weights_from_graph g (build_from l m).
Proof.
  induction l as [|[[u v] w] l IH]; intros Hall m Hwfm Hk Hm; [assumption|].
  cbn [build_from fold_left fst snd]. apply IH.
  - intros; apply Hall; now right.
  - now apply madd_edge_wf.
  - now apply madd_edge_keys_ok.
  - apply madd_edge_weights; try assumption. apply Hall. now left.
Qed.

Lemma eulerized_weights (d : list (V * V)) :
  (forall e, In e d -> get_edge g (fst e) (snd e) <> None) ->
  weights_from_graph g (build_from (edges_data g ++ with_weights g d) []).
Proof.
  intros Hd. apply build_from_weights.
  - intros u v w Hin. apply in_app_or in Hin. destruct Hin as [Hin|Hin].
    + now apply In_edges_data_get.
    + unfold with_weights in Hin. apply in_map_iff in Hin.
      destruct Hin as ([a b] & [= <- <- <-] & Hin). specialize (Hd _ Hin).
      unfold edge_w. simpl in *. destruct (get_edge g a b); congruence.
  - apply wf_nil.
  - apply keys_ok_nil.
  - intros u v kd. discriminate.
Qed.

Lemma eulerized_any_weights paths eg aw u v w :
  (eg, aw) = eulerized g paths ->
  (forall e, In e (flat_map path_edges paths) -> get_edge g (fst e) (snd e) <> None) ->
  In w (any_weights eg u v) -> get_edge g u v = Some w.
Proof.
  intros He Hd. destruct (eulerized_cases g paths eg aw He) as [(_ & -> & _)|(_ & -> & _)];
    simpl.
  - rewrite copy_get_edge by assumption.
    destruct (get_edge g u v); simpl; [|tauto]. intros [->|[]]. reflexivity.
  - destruct (get_edge _ u v) as [kd|] eqn:E; [|simpl; tauto].
    intros Hin. apply in_map_iff in Hin. destruct Hin as ([k w'] & <- & Hin).
    eapply (eulerized_weights _ Hd); eauto.
Qed.

Lemma edge_weight_any_weights eg u v w :
  edge_weight eg u v = Ok w -> In w (any_weights eg u v).
Proof.
  destruct eg as [h|m]; simpl.
  - destruct (get_edge h u v); simpl; [|discriminate]. intros [= ->]. now left.
  - destruct (get_edge m u v) as [kd|]; simpl; [|discriminate].
    intros Hw. apply of_option_Ok in Hw. apply dict_get_In in Hw.
    change w with (snd (0, w)). now apply in_map.
Qed.
End Weights.

(** ** Graphs in several pieces *)

Section Disconnected.
Context {V : Type} {V_dec : EqDec V}.
Variable nx : NxLib V.
Implicit Types (g : Graph V) (m : MultiGraph V) (u v x y : V) (w : Z).

Lemma degree_pos_node {A : Type} `{EdgeData A} (h : AdjMap V A) x :
  0 < degree h x -> In x (nodes h).
Proof.
  intros Hpos. destruct (in_dec eq_dec x (nodes h)) as [?|Hn]; [assumption|].
  rewrite degree_not_node in Hpos by assumption. lia.
Qed.

Lemma is_eulerian_connected {A : Type} `{EdgeData A} (h : AdjMap V A) :
  is_eulerian h = Ok true -> is_connected h = Ok true.
Proof. intros He. now apply is_eulerian_true in He. Qed.

Lemma eulerized_reach_back g (d : list (V * V)) s x :
  wf g ->
  (forall e, In e d -> get_edge g (fst e) (snd e) <> None) ->
  reach (build_from (edges_data g ++ with_weights g d) []) s x -> reach g s x.
Proof.
  intros Hwf Hd. destruct (eulerized_multi g d Hwf) as (Hwfm & _ & Hmult & _).
  apply reach_ext. intros u v Hin.
  apply (mult_pos _ u v Hwfm) in Hin. rewrite Hmult in Hin.
  destruct (Nat.eq_dec (mult g u v) 0) as [Hz|Hnz].
  - assert (Hocc : 0 < occ d u v) by lia. apply occ_pos_In in Hocc.
    apply neighbors_In. destruct Hocc as [Hin'|Hin']; specialize (Hd _ Hin'); simpl in Hd.
    + destruct (get_edge g u v) as [w|]; [eauto|congruence].
    + destruct (get_edge g v u) as [w|] eqn:E; [|congruence].
      exists w. now apply (wf_sym g Hwf).
  - apply (mult_pos g u v Hwf). lia.
Qed.

Lemma eulerized_node g (d : list (V * V)) x :
  wf g -> 0 < degree g x ->
  In x (nodes (build_from (edges_data g ++ with_weights g d) [])).
Proof.
  intros Hwf Hpos. destruct (eulerized_multi g d Hwf) as (_ & _ & _ & _ & _ & Hn).
  rewrite Hn, In_endpoints_app. left. apply inc_pos_In. now rewrite <- degree_inc.
Qed.

(** Two vertices with edges and no path between them: no route. *)
Lemma disconnected_no_route g start u v sol :
  wf g -> 0 < degree g u -> 0 < degree g v -> ~ reach g u v ->
  solve_chinese_postman nx g start <> Ok sol.
Proof.
  intros Hwf Hu Hv Hnr Hs.
  destruct (solve_route nx g start sol Hwf Hs)
    as (eg & aw & paths & source & _ & Heul & Hedges & _ & Hfc & _).
  apply find_eulerian_circuit_Ok in Hfc. destruct Hfc as [He _].
  apply Hnr.
  destruct (eulerized_cases g paths eg aw Heul) as [(_ & -> & _)|(_ & -> & _)];
    simpl in He; apply is_eulerian_connected in He.
  - apply (copy_reach g u v Hwf).
    apply is_connected_reach; [now apply copy_wf|assumption| |];
      rewrite copy_nodes by assumption; now apply degree_pos_node.
  - apply (eulerized_reach_back g (flat_map path_edges paths)); [assumption|assumption|].
    apply is_connected_reach; [now apply eulerized_multi|assumption| |];
      now apply eulerized_node.
Qed.
End Disconnected.

(** ** Graphs without edges *)

Section Edgeless.
Context {V : Type} {V_dec : EqDec V}.
Variable nx : NxLib V.
Variable g : Graph V.
Hypothesis Hwf : wf g.
Hypothesis Hno : edges g = [].
Implicit Types (u v x y : V) (w : Z).

Lemma edgeless_get x y : get_edge g x y = None.
Proof.
  pose proof (occ_edges g x y Hwf) as Ho. rewrite Hno, occ_nil in Ho.
  unfold mult in Ho. destruct (get_edge g x y); [simpl in Ho; lia|reflexivity].
Qed.

Lemma edgeless_degree x : degree g x = 0.
Proof. rewrite degree_inc by assumption. now rewrite Hno. Qed.

Lemma edgeless_odd : find_odd_degree_vertices g = [].
Proof.
  unfold find_odd_degree_vertices.
  induction (nodes g) as [|n l IH]; [reflexivity|]. cbn [filter].
  rewrite edgeless_degree. simpl. exact IH.
Qed.

Lemma edgeless_total : total_weight g = 0%Z.
Proof.
  unfold total_weight. unfold edges in Hno.
  destruct (edges_data g); [reflexivity|discriminate].
Qed.

Lemma edgeless_reach s x : reach g s x -> x = s.
Proof.
  induction 1 as [|x y _ _ Hy]; [reflexivity|].
  apply neighbors_In in Hy. destruct Hy as [a Ha]. rewrite edgeless_get in Ha.
  discriminate.
Qed.

Lemma edgeless_amwm :
  add_minimum_weight_matching nx g = Ok (Simple (copy g), 0%Z).
Proof. unfold add_minimum_weight_matching. now rewrite edgeless_odd. Qed.

Lemma edgeless_even : forallb (fun n => degree (copy g) n mod 2 =? 0) (nodes (copy g)) = true.
Proof.
  apply forallb_forall. intros x _. rewrite copy_degree by assumption.
  now rewrite edgeless_degree.
Qed.

(** No vertex at all. *)
Lemma edgeless_null start :
  nodes g = [] -> solve_chinese_postman nx g start = Raise NetworkXPointlessConcept.
Proof.
  intros Hn. unfold solve_chinese_postman.
  rewrite (original_cost_total g Hwf), edgeless_amwm. cbn [bind fst snd].
  unfold find_eulerian_circuit. cbn [any_is_eulerian].
  unfold is_eulerian. rewrite edgeless_even.
  unfold is_connected. rewrite copy_nodes, Hn by assumption. reflexivity.
Qed.

(** Two vertices or more: the Eulerian test fails. *)
Lemma edgeless_many start a b rest :
  nodes g = a :: b :: rest -> solve_chinese_postman nx g start = Raise NetworkXError.
Proof.
  intros Hn. unfold solve_chinese_postman.
  rewrite (original_cost_total g Hwf), edgeless_amwm. cbn [bind fst snd].
  unfold find_eulerian_circuit. cbn [any_is_eulerian].
  assert (He : is_eulerian (copy g) = Ok false).
  { unfold is_eulerian. rewrite edgeless_even.
    destruct (is_connected (copy g)) as [[|]|e] eqn:Ec.
    - exfalso. apply (is_connected_true (copy g) (copy_wf g Hwf)) in Ec.
      destruct Ec as (s & r & En & Hall). rewrite copy_nodes, Hn in En by assumption.
      injection En as <- <-.
      assert (Hb : reach (copy g) a b).
      { apply Hall. rewrite copy_nodes, Hn by assumption. simpl. tauto. }
      apply (copy_reach g a b Hwf) in Hb. apply edgeless_reach in Hb.
      pose proof (wf_nodes g Hwf) as Hnd. rewrite Hn in Hnd.
      inversion Hnd as [|? ? Hnin _]; subst. apply Hnin. now left.
    - reflexivity.
    - unfold is_connected in Ec. rewrite copy_nodes, Hn in Ec by assumption.
      discriminate. }
  rewrite He. reflexivity.
Qed.

(** One vertex: an empty route of cost 0. *)
Lemma edgeless_single start n :
  nodes g = [n] -> start = None \/ start = Some n ->
  solve_chinese_postman nx g start = Ok {| total_cost := 0; circuit := [] |}.
Proof.
  intros Hn Hstart.
  assert (He : is_eulerian (copy g) = Ok true).
  { apply is_eulerian_true. split; [apply edgeless_even|].
    apply is_connected_of_connected; [now apply copy_wf| |].
    - rewrite copy_nodes, Hn by assumption. discriminate.
    - intros u v. rewrite copy_nodes, Hn by assumption.
      intros [<-|[]] [<-|[]]. constructor. }
  destruct (solve_finish nx g (Simple (copy g)) 0%Z start Hwf edgeless_amwm) as [sol Hs].
  - simpl. now apply copy_wf.
  - exact He.
  - simpl. rewrite copy_nodes, Hn by assumption.
    destruct Hstart as [-> | ->]; [discriminate|now left].
  - rewrite Hs. f_equal.
    destruct (solve_route nx g start sol Hwf Hs)
      as (eg & aw & paths & source & Hst & _ & _ & Htot & _ & _ & _ & Hocc & _).
    rewrite edgeless_amwm in Hst. injection Hst as <- <-.
    destruct sol as [tc circ]. simpl in *. f_equal.
    + rewrite Htot, edgeless_total. reflexivity.
    + destruct circ as [|[[a b] w] circ]; [reflexivity|].
      specialize (Hocc a b). rewrite copy_mult in Hocc by assumption.
      unfold mult in Hocc. rewrite edgeless_get in Hocc.
      unfold pairs_of in Hocc. cbn [map fst] in Hocc. rewrite occ_cons in Hocc.
      assert (Hse : same_edge (a, b) a b = true) by (apply same_edge_true; now left).
      rewrite Hse in Hocc. simpl in Hocc. lia.
Qed.
End Edgeless.

(** ** The program on the store *)

Section StoreFacts.
Context {V : Type} {V_dec : EqDec V}.
Implicit Types (s t : Store (V:=V)) (x y : AnyGraph V) (r : nat).

Lemma nth_error_prefix s t r x :
  nth_error s r = Some x -> nth_error (s ++ t) r = Some x.
Proof.
  intros Hn. rewrite nth_error_app1; [assumption|].
  apply nth_error_Some. congruence.
Qed.

Lemma nth_error_at s x t : nth_error (s ++ x :: t) (length s) = Some x.
Proof. rewrite nth_error_app2 by lia. now rewrite Nat.sub_diag. Qed.

Lemma nth_error_at1 s x y t : nth_error (s ++ x :: y :: t) (S (length s)) = Some y.
Proof.
  rewrite nth_error_app2 by lia.
  replace (S (length s) - length s) with 1 by lia. reflexivity.
Qed.

Lemma set_nth_at s x y t : set_nth (length s) y (s ++ x :: t) = s ++ y :: t.
Proof. induction s as [|a s IH]; simpl; [reflexivity|]. now rewrite IH. Qed.

Lemma set_nth_at1 s x y z t :
  set_nth (S (length s)) z (s ++ x :: y :: t) = s ++ x :: z :: t.
Proof.
  replace (S (length s)) with (length (s ++ [x])) by (rewrite length_app; simpl; lia).
  change (s ++ x :: y :: t) with (s ++ [x] ++ y :: t).
  change (s ++ x :: z :: t) with (s ++ [x] ++ z :: t).
  rewrite !app_assoc. apply set_nth_at.
Qed.

Lemma extends_refl s : extends s s.
Proof. exists []. now rewrite app_nil_r. Qed.

Lemma extends_app s t : extends s (s ++ t).
Proof. now exists t. Qed.

Lemma extends_trans s1 s2 s3 : extends s1 s2 -> extends s2 s3 -> extends s1 s3.
Proof. intros [n1 ->] [n2 ->]. exists (n1 ++ n2). now rewrite app_assoc. Qed.

Lemma extends_nth s s' r x : extends s s' -> nth_error s r = Some x -> nth_error s' r = Some x.
Proof. intros [new ->]. apply nth_error_prefix. Qed.

Lemma run_read_graph s r (g : Graph V) :
  nth_error s r = Some (Simple g) -> read_graph r s = (Ok g, s).
Proof. intros Hn. unfold read_graph, sbind, read. rewrite Hn. reflexivity. Qed.

Lemma run_read s r x : nth_error s r = Some x -> read r s = (Ok x, s).
Proof. intros Hn. unfold read. now rewrite Hn. Qed.
End StoreFacts.

Section Loops.
Context {V : Type} {V_dec : EqDec V}.
Variable nx : NxLib V.
Variable s0 : Store (V:=V).
Variable graph : nat.
Variable g : Graph V.
Hypothesis Hgraph : nth_error s0 graph = Some (Simple g).
Implicit Types (k : Graph V) (m : MultiGraph V) (u v : V) (w : Z).

Lemma read_input t : read_graph graph (s0 ++ t) = (Ok g, s0 ++ t).
Proof. apply run_read_graph. now apply nth_error_prefix. Qed.

(** The auxiliary graph, object [length s0]. *)
Lemma complete_graph_loop (l : list (V * V)) :
  forall k, exists k',
    foldS (fun _ uv =>
             sbind (read_graph graph) (fun g1 =>
             if has_path nx g1 (fst uv) (snd uv) then
               sbind (lift (shortest_path_length nx g1 (fst uv) (snd uv)))
                     (fun path_length =>
                        add_edge_at (length s0) (fst uv) (snd uv) path_length)
             else ret tt)) l tt (s0 ++ [Simple k])
    = (match foldM (fun complete_graph uv =>
                      if has_path nx g (fst uv) (snd uv) then
                        path_length <- shortest_path_length nx g (fst uv) (snd uv) ;;
                        Ok (add_edge complete_graph (fst uv) (snd uv) path_length)
                      else Ok complete_graph) l k with
       | Ok _ => Ok tt
       | Raise e => Raise e
       end, s0 ++ [Simple k'])
    /\ forall kk, foldM (fun complete_graph uv =>
                      if has_path nx g (fst uv) (snd uv) then
                        path_length <- shortest_path_length nx g (fst uv) (snd uv) ;;
                        Ok (add_edge complete_graph (fst uv) (snd uv) path_length)
                      else Ok complete_graph) l k = Ok kk -> k' = kk.
Proof.
  induction l as [|[u v] l IH]; intros k.
  - exists k. split; [reflexivity|]. simpl. congruence.
  - cbn [foldS foldM fst snd]. unfold sbind at 1. unfold sbind at 1.
    rewrite read_input.
    destruct (has_path nx g u v).
    + unfold sbind at 1, lift.
      destruct (shortest_path_length nx g u v) as [d|e].
      * unfold add_edge_at, sbind at 1. rewrite (run_read _ _ _ (nth_error_at s0 _ [])).
        unfold write. rewrite set_nth_at. cbn [bind]. apply IH.
      * exists k. split; [reflexivity|]. simpl. discriminate.
    + unfold ret at 1. cbn [bind]. apply IH.
Qed.

(** The multigraph, object [length s0 + 1]: the original edges. *)
Lemma original_edges_loop (l : list (V * V * Z)) x :
  forall m,
    foldS (fun _ e => add_edge_at (S (length s0)) (fst (fst e)) (snd (fst e)) (snd e))
          l tt (s0 ++ [x; Multi m])
    = (Ok tt, s0 ++ [x; Multi (build_from l m)]).
Proof.
  induction l as [|[[u v] w] l IH]; intros m; [reflexivity|].
  cbn [foldS fst snd]. unfold sbind at 1, add_edge_at, sbind at 1.
  rewrite (run_read _ _ _ (nth_error_at1 s0 x _ [])).
  unfold write. rewrite set_nth_at1. apply IH.
Qed.

(** The edges of one path. *)
Lemma duplicate_path_loop (l : list (V * V)) x :
  forall m aw, exists m',
    foldS (fun added_weight e =>
             sbind (read_graph graph) (fun g4 =>
             sbind (lift (of_option KeyError (get_edge g4 (fst e) (snd e))))
                   (fun weight =>
             sbind (add_edge_at (S (length s0)) (fst e) (snd e) weight)
                   (fun _ => ret (added_weight + weight)%Z))))
          l aw (s0 ++ [x; Multi m])
    = (match foldM (fun st e =>
                      weight <- of_option KeyError (get_edge g (fst e) (snd e)) ;;
                      Ok (madd_edge (fst st) (fst e) (snd e) weight,
                          (snd st + weight)%Z)) l (m, aw) with
       | Ok st => Ok (snd st)
       | Raise e => Raise e
       end, s0 ++ [x; Multi m'])
    /\ forall st, foldM (fun st e =>
                      weight <- of_option KeyError (get_edge g (fst e) (snd e)) ;;
                      Ok (madd_edge (fst st) (fst e) (snd e) weight,
                          (snd st + weight)%Z)) l (m, aw) = Ok st -> m' = fst st.
Proof.
  induction l as [|[u v] l IH]; intros m aw.
  - exists m. split; [reflexivity|]. simpl. intros st [= <-]. reflexivity.
  - cbn [foldS foldM fst snd]. unfold sbind at 1. unfold sbind at 1.
    rewrite read_input. unfold sbind at 1, lift.
    destruct (get_edge g u v) as [w|]; simpl of_option.
    + unfold sbind at 1, add_edge_at, sbind at 1.
      rewrite (run_read _ _ _ (nth_error_at1 s0 x _ [])).
      unfold write. rewrite set_nth_at1. unfold ret at 1. cbn [bind fst snd]. apply IH.
    + exists m. split; [reflexivity|]. simpl. discriminate.
Qed.

(** The paths of all matched pairs. *)
Lemma duplicate_matching_loop (l : list (V * V)) x :
  forall m aw, exists m',
    foldS (fun added_weight uv =>
             sbind (read_graph graph) (fun g3 =>
             sbind (lift (shortest_path nx g3 (fst uv) (snd uv))) (fun path =>
             foldS (fun added_weight e =>
                      sbind (read_graph graph) (fun g4 =>
                      sbind (lift (of_option KeyError (get_edge g4 (fst e) (snd e))))
                            (fun weight =>
                      sbind (add_edge_at (S (length s0)) (fst e) (snd e) weight)
                            (fun _ => ret (added_weight + weight)%Z))))
                   (combine path (tl path)) added_weight)))
          l aw (s0 ++ [x; Multi m])
    = (match duplicate_matching nx g l (m, aw) with
       | Ok st => Ok (snd st)
       | Raise e => Raise e
       end, s0 ++ [x; Multi m'])
    /\ forall st, duplicate_matching nx g l (m, aw) = Ok st -> m' = fst st.
Proof.
  unfold duplicate_matching, duplicate_path.
  induction l as [|[u v] l IH]; intros m aw.
  - exists m. split; [reflexivity|]. simpl. intros st [= <-]. reflexivity.
  - cbn [foldS foldM fst snd]. unfold sbind at 1. unfold sbind at 1.
    rewrite read_input. unfold sbind at 1, lift at 1.
    destruct (shortest_path nx g u v) as [p|e].
    + destruct (duplicate_path_loop (combine p (tl p)) x m aw) as (m1 & Hrun & Hm1).
      rewrite Hrun. cbn [bind].
      destruct (foldM _ (combine p (tl p)) (m, aw)) as [[m1' aw1]|e] eqn:E.
      * rewrite (Hm1 _ eq_refl). cbn [fst snd]. apply IH.
      * exists m1. split; [reflexivity|]. discriminate.
    + exists m. split; [reflexivity|]. simpl. discriminate.
Qed.

(** With no odd vertex the call allocates the copy and nothing else. *)
Lemma add_minimum_weight_matching_run_even :
  find_odd_degree_vertices g = [] ->
  add_minimum_weight_matching_st nx graph s0
  = (Ok (length s0, 0%Z), s0 ++ [Simple (copy g)]).
Proof.
  intros Eodd. unfold add_minimum_weight_matching_st.
  unfold sbind at 1. rewrite (run_read_graph _ _ _ Hgraph). rewrite Eodd.
  unfold sbind at 1. rewrite (run_read_graph _ _ _ Hgraph). reflexivity.
Qed.

(** [add_minimum_weight_matching] on the store: the objects of [s0] stay
    as they were, the result is the one of the function on [g], and the
    returned graph is an object made by the call. *)
Lemma add_minimum_weight_matching_run :
  exists r new,
    add_minimum_weight_matching_st nx graph s0 = (r, s0 ++ new)
    /\ match r with
       | Ok (ref, aw) =>
           exists eg, add_minimum_weight_matching nx g = Ok (eg, aw)
                      /\ nth_error (s0 ++ new) ref = Some eg
                      /\ length s0 <= ref
       | Raise e => add_minimum_weight_matching nx g = Raise e
       end.
Proof.
  unfold add_minimum_weight_matching_st, add_minimum_weight_matching.
  unfold sbind at 1. rewrite (run_read_graph _ _ _ Hgraph).
  destruct (find_odd_degree_vertices g) as [|o odd] eqn:Eodd.
  - unfold sbind at 1. rewrite (run_read_graph _ _ _ Hgraph).
    unfold sbind, alloc, ret.
    exists (Ok (length s0, 0%Z)), [Simple (copy g)]. split; [reflexivity|].
    exists (Simple (copy g)). split; [reflexivity|]. split; [apply nth_error_at | lia].
  - unfold sbind at 1, alloc at 1.
    unfold build_complete_graph.
    destruct (complete_graph_loop (combinations2 (o :: odd)) []) as (k' & Hk & Hk').
    unfold sbind at 1. rewrite Hk.
    destruct (foldM _ (combinations2 (o :: odd)) ([] : Graph V)) as [K|e] eqn:EK.
    + rewrite (Hk' K eq_refl). cbn [bind].
      unfold sbind at 1.
      rewrite (run_read_graph _ _ _ (nth_error_at s0 (Simple K) [])).
      unfold sbind at 1, alloc at 1.
      replace (length (s0 ++ [Simple K])) with (S (length s0))
        by (rewrite length_app; simpl; lia).
      rewrite <- app_assoc. cbn [app].
      unfold sbind at 1. rewrite read_input.
      unfold sbind at 1. rewrite original_edges_loop.
      rewrite original_edges_build.
      destruct (duplicate_matching_loop (min_weight_matching nx K) (Simple K)
                  (build_from (edges_data g) []) 0%Z) as (m' & Hm & Hm').
      unfold sbind at 1. rewrite Hm.
      destruct (duplicate_matching nx g (min_weight_matching nx K)
                  (build_from (edges_data g) [], 0%Z)) as [[m1 aw]|e] eqn:EM.
      * rewrite (Hm' _ eq_refl). cbn [fst snd bind]. unfold ret.
        exists (Ok (S (length s0), aw)), [Simple K; Multi m1]. split; [reflexivity|].
        exists (Multi m1). split; [reflexivity|].
        split; [apply nth_error_at1 | lia].
      * exists (Raise e), [Simple K; Multi m']. split; reflexivity.
    + exists (Raise e), [Simple k']. split; reflexivity.
Qed.
End Loops.

(** The circuit loop on the working copy, the last object of the store. *)
Section CircuitStore.
Context {V : Type} {V_dec : EqDec V} {A : Type} {A_data : EdgeData A}.
Variable inj : AdjMap V A -> AnyGraph V.
Hypothesis inj_degree : forall g n, any_degree (inj g) n = degree g n.
Hypothesis inj_remove : forall g u,
  any_remove_first_edge (inj g) u
  = match remove_first_edge g u with
    | Some (v, g') => Some (v, inj g')
    | None => None
    end.

Lemma circuit_loop_run (s : Store (V:=V)) fuel :
  forall gw vertex_stack last_vertex out, exists gw',
    circuit_loop_st fuel (length s) vertex_stack last_vertex out (s ++ [inj gw])
    = (match circuit_loop fuel gw vertex_stack last_vertex out with
       | Some r => r
       | None => Ok []
       end, s ++ [inj gw']).
Proof.
  induction fuel as [|fuel IH]; intros gw vertex_stack last_vertex out.
  - exists gw. reflexivity.
  - cbn [circuit_loop_st circuit_loop].
    destruct vertex_stack as [|current_vertex rest].
    + exists gw. reflexivity.
    + unfold sbind at 1. rewrite (run_read _ _ _ (nth_error_at s (inj gw) [])).
      rewrite inj_degree.
      destruct (degree gw current_vertex =? 0).
      * apply IH.
      * rewrite inj_remove.
        destruct (remove_first_edge gw current_vertex) as [[next_vertex g']|].
        -- unfold sbind at 1, write. rewrite set_nth_at. apply IH.
        -- exists gw. reflexivity.
Qed.
End CircuitStore.

Section SolveStore.
Context {V : Type} {V_dec : EqDec V}.
Variable nx : NxLib V.
Implicit Types (s : Store (V:=V)) (eg : AnyGraph V).

Lemma any_circuit_loop_run s eg fuel vertex_stack last_vertex out :
  exists wg,
    circuit_loop_st fuel (length s) vertex_stack last_vertex out (s ++ [any_copy eg])
    = (match eg with
       | Simple g =>
           match circuit_loop fuel (copy g) vertex_stack last_vertex out with
           | Some r => r
           | None => Ok []
           end
       | Multi m =>
           match circuit_loop fuel (copy m) vertex_stack last_vertex out with
           | Some r => r
           | None => Ok []
           end
       end, s ++ [wg]).
Proof.
  destruct eg as [g|m]; cbn [any_copy].
  - destruct (circuit_loop_run Simple (fun _ _ => eq_refl) (fun _ _ => eq_refl)
                s fuel (copy g) vertex_stack last_vertex out) as (gw' & H).
    exists (Simple gw'). exact H.
  - destruct (circuit_loop_run Multi (fun _ _ => eq_refl) (fun _ _ => eq_refl)
                s fuel (copy m) vertex_stack last_vertex out) as (gw' & H).
    exists (Multi gw'). exact H.
Qed.

(** [nx.eulerian_circuit] on the store: the graph is read, the loop works
    on a copy, a new object. *)
Lemma eulerian_circuit_run s r eg source :
  nth_error s r = Some eg ->
  exists new,
    eulerian_circuit_st r source s = (any_eulerian_circuit eg source, s ++ new).
Proof.
  intros Hr. unfold eulerian_circuit_st. unfold sbind at 1.
  rewrite (run_read _ _ _ Hr). unfold sbind at 1, lift at 1.
  destruct eg as [g|m]; cbn [any_is_eulerian any_eulerian_circuit any_nodes];
    unfold eulerian_circuit.
  - destruct (is_eulerian g) as [e|x]; cbn [bind].
    2:{ exists []. now rewrite app_nil_r. }
    destruct (negb e); [exists []; now rewrite app_nil_r|].
    destruct (negb (mem source (nodes g))); [exists []; now rewrite app_nil_r|].
    unfold sbind at 1, alloc.
    destruct (any_circuit_loop_run s (Simple g) (2 * adj_size (copy g) + 2)
                [source] None []) as (wg & H).
    exists [wg]. exact H.
  - destruct (is_eulerian m) as [e|x]; cbn [bind].
    2:{ exists []. now rewrite app_nil_r. }
    destruct (negb e); [exists []; now rewrite app_nil_r|].
    destruct (negb (mem source (nodes m))); [exists []; now rewrite app_nil_r|].
    unfold sbind at 1, alloc.
    destruct (any_circuit_loop_run s (Multi m) (2 * adj_size (copy m) + 2)
                [source] None []) as (wg & H).
    exists [wg]. exact H.
Qed.

Lemma find_eulerian_circuit_run s r eg start_node :
  nth_error s r = Some eg ->
  exists new,
    find_eulerian_circuit_st r start_node s
    = (find_eulerian_circuit eg start_node, s ++ new).
Proof.
  intros Hr. unfold find_eulerian_circuit_st, find_eulerian_circuit.
  unfold sbind at 1. rewrite (run_read _ _ _ Hr). unfold sbind at 1, lift at 1.
  destruct (any_is_eulerian eg) as [e|x]; cbn [bind].
  2:{ exists []. now rewrite app_nil_r. }
  destruct (negb e); [exists []; now rewrite app_nil_r|].
  unfold sbind at 1, lift at 1.
  destruct (match start_node with
            | Some s1 => Ok s1
            | None => of_option IndexError (hd_error (any_nodes eg))
            end) as [source|x]; cbn [bind].
  - apply eulerian_circuit_run. exact Hr.
  - exists []. now rewrite app_nil_r.
Qed.

(** [solve_chinese_postman] on the store: the result of the function on
    the graph read at [graph], and a store that has only grown. *)
Lemma solve_chinese_postman_run s graph (g : Graph V) start_node :
  nth_error s graph = Some (Simple g) ->
  exists new,
    solve_chinese_postman_st nx graph start_node s
    = (solve_chinese_postman nx g start_node, s ++ new).
Proof.
  intros Hg. unfold solve_chinese_postman_st, solve_chinese_postman.
  unfold sbind at 1. rewrite (run_read_graph _ _ _ Hg).
  unfold sbind at 1, lift at 1.
  destruct (original_cost g) as [original|x]; cbn [bind].
  2:{ exists []. now rewrite app_nil_r. }
  destruct (add_minimum_weight_matching_run nx s graph g Hg) as (r & new & Hrun & Hr).
  unfold sbind at 1. rewrite Hrun.
  destruct r as [[ref aw]|x].
  - destruct Hr as (eg & Heg & Href & _). rewrite Heg. cbn [bind fst snd].
    destruct (find_eulerian_circuit_run (s ++ new) ref eg start_node Href)
      as (new' & Hfind).
    unfold sbind at 1. rewrite Hfind.
    destruct (find_eulerian_circuit eg start_node) as [circ|x]; cbn [bind].
    2:{ exists (new ++ new'). now rewrite app_assoc. }
    unfold sbind at 1.
    rewrite (run_read _ _ _ (nth_error_prefix _ new' _ _ Href)).
    unfold sbind at 1, lift at 1.
    destruct (format_circuit eg circ) as [formatted|x]; cbn [bind].
    + exists (new ++ new'). unfold ret. now rewrite app_assoc.
    + exists (new ++ new'). now rewrite app_assoc.
  - rewrite Hr. cbn [bind]. exists new. reflexivity.
Qed.
End SolveStore.

(** ** The reference routines on the example graphs *)

Section Lower.
Context {V : Type} {V_dec : EqDec V}.

Lemma sum_Z_lower (c : Z) (l : list Z) :
  (0 <= c)%Z -> (forall z, In z l -> (c <= z)%Z) -> l <> [] -> (c <= sum_Z l)%Z.
Proof.
  intros Hc Hall Hne. destruct l as [|a l]; [congruence|].
  assert (Ha : (c <= a)%Z) by (apply Hall; now left).
  assert (Hl : (0 <= sum_Z l)%Z).
  { clear Hne Ha. induction l as [|b l IH]; simpl; [lia|].
    assert ((c <= b)%Z) by (apply Hall; right; now left).
    assert ((0 <= sum_Z l)%Z).
    { apply IH. intros z [Hz|Hz]; apply Hall; [now left | right; now right]. }
    lia. }
  simpl. lia.
Qed.

Lemma path_has_edge (p : list V) u v :
  hd_error p = Some u -> last p u = v -> u <> v -> path_edges p <> [].
Proof.
  destruct p as [|a [|b p]]; simpl.
  - discriminate.
  - intros [= ->] Hl Hne. congruence.
  - intros _ _ _. discriminate.
Qed.

(** No path between two different vertices is lighter than the lightest
    edge. *)
Lemma path_weight_lower (g : Graph V) (c : Z) u v p :
  (0 <= c)%Z ->
  (forall e, get_edge g (fst e) (snd e) <> None -> (c <= edge_w g e)%Z) ->
  u <> v -> is_path g u v p -> (c <= path_weight g p)%Z.
Proof.
  intros Hc Hall Hne (Hhd & Hlast & Hedges).
  unfold path_weight. apply sum_Z_lower; [assumption| |].
  - intros z Hz. apply in_map_iff in Hz. destruct Hz as (e & <- & He).
    apply Hall. now apply Hedges.
  - intros Hnil. apply map_eq_nil in Hnil.
    now apply (path_has_edge p u v Hhd Hlast Hne).
Qed.

(** Where every edge weighs [c], two neighbours are at distance [c]. *)
Lemma uniform_dist (g : Graph V) (c : Z) u v :
  (0 <= c)%Z ->
  (forall e, get_edge g (fst e) (snd e) <> None -> edge_w g e = c) ->
  get_edge g u v <> None -> u <> v ->
  path_weight g [u; v] = c /\ is_path g u v [u; v] /\ is_shortest_dist g u v c.
Proof.
  intros Hc Hall Huv Hne.
  assert (Hw : path_weight g [u; v] = c).
  { unfold path_weight. change (path_edges [u; v]) with [(u, v)].
    cbn [map]. rewrite (Hall (u, v) Huv). simpl. lia. }
  assert (Hp : is_path g u v [u; v]).
  { split; [reflexivity|]. split; [reflexivity|]. now intros e [<-|[]]. }
  split; [exact Hw|]. split; [exact Hp|]. split.
  - now exists [u; v].
  - intros p Hq. apply (path_weight_lower g c u v p); try assumption.
    intros e He. rewrite (Hall e He). lia.
Qed.

(** The reference [has_path] is reachability. *)
Lemma ref_has_path_reach (g : Graph V) u v :
  wf g -> In u (nodes g) -> (ref_has_path g u v = true <-> reach g u v).
Proof.
  intros Hwf Hu. unfold ref_has_path. rewrite mem_true. split.
  - apply plain_bfs_sound.
  - now apply plain_bfs_complete.
Qed.

(** With no odd vertex the program asks the library nothing but the
    matching of the null graph. *)
Lemma contract_no_odd (g : Graph V) :
  find_odd_degree_vertices g = [] -> nx_contract ref_nx g.
Proof.
  intros Eodd. split; try (rewrite Eodd; intros u v []).
  rewrite Eodd. intros k [= <-].
  split; [|split].
  - split; [constructor | intros e []].
  - intros m' [_ Hm']. destruct m' as [|e m']; [simpl; lia|].
    exfalso. apply (Hm' e); [now left | reflexivity].
  - intros m' [_ Hm'] _. destruct m' as [|e m']; [reflexivity|].
    exfalso. apply (Hm' e); [now left | reflexivity].
Qed.
End Lower.

Module Casos.
Import Exemplos.
Open Scope string_scope.

Lemma AB_edge u v w :
  get_edge AB u v = Some w ->
  w = 3%Z /\ ((u = "A" /\ v = "B") \/ (u = "B" /\ v = "A")).
Proof.
  unfold get_edge, adj. intros Hg.
  destruct (dict_get AB u) as [nbrs|] eqn:Eu; [|discriminate].
  apply dict_get_In in Eu. apply dict_get_In in Hg.
  destruct Eu as [[= <- <-]|[[= <- <-]|[]]];
    destruct Hg as [[= <- <-]|[]]; tauto.
Qed.

Lemma AB_edge_w e : get_edge AB (fst e) (snd e) <> None -> edge_w AB e = 3%Z.
Proof.
  unfold edge_w. destruct (get_edge AB (fst e) (snd e)) as [w|] eqn:E; [|congruence].
  intros _. now destruct (AB_edge _ _ _ E).
Qed.

Lemma AB_dist u v :
  In u ["A"; "B"] -> In v ["A"; "B"] -> u <> v -> is_shortest_dist AB u v 3.
Proof.
  intros Hu Hv Hne. split.
  - exists [u; v]. split.
    + split; [reflexivity|]. split; [reflexivity|].
      intros e [<-|[]]. cbn [fst snd].
      destruct Hu as [<-|[<-|[]]]; destruct Hv as [<-|[<-|[]]];
        try congruence; discriminate.
    + unfold path_weight. cbn [path_edges tl combine map sum_Z].
      rewrite AB_edge_w; [reflexivity|]. cbn [fst snd].
      destruct Hu as [<-|[<-|[]]]; destruct Hv as [<-|[<-|[]]];
        try congruence; discriminate.
  - intros p Hp. apply (path_weight_lower AB 3 u v p); try assumption; [lia|].
    intros e He. rewrite (AB_edge_w e He). lia.
Qed.

Lemma AB_matching_ends m x :
  is_matching AB m -> In x (endpoints m) -> In x ["A"; "B"].
Proof.
  intros [_ Hm] Hx. apply In_endpoints in Hx. destruct Hx as (e & He & Hx).
  specialize (Hm e He).
  destruct (get_edge AB (fst e) (snd e)) as [w|] eqn:E; [|congruence].
  destruct (AB_edge _ _ _ E) as [_ [[H1 H2]|[H1 H2]]];
    destruct Hx as [-> | ->]; rewrite ?H1, ?H2; simpl; tauto.
Qed.

(** The reference routines meet the contract on the single street. *)
Lemma AB_contract : nx_contract ref_nx AB.
Proof.
  split; change (find_odd_degree_vertices AB) with ["A"; "B"].
  - intros u v Hu Hv Hne. split.
    + intros _. destruct Hu as [<-|[<-|[]]]; destruct Hv as [<-|[<-|[]]];
        try congruence;
        (eapply reach_step; [apply reach_refl | simpl; tauto]).
    + intros _. destruct Hu as [<-|[<-|[]]]; destruct Hv as [<-|[<-|[]]];
        try congruence; reflexivity.
  - intros u v Hu Hv Hne _. exists 3%Z. split; [|now apply AB_dist].
    destruct Hu as [<-|[<-|[]]]; destruct Hv as [<-|[<-|[]]];
      try congruence; reflexivity.
  - intros u v Hu Hv Hne _.
    exists [u; v].
    assert (Hw : path_weight AB [u; v] = 3%Z).
    { unfold path_weight. cbn [path_edges tl combine map sum_Z].
      rewrite AB_edge_w; [reflexivity|]. cbn [fst snd].
      destruct Hu as [<-|[<-|[]]]; destruct Hv as [<-|[<-|[]]];
        try congruence; discriminate. }
    split; [|split].
    + destruct Hu as [<-|[<-|[]]]; destruct Hv as [<-|[<-|[]]];
        try congruence; reflexivity.
    + split; [reflexivity|]. split; [reflexivity|].
      intros e [<-|[]]. cbn [fst snd].
      destruct Hu as [<-|[<-|[]]]; destruct Hv as [<-|[<-|[]]];
        try congruence; discriminate.
    + rewrite Hw. now apply AB_dist.
  - intros k Hk. vm_compute in Hk. injection Hk as <-.
    change [("A", [("B", 3%Z)]); ("B", [("A", 3%Z)])] with AB.
    change (min_weight_matching ref_nx AB) with [("A", "B")].
    split; [|split].
    + split; [|intros e [<-|[]]; discriminate].
      repeat constructor; simpl; intuition discriminate.
    + intros m' Hm'.
      assert (Hlen : (length (endpoints m') <= length ["A"; "B"])%nat).
      { apply NoDup_incl_length; [apply Hm'|].
        intros x Hx. now apply (AB_matching_ends m'). }
      rewrite endpoints_length in Hlen. simpl in *. lia.
    + intros m' Hm' Hlen.
      destruct m' as [|e [|e' m']]; try discriminate.
      unfold matching_weight. cbn [map sum_Z].
      rewrite (AB_edge_w ("A", "B")) by discriminate.
      rewrite (AB_edge_w e); [lia|]. apply Hm'. now left.
Qed.

(** *** Two streets with no end in common *)

Lemma Separados_edge u v w :
  get_edge Separados u v = Some w ->
  w = 1%Z /\ In u ["A"; "B"; "C"; "D"] /\ In v ["A"; "B"; "C"; "D"].
Proof.
  unfold get_edge, adj. intros Hg.
  destruct (dict_get Separados u) as [nbrs|] eqn:Eu; [|discriminate].
  apply dict_get_In in Eu. apply dict_get_In in Hg.
  destruct Eu as [[= <- <-]|[[= <- <-]|[[= <- <-]|[[= <- <-]|[]]]]];
    destruct Hg as [[= <- <-]|[]]; simpl; tauto.
Qed.

Lemma Separados_edge_w e :
  get_edge Separados (fst e) (snd e) <> None -> edge_w Separados e = 1%Z.
Proof.
  unfold edge_w.
  destruct (get_edge Separados (fst e) (snd e)) as [w|] eqn:E; [|congruence].
  intros _. now destruct (Separados_edge _ _ _ E).
Qed.

Lemma Separados_matching_ends m x :
  is_matching Separados m -> In x (endpoints m) -> In x ["A"; "B"; "C"; "D"].
Proof.
  intros [_ Hm] Hx. apply In_endpoints in Hx. destruct Hx as (e & He & Hx).
  specialize (Hm e He).
  destruct (get_edge Separados (fst e) (snd e)) as [w|] eqn:E; [|congruence].
  destruct (Separados_edge _ _ _ E) as (_ & H1 & H2).
  destruct Hx as [-> | ->]; assumption.
Qed.

Lemma Separados_wf : wf Separados.
Proof. apply wf_graph_wf. vm_compute; reflexivity. Qed.

(** A pair of odd vertices that the reference [has_path] accepts is one
    of the two streets. *)
Lemma Separados_neighbours u v :
  In u ["A"; "B"; "C"; "D"] -> In v ["A"; "B"; "C"; "D"] -> u <> v ->
  ref_has_path Separados u v = true ->
  get_edge Separados u v <> None
  /\ ref_shortest_path_length Separados u v = Ok 1%Z
  /\ ref_shortest_path Separados u v = Ok [u; v].
Proof.
  intros Hu Hv Hne.
  destruct Hu as [<-|[<-|[<-|[<-|[]]]]]; destruct Hv as [<-|[<-|[<-|[<-|[]]]]];
    try congruence; vm_compute; intros Hp; try discriminate;
    (split; [discriminate | split; reflexivity]).
Qed.

(** The reference routines meet the contract on the two streets. *)
Lemma Separados_contract : nx_contract ref_nx Separados.
Proof.
  assert (Hnodes : forall u, In u ["A"; "B"; "C"; "D"] -> In u (nodes Separados))
    by (intros u Hu; exact Hu).
  split; change (find_odd_degree_vertices Separados) with ["A"; "B"; "C"; "D"].
  - intros u v Hu Hv Hne.
    apply (ref_has_path_reach Separados u v Separados_wf (Hnodes u Hu)).
  - intros u v Hu Hv Hne Hr.
    apply (ref_has_path_reach Separados u v Separados_wf (Hnodes u Hu)) in Hr.
    destruct (Separados_neighbours u v Hu Hv Hne Hr) as (He & Hl & _).
    exists 1%Z. split; [exact Hl|].
    apply (uniform_dist Separados 1 u v); try assumption; [lia|].
    apply Separados_edge_w.
  - intros u v Hu Hv Hne Hr.
    apply (ref_has_path_reach Separados u v Separados_wf (Hnodes u Hu)) in Hr.
    destruct (Separados_neighbours u v Hu Hv Hne Hr) as (He & _ & Hp).
    destruct (uniform_dist Separados 1 u v) as (Hw & Hpath & Hd);
      try assumption; [lia | apply Separados_edge_w |].
    exists [u; v]. split; [exact Hp|]. split; [exact Hpath|]. now rewrite Hw.
  - intros k Hk. vm_compute in Hk. injection Hk as <-.
    change [("A", [("B", 1%Z)]); ("B", [("A", 1%Z)]);
            ("C", [("D", 1%Z)]); ("D", [("C", 1%Z)])] with Separados.
    change (min_weight_matching ref_nx Separados) with [("A", "B"); ("C", "D")].
    split; [|split].
    + split; [|intros e [<-|[<-|[]]]; discriminate].
      repeat constructor; simpl; intuition discriminate.
    + intros m' Hm'.
      assert (Hlen : (length (endpoints m') <= length ["A"; "B"; "C"; "D"])%nat).
      { apply NoDup_incl_length; [apply Hm'|].
        intros x Hx. now apply (Separados_matching_ends m'). }
      rewrite endpoints_length in Hlen. simpl in *. lia.
    + intros m' Hm' Hlen.
      destruct m' as [|e1 [|e2 [|e3 m']]]; try discriminate.
      unfold matching_weight. cbn [map sum_Z].
      rewrite (Separados_edge_w ("A", "B")) by discriminate.
      rewrite (Separados_edge_w ("C", "D")) by discriminate.
      rewrite (Separados_edge_w e1) by (apply Hm'; now left).
      rewrite (Separados_edge_w e2) by (apply Hm'; right; now left).
      lia.
Qed.
End Casos.

(** ** Graphs in several pieces

    Without connectivity the [has_path] test keeps the program from asking
    for a distance that does not exist: the eulerization still returns,
    and it is the Eulerian test of [find_eulerian_circuit] that fails. *)

Section Guarded.
Context {V : Type} {V_dec : EqDec V}.
Variable nx : NxLib V.
Variable g : Graph V.
Hypothesis Hwf : wf g.
Hypothesis Hnx : nx_contract nx g.

Lemma add_edge_joins_reachable k u v d :
  joins_reachable g k ->
  In u (find_odd_degree_vertices g) -> In v (find_odd_degree_vertices g) ->
  u <> v -> reach g u v ->
  joins_reachable g (add_edge k u v d).
Proof.
  intros Hk Hu Hv Hne Hr x y d'. unfold add_edge. rewrite get_edge_add_entry.
  assert (Hback : reach g v u) by now apply reach_sym.
  destruct (eq_dec v x) as [Hvx|Hvx]; destruct (eq_dec u y) as [Huy|Huy];
    destruct (eq_dec u x) as [Hux|Hux]; try destruct (eq_dec v y) as [Hvy|Hvy];
    subst; intros Hg; try (now apply Hk in Hg); try congruence;
    repeat split; try assumption; try congruence; auto.
Qed.

Lemma build_guarded (l : list (V * V)) :
  (forall uv, In uv l ->
     In (fst uv) (find_odd_degree_vertices g)
     /\ In (snd uv) (find_odd_degree_vertices g) /\ fst uv <> snd uv) ->
  forall acc, joins_reachable g acc ->
    exists K,
      foldM (fun complete_graph uv =>
               if has_path nx g (fst uv) (snd uv) then
                 path_length <- shortest_path_length nx g (fst uv) (snd uv) ;;
                 Ok (add_edge complete_graph (fst uv) (snd uv) path_length)
               else Ok complete_graph) l acc = Ok K
      /\ joins_reachable g K.
Proof.
  induction l as [|[u v] l IH]; intros Hall acc Hacc; [now exists acc|].
  destruct (Hall (u, v) (or_introl eq_refl)) as (Hu & Hv & Hne). simpl in Hu, Hv, Hne.
  cbn [foldM fst snd].
  destruct (has_path nx g u v) eqn:Hhp.
  - apply (nx_has_path nx g Hnx u v Hu Hv Hne) in Hhp.
    destruct (nx_shortest_path_length nx g Hnx u v Hu Hv Hne Hhp) as (d & -> & _).
    cbn [bind]. apply IH; [intros; apply Hall; now right|].
    now apply add_edge_joins_reachable.
  - apply IH; [intros; apply Hall; now right | assumption].
Qed.

Lemma complete_graph_guarded :
  exists K, build_complete_graph nx g (find_odd_degree_vertices g) = Ok K
            /\ joins_reachable g K.
Proof.
  apply build_guarded; [apply (combinations2_odd g Hwf)|].
  intros x y d Hg. discriminate.
Qed.

Lemma duplicate_matching_guarded (l : list (V * V)) :
  (forall uv, In uv l ->
     In (fst uv) (find_odd_degree_vertices g)
     /\ In (snd uv) (find_odd_degree_vertices g) /\ fst uv <> snd uv
     /\ reach g (fst uv) (snd uv)) ->
  forall st, exists st', duplicate_matching nx g l st = Ok st'.
Proof.
  unfold duplicate_matching. induction l as [|uv l IH]; intros Hall st; simpl; [eauto|].
  destruct (Hall uv (or_introl eq_refl)) as (Hu & Hv & Hne & Hr).
  destruct (nx_shortest_path nx g Hnx _ _ Hu Hv Hne Hr) as (p & -> & (_ & _ & Hp) & _).
  simpl. destruct (duplicate_path_total g p st Hp) as [st1 ->]. simpl.
  apply IH. intros; apply Hall; now right.
Qed.

(** The eulerization returns whether or not the graph is connected. *)
Lemma add_minimum_weight_matching_guarded :
  exists eg aw, add_minimum_weight_matching nx g = Ok (eg, aw).
Proof.
  unfold add_minimum_weight_matching.
  destruct complete_graph_guarded as (K & HK & Hjoin).
  destruct (find_odd_degree_vertices g) as [|o rest] eqn:E; [eauto|].
  rewrite HK. cbn [bind].
  destruct (nx_min_weight_matching nx g Hnx K) as ((_ & Hedges) & _).
  { now rewrite E. }
  destruct (duplicate_matching_guarded (min_weight_matching nx K))
    with (st := (original_edges g, 0%Z)) as [st Hst].
  - intros uv Huv. specialize (Hedges uv Huv).
    destruct (get_edge K (fst uv) (snd uv)) as [d|] eqn:Eg; [|congruence].
    exact (Hjoin _ _ _ Eg).
  - rewrite Hst. simpl. eauto.
Qed.
End Guarded.

Section Pieces.
Context {V : Type} {V_dec : EqDec V}.
Variable nx : NxLib V.

Lemma is_eulerian_value {A : Type} `{EdgeData A} (h : AdjMap V A) :
  nodes h <> [] -> exists b, is_eulerian h = Ok b.
Proof.
  intros Hne. unfold is_eulerian, is_connected.
  destruct (forallb _ _); [|eauto].
  destruct (nodes h); [congruence | eauto].
Qed.

(** What the eulerization returns for a graph with edges in two pieces
    fails the Eulerian test. *)
Lemma eulerized_not_eulerian g eg aw u v :
  wf g -> 0 < degree g u -> 0 < degree g v -> ~ reach g u v ->
  add_minimum_weight_matching nx g = Ok (eg, aw) ->
  any_is_eulerian eg = Ok false.
Proof.
  intros Hwf Hu Hv Hnr Hrun.
  destruct (add_minimum_weight_matching_spec nx g eg aw Hrun)
    as (paths & Heul & Hedges & _).
  destruct (eulerized_cases g paths eg aw Heul) as [(_ & -> & _)|(_ & -> & _)];
    cbn [any_is_eulerian].
  - destruct (is_eulerian_value (copy g)) as [[|] Hb]; [| |exact Hb].
    + rewrite copy_nodes by assumption. intros Hn.
      apply degree_pos_node in Hu. rewrite Hn in Hu. destruct Hu.
    + exfalso. apply Hnr. apply is_eulerian_connected in Hb.
      apply (copy_reach g u v Hwf).
      apply is_connected_reach; [now apply copy_wf|assumption| |];
        rewrite copy_nodes by assumption; now apply degree_pos_node.
  - set (m := build_from (edges_data g ++ with_weights g (flat_map path_edges paths)) []).
    assert (Hum : In u (nodes m)) by now apply eulerized_node.
    destruct (is_eulerian_value m) as [[|] Hb]; [| |exact Hb].
    + intros Hn. rewrite Hn in Hum. destruct Hum.
    + exfalso. apply Hnr. apply is_eulerian_connected in Hb.
      apply (eulerized_reach_back g (flat_map path_edges paths)); [assumption|assumption|].
      apply is_connected_reach; [now apply eulerized_multi|assumption|assumption|].
      now apply eulerized_node.
Qed.

(** With edges in two pieces the program ends in the [NetworkXError] of
    [find_eulerian_circuit]. *)
Lemma two_pieces_raise g start u v :
  wf g -> nx_contract nx g ->
  0 < degree g u -> 0 < degree g v -> ~ reach g u v ->
  solve_chinese_postman nx g start = Raise NetworkXError.
Proof.
  intros Hwf Hnx Hu Hv Hnr.
  destruct (add_minimum_weight_matching_guarded nx g Hwf Hnx) as (eg & aw & Hrun).
  assert (Hno := eulerized_not_eulerian g eg aw u v Hwf Hu Hv Hnr Hrun).
  unfold solve_chinese_postman.
  rewrite original_cost_total by assumption. cbn [bind].
  rewrite Hrun. cbn [bind fst snd].
  unfold find_eulerian_circuit. rewrite Hno. reflexivity.
Qed.

(** A graph in several pieces with no vertex of odd degree: the copy
    keeps every vertex, and fails the Eulerian test. *)
Lemma even_pieces_raise g start :
  wf g -> is_connected g = Ok false -> find_odd_degree_vertices g = [] ->
  add_minimum_weight_matching nx g = Ok (Simple (copy g), 0%Z)
  /\ is_eulerian (copy g) = Ok false
  /\ solve_chinese_postman nx g start = Raise NetworkXError.
Proof.
  intros Hwf Hdis Eodd.
  assert (Hrun : add_minimum_weight_matching nx g = Ok (Simple (copy g), 0%Z)).
  { unfold add_minimum_weight_matching. now rewrite Eodd. }
  assert (Hne : nodes g <> []).
  { intros Hn. unfold is_connected in Hdis. rewrite Hn in Hdis. discriminate. }
  assert (Hno : is_eulerian (copy g) = Ok false).
  { destruct (is_eulerian_value (copy g)) as [[|] Hb]; [| |exact Hb].
    - now rewrite copy_nodes.
    - exfalso. apply is_eulerian_connected in Hb.
      apply (is_connected_true (copy g) (copy_wf g Hwf)) in Hb.
      destruct Hb as (s & rest & En & Hall).
      rewrite copy_nodes in En, Hall by assumption.
      assert (Hc : is_connected g = Ok true).
      { apply (is_connected_true g Hwf). exists s, rest. split; [assumption|].
        intros x Hx. apply (copy_reach g s x Hwf). now apply Hall. }
      rewrite Hc in Hdis. discriminate. }
  split; [exact Hrun|]. split; [exact Hno|].
  unfold solve_chinese_postman.
  rewrite original_cost_total by assumption. cbn [bind].
  rewrite Hrun. cbn [bind fst snd].
  unfold find_eulerian_circuit. cbn [any_is_eulerian]. rewrite Hno. reflexivity.
Qed.

Lemma unreachable_of_bfs g u v :
  wf g -> 0 < degree g u -> ref_has_path g u v = false -> ~ reach g u v.
Proof.
  intros Hwf Hu Hbfs Hr. unfold ref_has_path in Hbfs.
  apply mem_false in Hbfs. apply Hbfs.
  apply plain_bfs_complete; [assumption| |assumption].
  now apply degree_pos_node.
Qed.
End Pieces.

(** * The properties of the program *)

(** ** The odd-degree vertices *)

(** C7.  The list returned by [find_odd_degree_vertices] has an even
    number of entries; it holds exactly the nodes of odd degree, and
    nothing when every degree is even. *)
Theorem odd_degree_vertices_even {V : Type} {V_dec : EqDec V} (g : Graph V) :
  wf_graph g = true ->
  Nat.even (length (find_odd_degree_vertices g)) = true
  /\ (forall v, In v (find_odd_degree_vertices g)
                <-> In v (nodes g) /\ Nat.odd (degree g v) = true)
  /\ ((forall v, In v (nodes g) -> Nat.even (degree g v) = true)
      -> find_odd_degree_vertices g = []).
Proof.
  intros Hwf. apply wf_graph_wf in Hwf. split; [|split].
  - unfold find_odd_degree_vertices.
    rewrite even_sum_filter_odd. now apply (handshake g).
  - apply find_odd_degree_vertices_In.
  - intros Heven.
    destruct (find_odd_degree_vertices g) as [|v l] eqn:E; [reflexivity|].
    assert (Hv : In v (find_odd_degree_vertices g)) by (rewrite E; now left).
    apply find_odd_degree_vertices_In in Hv. destruct Hv as [Hn Hodd].
    rewrite <- Nat.negb_even, (Heven v Hn) in Hodd. discriminate.
Qed.

(** On the first graph of the driver the odd vertices are A, C, D and E. *)
Lemma odd_degree_vertices_even_G :
  wf_graph Exemplos.G = true
  /\ find_odd_degree_vertices Exemplos.G = ["A"; "C"; "D"; "E"]%string
  /\ Nat.even (length (find_odd_degree_vertices Exemplos.G)) = true.
Proof.
  assert (Hwf : wf_graph Exemplos.G = true) by (vm_compute; reflexivity).
  split; [exact Hwf|]. split; [vm_compute; reflexivity|].
  exact (proj1 (odd_degree_vertices_even Exemplos.G Hwf)).
Defined.

(** ** The eulerization *)

(** C1.  On a connected graph with an odd vertex, with the library
    routines behaving as documented, the auxiliary graph built by
    [add_minimum_weight_matching] joins every two odd vertices by an edge
    that weighs their distance in the input graph, the matching the
    library returns for it is a perfect matching of least weight, and the
    added weight returned is the weight of that matching. *)
Theorem added_weight_is_min_perfect_matching {V : Type} {V_dec : EqDec V}
    (nx : NxLib V) (g : Graph V) :
  wf_graph g = true ->
  is_connected g = Ok true ->
  nx_contract nx g ->
  find_odd_degree_vertices g <> [] ->
  let odd := find_odd_degree_vertices g in
  let K := complete_graph_of nx g in
  let M := min_weight_matching nx K in
  build_complete_graph nx g odd = Ok K
  /\ (forall x, In x (nodes K) <-> In x odd)
  /\ (forall u v, In u odd -> In v odd -> u <> v ->
        exists d, get_edge K u v = Some d /\ is_shortest_dist g u v d)
  /\ is_perfect_matching K M
  /\ (forall M', is_perfect_matching K M' ->
                 (matching_weight K M <= matching_weight K M')%Z)
  /\ exists eg, add_minimum_weight_matching nx g = Ok (eg, matching_weight K M).
Proof.
  intros Hwf Hcon Hnx Hodd. cbv zeta. apply wf_graph_wf in Hwf.
  assert (HK : build_complete_graph nx g (find_odd_degree_vertices g)
               = Ok (complete_graph_of nx g))
    by (apply build_complete_graph_Ok; [assumption | now apply g_connected | assumption]).
  assert (Hperf : is_perfect_matching (complete_graph_of nx g)
                    (min_weight_matching nx (complete_graph_of nx g)))
    by now apply M_perfect.
  split; [exact HK|]. split; [|split; [|split; [|split]]].
  - intros x. split; [now apply complete_graph_nodes|].
    intros Hx. apply (M_cover nx g Hwf Hcon Hnx) in Hx.
    apply In_endpoints in Hx. destruct Hx as (e & He & Hx).
    destruct Hperf as [[_ Hedges] _]. specialize (Hedges e He).
    destruct (get_edge (complete_graph_of nx g) (fst e) (snd e)) as [d|] eqn:E;
      [|congruence].
    destruct Hx as [-> | ->].
    + eapply get_edge_node; eauto.
    + eapply wf_neighbor_node; [|eauto].
      apply complete_graph_wf.
  - intros u v. now apply complete_graph_distance.
  - exact Hperf.
  - intros M'. now apply M_least.
  - destruct (amwm_total nx g Hwf Hcon Hnx) as (eg & aw & Hrun).
    exists eg. rewrite Hrun. do 2 f_equal.
    destruct (add_minimum_weight_matching_spec nx g eg aw Hrun)
      as (paths & Heul & _ & _ & Hpaths).
    destruct (Hpaths Hodd) as (K' & HK' & Hsp).
    rewrite HK in HK'. injection HK' as <-.
    apply (paths_valid nx g Hwf Hcon Hnx) in Hsp.
    destruct (eulerized_cases g paths eg aw Heul) as [(He & _)|(_ & _ & ->)];
      [contradiction|].
    apply (paths_weight_from nx g Hwf Hcon Hnx); [exact Hsp | tauto].
Qed.

(** On the single street A-B of weight 3 both ends are odd; the street is
    walked twice and the added weight is 3. *)
Lemma added_weight_is_min_perfect_matching_AB :
  wf_graph Exemplos.AB = true
  /\ is_connected Exemplos.AB = Ok true
  /\ nx_contract ref_nx Exemplos.AB
  /\ matching_weight (complete_graph_of ref_nx Exemplos.AB)
       (min_weight_matching ref_nx (complete_graph_of ref_nx Exemplos.AB)) = 3%Z
  /\ exists eg, add_minimum_weight_matching ref_nx Exemplos.AB
                = Ok (eg, matching_weight (complete_graph_of ref_nx Exemplos.AB)
                            (min_weight_matching ref_nx
                               (complete_graph_of ref_nx Exemplos.AB))).
Proof.
  assert (Hwf : wf_graph Exemplos.AB = true) by (vm_compute; reflexivity).
  assert (Hcon : is_connected Exemplos.AB = Ok true) by (vm_compute; reflexivity).
  assert (Hodd : find_odd_degree_vertices Exemplos.AB <> [])
    by (vm_compute; discriminate).
  split; [exact Hwf|]. split; [exact Hcon|]. split; [exact Casos.AB_contract|].
  split; [vm_compute; reflexivity|].
  pose proof (added_weight_is_min_perfect_matching ref_nx Exemplos.AB
                Hwf Hcon Casos.AB_contract Hodd) as H.
  cbv zeta in H. destruct H as (_ & _ & _ & _ & _ & H). exact H.
Defined.

(** C10.  Whenever [add_minimum_weight_matching] returns, the added
    weight is the total weight of the returned graph less the total
    weight of the input graph, with or without odd vertices. *)
Theorem added_weight_is_weight_difference {V : Type} {V_dec : EqDec V}
    (nx : NxLib V) (g : Graph V) (eg : AnyGraph V) (aw : Z) :
  wf_graph g = true ->
  add_minimum_weight_matching nx g = Ok (eg, aw) ->
  aw = (any_total_weight eg - total_weight g)%Z.
Proof.
  intros Hwf Hrun. apply wf_graph_wf in Hwf.
  destruct (add_minimum_weight_matching_spec nx g eg aw Hrun) as (paths & Heul & _).
  destruct (eulerized_cases g paths eg aw Heul) as [(_ & -> & ->)|(_ & -> & ->)].
  - cbn [any_total_weight]. rewrite copy_total_weight by assumption. lia.
  - cbn [any_total_weight].
    destruct (eulerized_multi g (flat_map path_edges paths) Hwf)
      as (_ & _ & _ & _ & Htw & _).
    rewrite Htw. lia.
Qed.

(** On the first graph of the driver the eulerization adds 25 to the 127
    of the streets. *)
Lemma added_weight_is_weight_difference_G :
  wf_graph Exemplos.G = true
  /\ total_weight Exemplos.G = 127%Z
  /\ exists eg, add_minimum_weight_matching ref_nx Exemplos.G = Ok (eg, 25%Z)
                /\ 25%Z = (any_total_weight eg - total_weight Exemplos.G)%Z.
Proof.
  assert (Hwf : wf_graph Exemplos.G = true) by (vm_compute; reflexivity).
  split; [exact Hwf|]. split; [vm_compute; reflexivity|].
  eexists. split; [vm_compute; reflexivity|].
  refine (added_weight_is_weight_difference ref_nx Exemplos.G _ 25%Z Hwf _).
  vm_compute; reflexivity.
Defined.

(** C8.  Every weight stored between two vertices of the graph returned
    by [add_minimum_weight_matching], under whichever key, is the weight
    of the edge between them in the input graph; so the weight
    [solve_chinese_postman] reads under key 0 for an entry of the circuit
    is the weight of the street walked. *)
Theorem parallel_edges_carry_original_weight {V : Type} {V_dec : EqDec V}
    (nx : NxLib V) (g : Graph V) :
  wf_graph g = true ->
  (forall eg aw, add_minimum_weight_matching nx g = Ok (eg, aw) ->
     forall u v w, In w (any_weights eg u v) -> get_edge g u v = Some w)
  /\ (forall start sol, solve_chinese_postman nx g start = Ok sol ->
        forall u v w, In (u, v, w) (circuit sol) -> get_edge g u v = Some w).
Proof.
  intros Hwf. apply wf_graph_wf in Hwf.
  assert (Hfirst : forall eg aw, add_minimum_weight_matching nx g = Ok (eg, aw) ->
            forall u v w, In w (any_weights eg u v) -> get_edge g u v = Some w).
  { intros eg aw Hrun u v w Hw.
    destruct (add_minimum_weight_matching_spec nx g eg aw Hrun)
      as (paths & Heul & Hedges & _).
    exact (eulerized_any_weights g Hwf paths eg aw u v w Heul Hedges Hw). }
  split; [exact Hfirst|].
  intros start sol Hsol u v w Hin.
  destruct (solve_route nx g start sol Hwf Hsol)
    as (eg & aw & paths & source & Hrun & _ & _ & _ & _ & _ & _ & _ & Hweights).
  apply (Hfirst eg aw Hrun). apply edge_weight_any_weights. now apply Hweights.
Qed.

(** On the single street the returned multigraph holds the street twice,
    both times with weight 3. *)
Lemma parallel_edges_carry_original_weight_AB :
  wf_graph Exemplos.AB = true
  /\ exists eg aw,
       add_minimum_weight_matching ref_nx Exemplos.AB = Ok (eg, aw)
       /\ any_weights eg "A"%string "B"%string = [3%Z; 3%Z]
       /\ forall u v w, In w (any_weights eg u v) -> get_edge Exemplos.AB u v = Some w.
Proof.
  assert (Hwf : wf_graph Exemplos.AB = true) by (vm_compute; reflexivity).
  split; [exact Hwf|].
  eexists. eexists. split; [vm_compute; reflexivity|].
  split; [vm_compute; reflexivity|].
  refine (proj1 (parallel_edges_carry_original_weight ref_nx Exemplos.AB Hwf) _ _ _).
  vm_compute; reflexivity.
Defined.

(** ** The route *)

(** C2.  On a connected graph, with the library routines behaving as
    documented, [solve_chinese_postman] returns a circuit that passes
    between any two vertices as often as the eulerized graph has edges
    between them, that is once per edge of the input and once per edge
    of a duplicated path; the circuit has as many entries as the
    eulerized graph has edges. *)
Theorem circuit_covers_eulerized_edges {V : Type} {V_dec : EqDec V}
    (nx : NxLib V) (g : Graph V) (start : option V) :
  wf_graph g = true ->
  is_connected g = Ok true ->
  nx_contract nx g ->
  start_ok g start ->
  exists sol eg aw paths,
    solve_chinese_postman nx g start = Ok sol
    /\ add_minimum_weight_matching nx g = Ok (eg, aw)
    /\ (eg, aw) = eulerized g paths
    /\ (forall u v, occ (pairs_of (circuit sol)) u v = occ (any_edges eg) u v)
    /\ (forall u v, occ (any_edges eg) u v
                    = occ (edges g) u v + occ (flat_map path_edges paths) u v)
    /\ length (circuit sol) = length (any_edges eg).
Proof.
  intros Hwf Hcon Hnx Hstart. apply wf_graph_wf in Hwf.
  destruct (solve_total nx g Hwf Hcon Hnx start Hstart) as (sol & Hsol).
  destruct (solve_route nx g start sol Hwf Hsol)
    as (eg & aw & paths0 & source & Hrun & _ & _ & _ & _ & _ & _ & Hocc & _).
  destruct (add_minimum_weight_matching_spec nx g eg aw Hrun)
    as (paths & Heul & _ & Hnone & _).
  assert (Hegwf := eulerized_wf g paths eg aw Hwf Heul).
  assert (Hcirc : forall u v, occ (pairs_of (circuit sol)) u v = occ (any_edges eg) u v).
  { intros u v. rewrite Hocc. now apply any_mult_edges. }
  exists sol, eg, aw, paths.
  split; [exact Hsol|]. split; [exact Hrun|]. split; [exact Heul|].
  split; [exact Hcirc|]. split.
  - intros u v.
    destruct (eulerized_cases g paths eg aw Heul) as [(He & -> & _)|(_ & -> & _)].
    + rewrite (Hnone He). cbn [any_edges flat_map]. rewrite occ_nil.
      rewrite copy_occ_edges by assumption. lia.
    + cbn [any_edges].
      destruct (eulerized_multi g (flat_map path_edges paths) Hwf)
        as (Hm & _ & Hmult & _).
      rewrite (occ_edges _ u v Hm), (occ_edges g u v Hwf). apply Hmult.
  - rewrite <- (occ_length _ _ Hcirc). unfold pairs_of. now rewrite length_map.
Qed.

(** On the single street the circuit walks it there and back. *)
Lemma circuit_covers_eulerized_edges_AB :
  wf_graph Exemplos.AB = true
  /\ is_connected Exemplos.AB = Ok true
  /\ nx_contract ref_nx Exemplos.AB
  /\ start_ok Exemplos.AB (Some "A"%string)
  /\ exists sol eg aw,
       solve_chinese_postman ref_nx Exemplos.AB (Some "A"%string) = Ok sol
       /\ add_minimum_weight_matching ref_nx Exemplos.AB = Ok (eg, aw)
       /\ (forall u v, occ (pairs_of (circuit sol)) u v = occ (any_edges eg) u v)
       /\ length (circuit sol) = length (any_edges eg).
Proof.
  assert (Hwf : wf_graph Exemplos.AB = true) by (vm_compute; reflexivity).
  assert (Hcon : is_connected Exemplos.AB = Ok true) by (vm_compute; reflexivity).
  assert (Hstart : start_ok Exemplos.AB (Some "A"%string)) by (simpl; tauto).
  split; [exact Hwf|]. split; [exact Hcon|]. split; [exact Casos.AB_contract|].
  split; [exact Hstart|].
  destruct (circuit_covers_eulerized_edges ref_nx Exemplos.AB (Some "A"%string)
              Hwf Hcon Casos.AB_contract Hstart)
    as (sol & eg & aw & paths & H1 & H2 & _ & H3 & _ & H4).
  exists sol, eg, aw. repeat split; assumption.
Defined.

(** C3.  On a connected graph, with the library routines behaving as
    documented, the circuit returned by [solve_chinese_postman] is a
    closed walk: every entry starts where the one before it ended, the
    last entry ends where the first started, and the walk starts at the
    start node when one is given. *)
Theorem circuit_is_closed_walk {V : Type} {V_dec : EqDec V}
    (nx : NxLib V) (g : Graph V) (start : option V) :
  wf_graph g = true ->
  is_connected g = Ok true ->
  nx_contract nx g ->
  start_ok g start ->
  exists sol source,
    solve_chinese_postman nx g start = Ok sol
    /\ closed_walk (pairs_of (circuit sol))
    /\ walk_end source (pairs_of (circuit sol)) = Some source
    /\ (forall s, start = Some s -> source = s)
    /\ (forall e, hd_error (pairs_of (circuit sol)) = Some e -> fst e = source).
Proof.
  intros Hwf Hcon Hnx Hstart. apply wf_graph_wf in Hwf.
  destruct (solve_total nx g Hwf Hcon Hnx start Hstart) as (sol & Hsol).
  destruct (solve_route nx g start sol Hwf Hsol)
    as (eg & aw & paths & source & _ & _ & _ & _ & _ & Hsource & Hwalk & _).
  destruct (walk_end_closed_walk source _ Hwalk) as [Hclosed Hfirst].
  exists sol, source.
  split; [exact Hsol|]. split; [exact Hclosed|]. split; [exact Hwalk|].
  split; [|exact Hfirst].
  intros s ->. exact Hsource.
Qed.

(** On the 4-cycle of the driver, started at A. *)
Lemma circuit_is_closed_walk_G2 :
  wf_graph Exemplos.G2 = true
  /\ is_connected Exemplos.G2 = Ok true
  /\ nx_contract ref_nx Exemplos.G2
  /\ start_ok Exemplos.G2 (Some "A"%string)
  /\ exists sol,
       solve_chinese_postman ref_nx Exemplos.G2 (Some "A"%string) = Ok sol
       /\ closed_walk (pairs_of (circuit sol)).
Proof.
  assert (Hwf : wf_graph Exemplos.G2 = true) by (vm_compute; reflexivity).
  assert (Hcon : is_connected Exemplos.G2 = Ok true) by (vm_compute; reflexivity).
  assert (Hnx : nx_contract ref_nx Exemplos.G2)
    by (apply contract_no_odd; vm_compute; reflexivity).
  assert (Hstart : start_ok Exemplos.G2 (Some "A"%string)) by (simpl; tauto).
  split; [exact Hwf|]. split; [exact Hcon|]. split; [exact Hnx|].
  split; [exact Hstart|].
  destruct (circuit_is_closed_walk ref_nx Exemplos.G2 (Some "A"%string)
              Hwf Hcon Hnx Hstart) as (sol & source & H1 & H2 & _).
  exists sol. split; assumption.
Defined.

(** C6.  On an Eulerian graph [add_minimum_weight_matching] returns the
    copy and adds nothing, the total cost is the sum of the weights of
    the edges, and the circuit walks every edge once.  On the 4-cycle of
    the driver the total cost is 4 and the circuit has 4 entries. *)
Theorem eulerian_input_costs_its_edges {V : Type} {V_dec : EqDec V}
    (nx : NxLib V) (g : Graph V) (start : option V) :
  wf_graph g = true ->
  is_eulerian g = Ok true ->
  start_ok g start ->
  add_minimum_weight_matching nx g = Ok (Simple (copy g), 0%Z)
  /\ (exists sol,
        solve_chinese_postman nx g start = Ok sol
        /\ total_cost sol = total_weight g
        /\ length (circuit sol) = number_of_edges g
        /\ forall u v, occ (pairs_of (circuit sol)) u v = occ (edges g) u v)
  /\ (forall (nx4 : NxLib string) (start4 : option string),
        start_ok Exemplos.G2 start4 ->
        exists sol4,
          solve_chinese_postman nx4 Exemplos.G2 start4 = Ok sol4
          /\ total_cost sol4 = 4%Z /\ length (circuit sol4) = 4).
Proof.
  assert (Hgen : forall (W : Type) (W_dec : EqDec W) (lib : NxLib W)
                        (h : Graph W) (st : option W),
            wf_graph h = true -> is_eulerian h = Ok true -> start_ok h st ->
            add_minimum_weight_matching lib h = Ok (Simple (copy h), 0%Z)
            /\ exists sol,
                 solve_chinese_postman lib h st = Ok sol
                 /\ total_cost sol = total_weight h
                 /\ length (circuit sol) = number_of_edges h
                 /\ forall u v, occ (pairs_of (circuit sol)) u v = occ (edges h) u v).
  { intros W W_dec lib h st Hwf Heul Hstart. apply wf_graph_wf in Hwf.
    assert (Hodd := is_eulerian_no_odd h Heul).
    assert (Hrun : add_minimum_weight_matching lib h = Ok (Simple (copy h), 0%Z))
      by (unfold add_minimum_weight_matching; now rewrite Hodd).
    split; [exact Hrun|].
    assert (Hcon := is_eulerian_connected h Heul).
    destruct (solve_finish lib h (Simple (copy h)) 0%Z st Hwf Hrun) as (sol & Hsol).
    - now apply copy_wf.
    - now apply copy_is_eulerian.
    - cbn [any_nodes]. rewrite copy_nodes by assumption.
      destruct st as [s|]; [exact Hstart | now apply nodes_nonempty].
    - exists sol. split; [exact Hsol|].
      destruct (solve_route lib h st sol Hwf Hsol)
        as (eg & aw & paths & source & Hrun' & _ & _ & Hcost & _ & _ & _ & Hocc & _).
      rewrite Hrun in Hrun'. injection Hrun' as <- <-.
      assert (Hcirc : forall u v, occ (pairs_of (circuit sol)) u v = occ (edges h) u v).
      { intros u v. rewrite Hocc. cbn [any_mult].
        rewrite copy_mult by assumption. symmetry. now apply occ_edges. }
      split; [rewrite Hcost; lia|]. split; [|exact Hcirc].
      unfold number_of_edges. rewrite <- (occ_length _ _ Hcirc).
      unfold pairs_of. now rewrite length_map. }
  intros Hwf Heul Hstart.
  destruct (Hgen V V_dec nx g start Hwf Heul Hstart) as [Hrun Hsol].
  split; [exact Hrun|]. split; [exact Hsol|].
  intros nx4 start4 Hstart4.
  destruct (Hgen string _ nx4 Exemplos.G2 start4) as [_ (sol4 & H1 & H2 & H3 & _)].
  - vm_compute; reflexivity.
  - vm_compute; reflexivity.
  - exact Hstart4.
  - exists sol4. split; [exact H1|]. split.
    + rewrite H2. vm_compute; reflexivity.
    + rewrite H3. vm_compute; reflexivity.
Qed.

(** On the 4-cycle of the driver, started at A as the driver does. *)
Lemma eulerian_input_costs_its_edges_G2 :
  wf_graph Exemplos.G2 = true
  /\ is_eulerian Exemplos.G2 = Ok true
  /\ start_ok Exemplos.G2 (Some "A"%string)
  /\ total_weight Exemplos.G2 = 4%Z
  /\ add_minimum_weight_matching ref_nx Exemplos.G2
     = Ok (Simple (copy Exemplos.G2), 0%Z)
  /\ exists sol,
       solve_chinese_postman ref_nx Exemplos.G2 (Some "A"%string) = Ok sol
       /\ total_cost sol = total_weight Exemplos.G2
       /\ length (circuit sol) = number_of_edges Exemplos.G2.
Proof.
  assert (Hwf : wf_graph Exemplos.G2 = true) by (vm_compute; reflexivity).
  assert (Heul : is_eulerian Exemplos.G2 = Ok true) by (vm_compute; reflexivity).
  assert (Hstart : start_ok Exemplos.G2 (Some "A"%string)) by (simpl; tauto).
  split; [exact Hwf|]. split; [exact Heul|]. split; [exact Hstart|].
  split; [vm_compute; reflexivity|].
  destruct (eulerian_input_costs_its_edges ref_nx Exemplos.G2 (Some "A"%string)
              Hwf Heul Hstart) as (H1 & (sol & H2 & H3 & H4 & _) & _).
  split; [exact H1|]. exists sol. repeat split; assumption.
Defined.

(** ** Inputs the program cannot route *)

(** C4, as the program behaves.  On a disconnected graph that has no
    vertex of odd degree, or that has two vertices with edges in different
    pieces, [solve_chinese_postman] returns no route, whatever the start
    node: it ends in an exception.  With the library routines behaving as
    documented [add_minimum_weight_matching] itself returns, the graph it
    returns fails the Eulerian test, and the exception is the
    [NetworkXError] of [find_eulerian_circuit]. *)
Theorem disconnected_graph_raises {V : Type} {V_dec : EqDec V}
    (nx : NxLib V) (g : Graph V) (start : option V) (u v : V) :
  wf_graph g = true ->
  is_connected g = Ok false ->
  find_odd_degree_vertices g = []
  \/ (0 < degree g u /\ 0 < degree g v /\ ref_has_path g u v = false) ->
  (exists e, solve_chinese_postman nx g start = Raise e)
  /\ (nx_contract nx g ->
      exists eg aw,
        add_minimum_weight_matching nx g = Ok (eg, aw)
        /\ any_is_eulerian eg = Ok false
        /\ solve_chinese_postman nx g start = Raise NetworkXError).
Proof.
  intros Hwf Hdis Hcase. apply wf_graph_wf in Hwf.
  destruct Hcase as [Eodd|(Hu & Hv & Hbfs)].
  - destruct (even_pieces_raise nx g start Hwf Hdis Eodd) as (Hrun & Hno & Hs).
    split; [now exists NetworkXError|].
    intros _. exists (Simple (copy g)), 0%Z. repeat split; assumption.
  - assert (Hnr := unreachable_of_bfs g u v Hwf Hu Hbfs).
    split.
    + destruct (solve_chinese_postman nx g start) as [sol|e] eqn:E; [|now exists e].
      exfalso. exact (disconnected_no_route nx g start u v sol Hwf Hu Hv Hnr E).
    + intros Hnx.
      destruct (add_minimum_weight_matching_guarded nx g Hwf Hnx) as (eg & aw & Hrun).
      exists eg, aw. split; [exact Hrun|]. split.
      * exact (eulerized_not_eulerian nx g eg aw u v Hwf Hu Hv Hnr Hrun).
      * exact (two_pieces_raise nx g start u v Hwf Hnx Hu Hv Hnr).
Qed.

(** On the block of three streets with the vertex D on its own, which has
    no vertex of odd degree, for every start node; and on the two streets
    A-B and C-D, with the reference routines. *)
Lemma disconnected_graph_raises_examples :
  (wf_graph Exemplos.BlocoComIsolado = true
   /\ is_connected Exemplos.BlocoComIsolado = Ok false
   /\ find_odd_degree_vertices Exemplos.BlocoComIsolado = []
   /\ nx_contract ref_nx Exemplos.BlocoComIsolado
   /\ forall start,
        solve_chinese_postman ref_nx Exemplos.BlocoComIsolado start
        = Raise NetworkXError)
  /\ (wf_graph Exemplos.Separados = true
      /\ is_connected Exemplos.Separados = Ok false
      /\ (0 < degree Exemplos.Separados "A"%string
          /\ 0 < degree Exemplos.Separados "C"%string
          /\ ref_has_path Exemplos.Separados "A"%string "C"%string = false)
      /\ nx_contract ref_nx Exemplos.Separados
      /\ solve_chinese_postman ref_nx Exemplos.Separados None = Raise NetworkXError).
Proof.
  assert (Hwf : wf_graph Exemplos.BlocoComIsolado = true) by (vm_compute; reflexivity).
  assert (Hdis : is_connected Exemplos.BlocoComIsolado = Ok false)
    by (vm_compute; reflexivity).
  assert (Eodd : find_odd_degree_vertices Exemplos.BlocoComIsolado = [])
    by (vm_compute; reflexivity).
  assert (Hnx : nx_contract ref_nx Exemplos.BlocoComIsolado)
    by exact (contract_no_odd Exemplos.BlocoComIsolado Eodd).
  assert (Hwf' : wf_graph Exemplos.Separados = true) by (vm_compute; reflexivity).
  assert (Hdis' : is_connected Exemplos.Separados = Ok false)
    by (vm_compute; reflexivity).
  assert (Hpieces : 0 < degree Exemplos.Separados "A"%string
                    /\ 0 < degree Exemplos.Separados "C"%string
                    /\ ref_has_path Exemplos.Separados "A"%string "C"%string = false)
    by (vm_compute; repeat split; lia).
  split.
  - split; [exact Hwf|]. split; [exact Hdis|]. split; [exact Eodd|].
    split; [exact Hnx|]. intros start.
    destruct (proj2 (disconnected_graph_raises ref_nx Exemplos.BlocoComIsolado start
                       "A"%string "A"%string Hwf Hdis (or_introl Eodd)) Hnx)
      as (eg & aw & _ & _ & Hs).
    exact Hs.
  - split; [exact Hwf'|]. split; [exact Hdis'|]. split; [exact Hpieces|].
    split; [exact Casos.Separados_contract|].
    destruct (proj2 (disconnected_graph_raises ref_nx Exemplos.Separados None
                       "A"%string "C"%string Hwf' Hdis' (or_intror Hpieces))
                    Casos.Separados_contract)
      as (eg & aw & _ & _ & Hs).
    exact Hs.
Defined.

(** A disconnected graph that is solved: the street A-B with the vertex D
    on its own gets the route of the street alone.  On the two streets
    A-B and C-D no distance between the streets is asked for, the
    auxiliary graph has the two streets and nothing else, the
    eulerization returns, and the exception is [NetworkXError]. *)
Lemma disconnected_inputs_counterexample :
  is_connected Exemplos.ComIsolado = Ok false
  /\ solve_chinese_postman ref_nx Exemplos.ComIsolado None
     = Ok {| total_cost := 6;
             circuit := [("A", "B", 3%Z); ("B", "A", 3%Z)]%string |}
  /\ is_connected Exemplos.Separados = Ok false
  /\ has_path ref_nx Exemplos.Separados "A"%string "C"%string = false
  /\ build_complete_graph ref_nx Exemplos.Separados
       (find_odd_degree_vertices Exemplos.Separados)
     = Ok Exemplos.Separados
  /\ (exists eg, add_minimum_weight_matching ref_nx Exemplos.Separados = Ok (eg, 2%Z))
  /\ solve_chinese_postman ref_nx Exemplos.Separados None = Raise NetworkXError.
Proof.
  split; [vm_compute; reflexivity|]. split; [vm_compute; reflexivity|].
  split; [vm_compute; reflexivity|]. split; [vm_compute; reflexivity|].
  split; [vm_compute; reflexivity|].
  split; [eexists; vm_compute; reflexivity|]. vm_compute; reflexivity.
Qed.

(** C5, as the program behaves.  On a graph with no edge the outcome
    depends on the number of vertices: none gives the
    [NetworkXPointlessConcept] of the connectivity test, one gives the
    empty route of cost 0, two or more give the [NetworkXError] of
    [find_eulerian_circuit]. *)
Theorem edgeless_graph_outcomes {V : Type} {V_dec : EqDec V}
    (nx : NxLib V) (g : Graph V) (start : option V) :
  wf_graph g = true ->
  edges g = [] ->
  match nodes g with
  | [] => solve_chinese_postman nx g start = Raise NetworkXPointlessConcept
  | [n] =>
      start = None \/ start = Some n ->
      solve_chinese_postman nx g start = Ok {| total_cost := 0; circuit := [] |}
  | _ :: _ :: _ => solve_chinese_postman nx g start = Raise NetworkXError
  end.
Proof.
  intros Hwf Hno. apply wf_graph_wf in Hwf.
  destruct (nodes g) as [|n [|n' rest]] eqn:En.
  - now apply edgeless_null.
  - intros Hstart. now apply (edgeless_single nx g Hwf Hno start n).
  - now apply (edgeless_many nx g Hwf Hno start n n' rest).
Qed.

(** Two vertices and no street. *)
Lemma edgeless_graph_outcomes_two :
  wf_graph (add_node Exemplos.Ponto "B"%string) = true
  /\ edges (add_node Exemplos.Ponto "B"%string) = []
  /\ solve_chinese_postman ref_nx (add_node Exemplos.Ponto "B"%string) None
     = Raise NetworkXError.
Proof.
  assert (Hwf : wf_graph (add_node Exemplos.Ponto "B"%string) = true)
    by (vm_compute; reflexivity).
  assert (Hno : edges (add_node Exemplos.Ponto "B"%string) = [])
    by (vm_compute; reflexivity).
  split; [exact Hwf|]. split; [exact Hno|].
  exact (edgeless_graph_outcomes ref_nx (add_node Exemplos.Ponto "B"%string) None
           Hwf Hno).
Defined.

(** One vertex and no street: a result, not an exception. *)
Lemma edgeless_graph_counterexample :
  edges Exemplos.Ponto = []
  /\ number_of_edges Exemplos.Ponto = 0
  /\ solve_chinese_postman ref_nx Exemplos.Ponto None
     = Ok {| total_cost := 0; circuit := [] |}.
Proof.
  split; [vm_compute; reflexivity|]. split; vm_compute; reflexivity.
Qed.

(** ** The input graph is left alone *)

(** C9.  Run on a store of graph objects, [add_minimum_weight_matching]
    and [solve_chinese_postman] change no object the store had: the store
    after the call is the store before it followed by new objects, so the
    input graph is as it was; the graph returned is one of the new
    objects and the results are those of the functions on the input
    graph.  With no odd vertex the only new object is the copy of the
    input graph, which has its nodes and its edges, and the added weight
    is 0. *)
Theorem input_graph_is_unchanged {V : Type} {V_dec : EqDec V}
    (nx : NxLib V) (s : Store) (graph : nat) (g : Graph V) (start : option V) :
  wf_graph g = true ->
  nth_error s graph = Some (Simple g) ->
  (exists r new,
     add_minimum_weight_matching_st nx graph s = (r, s ++ new)
     /\ extends s (s ++ new)
     /\ nth_error (s ++ new) graph = Some (Simple g)
     /\ match r with
        | Ok (ref, aw) =>
            length s <= ref
            /\ exists eg, nth_error (s ++ new) ref = Some eg
                          /\ add_minimum_weight_matching nx g = Ok (eg, aw)
        | Raise e => add_minimum_weight_matching nx g = Raise e
        end
     /\ (find_odd_degree_vertices g = [] ->
         r = Ok (length s, 0%Z) /\ new = [Simple (copy g)]))
  /\ (nodes (copy g) = nodes g
      /\ forall u v, get_edge (copy g) u v = get_edge g u v)
  /\ (exists new,
        solve_chinese_postman_st nx graph start s
        = (solve_chinese_postman nx g start, s ++ new)
        /\ extends s (s ++ new)
        /\ nth_error (s ++ new) graph = Some (Simple g)).
Proof.
  intros Hwf Hg. apply wf_graph_wf in Hwf. split; [|split].
  - destruct (add_minimum_weight_matching_run nx s graph g Hg) as (r & new & Hrun & Hr).
    exists r, new. split; [exact Hrun|]. split; [apply extends_app|].
    split; [now apply nth_error_prefix|]. split.
    + destruct r as [[ref aw]|e]; [|exact Hr].
      destruct Hr as (eg & H1 & H2 & H3). split; [exact H3|]. now exists eg.
    + intros Hodd.
      rewrite (add_minimum_weight_matching_run_even nx s graph g Hg Hodd) in Hrun.
      injection Hrun as Hr' Hs. apply app_inv_head in Hs. now subst.
  - split; [now apply copy_nodes|]. intros u v. now apply copy_get_edge.
  - destruct (solve_chinese_postman_run nx s graph g start Hg) as (new & Hrun).
    exists new. split; [exact Hrun|]. split; [apply extends_app|].
    now apply nth_error_prefix.
Qed.

(** The first graph of the driver as the only object of the store: after
    the run it is still the first object. *)
Lemma input_graph_is_unchanged_G :
  wf_graph Exemplos.G = true
  /\ nth_error [Simple Exemplos.G] 0 = Some (Simple Exemplos.G)
  /\ exists new,
       solve_chinese_postman_st ref_nx 0 (Some "A"%string) [Simple Exemplos.G]
       = (solve_chinese_postman ref_nx Exemplos.G (Some "A"%string),
          [Simple Exemplos.G] ++ new)
       /\ nth_error ([Simple Exemplos.G] ++ new) 0 = Some (Simple Exemplos.G).
Proof.
  assert (Hwf : wf_graph Exemplos.G = true) by (vm_compute; reflexivity).
  split; [exact Hwf|]. split; [reflexivity|].
  destruct (input_graph_is_unchanged ref_nx [Simple Exemplos.G] 0 Exemplos.G
              (Some "A"%string) Hwf eq_refl) as (_ & _ & (new & H1 & _ & H2)).
  exists new. split; assumption.
Defined.

(** * Further properties of the program *)

(** ** Sums over lists of vertex pairs *)

Section PairSums.
Context {V : Type} {V_dec : EqDec V}.

(** A function that does not see the direction of a pair has the same
    sum over two lists that pass as often between any two vertices. *)
Lemma sum_same_occ (f : V * V -> Z) :
  (forall a b, f (a, b) = f (b, a)) ->
  forall c1 c2 : list (V * V),
    (forall u v, occ c1 u v = occ c2 u v) ->
    sum_Z (map f c1) = sum_Z (map f c2).
Proof.
  intros Hsym. induction c1 as [|[a b] c1 IH]; intros c2 Hocc.
  - assert (Hl := occ_length [] c2 Hocc). destruct c2; [reflexivity|discriminate].
  - assert (Hpos : 0 < occ c2 a b).
    { rewrite <- Hocc, occ_cons.
      replace (same_edge (a, b) a b) with true; [simpl; lia|].
      symmetry. apply same_edge_true. now left. }
    assert (He : exists e, In e c2 /\ f e = f (a, b)
                           /\ forall u v, same_edge e u v = same_edge (a, b) u v).
    { destruct (occ_pos_In c2 a b Hpos) as [Hin|Hin].
      - exists (a, b). tauto.
      - exists (b, a). split; [assumption|]. split; [apply Hsym|].
        intros u v. apply same_edge_swap. }
    destruct He as (e & Hin & Hf & Hsame).
    destruct (in_split e c2 Hin) as (l1 & l2 & ->).
    rewrite map_app, sum_Z_app.
    change (sum_Z (map f ((a, b) :: c1))) with (f (a, b) + sum_Z (map f c1))%Z.
    change (sum_Z (map f (e :: l2))) with (f e + sum_Z (map f l2))%Z.
    rewrite Hf, (IH (l1 ++ l2)).
    + rewrite map_app, sum_Z_app. lia.
    + intros u v. specialize (Hocc u v).
      rewrite occ_cons, occ_app, occ_cons, Hsame in Hocc.
      rewrite occ_app. lia.
Qed.

Lemma total_weight_edges (g : Graph V) :
  wf g -> total_weight g = sum_Z (map (edge_w g) (edges g)).
Proof.
  intros Hwf. unfold total_weight, edges. rewrite map_map.
  f_equal. apply map_ext_in. intros [[u v] w] Hin.
  apply (In_edges_data_get g u v w Hwf) in Hin.
  unfold edge_w. cbn [fst snd]. now rewrite Hin.
Qed.
End PairSums.

(** ** find_eulerian_circuit on its own *)

Section Circuit.
Context {V : Type} {V_dec : EqDec V}.

Lemma any_wf_match (eg : AnyGraph V) :
  any_wf eg -> match eg with Simple h => wf h | Multi m => wf m end.
Proof. now destruct eg. Qed.

Lemma any_eulerian_nodes (eg : AnyGraph V) :
  any_is_eulerian eg = Ok true -> any_nodes eg <> [].
Proof.
  destruct eg as [h|m]; simpl; intros He; apply is_eulerian_connected in He;
    unfold is_connected in He.
  - destruct (nodes h); [discriminate|]. discriminate.
  - destruct (nodes m); [discriminate|]. discriminate.
Qed.

Lemma any_circuit_runs (eg : AnyGraph V) source :
  any_wf eg -> any_is_eulerian eg = Ok true -> In source (any_nodes eg) ->
  exists circ, any_eulerian_circuit eg source = Ok circ.
Proof.
  destruct eg as [h|m]; simpl; intros Hwf He Hs.
  - destruct (eulerian_circuit_spec h source Hwf He Hs) as (out & Ho & _). eauto.
  - destruct (eulerian_circuit_spec m source Hwf He Hs) as (out & Ho & _). eauto.
Qed.
End Circuit.

(** X1.  On a graph or multigraph that passes the Eulerian test, with a
    start node of the graph or none, [find_eulerian_circuit] returns a
    circuit: a closed walk from the start node (the first node when none
    is given) that passes between any two vertices as often as the graph
    has edges between them, with one entry per edge. *)
Theorem find_eulerian_circuit_correct {V : Type} {V_dec : EqDec V}
    (eg : AnyGraph V) (start : option V) :
  any_wf eg ->
  any_is_eulerian eg = Ok true ->
  match start with Some s => In s (any_nodes eg) | None => True end ->
  exists circ source,
    find_eulerian_circuit eg start = Ok circ
    /\ match start with
       | Some s => source = s
       | None => hd_error (any_nodes eg) = Some source
       end
    /\ walk_end source circ = Some source
    /\ closed_walk circ
    /\ (forall u v, occ circ u v = any_mult eg u v)
    /\ length circ = length (any_edges eg).
Proof.
  intros Hwf He Hstart.
  assert (Hsrc : exists source,
             match start with
             | Some s => Ok s
             | None => of_option IndexError (hd_error (any_nodes eg))
             end = Ok source
             /\ In source (any_nodes eg)
             /\ match start with
                | Some s => source = s
                | None => hd_error (any_nodes eg) = Some source
                end).
  { destruct start as [s|]; [now exists s|].
    pose proof (any_eulerian_nodes eg He) as Hne.
    destruct (any_nodes eg) as [|s rest]; [contradiction|].
    exists s. split; [reflexivity|]. split; [now left | reflexivity]. }
  destruct Hsrc as (source & Hsrc & Hin & Hrel).
  destruct (any_circuit_runs eg source Hwf He Hin) as [circ Hc].
  destruct (any_circuit_spec eg source circ (any_wf_match eg Hwf) Hc) as [Hwalk Hocc].
  exists circ, source.
  split.
  { unfold find_eulerian_circuit. rewrite He. cbn [bind negb].
    rewrite Hsrc. cbn [bind]. exact Hc. }
  split; [exact Hrel|]. split; [exact Hwalk|].
  split; [apply (walk_end_closed_walk source circ Hwalk)|].
  split; [exact Hocc|].
  apply occ_length. intros u v. rewrite Hocc.
  apply any_mult_edges. now apply any_wf_match.
Qed.

(** On the 4-cycle of the driver. *)
Lemma find_eulerian_circuit_correct_G2 :
  any_wf (Simple Exemplos.G2)
  /\ any_is_eulerian (Simple Exemplos.G2) = Ok true
  /\ exists circ,
       find_eulerian_circuit (Simple Exemplos.G2) (Some "A"%string) = Ok circ
       /\ closed_walk circ /\ length circ = 4.
Proof.
  assert (Hwf : any_wf (Simple Exemplos.G2))
    by (apply wf_graph_wf; vm_compute; reflexivity).
  assert (He : any_is_eulerian (Simple Exemplos.G2) = Ok true)
    by (vm_compute; reflexivity).
  split; [exact Hwf|]. split; [exact He|].
  destruct (find_eulerian_circuit_correct (Simple Exemplos.G2) (Some "A"%string)
              Hwf He) as (circ & source & H1 & _ & _ & H2 & _ & H3).
  - simpl; tauto.
  - exists circ. split; [exact H1|]. split; [exact H2|]. exact H3.
Defined.

(** X2.  [find_eulerian_circuit] raises [NetworkXPointlessConcept] on the
    null graph, and [NetworkXError] on a graph with nodes that has a
    vertex of odd degree or is not connected, whatever the start node. *)
Theorem find_eulerian_circuit_raises {V : Type} {V_dec : EqDec V}
    (eg : AnyGraph V) (start : option V) :
  any_wf eg ->
  (any_nodes eg = [] ->
   find_eulerian_circuit eg start = Raise NetworkXPointlessConcept)
  /\ (any_nodes eg <> [] ->
      (exists x, In x (any_nodes eg) /\ Nat.odd (any_degree eg x) = true)
      \/ ~ any_connected eg ->
      find_eulerian_circuit eg start = Raise NetworkXError).
Proof.
  intros Hwf.
  assert (Hgen : forall (A : Type) (HA : EdgeData A) (h : AdjMap V A),
            wf h ->
            (nodes h = [] -> is_eulerian h = Raise NetworkXPointlessConcept)
            /\ (nodes h <> [] ->
                (exists x, In x (nodes h) /\ Nat.odd (degree h x) = true)
                \/ ~ connected h ->
                is_eulerian h = Ok false)).
  { intros A HA h Hh. split.
    - intros Hn. unfold is_eulerian, is_connected. now rewrite Hn.
    - intros Hn Hbad.
      destruct (is_eulerian_value h Hn) as [[|] Hb]; [|exact Hb].
      exfalso. destruct Hbad as [(x & Hx & Hodd)|Hnc].
      + pose proof (is_eulerian_even h x Hb) as Hev.
        rewrite <- Nat.negb_even, Hev in Hodd. discriminate.
      + apply Hnc. apply connected_of_is_connected; [assumption|].
        now apply is_eulerian_connected. }
  unfold find_eulerian_circuit.
  destruct eg as [h|m]; cbn [any_wf any_nodes any_degree any_connected any_is_eulerian] in *.
  - destruct (Hgen _ _ h Hwf) as [H0 H1]. split.
    + intros Hn. now rewrite (H0 Hn).
    + intros Hn Hbad. now rewrite (H1 Hn Hbad).
  - destruct (Hgen _ _ m Hwf) as [H0 H1]. split.
    + intros Hn. now rewrite (H0 Hn).
    + intros Hn Hbad. now rewrite (H1 Hn Hbad).
Qed.

(** The single street has two odd vertices. *)
Lemma find_eulerian_circuit_raises_AB :
  any_wf (Simple Exemplos.AB)
  /\ find_eulerian_circuit (Simple Exemplos.AB) None = Raise NetworkXError.
Proof.
  assert (Hwf : any_wf (Simple Exemplos.AB))
    by (apply wf_graph_wf; vm_compute; reflexivity).
  split; [exact Hwf|].
  refine (proj2 (find_eulerian_circuit_raises (Simple Exemplos.AB) None Hwf) _ _).
  - vm_compute; discriminate.
  - left. exists "A"%string. split; [simpl; tauto | vm_compute; reflexivity].
Defined.

(** X3.  Run on a store of graph objects, [find_eulerian_circuit] leaves
    the graph it is given as it was: the edges the circuit algorithm
    removes are removed from a copy, a new object, and the result is the
    one of the function on the graph. *)
Theorem find_eulerian_circuit_keeps_graph {V : Type} {V_dec : EqDec V}
    (s : Store) (r : nat) (eg : AnyGraph V) (start : option V) :
  nth_error s r = Some eg ->
  exists new,
    find_eulerian_circuit_st r start s = (find_eulerian_circuit eg start, s ++ new)
    /\ nth_error (s ++ new) r = Some eg
    /\ extends s (s ++ new).
Proof.
  intros Hr.
  destruct (find_eulerian_circuit_run s r eg start Hr) as (new & Hrun).
  exists new. split; [exact Hrun|]. split; [now apply nth_error_prefix|].
  apply extends_app.
Qed.

(** The 4-cycle of the driver as the only object of the store. *)
Lemma find_eulerian_circuit_keeps_graph_G2 :
  exists new,
    find_eulerian_circuit_st 0 (Some "A"%string) [Simple Exemplos.G2]
    = (find_eulerian_circuit (Simple Exemplos.G2) (Some "A"%string),
       [Simple Exemplos.G2] ++ new)
    /\ nth_error ([Simple Exemplos.G2] ++ new) 0 = Some (Simple Exemplos.G2).
Proof.
  destruct (find_eulerian_circuit_keeps_graph [Simple Exemplos.G2] 0
              (Simple Exemplos.G2) (Some "A"%string) eq_refl)
    as (new & H1 & H2 & _).
  exists new. split; assumption.
Defined.

(** ** The eulerization *)

Section MoreEulerization.
Context {V : Type} {V_dec : EqDec V}.
Variable nx : NxLib V.

(** The edges of the returned graph, as pairs: those of the input and
    those of the duplicated paths. *)
Lemma eulerized_pairs g eg aw :
  wf g -> add_minimum_weight_matching nx g = Ok (eg, aw) ->
  exists d : list (V * V),
    (forall e, In e d -> get_edge g (fst e) (snd e) <> None)
    /\ aw = sum_Z (map (edge_w g) d)
    /\ any_ok eg
    /\ (forall u v, any_mult eg u v = mult g u v + occ d u v)
    /\ (find_odd_degree_vertices g = [] -> d = []).
Proof.
  intros Hwf Hrun.
  destruct (add_minimum_weight_matching_spec nx g eg aw Hrun)
    as (paths & Heul & Hedges & Hnone & _).
  destruct (eulerized_cases g paths eg aw Heul) as [(He & -> & ->)|(Hodd & -> & ->)].
  - exists []. split; [intros e []|]. split; [reflexivity|].
    split; [now apply copy_wf|]. split; [|reflexivity].
    intros u v. cbn [any_mult]. rewrite copy_mult by assumption.
    rewrite occ_nil. lia.
  - exists (flat_map path_edges paths).
    destruct (eulerized_multi g (flat_map path_edges paths) Hwf)
      as (Hm & Hk & Hmult & _).
    split; [exact Hedges|]. split; [reflexivity|]. split; [now split|].
    split; [exact Hmult|]. intros He. contradiction.
Qed.
End MoreEulerization.

(** X4.  Whenever [solve_chinese_postman] returns, the total cost it
    reports is the sum of the weights it wrote on the entries of the
    circuit: the cost of the route returned. *)
Theorem total_cost_is_circuit_weight {V : Type} {V_dec : EqDec V}
    (nx : NxLib V) (g : Graph V) (start : option V) (sol : Solution V) :
  wf_graph g = true ->
  solve_chinese_postman nx g start = Ok sol ->
  total_cost sol = circuit_weight (circuit sol).
Proof.
  intros Hwf Hsol. apply wf_graph_wf in Hwf.
  destruct (solve_route nx g start sol Hwf Hsol)
    as (eg & aw & paths & source & Hrun & Heul & Hedges & Hcost & _ & _ & _
        & Hocc & Hweights).
  destruct (eulerized_pairs nx g eg aw Hwf Hrun) as (d & Hd & Haw & _ & Hmult & _).
  assert (Hentries : map snd (circuit sol) = map (edge_w g) (pairs_of (circuit sol))).
  { unfold pairs_of. rewrite map_map. apply map_ext_in. intros [[u v] w] Hin.
    apply Hweights in Hin. apply edge_weight_any_weights in Hin.
    apply (eulerized_any_weights g Hwf paths eg aw u v w Heul Hedges) in Hin.
    unfold edge_w. cbn [fst snd]. now rewrite Hin. }
  unfold circuit_weight. rewrite Hentries.
  rewrite (sum_same_occ (edge_w g)) with (c2 := edges g ++ d).
  - rewrite map_app, sum_Z_app, <- total_weight_edges by assumption. lia.
  - intros a b. now apply edge_w_sym.
  - intros u v. rewrite Hocc, Hmult, occ_app. f_equal.
    symmetry. now apply occ_edges.
Qed.

(** On the first graph of the driver: 152. *)
Lemma total_cost_is_circuit_weight_G :
  wf_graph Exemplos.G = true
  /\ exists sol,
       solve_chinese_postman ref_nx Exemplos.G (Some "A"%string) = Ok sol
       /\ total_cost sol = 152%Z
       /\ total_cost sol = circuit_weight (circuit sol).
Proof.
  assert (Hwf : wf_graph Exemplos.G = true) by (vm_compute; reflexivity).
  split; [exact Hwf|].
  eexists. split; [vm_compute; reflexivity|]. split; [reflexivity|].
  refine (total_cost_is_circuit_weight ref_nx Exemplos.G (Some "A"%string) _ Hwf _).
  vm_compute; reflexivity.
Defined.

(** X5.  On a connected graph, with the library routines behaving as
    documented, the graph [add_minimum_weight_matching] returns passes
    the Eulerian test: all its degrees are even and it is connected; it
    has the nodes of the input graph. *)
Theorem eulerized_graph_is_eulerian {V : Type} {V_dec : EqDec V}
    (nx : NxLib V) (g : Graph V) :
  wf_graph g = true ->
  is_connected g = Ok true ->
  nx_contract nx g ->
  exists eg aw,
    add_minimum_weight_matching nx g = Ok (eg, aw)
    /\ any_is_eulerian eg = Ok true
    /\ (forall x, Nat.even (any_degree eg x) = true)
    /\ any_connected eg
    /\ (forall x, In x (any_nodes eg) <-> In x (nodes g)).
Proof.
  intros Hwf Hcon Hnx. apply wf_graph_wf in Hwf.
  destruct (amwm_total nx g Hwf Hcon Hnx) as (eg & aw & Hrun).
  exists eg, aw. split; [exact Hrun|].
  destruct (add_minimum_weight_matching_spec nx g eg aw Hrun)
    as (paths & Heul & _ & _ & Hpaths).
  destruct (eulerized_cases g paths eg aw Heul) as [(He & -> & _)|(Hodd & -> & _)];
    cbn [any_is_eulerian any_degree any_connected any_nodes].
  - assert (Hec := even_case_eulerian g Hwf Hcon He).
    split; [exact Hec|]. split; [intros x; now apply is_eulerian_even|].
    split.
    + apply connected_of_is_connected; [now apply copy_wf|].
      now apply is_eulerian_connected.
    + intros x. now rewrite copy_nodes.
  - destruct (Hpaths Hodd) as (K & HK & Hsp).
    rewrite (build_complete_graph_Ok nx g Hwf (g_connected g Hwf Hcon) Hnx) in HK.
    injection HK as <-.
    assert (Hec := odd_case_eulerian nx g Hwf Hcon Hnx paths Hodd Hsp).
    split; [exact Hec|]. split; [intros x; now apply is_eulerian_even|].
    split.
    + apply connected_of_is_connected; [now apply eulerized_multi|].
      now apply is_eulerian_connected.
    + intros x. split.
      * now apply (dup_nodes nx g Hwf Hcon Hnx paths Hsp).
      * now apply (node_dup_node nx g Hwf Hcon Hnx paths Hodd Hsp).
Qed.

(** On the single street. *)
Lemma eulerized_graph_is_eulerian_AB :
  wf_graph Exemplos.AB = true
  /\ is_connected Exemplos.AB = Ok true
  /\ nx_contract ref_nx Exemplos.AB
  /\ exists eg aw,
       add_minimum_weight_matching ref_nx Exemplos.AB = Ok (eg, aw)
       /\ any_is_eulerian eg = Ok true.
Proof.
  assert (Hwf : wf_graph Exemplos.AB = true) by (vm_compute; reflexivity).
  assert (Hcon : is_connected Exemplos.AB = Ok true) by (vm_compute; reflexivity).
  split; [exact Hwf|]. split; [exact Hcon|]. split; [exact Casos.AB_contract|].
  destruct (eulerized_graph_is_eulerian ref_nx Exemplos.AB Hwf Hcon Casos.AB_contract)
    as (eg & aw & H1 & H2 & _).
  exists eg, aw. split; assumption.
Defined.

(** X6.  On a graph with no negative weight, with the library routines
    behaving as documented, [add_minimum_weight_matching] returns whether
    the graph is connected or not.  A pair of odd vertices with no path
    between them is passed over by the [has_path] test: every edge of the
    auxiliary graph joins two distinct odd vertices with a path between
    them, and so does every pair of the matching, for which
    [shortest_path] returns a path of the graph. *)
Theorem eulerization_always_returns {V : Type} {V_dec : EqDec V}
    (nx : NxLib V) (g : Graph V) :
  wf_graph g = true ->
  nonneg_weights g = true ->
  nx_contract nx g ->
  exists eg aw K,
    add_minimum_weight_matching nx g = Ok (eg, aw)
    /\ build_complete_graph nx g (find_odd_degree_vertices g) = Ok K
    /\ joins_reachable g K
    /\ forall uv, In uv (min_weight_matching nx K) ->
         In (fst uv) (find_odd_degree_vertices g)
         /\ In (snd uv) (find_odd_degree_vertices g)
         /\ fst uv <> snd uv
         /\ reach g (fst uv) (snd uv)
         /\ exists p, shortest_path nx g (fst uv) (snd uv) = Ok p
                      /\ is_path g (fst uv) (snd uv) p.
Proof.
  intros Hwf _ Hnx. apply wf_graph_wf in Hwf.
  destruct (add_minimum_weight_matching_guarded nx g Hwf Hnx) as (eg & aw & Hrun).
  destruct (complete_graph_guarded nx g Hwf Hnx) as (K & HK & Hjoin).
  exists eg, aw, K. split; [exact Hrun|]. split; [exact HK|]. split; [exact Hjoin|].
  intros uv Huv.
  destruct (nx_min_weight_matching nx g Hnx K HK) as ((_ & Hedges) & _).
  specialize (Hedges uv Huv).
  destruct (get_edge K (fst uv) (snd uv)) as [d|] eqn:Eg; [|congruence].
  destruct (Hjoin _ _ _ Eg) as (Hu & Hv & Hne & Hr).
  destruct (nx_shortest_path nx g Hnx _ _ Hu Hv Hne Hr) as (p & Hp & Hpath & _).
  repeat (split; [assumption|]). now exists p.
Qed.

(** On the two streets with no end in common: the two streets are the
    pairs of the matching. *)
Lemma eulerization_always_returns_Separados :
  wf_graph Exemplos.Separados = true
  /\ nonneg_weights Exemplos.Separados = true
  /\ nx_contract ref_nx Exemplos.Separados
  /\ is_connected Exemplos.Separados = Ok false
  /\ exists eg aw K,
       add_minimum_weight_matching ref_nx Exemplos.Separados = Ok (eg, aw)
       /\ build_complete_graph ref_nx Exemplos.Separados
            (find_odd_degree_vertices Exemplos.Separados) = Ok K
       /\ forall uv, In uv (min_weight_matching ref_nx K) ->
            reach Exemplos.Separados (fst uv) (snd uv).
Proof.
  assert (Hwf : wf_graph Exemplos.Separados = true) by (vm_compute; reflexivity).
  assert (Hpos : nonneg_weights Exemplos.Separados = true) by (vm_compute; reflexivity).
  split; [exact Hwf|]. split; [exact Hpos|]. split; [exact Casos.Separados_contract|].
  split; [vm_compute; reflexivity|].
  destruct (eulerization_always_returns ref_nx Exemplos.Separados Hwf Hpos
              Casos.Separados_contract) as (eg & aw & K & H1 & H2 & _ & H4).
  exists eg, aw, K. split; [exact H1|]. split; [exact H2|].
  intros uv Huv. destruct (H4 uv Huv) as (_ & _ & _ & Hr & _). exact Hr.
Defined.

(** X7.  The graph [add_minimum_weight_matching] returns keeps every edge
    of the input graph and joins no two vertices that the input graph
    does not join: between any two vertices it has at least as many
    edges as the input, and some only if the input has one. *)
Theorem eulerization_adds_only_parallel_edges {V : Type} {V_dec : EqDec V}
    (nx : NxLib V) (g : Graph V) (eg : AnyGraph V) (aw : Z) :
  wf_graph g = true ->
  add_minimum_weight_matching nx g = Ok (eg, aw) ->
  forall u v,
    mult g u v <= any_mult eg u v
    /\ (0 < any_mult eg u v -> 0 < mult g u v).
Proof.
  intros Hwf Hrun u v. apply wf_graph_wf in Hwf.
  destruct (eulerized_pairs nx g eg aw Hwf Hrun) as (d & Hd & _ & _ & Hmult & _).
  rewrite Hmult. split; [lia|].
  intros Hpos.
  destruct (mult g u v) as [|n] eqn:E; [|lia].
  assert (Ho : 0 < occ d u v) by lia.
  assert (Hg : get_edge g u v <> None).
  { destruct (occ_pos_In d u v Ho) as [Hin|Hin].
    - exact (Hd (u, v) Hin).
    - specialize (Hd (v, u) Hin). cbn [fst snd] in Hd.
      destruct (get_edge g v u) as [w|] eqn:Ev; [|congruence].
      now rewrite (wf_sym g Hwf v u w Ev). }
  unfold mult in E. destruct (get_edge g u v) as [w|] eqn:Eg; [|congruence].
  pose proof (wf_pos g Hwf u v w Eg). lia.
Qed.

(** On the first graph of the driver. *)
Lemma eulerization_adds_only_parallel_edges_G :
  wf_graph Exemplos.G = true
  /\ exists eg aw,
       add_minimum_weight_matching ref_nx Exemplos.G = Ok (eg, aw)
       /\ forall u v, mult Exemplos.G u v <= any_mult eg u v
                      /\ (0 < any_mult eg u v -> 0 < mult Exemplos.G u v).
Proof.
  assert (Hwf : wf_graph Exemplos.G = true) by (vm_compute; reflexivity).
  split; [exact Hwf|].
  eexists. eexists. split; [vm_compute; reflexivity|].
  refine (eulerization_adds_only_parallel_edges ref_nx Exemplos.G _ _ Hwf _).
  vm_compute; reflexivity.
Defined.

(** ** The annotation of the circuit *)

(** X8.  Once the eulerization and [find_eulerian_circuit] have returned,
    [solve_chinese_postman] returns too: reading the weight of a circuit
    entry, under key 0 for a multigraph, never fails.  The circuit
    returned is the one found, entry by entry, and the total cost is the
    weight of the input plus the added weight. *)
Theorem annotation_never_fails {V : Type} {V_dec : EqDec V}
    (nx : NxLib V) (g : Graph V) (start : option V)
    (eg : AnyGraph V) (aw : Z) (circ : list (V * V)) :
  wf_graph g = true ->
  add_minimum_weight_matching nx g = Ok (eg, aw) ->
  find_eulerian_circuit eg start = Ok circ ->
  exists sol,
    solve_chinese_postman nx g start = Ok sol
    /\ pairs_of (circuit sol) = circ
    /\ total_cost sol = (total_weight g + aw)%Z.
Proof.
  intros Hwf Hrun Hcirc. apply wf_graph_wf in Hwf.
  destruct (eulerized_pairs nx g eg aw Hwf Hrun) as (d & _ & _ & Hok & _).
  destruct (find_eulerian_circuit_Ok eg start circ Hcirc) as (He & source & Hc & _).
  destruct (any_circuit_spec eg source circ (any_ok_wf eg Hok) Hc) as [_ Hocc].
  destruct (format_circuit_total eg circ) with (acc := @nil (V * V * Z)) as [fc Hfc].
  { intros [a b] Hin. simpl. apply edge_weight_total; [assumption|].
    rewrite <- Hocc. now apply In_occ_pos. }
  exists {| total_cost := total_weight g + aw; circuit := fc |}.
  split.
  - unfold solve_chinese_postman.
    rewrite (original_cost_total g Hwf), Hrun. cbn [bind fst snd].
    rewrite Hcirc. cbn [bind]. unfold format_circuit. rewrite Hfc. reflexivity.
  - split; [|reflexivity]. cbn [circuit].
    now destruct (format_circuit_spec eg circ fc Hfc).
Qed.

(** On the third graph of the driver. *)
Lemma annotation_never_fails_G3 :
  wf_graph Exemplos.G3 = true
  /\ exists eg aw circ sol,
       add_minimum_weight_matching ref_nx Exemplos.G3 = Ok (eg, aw)
       /\ find_eulerian_circuit eg (Some "A"%string) = Ok circ
       /\ solve_chinese_postman ref_nx Exemplos.G3 (Some "A"%string) = Ok sol
       /\ pairs_of (circuit sol) = circ.
Proof.
  assert (Hwf : wf_graph Exemplos.G3 = true) by (vm_compute; reflexivity).
  split; [exact Hwf|].
  assert (Hrun : exists eg aw, add_minimum_weight_matching ref_nx Exemplos.G3 = Ok (eg, aw))
    by (eexists; eexists; vm_compute; reflexivity).
  destruct Hrun as (eg & aw & Hrun).
  assert (Hcirc : exists circ, find_eulerian_circuit eg (Some "A"%string) = Ok circ).
  { vm_compute in Hrun. injection Hrun as <- _. eexists. vm_compute. reflexivity. }
  destruct Hcirc as (circ & Hcirc).
  destruct (annotation_never_fails ref_nx Exemplos.G3 (Some "A"%string) eg aw circ
              Hwf Hrun Hcirc) as (sol & H1 & H2 & _).
  exists eg, aw, circ, sol. repeat split; assumption.
Defined.

(** * The route is a shortest one

    Any closed walk that passes along every edge walks some edges more
    than once.  The edges walked again meet every odd vertex an odd
    number of times and every other vertex an even number of times, so
    they can be gathered into walks that join the odd vertices two by two;
    such walks weigh at least the distances, and the distances at least
    the matching the program uses. *)

Section Tests.
Context {V : Type} {V_dec : EqDec V}.
Implicit Types (g : Graph V) (c : list (V * V)).

Lemma nonneg_weights_spec g u v w :
  nonneg_weights g = true -> get_edge g u v = Some w -> (0 <= w)%Z.
Proof.
  unfold nonneg_weights, get_edge, adj. intros Hnn Hg.
  destruct (dict_get g u) as [nbrs|] eqn:Eu; [|discriminate].
  apply dict_get_In in Eu. apply dict_get_In in Hg.
  rewrite forallb_forall in Hnn. specialize (Hnn _ Eu). cbn [snd] in Hnn.
  rewrite forallb_forall in Hnn. specialize (Hnn _ Hg). cbn [snd] in Hnn.
  now apply Z.leb_le.
Qed.

Lemma edge_w_nonneg g e : nonneg_weights g = true -> (0 <= edge_w g e)%Z.
Proof.
  intros Hnn. unfold edge_w.
  destruct (get_edge g (fst e) (snd e)) as [w|] eqn:E; [|lia].
  eapply nonneg_weights_spec; eauto.
Qed.

Lemma walk_weight_nonneg g c : nonneg_weights g = true -> (0 <= walk_weight g c)%Z.
Proof.
  intros Hnn. unfold walk_weight. apply sum_Z_nonneg.
  intros z Hz. apply in_map_iff in Hz. destruct Hz as (e & <- & _).
  now apply edge_w_nonneg.
Qed.

Lemma path_weight_nonneg g p : nonneg_weights g = true -> (0 <= path_weight g p)%Z.
Proof. intros Hnn. now apply (walk_weight_nonneg g (path_edges p)). Qed.

Lemma in_graph_spec g c e :
  in_graph g c = true -> In e c -> get_edge g (fst e) (snd e) <> None.
Proof.
  unfold in_graph. rewrite forallb_forall. intros Hall Hin.
  specialize (Hall e Hin). destruct (get_edge g (fst e) (snd e)); congruence.
Qed.

Lemma covers_spec g c u v :
  wf g -> covers g c = true -> mult g u v <= occ c u v.
Proof.
  intros Hwf Hcov. unfold covers in Hcov. rewrite forallb_forall in Hcov.
  destruct (mult g u v) as [|n] eqn:E; [lia|]. rewrite <- E.
  assert (Hpos : 0 < occ (edges g) u v) by (rewrite occ_edges by assumption; lia).
  destruct (occ_pos_In _ _ _ Hpos) as [Hin|Hin].
  - specialize (Hcov _ Hin). now apply Nat.leb_le in Hcov.
  - specialize (Hcov _ Hin). apply Nat.leb_le in Hcov. cbn [fst snd] in Hcov.
    rewrite (mult_sym g u v Hwf), (occ_sym c u v). exact Hcov.
Qed.
End Tests.

Section Joined.
Context {V : Type} {V_dec : EqDec V}.
Variable g : Graph V.
Hypothesis Hwf : wf g.
Hypothesis Hnn : nonneg_weights g = true.
Implicit Types (ps : list (V * V * list V)) (p q : list V) (a b x y : V).

Lemma joined_ok_cons t ps :
  joined_ok g (t :: ps)
  <-> is_path g (fst (fst t)) (snd (fst t)) (snd t) /\ joined_ok g ps.
Proof.
  unfold joined_ok. split.
  - intros H. split; [apply H; now left | intros t' Ht'; apply H; now right].
  - intros [H1 H2] t' [<-|Ht']; [assumption | now apply H2].
Qed.

(** The walk along one edge. *)
Lemma edge_is_path a b :
  get_edge g a b <> None ->
  is_path g a b [a; b] /\ path_weight g [a; b] = edge_w g (a, b).
Proof.
  intros He. split.
  - split; [reflexivity|]. split; [reflexivity|]. now intros e [<-|[]].
  - unfold path_weight. change (path_edges [a; b]) with [(a, b)]. simpl. lia.
Qed.

Lemma last_default (r : list V) : forall b d d', last (b :: r) d = last (b :: r) d'.
Proof.
  induction r as [|c r IH]; intros b d d'; [reflexivity|].
  change (last (b :: c :: r) d) with (last (c :: r) d).
  change (last (b :: c :: r) d') with (last (c :: r) d'). apply IH.
Qed.

(** A walk lengthened by an edge at its start. *)
Lemma path_cons a b x p :
  get_edge g a b <> None -> is_path g b x p ->
  is_path g a x (a :: p)
  /\ path_weight g (a :: p) = (edge_w g (a, b) + path_weight g p)%Z.
Proof.
  intros He (Hhd & Hlast & Hedges).
  destruct p as [|b' r]; [discriminate|]. injection Hhd as ->.
  split.
  - split; [reflexivity|]. split.
    + change (last (a :: b :: r) a) with (last (b :: r) a).
      rewrite <- Hlast. apply last_default.
    + rewrite path_edges_cons2. intros e [<-|He']; [assumption | now apply Hedges].
  - unfold path_weight. rewrite path_edges_cons2. reflexivity.
Qed.

(** Two walks put end to end over an edge. *)
Lemma path_app p :
  forall x a, is_path g x a p ->
  forall b y q, get_edge g a b <> None -> is_path g b y q ->
    is_path g x y (p ++ q)
    /\ path_weight g (p ++ q)
       = (path_weight g p + edge_w g (a, b) + path_weight g q)%Z.
Proof.
  induction p as [|x' [|c r] IH]; intros x a Hp b y q He Hq.
  - destruct Hp as (Hhd & _). discriminate.
  - destruct Hp as (Hhd & Hlast & _). injection Hhd as ->. simpl in Hlast. subst a.
    change ([x] ++ q) with (x :: q).
    destruct (path_cons x b y q He Hq) as [H1 H2]. split; [exact H1|].
    rewrite H2. unfold path_weight at 2. simpl. lia.
  - destruct Hp as (Hhd & Hlast & Hedges). injection Hhd as ->.
    assert (Hxc : get_edge g x c <> None).
    { apply (Hedges (x, c)). rewrite path_edges_cons2. now left. }
    assert (Hrest : is_path g c a (c :: r)).
    { split; [reflexivity|]. split.
      - rewrite <- Hlast. change (last (x :: c :: r) x) with (last (c :: r) x).
        apply last_default.
      - intros e Hin. apply Hedges. rewrite path_edges_cons2. now right. }
    destruct (IH c a Hrest b y q He Hq) as [H1 H2].
    change ((x :: c :: r) ++ q) with (x :: ((c :: r) ++ q)).
    destruct (path_cons x c y ((c :: r) ++ q) Hxc H1) as [H3 H4].
    split; [exact H3|]. rewrite H4, H2.
    unfold path_weight at 3. rewrite path_edges_cons2. simpl.
    unfold path_weight. lia.
Qed.

(** The walk that ends at [a], taken out of the others and turned to
    start at [a]. *)
Lemma take_end ps a :
  joined_ok g ps -> In a (joined_ends ps) ->
  exists x p rest,
    is_path g a x p /\ joined_ok g rest
    /\ Permutation (joined_ends ps) (a :: x :: joined_ends rest)
    /\ joined_weight g ps = (path_weight g p + joined_weight g rest)%Z.
Proof.
  induction ps as [|[[u v] q] ps IH]; intros Hok Hin; [destruct Hin|].
  apply joined_ok_cons in Hok. destruct Hok as [Hq Hok]. cbn [fst snd] in Hq.
  change (joined_ends ((u, v, q) :: ps)) with (u :: v :: joined_ends ps) in *.
  change (joined_weight g ((u, v, q) :: ps))
    with (path_weight g q + joined_weight g ps)%Z.
  destruct (eq_dec a u) as [->|Hau].
  - exists v, q, ps. split; [assumption|]. split; [assumption|].
    split; [apply Permutation_refl | reflexivity].
  - destruct (eq_dec a v) as [->|Hav].
    + exists u, (rev q), ps. split; [now apply is_path_rev|]. split; [assumption|].
      split; [apply perm_swap|]. now rewrite path_weight_rev.
    + assert (Hin' : In a (joined_ends ps)).
      { destruct Hin as [Hh|[Hh|Hh]]; [congruence|congruence|assumption]. }
      destruct (IH Hok Hin') as (x & p & rest & Hp & Hrest & Hperm & Hw).
      exists x, p, ((u, v, q) :: rest).
      split; [assumption|]. split; [now apply joined_ok_cons|]. split.
      * change (joined_ends ((u, v, q) :: rest)) with (u :: v :: joined_ends rest).
        rewrite Hperm.
        change (Permutation (([u; v] ++ [a; x]) ++ joined_ends rest)
                            (([a; x] ++ [u; v]) ++ joined_ends rest)).
        apply Permutation_app_tail. apply Permutation_app_comm.
      * change (joined_weight g ((u, v, q) :: rest))
          with (path_weight g q + joined_weight g rest)%Z. lia.
Qed.
End Joined.

Section Pairing.
Context {V : Type} {V_dec : EqDec V}.
Variable g : Graph V.
Hypothesis Hwf : wf g.
Hypothesis Hnn : nonneg_weights g = true.
Implicit Types (ps : list (V * V * list V)) (p q : list V) (a b x y z : V).

Lemma odd_inc_cons a b (X : list (V * V)) z :
  Nat.odd (inc ((a, b) :: X) z)
  = xorb (xorb (eqv z a) (eqv z b)) (Nat.odd (inc X z)).
Proof.
  rewrite inc_cons. cbn [fst snd]. rewrite !Nat.odd_add.
  destruct (eqv z a), (eqv z b); reflexivity.
Qed.

Lemma eqv_neq x y : x <> y -> eqv x y = false.
Proof. intros H. now apply eqv_false. Qed.

Lemma eqv_eq x y : x = y -> eqv x y = true.
Proof. intros H. now apply eqv_true. Qed.

(** Whether [z] is [a], whether it is [b], and the parity it had. *)
Ltac by_cases z a b X :=
  let Hza := fresh "Hza" in
  let Hzb := fresh "Hzb" in
  destruct (eq_dec z a) as [Hza|Hza];
  [rewrite (eqv_eq z a Hza) | rewrite (eqv_neq z a Hza)];
  (destruct (eq_dec z b) as [Hzb|Hzb];
   [rewrite (eqv_eq z b Hzb) | rewrite (eqv_neq z b Hzb)]);
  destruct (Nat.odd (inc X z)); simpl in *;
  intuition (subst; try congruence; try discriminate; try tauto).

(** Edges of [g], however listed, can be gathered into walks that join
    two by two the vertices the edges meet an odd number of times, and
    weigh no more than the edges. *)
Lemma pairing (X : list (V * V)) :
  (forall e, In e X -> get_edge g (fst e) (snd e) <> None) ->
  exists ps,
    joined_ok g ps /\ NoDup (joined_ends ps)
    /\ (forall z, In z (joined_ends ps) <-> Nat.odd (inc X z) = true)
    /\ (joined_weight g ps <= walk_weight g X)%Z.
Proof.
  induction X as [|[a b] X IH]; intros Hall.
  - exists []. split; [intros t []|]. split; [constructor|].
    split; [|unfold joined_weight, walk_weight; simpl; lia].
    intros z. simpl. split; [tauto | discriminate].
  - destruct IH as (ps & Hok & Hnd & Hiff & Hw); [intros; apply Hall; now right|].
    assert (Hab : get_edge g a b <> None) by (apply (Hall (a, b)); now left).
    assert (Hba : get_edge g b a <> None).
    { destruct (get_edge g a b) as [w|] eqn:E; [|congruence].
      now rewrite (wf_sym g Hwf a b w E). }
    assert (Hweight : walk_weight g ((a, b) :: X)
                      = (edge_w g (a, b) + walk_weight g X)%Z) by reflexivity.
    assert (He0 := edge_w_nonneg g (a, b) Hnn).
    rewrite Hweight.
    destruct (eq_dec a b) as [<-|Hne].
    { exists ps. split; [assumption|]. split; [assumption|]. split; [|lia].
      intros z. rewrite odd_inc_cons, xorb_nilpotent, xorb_false_l. apply Hiff. }
    destruct (in_dec eq_dec a (joined_ends ps)) as [Ha|Ha];
      destruct (in_dec eq_dec b (joined_ends ps)) as [Hb|Hb].
    + (* both ends are met an odd number of times already *)
      destruct (take_end g Hwf ps a Hok Ha) as (x & p & rest & Hp & Hrest & Hperm & Hwp).
      assert (Hnd1 : NoDup (a :: x :: joined_ends rest))
        by (eapply Permutation_NoDup; eauto).
      assert (Hmem1 : forall z, In z (joined_ends ps)
                                <-> z = a \/ z = x \/ In z (joined_ends rest)).
      { intros z. split; intros Hz.
        - apply (Permutation_in _ Hperm) in Hz. simpl in Hz. intuition congruence.
        - apply (Permutation_in _ (Permutation_sym Hperm)). simpl. intuition congruence. }
      assert (Hpp := path_weight_nonneg g p Hnn).
      inversion Hnd1 as [|? ? Hna Hnd2]; subst. inversion Hnd2 as [|? ? Hnx Hnd3]; subst.
      destruct (eq_dec b x) as [->|Hbx].
      * exists rest. split; [assumption|]. split; [assumption|]. split; [|lia].
        intros z. rewrite odd_inc_cons. specialize (Hiff z). specialize (Hmem1 z).
        by_cases z a x X.
      * assert (Hb' : In b (joined_ends rest)).
        { apply Hmem1 in Hb. intuition congruence. }
        destruct (take_end g Hwf rest b Hrest Hb')
          as (y & q & rest2 & Hq & Hrest2 & Hperm2 & Hwq).
        assert (Hnd4 : NoDup (b :: y :: joined_ends rest2))
          by (eapply Permutation_NoDup; eauto).
        assert (Hmem2 : forall z, In z (joined_ends rest)
                                  <-> z = b \/ z = y \/ In z (joined_ends rest2)).
        { intros z. split; intros Hz.
          - apply (Permutation_in _ Hperm2) in Hz. simpl in Hz. intuition congruence.
          - apply (Permutation_in _ (Permutation_sym Hperm2)). simpl. intuition congruence. }
        inversion Hnd4 as [|? ? Hnb Hnd5]; subst. inversion Hnd5 as [|? ? Hny Hnd6]; subst.
        destruct (path_app g (rev p) x a (is_path_rev g a x p Hwf Hp) b y q Hab Hq)
          as [Hpath Hpw].
        rewrite path_weight_rev in Hpw by assumption.
        exists ((x, y, rev p ++ q) :: rest2).
        split; [apply joined_ok_cons; now split|].
        change (joined_ends ((x, y, rev p ++ q) :: rest2))
          with (x :: y :: joined_ends rest2).
        change (joined_weight g ((x, y, rev p ++ q) :: rest2))
          with (path_weight g (rev p ++ q) + joined_weight g rest2)%Z.
        assert (Hxy : x <> y).
        { intros ->. apply Hnx. apply Hmem2. tauto. }
        assert (Hx2 : ~ In x (joined_ends rest2)).
        { intros Hx. apply Hnx. apply Hmem2. tauto. }
        split.
        { constructor; [simpl; intuition congruence|]. now constructor. }
        split; [|lia].
        intros z. rewrite odd_inc_cons. specialize (Hiff z). specialize (Hmem1 z).
        specialize (Hmem2 z).
        by_cases z a b X.
    + (* [a] is, [b] is not *)
      destruct (take_end g Hwf ps a Hok Ha) as (x & p & rest & Hp & Hrest & Hperm & Hwp).
      assert (Hnd1 : NoDup (a :: x :: joined_ends rest))
        by (eapply Permutation_NoDup; eauto).
      assert (Hmem1 : forall z, In z (joined_ends ps)
                                <-> z = a \/ z = x \/ In z (joined_ends rest)).
      { intros z. split; intros Hz.
        - apply (Permutation_in _ Hperm) in Hz. simpl in Hz. intuition congruence.
        - apply (Permutation_in _ (Permutation_sym Hperm)). simpl. intuition congruence. }
      inversion Hnd1 as [|? ? Hna Hnd2]; subst. inversion Hnd2 as [|? ? Hnx Hnd3]; subst.
      destruct (path_cons g b a x p Hba Hp) as [Hpath Hpw].
      rewrite <- (edge_w_sym g a b Hwf) in Hpw.
      exists ((b, x, b :: p) :: rest).
      split; [apply joined_ok_cons; now split|].
      change (joined_ends ((b, x, b :: p) :: rest)) with (b :: x :: joined_ends rest).
      change (joined_weight g ((b, x, b :: p) :: rest))
        with (path_weight g (b :: p) + joined_weight g rest)%Z.
      split.
      { constructor; [|now constructor].
        intros Hin. apply Hb. apply Hmem1. simpl in Hin. intuition congruence. }
      split; [|lia].
      intros z. rewrite odd_inc_cons. specialize (Hiff z). specialize (Hmem1 z).
      by_cases z a b X.
    + (* [b] is, [a] is not *)
      destruct (take_end g Hwf ps b Hok Hb) as (x & p & rest & Hp & Hrest & Hperm & Hwp).
      assert (Hnd1 : NoDup (b :: x :: joined_ends rest))
        by (eapply Permutation_NoDup; eauto).
      assert (Hmem1 : forall z, In z (joined_ends ps)
                                <-> z = b \/ z = x \/ In z (joined_ends rest)).
      { intros z. split; intros Hz.
        - apply (Permutation_in _ Hperm) in Hz. simpl in Hz. intuition congruence.
        - apply (Permutation_in _ (Permutation_sym Hperm)). simpl. intuition congruence. }
      inversion Hnd1 as [|? ? Hna Hnd2]; subst. inversion Hnd2 as [|? ? Hnx Hnd3]; subst.
      destruct (path_cons g a b x p Hab Hp) as [Hpath Hpw].
      exists ((a, x, a :: p) :: rest).
      split; [apply joined_ok_cons; now split|].
      change (joined_ends ((a, x, a :: p) :: rest)) with (a :: x :: joined_ends rest).
      change (joined_weight g ((a, x, a :: p) :: rest))
        with (path_weight g (a :: p) + joined_weight g rest)%Z.
      split.
      { constructor; [|now constructor].
        intros Hin. apply Ha. apply Hmem1. simpl in Hin. intuition congruence. }
      split; [|lia].
      intros z. rewrite odd_inc_cons. specialize (Hiff z). specialize (Hmem1 z).
      by_cases z a b X.
    + (* neither is *)
      destruct (edge_is_path g a b Hab) as [Hpath Hpw].
      exists ((a, b, [a; b]) :: ps).
      split; [apply joined_ok_cons; now split|].
      change (joined_ends ((a, b, [a; b]) :: ps)) with (a :: b :: joined_ends ps).
      change (joined_weight g ((a, b, [a; b]) :: ps))
        with (path_weight g [a; b] + joined_weight g ps)%Z.
      split.
      { constructor; [simpl; intuition congruence|]. now constructor. }
      split; [|lia].
      intros z. rewrite odd_inc_cons. specialize (Hiff z).
      by_cases z a b X.
Qed.
End Pairing.

Section Excess.
Context {V : Type} {V_dec : EqDec V}.
Implicit Types (c l X : list (V * V)) (x y z u v : V).

(** What is left of [c] once a list it covers is taken out of it. *)
Lemma occ_split l :
  forall c, (forall u v, occ l u v <= occ c u v) ->
  exists X, (forall u v, occ c u v = occ l u v + occ X u v) /\ incl X c.
Proof.
  induction l as [|[a b] l IH]; intros c Hle.
  - exists c. split; [intros; now rewrite occ_nil | apply incl_refl].
  - assert (Hpos : 0 < occ c a b).
    { specialize (Hle a b). rewrite occ_cons in Hle.
      replace (same_edge (a, b) a b) with true in Hle; [simpl in Hle; lia|].
      symmetry. apply same_edge_true. now left. }
    assert (He : exists e, In e c /\ forall u v, same_edge e u v = same_edge (a, b) u v).
    { destruct (occ_pos_In c a b Hpos) as [Hin|Hin].
      - now exists (a, b).
      - exists (b, a). split; [assumption|]. intros u v. apply same_edge_swap. }
    destruct He as (e & Hin & Hsame).
    destruct (in_split e c Hin) as (c1 & c2 & ->).
    destruct (IH (c1 ++ c2)) as (X & HX & Hincl).
    + intros u v. specialize (Hle u v).
      rewrite occ_cons, occ_app, occ_cons, Hsame in Hle. rewrite occ_app. lia.
    + exists X. split.
      * intros u v. specialize (HX u v).
        rewrite occ_app in HX. rewrite occ_cons, occ_app, occ_cons, Hsame. lia.
      * intros z Hz. apply Hincl in Hz. apply in_app_or in Hz. apply in_or_app.
        destruct Hz; [now left | right; now right].
Qed.

(** Lists that pass as often between any two vertices meet every vertex
    as often. *)
Lemma inc_same_occ c1 c2 x :
  (forall u v, occ c1 u v = occ c2 u v) -> inc c1 x = inc c2 x.
Proof.
  intros Hocc. unfold inc. apply Nat2Z.inj. rewrite !sum_nat_Z.
  apply (sum_same_occ (fun e => Z.of_nat (b2n (eqv x (fst e)) + b2n (eqv x (snd e)))));
    [|assumption].
  intros a b. cbn [fst snd]. lia.
Qed.

(** A walk meets every vertex but its two ends an even number of
    times. *)
Lemma walk_end_parity c :
  forall s t x, walk_end s c = Some t ->
                Nat.even (inc c x + b2n (eqv x s) + b2n (eqv x t)) = true.
Proof.
  induction c as [|[a b] c IH]; intros s t x Hw.
  - simpl in Hw. injection Hw as <-. rewrite inc_nil.
    destruct (eqv x s); reflexivity.
  - cbn [walk_end fst snd] in Hw.
    destruct (eq_dec a s) as [->|]; [|discriminate].
    specialize (IH b t x Hw). rewrite inc_cons. cbn [fst snd].
    rewrite !Nat.even_add in *.
    destruct (eqv x s), (eqv x b), (eqv x t), (Nat.even (inc c x));
      simpl in *; congruence.
Qed.

Lemma closed_walk_even c s x :
  walk_end s c = Some s -> Nat.even (inc c x) = true.
Proof.
  intros Hw. pose proof (walk_end_parity c s s x Hw) as H.
  rewrite !Nat.even_add in H.
  destruct (eqv x s), (Nat.even (inc c x)); simpl in *; congruence.
Qed.

Lemma joined_ends_pairs (ps : list (V * V * list V)) :
  Permutation (joined_ends ps) (endpoints (map fst ps)).
Proof.
  induction ps as [|[[a b] p] ps IH]; [apply Permutation_refl|].
  change (joined_ends ((a, b, p) :: ps)) with (a :: b :: joined_ends ps).
  change (map fst ((a, b, p) :: ps)) with ((a, b) :: map fst ps).
  rewrite endpoints_cons. now do 2 apply perm_skip.
Qed.

Lemma joined_ends_distinct (ps : list (V * V * list V)) a b p :
  NoDup (joined_ends ps) -> In (a, b, p) ps -> a <> b.
Proof.
  induction ps as [|[[a' b'] p'] ps IH]; intros Hnd Hin; [destruct Hin|].
  change (joined_ends ((a', b', p') :: ps)) with (a' :: b' :: joined_ends ps) in Hnd.
  inversion Hnd as [|? ? Hna Hnd']; subst. inversion Hnd' as [|? ? Hnb Hnd'']; subst.
  destruct Hin as [[= -> -> ->]|Hin].
  - intros ->. apply Hna. now left.
  - now apply IH.
Qed.

Lemma joined_ends_In (ps : list (V * V * list V)) a b p :
  In (a, b, p) ps -> In a (joined_ends ps) /\ In b (joined_ends ps).
Proof.
  induction ps as [|[[a' b'] p'] ps IH]; intros Hin; [destruct Hin|].
  change (joined_ends ((a', b', p') :: ps)) with (a' :: b' :: joined_ends ps).
  destruct Hin as [[= -> -> ->]|Hin].
  - split; [now left | right; now left].
  - destruct (IH Hin). split; right; now right.
Qed.

Lemma sum_Z_le {T : Type} (f h : T -> Z) (ts : list T) :
  (forall t, In t ts -> (f t <= h t)%Z) ->
  (sum_Z (map f ts) <= sum_Z (map h ts))%Z.
Proof.
  induction ts as [|t ts IH]; intros Hall; [simpl; lia|].
  assert ((f t <= h t)%Z) by (apply Hall; now left).
  assert ((sum_Z (map f ts) <= sum_Z (map h ts))%Z)
    by (apply IH; intros; apply Hall; now right).
  simpl. lia.
Qed.
End Excess.

Section Optimal.
Context {V : Type} {V_dec : EqDec V}.
Variable nx : NxLib V.
Variable g : Graph V.
Hypothesis Hwf : wf g.
Hypothesis Hnn : nonneg_weights g = true.
Hypothesis Hcon : is_connected g = Ok true.
Hypothesis Hnx : nx_contract nx g.
Implicit Types (c X : list (V * V)) (x y z u v : V).

(** The added weight is the weight of the matching. *)
Lemma added_weight_matching eg aw :
  find_odd_degree_vertices g <> [] ->
  add_minimum_weight_matching nx g = Ok (eg, aw) ->
  aw = matching_weight (complete_graph_of nx g)
         (min_weight_matching nx (complete_graph_of nx g)).
Proof.
  intros Hodd Hrun.
  destruct (add_minimum_weight_matching_spec nx g eg aw Hrun)
    as (paths & Heul & _ & _ & Hpaths).
  destruct (Hpaths Hodd) as (K' & HK' & Hsp).
  rewrite (build_complete_graph_Ok nx g Hwf (g_connected g Hwf Hcon) Hnx) in HK'.
  injection HK' as <-.
  apply (paths_valid nx g Hwf Hcon Hnx) in Hsp.
  destruct (eulerized_cases g paths eg aw Heul) as [(He & _)|(_ & _ & ->)];
    [contradiction|].
  apply (paths_weight_from nx g Hwf Hcon Hnx); [exact Hsp | tauto].
Qed.

(** Edges that meet the odd vertices an odd number of times, and the
    others an even number of times, weigh at least the matching. *)
Lemma excess_bound X :
  (forall e, In e X -> get_edge g (fst e) (snd e) <> None) ->
  (forall z, Nat.odd (inc X z) = Nat.odd (degree g z)) ->
  find_odd_degree_vertices g <> [] ->
  (matching_weight (complete_graph_of nx g)
     (min_weight_matching nx (complete_graph_of nx g))
   <= walk_weight g X)%Z.
Proof.
  intros HX Hpar Hodd.
  destruct (pairing g Hwf Hnn X HX) as (ps & Hok & Hnd & Hiff & Hw).
  assert (Hends : forall z, In z (joined_ends ps)
                            <-> In z (find_odd_degree_vertices g)).
  { intros z. rewrite Hiff, Hpar, find_odd_degree_vertices_In. split; [|tauto].
    intros Hz. split; [|assumption]. apply degree_pos_node.
    destruct (degree g z); [discriminate | lia]. }
  assert (Hpairs : forall t, In t ps ->
            In (fst (fst t)) (find_odd_degree_vertices g)
            /\ In (snd (fst t)) (find_odd_degree_vertices g)
            /\ fst (fst t) <> snd (fst t)).
  { intros [[a b] p] Ht. cbn [fst snd].
    destruct (joined_ends_In ps a b p Ht) as [Ha Hb].
    split; [now apply Hends|]. split; [now apply Hends|].
    now apply (joined_ends_distinct ps a b p). }
  apply Z.le_trans with (matching_weight (complete_graph_of nx g) (map fst ps)).
  - apply (M_least nx g Hwf Hcon Hnx); [assumption|].
    split; [split|].
    + eapply Permutation_NoDup; [apply joined_ends_pairs | assumption].
    + intros e He. apply in_map_iff in He. destruct He as (t & <- & Ht).
      destruct (Hpairs t Ht) as (Ha & Hb & Hne).
      now rewrite (complete_graph_edge nx g Hwf (g_connected g Hwf Hcon) Hnx _ _ Ha Hb Hne).
    + intros x Hx. apply (complete_graph_nodes nx g Hwf) in Hx.
      apply (Permutation_in _ (joined_ends_pairs ps)). now apply Hends.
  - apply Z.le_trans with (joined_weight g ps); [|assumption].
    unfold matching_weight, joined_weight. rewrite map_map.
    apply sum_Z_le. intros t Ht.
    destruct (Hpairs t Ht) as (Ha & Hb & Hne).
    destruct t as [[a b] p]. cbn [fst snd] in *.
    rewrite (complete_graph_edge_w nx g Hwf (g_connected g Hwf Hcon) Hnx a b Ha Hb Hne).
    destruct (odd_dist nx g (g_connected g Hwf Hcon) Hnx a b Ha Hb Hne) as [_ [_ Hleast]].
    apply Hleast. exact (Hok (a, b, p) Ht).
Qed.

(** No closed walk along every edge is lighter than the weight of the
    graph plus the added weight. *)
Lemma lower_bound eg aw s c :
  add_minimum_weight_matching nx g = Ok (eg, aw) ->
  walk_end s c = Some s -> in_graph g c = true -> covers g c = true ->
  (total_weight g + aw <= walk_weight g c)%Z.
Proof.
  intros Hrun Hwalk Hin Hcov.
  destruct (occ_split (edges g) c) as (X & HX & Hincl).
  { intros u v. rewrite occ_edges by assumption. now apply covers_spec. }
  assert (Hsum : walk_weight g c = (total_weight g + walk_weight g X)%Z).
  { unfold walk_weight.
    rewrite (sum_same_occ (edge_w g)) with (c2 := edges g ++ X).
    - rewrite map_app, sum_Z_app, <- total_weight_edges by assumption. reflexivity.
    - intros a b. now apply edge_w_sym.
    - intros u v. rewrite occ_app. apply HX. }
  rewrite Hsum.
  destruct (find_odd_degree_vertices g) as [|o rest] eqn:Eodd.
  - destruct (eulerized_pairs nx g eg aw Hwf Hrun) as (d & _ & -> & _ & _ & Hd).
    rewrite (Hd Eodd). simpl.
    pose proof (walk_weight_nonneg g X Hnn). lia.
  - assert (Hodd : find_odd_degree_vertices g <> []) by (rewrite Eodd; discriminate).
    rewrite (added_weight_matching eg aw Hodd Hrun).
    apply Z.add_le_mono_l. apply excess_bound; [| |assumption].
    + intros e He. apply (in_graph_spec g c e Hin). now apply Hincl.
    + intros z.
      assert (Hinc : inc c z = inc (edges g) z + inc X z).
      { rewrite <- inc_app. apply inc_same_occ. intros u v. rewrite occ_app. apply HX. }
      pose proof (closed_walk_even c s z Hwalk) as Hev.
      rewrite Hinc, <- (degree_inc g z Hwf) in Hev.
      rewrite Nat.even_add in Hev. rewrite <- !Nat.negb_even.
      destruct (Nat.even (degree g z)), (Nat.even (inc X z)); simpl in *; congruence.
Qed.

(** The route returned is a closed walk of [g] along every edge, and
    weighs the total cost. *)
Lemma route_is_a_covering_walk start sol :
  solve_chinese_postman nx g start = Ok sol ->
  (exists s, walk_end s (pairs_of (circuit sol)) = Some s)
  /\ in_graph g (pairs_of (circuit sol)) = true
  /\ (forall u v, mult g u v <= occ (pairs_of (circuit sol)) u v)
  /\ walk_weight g (pairs_of (circuit sol)) = total_cost sol.
Proof.
  intros Hsol.
  destruct (solve_route nx g start sol Hwf Hsol)
    as (eg & aw & paths & source & Hrun & Heul & Hedges & Hcost & _ & _ & Hwalk
        & Hocc & Hweights).
  destruct (eulerized_pairs nx g eg aw Hwf Hrun) as (d & Hd & Haw & _ & Hmult & _).
  assert (Hentry : forall u v w, In (u, v, w) (circuit sol) -> get_edge g u v = Some w).
  { intros u v w Hin. apply Hweights in Hin. apply edge_weight_any_weights in Hin.
    exact (eulerized_any_weights g Hwf paths eg aw u v w Heul Hedges Hin). }
  split; [now exists source|]. split; [|split].
  - unfold in_graph, pairs_of. apply forallb_forall. intros e He.
    apply in_map_iff in He. destruct He as ([[u v] w] & <- & Hin).
    cbn [fst snd]. now rewrite (Hentry u v w Hin).
  - intros u v. rewrite Hocc, Hmult. lia.
  - unfold walk_weight.
    rewrite (sum_same_occ (edge_w g)) with (c2 := edges g ++ d).
    + rewrite map_app, sum_Z_app, <- total_weight_edges by assumption. lia.
    + intros a b. now apply edge_w_sym.
    + intros u v. rewrite Hocc, Hmult, occ_app. f_equal.
      symmetry. now apply occ_edges.
Qed.
End Optimal.

(** ** The tests of the reference routines are sound *)

Section CertDistances.
Context {V : Type} {V_dec : EqDec V}.
Variable g : Graph V.
Implicit Types (u v x y : V) (p : list V) (pi : V -> Z).

Lemma potential_edge pi x y w :
  potential_ok g pi = true -> get_edge g x y = Some w -> (pi y <= pi x + w)%Z.
Proof.
  unfold potential_ok, get_edge, adj. intros Hpi Hg.
  destruct (dict_get g x) as [nbrs|] eqn:Ex; [|discriminate].
  apply dict_get_In in Ex. apply dict_get_In in Hg.
  rewrite forallb_forall in Hpi. specialize (Hpi _ Ex). cbn [fst snd] in Hpi.
  rewrite forallb_forall in Hpi. specialize (Hpi _ Hg). cbn [fst snd] in Hpi.
  now apply Z.leb_le.
Qed.

Lemma potential_walk pi :
  potential_ok g pi = true ->
  forall r a,
    (forall e, In e (path_edges (a :: r)) -> get_edge g (fst e) (snd e) <> None) ->
    (pi (last (a :: r) a) - pi a <= path_weight g (a :: r))%Z.
Proof.
  intros Hpi. induction r as [|b r IH]; intros a Hedges.
  - unfold path_weight. simpl. lia.
  - assert (Hab : get_edge g a b <> None).
    { apply (Hedges (a, b)). rewrite path_edges_cons2. now left. }
    assert (Hrest : forall e, In e (path_edges (b :: r)) ->
                              get_edge g (fst e) (snd e) <> None).
    { intros e He. apply Hedges. rewrite path_edges_cons2. now right. }
    specialize (IH b Hrest).
    change (last (a :: b :: r) a) with (last (b :: r) a).
    rewrite (last_default r b a b).
    unfold path_weight in *. rewrite path_edges_cons2. cbn [map].
    change (sum_Z (edge_w g (a, b) :: map (edge_w g) (path_edges (b :: r))))
      with (edge_w g (a, b) + sum_Z (map (edge_w g) (path_edges (b :: r))))%Z.
    destruct (get_edge g a b) as [w|] eqn:E; [|congruence].
    pose proof (potential_edge pi a b w Hpi E) as Hw.
    unfold edge_w at 1. cbn [fst snd]. rewrite E. lia.
Qed.

(** A potential bounds the weight of every path from below. *)
Lemma potential_lower pi u v p :
  potential_ok g pi = true -> is_path g u v p ->
  (pi v - pi u <= path_weight g p)%Z.
Proof.
  intros Hpi (Hhd & Hlast & Hedges).
  destruct p as [|a r]; [discriminate|]. injection Hhd as ->.
  rewrite <- Hlast. now apply potential_walk.
Qed.

Lemma path_ok_sound u v p : path_ok g u v p = true -> is_path g u v p.
Proof.
  destruct p as [|a r]; [discriminate|]. unfold path_ok.
  rewrite !andb_true_iff, !eqv_true. intros [[-> Hlast] Hin].
  split; [reflexivity|]. split; [assumption|].
  intros e He. now apply (in_graph_spec g (path_edges (u :: r))).
Qed.

Lemma dist_cert_sound u v :
  dist_cert g u v = true ->
  exists d p,
    ref_shortest_path_length g u v = Ok d
    /\ ref_shortest_path g u v = Ok p
    /\ is_path g u v p
    /\ path_weight g p = d
    /\ is_shortest_dist g u v d.
Proof.
  unfold dist_cert, ref_shortest_path_length, ref_shortest_path, ref_best.
  set (best := relax_rounds g (length g) [(u, (0%Z, [u]))]).
  rewrite !andb_true_iff. intros [[Hpi Hzero] Hv].
  destruct (dict_get best v) as [[d p0]|] eqn:Ev; [|discriminate].
  apply andb_true_iff in Hv. destruct Hv as [Hpath Hw].
  apply path_ok_sound in Hpath. apply Z.eqb_eq in Hw. apply Z.eqb_eq in Hzero.
  exists d, (rev p0). split; [reflexivity|]. split; [reflexivity|].
  split; [assumption|]. split; [assumption|]. split.
  - now exists (rev p0).
  - intros q Hq. pose proof (potential_lower (pi_of best) u v q Hpi Hq) as Hlow.
    rewrite Hzero in Hlow. unfold pi_of in Hlow at 1. rewrite Ev in Hlow. lia.
Qed.
End CertDistances.

Section CertMatching.
Context {V : Type} {V_dec : EqDec V}.
Variable k : Graph V.
Hypothesis Hwf : wf k.
Implicit Types (m : list (V * V)).

Lemma in_graph_complete (c : list (V * V)) :
  (forall e, In e c -> get_edge k (fst e) (snd e) <> None) -> in_graph k c = true.
Proof.
  intros Hall. unfold in_graph. apply forallb_forall. intros e He.
  specialize (Hall e He). destruct (get_edge k (fst e) (snd e)); congruence.
Qed.

Lemma is_matching_b_spec m : is_matching_b k m = true <-> is_matching k m.
Proof.
  unfold is_matching_b, is_matching. rewrite andb_true_iff, nodupb_NoDup. split.
  - intros [Hnd Hin]. split; [assumption|]. intros e He.
    now apply (in_graph_spec k m).
  - intros [Hnd Hin]. split; [assumption|]. now apply in_graph_complete.
Qed.

Lemma In_lists_of {X : Type} (l : list X) :
  forall (n : nat) (c : list X),
    length c = n -> (forall e, In e c -> In e l) -> In c (lists_of n l).
Proof.
  induction n as [|n IH]; intros c Hlen Hall.
  - destruct c; [now left | discriminate].
  - destruct c as [|e c]; [discriminate|]. injection Hlen as Hlen.
    cbn [lists_of]. apply in_flat_map. exists e. split; [apply Hall; now left|].
    apply in_map. apply IH; [assumption|]. intros e' He'. apply Hall. now right.
Qed.

Lemma matching_in_nodes m x :
  is_matching k m -> In x (endpoints m) -> In x (nodes k).
Proof.
  intros [_ Hm] Hx. apply In_endpoints in Hx. destruct Hx as (e & He & Hx).
  specialize (Hm e He).
  destruct (get_edge k (fst e) (snd e)) as [w|] eqn:E; [|congruence].
  destruct Hx as [-> | ->].
  - eapply get_edge_node; eauto.
  - eapply wf_neighbor_node; eauto.
Qed.

Lemma matching_cert_sound m :
  matching_cert k m = true -> is_min_weight_matching k m.
Proof.
  unfold matching_cert. rewrite !andb_true_iff. intros [[Hm Hsize] Hall].
  apply is_matching_b_spec in Hm. apply Nat.ltb_lt in Hsize.
  rewrite forallb_forall in Hall.
  split; [assumption|]. split.
  - intros m' Hm'.
    assert (Hlen : length (endpoints m') <= length (nodes k)).
    { apply NoDup_incl_length; [apply Hm'|].
      intros x Hx. now apply (matching_in_nodes m'). }
    rewrite endpoints_length in Hlen. lia.
  - intros m' Hm' Hlen.
    assert (Hin : In m' (lists_of (length m) (list_prod (nodes k) (nodes k)))).
    { apply In_lists_of; [assumption|]. intros [a b] He.
      apply in_prod; apply (matching_in_nodes m' _ Hm'); apply In_endpoints;
        exists (a, b); (split; [assumption|]); [now left | now right]. }
    specialize (Hall m' Hin). apply orb_true_iff in Hall.
    destruct Hall as [Hno|Hle].
    + apply is_matching_b_spec in Hm'. rewrite Hm' in Hno. discriminate.
    + now apply Z.leb_le.
Qed.
End CertMatching.

Section CertContract.
Context {V : Type} {V_dec : EqDec V}.

(** When the test succeeds, the reference routines meet the contract on
    the graph. *)
Lemma contract_cert_sound (g : Graph V) :
  wf_graph g = true -> contract_cert g = true -> nx_contract ref_nx g.
Proof.
  intros Hwf Hcert. apply wf_graph_wf in Hwf.
  unfold contract_cert in Hcert. apply andb_true_iff in Hcert.
  destruct Hcert as [Hdist Hmatch]. rewrite forallb_forall in Hdist.
  assert (Hpair : forall u v,
            In u (find_odd_degree_vertices g) -> In v (find_odd_degree_vertices g) ->
            u <> v -> reach g u v -> dist_cert g u v = true).
  { intros u v Hu Hv Hne Hr.
    specialize (Hdist (u, v) (in_prod _ _ u v Hu Hv)). cbn [fst snd] in Hdist.
    rewrite (eqv_neq u v Hne) in Hdist.
    apply (ref_has_path_reach g u v Hwf (odd_node g u Hu)) in Hr.
    rewrite Hr in Hdist. exact Hdist. }
  split.
  - intros u v Hu Hv Hne.
    apply (ref_has_path_reach g u v Hwf (odd_node g u Hu)).
  - intros u v Hu Hv Hne Hr.
    destruct (dist_cert_sound g u v (Hpair u v Hu Hv Hne Hr))
      as (d & p & Hl & _ & _ & _ & Hd).
    now exists d.
  - intros u v Hu Hv Hne Hr.
    destruct (dist_cert_sound g u v (Hpair u v Hu Hv Hne Hr))
      as (d & p & _ & Hp & Hpath & Hw & Hd).
    exists p. split; [exact Hp|]. split; [exact Hpath|]. now rewrite Hw.
  - intros k Hk. rewrite Hk in Hmatch. apply andb_true_iff in Hmatch.
    destruct Hmatch as [Hwfk Hm]. apply wf_graph_wf in Hwfk.
    now apply matching_cert_sound.
Qed.
End CertContract.

(** X9.  On a connected graph with no negative weight, with the library
    routines behaving as documented, the route [solve_chinese_postman]
    returns is a shortest one: it is a closed walk along edges of the
    graph that passes along every edge and weighs the total cost, and no
    closed walk along edges of the graph that passes along every edge
    weighs less. *)
Theorem route_is_shortest {V : Type} {V_dec : EqDec V}
    (nx : NxLib V) (g : Graph V) (start : option V) (sol : Solution V) :
  wf_graph g = true ->
  nonneg_weights g = true ->
  is_connected g = Ok true ->
  nx_contract nx g ->
  solve_chinese_postman nx g start = Ok sol ->
  ((exists s, walk_end s (pairs_of (circuit sol)) = Some s)
   /\ in_graph g (pairs_of (circuit sol)) = true
   /\ covers g (pairs_of (circuit sol)) = true
   /\ walk_weight g (pairs_of (circuit sol)) = total_cost sol)
  /\ (forall s c,
        walk_end s c = Some s -> in_graph g c = true -> covers g c = true ->
        (total_cost sol <= walk_weight g c)%Z).
Proof.
  intros Hwf Hnn Hcon Hnx Hsol. apply wf_graph_wf in Hwf. split.
  - destruct (route_is_a_covering_walk nx g Hwf start sol Hsol) as (H1 & H2 & H3 & H4).
    split; [exact H1|]. split; [exact H2|]. split; [|exact H4].
    unfold covers. apply forallb_forall. intros e _. apply Nat.leb_le. apply H3.
  - intros s c Hwalk Hin Hcov.
    destruct (solve_route nx g start sol Hwf Hsol)
      as (eg & aw & paths & source & Hrun & _ & _ & Hcost & _).
    rewrite Hcost.
    exact (lower_bound nx g Hwf Hnn Hcon Hnx eg aw s c Hrun Hwalk Hin Hcov).
Qed.

(** On the first graph of the driver, started at A as the driver does:
    152, and no closed walk along all the streets is shorter. *)
Lemma route_is_shortest_G :
  wf_graph Exemplos.G = true
  /\ nonneg_weights Exemplos.G = true
  /\ is_connected Exemplos.G = Ok true
  /\ nx_contract ref_nx Exemplos.G
  /\ exists sol,
       solve_chinese_postman ref_nx Exemplos.G (Some "A"%string) = Ok sol
       /\ total_cost sol = 152%Z
       /\ forall s c,
            walk_end s c = Some s -> in_graph Exemplos.G c = true ->
            covers Exemplos.G c = true ->
            (total_cost sol <= walk_weight Exemplos.G c)%Z.
Proof.
  assert (Hwf : wf_graph Exemplos.G = true) by (vm_compute; reflexivity).
  assert (Hnn : nonneg_weights Exemplos.G = true) by (vm_compute; reflexivity).
  assert (Hcon : is_connected Exemplos.G = Ok true) by (vm_compute; reflexivity).
  assert (Hnx : nx_contract ref_nx Exemplos.G)
    by (apply contract_cert_sound; vm_compute; reflexivity).
  split; [exact Hwf|]. split; [exact Hnn|]. split; [exact Hcon|].
  split; [exact Hnx|].
  eexists. split; [vm_compute; reflexivity|]. split; [reflexivity|].
  refine (proj2 (route_is_shortest ref_nx Exemplos.G (Some "A"%string) _
                   Hwf Hnn Hcon Hnx _)).
  vm_compute; reflexivity.
Defined.

(** ** Every street there and back

    Walking every edge twice is one way to pass along all of them; the
    graph with every edge doubled has an Eulerian circuit. *)

Section Doubled.
Context {V : Type} {V_dec : EqDec V}.
Variable g : Graph V.
Hypothesis Hwf : wf g.
Hypothesis Hcon : is_connected g = Ok true.

Lemma doubled_walk :
  exists s c,
    walk_end s c = Some s /\ in_graph g c = true /\ covers g c = true
    /\ walk_weight g c = (2 * total_weight g)%Z.
Proof.
  destruct (edges g) as [|e0 rest] eqn:Ee.
  - pose proof (nodes_nonempty g Hcon) as Hn.
    destruct (nodes g) as [|s ns] eqn:En; [congruence|].
    exists s, []. split; [reflexivity|]. split; [reflexivity|]. split.
    + unfold covers. now rewrite Ee.
    + rewrite (edgeless_total g Ee). reflexivity.
  - destruct (eulerized_multi g (edges g) Hwf) as (Hm & _ & Hmult & Hdeg & _ & Hnodes).
    set (m := build_from (edges_data g ++ with_weights g (edges g)) []) in *.
    assert (Hs : In (fst e0) (nodes m)).
    { apply Hnodes. rewrite Ee. unfold endpoints. rewrite map_app.
      apply in_or_app. left. now left. }
    assert (Hback : forall x, In x (nodes m) -> In x (nodes g)).
    { intros x Hx. apply Hnodes in Hx. apply In_endpoints_app in Hx.
      apply (edges_endpoints_nodes g x Hwf). tauto. }
    assert (Hconm : connected m).
    { intros u v Hu Hv.
      assert (Hr : reach g u v)
        by (apply (g_connected g Hwf Hcon); now apply Hback).
      revert Hr. apply reach_ext. intros a b Hin.
      apply (mult_pos g a b Hwf) in Hin. apply (mult_pos m a b Hm).
      rewrite Hmult. lia. }
    assert (He : is_eulerian m = Ok true).
    { apply is_eulerian_true. split.
      - apply forallb_forall. intros n _. rewrite mod2_even, Hdeg.
        rewrite <- (degree_inc g n Hwf). rewrite Nat.even_add.
        now destruct (Nat.even (degree g n)).
      - apply is_connected_of_connected; [assumption| |assumption].
        intros Hnil. rewrite Hnil in Hs. destruct Hs. }
    destruct (eulerian_circuit_spec m (fst e0) Hm He Hs) as (out & _ & Hwalk & Hocc).
    exists (fst e0), out. split; [exact Hwalk|].
    assert (Hocc' : forall u v, occ out u v = occ (edges g ++ edges g) u v).
    { intros u v. rewrite Hocc, Hmult, occ_app.
      now rewrite (occ_edges g u v Hwf). }
    split; [|split].
    + unfold in_graph. apply forallb_forall. intros [a b] Hin. cbn [fst snd].
      apply In_occ_pos in Hin. rewrite Hocc, Hmult in Hin.
      rewrite (occ_edges g a b Hwf) in Hin.
      unfold mult in Hin. destruct (get_edge g a b); [reflexivity | simpl in Hin; lia].
    + unfold covers. apply forallb_forall. intros e _. apply Nat.leb_le.
      rewrite Hocc, Hmult. lia.
    + unfold walk_weight.
      rewrite (sum_same_occ (edge_w g) (fun a b => edge_w_sym g a b Hwf)
                 out (edges g ++ edges g) Hocc').
      rewrite map_app, sum_Z_app, <- total_weight_edges by assumption. lia.
Qed.
End Doubled.

(** X10.  On a connected graph with no negative weight, with the library
    routines behaving as documented, the total cost
    [solve_chinese_postman] reports is at least the weight of the graph
    and at most twice that weight. *)
Theorem total_cost_bounds {V : Type} {V_dec : EqDec V}
    (nx : NxLib V) (g : Graph V) (start : option V) (sol : Solution V) :
  wf_graph g = true ->
  nonneg_weights g = true ->
  is_connected g = Ok true ->
  nx_contract nx g ->
  solve_chinese_postman nx g start = Ok sol ->
  (total_weight g <= total_cost sol <= 2 * total_weight g)%Z.
Proof.
  intros Hwf Hnn Hcon Hnx Hsol. apply wf_graph_wf in Hwf.
  destruct (solve_route nx g start sol Hwf Hsol)
    as (eg & aw & paths & source & Hrun & _ & _ & Hcost & _).
  rewrite Hcost. split.
  - destruct (eulerized_pairs nx g eg aw Hwf Hrun) as (d & _ & -> & _).
    pose proof (walk_weight_nonneg g d Hnn) as Hd. unfold walk_weight in Hd. lia.
  - destruct (doubled_walk g Hwf Hcon) as (s & c & Hwalk & Hin & Hcov & <-).
    exact (lower_bound nx g Hwf Hnn Hcon Hnx eg aw s c Hrun Hwalk Hin Hcov).
Qed.

(** On the third graph of the driver: 21, 27 and 42. *)
Lemma total_cost_bounds_G3 :
  wf_graph Exemplos.G3 = true
  /\ nonneg_weights Exemplos.G3 = true
  /\ is_connected Exemplos.G3 = Ok true
  /\ nx_contract ref_nx Exemplos.G3
  /\ total_weight Exemplos.G3 = 21%Z
  /\ exists sol,
       solve_chinese_postman ref_nx Exemplos.G3 (Some "A"%string) = Ok sol
       /\ total_cost sol = 27%Z
       /\ (total_weight Exemplos.G3 <= total_cost sol
           <= 2 * total_weight Exemplos.G3)%Z.
Proof.
  assert (Hwf : wf_graph Exemplos.G3 = true) by (vm_compute; reflexivity).
  assert (Hnn : nonneg_weights Exemplos.G3 = true) by (vm_compute; reflexivity).
  assert (Hcon : is_connected Exemplos.G3 = Ok true) by (vm_compute; reflexivity).
  assert (Hnx : nx_contract ref_nx Exemplos.G3)
    by (apply contract_cert_sound; vm_compute; reflexivity).
  split; [exact Hwf|]. split; [exact Hnn|]. split; [exact Hcon|].
  split; [exact Hnx|]. split; [vm_compute; reflexivity|].
  eexists. split; [vm_compute; reflexivity|]. split; [reflexivity|].
  refine (total_cost_bounds ref_nx Exemplos.G3 (Some "A"%string) _ Hwf Hnn Hcon
            Hnx _).
  vm_compute; reflexivity.
Defined.

(** ** The nodes of the returned graph, and the exceptions *)

Section Nodes.
Context {V : Type} {V_dec : EqDec V}.
Variable nx : NxLib V.

Lemma endpoint_degree_pos (g : Graph V) (d : list (V * V)) x :
  wf g ->
  (forall e, In e d -> get_edge g (fst e) (snd e) <> None) ->
  In x (endpoints d) -> 0 < degree g x.
Proof.
  intros Hwf Hd Hx. apply In_endpoints in Hx. destruct Hx as (e & He & Hx).
  specialize (Hd e He).
  destruct (get_edge g (fst e) (snd e)) as [w|] eqn:E; [|congruence].
  destruct Hx as [-> | ->].
  - apply (neighbor_degree_pos g (fst e) (snd e) Hwf). apply neighbors_In. eauto.
  - apply (neighbor_degree_pos g (snd e) (fst e) Hwf). apply neighbors_In.
    exists w. now apply (wf_sym g Hwf).
Qed.

(** The nodes of what the eulerization returns: those of the copy, or
    the ends of the edges added to the empty multigraph. *)
Lemma eulerized_nodes g eg aw :
  wf g -> add_minimum_weight_matching nx g = Ok (eg, aw) ->
  (find_odd_degree_vertices g = [] -> any_nodes eg = nodes g)
  /\ (find_odd_degree_vertices g <> [] ->
      forall x, In x (any_nodes eg) <-> 0 < degree g x).
Proof.
  intros Hwf Hrun.
  destruct (add_minimum_weight_matching_spec nx g eg aw Hrun)
    as (paths & Heul & Hedges & _).
  destruct (eulerized_cases g paths eg aw Heul) as [(He & -> & _)|(Hodd & -> & _)].
  - split; [|contradiction]. intros _. cbn [any_nodes]. now apply copy_nodes.
  - split; [contradiction|]. intros _ x. cbn [any_nodes].
    destruct (eulerized_multi g (flat_map path_edges paths) Hwf)
      as (_ & _ & _ & _ & _ & Hn).
    rewrite Hn, In_endpoints_app. split.
    + intros [Hx|Hx].
      * apply (endpoint_degree_pos g (edges g) x Hwf); [|assumption].
        intros e He. destruct e as [a b].
        apply In_occ_pos in He. rewrite (occ_edges g a b Hwf) in He.
        unfold mult in He. cbn [fst snd].
        destruct (get_edge g a b); [discriminate | lia].
      * now apply (endpoint_degree_pos g (flat_map path_edges paths) x Hwf).
    + intros Hpos. left. apply inc_pos_In. now rewrite <- degree_inc.
Qed.

(** With no start node given and the library behaving as documented,
    what comes back is a route, or the exception of the Eulerian
    test. *)
Lemma solve_outcomes g :
  wf g -> nx_contract nx g -> nodes g <> [] ->
  (exists sol, solve_chinese_postman nx g None = Ok sol)
  \/ solve_chinese_postman nx g None = Raise NetworkXError.
Proof.
  intros Hwf Hnx Hne.
  destruct (add_minimum_weight_matching_guarded nx g Hwf Hnx) as (eg & aw & Hrun).
  destruct (eulerized_pairs nx g eg aw Hwf Hrun) as (d & _ & _ & Hok & _).
  destruct (eulerized_nodes g eg aw Hwf Hrun) as [Heven Hodd].
  assert (Hn : any_nodes eg <> []).
  { destruct (find_odd_degree_vertices g) as [|o rest] eqn:E.
    - now rewrite Heven.
    - assert (Ho : In o (find_odd_degree_vertices g)) by (rewrite E; now left).
      apply find_odd_degree_vertices_In in Ho. destruct Ho as [_ Ho].
      assert (Hin : In o (any_nodes eg)).
      { apply Hodd; [discriminate|]. destruct (degree g o); [discriminate | lia]. }
      intros Hnil. rewrite Hnil in Hin. destruct Hin. }
  assert (Hval : exists b, any_is_eulerian eg = Ok b).
  { destruct eg as [h|m]; cbn [any_is_eulerian any_nodes] in *;
      now apply is_eulerian_value. }
  destruct Hval as [[|] Hb].
  - left. now apply (solve_finish nx g eg aw None Hwf Hrun Hok Hb).
  - right. unfold solve_chinese_postman.
    rewrite original_cost_total by assumption. cbn [bind].
    rewrite Hrun. cbn [bind fst snd].
    unfold find_eulerian_circuit. now rewrite Hb.
Qed.

Lemma solve_null g :
  nodes g = [] -> solve_chinese_postman nx g None = Raise NetworkXPointlessConcept.
Proof.
  intros Hn. destruct g as [|e g]; [|discriminate]. reflexivity.
Qed.
End Nodes.

(** X11.  With some vertex of odd degree, the multigraph
    [add_minimum_weight_matching] returns has exactly the vertices that
    have an edge: a vertex of the input with no edge is not in it.  With
    no vertex of odd degree the copy returned has all the nodes of the
    input, in their order. *)
Theorem eulerization_drops_isolated_vertices {V : Type} {V_dec : EqDec V}
    (nx : NxLib V) (g : Graph V) (eg : AnyGraph V) (aw : Z) :
  wf_graph g = true ->
  add_minimum_weight_matching nx g = Ok (eg, aw) ->
  (find_odd_degree_vertices g = [] -> any_nodes eg = nodes g)
  /\ (find_odd_degree_vertices g <> [] ->
      forall x, In x (any_nodes eg) <-> 0 < degree g x).
Proof.
  intros Hwf Hrun. apply wf_graph_wf in Hwf.
  exact (eulerized_nodes nx g eg aw Hwf Hrun).
Qed.

(** The street A-B with the vertex D on its own: D is not in the graph
    returned. *)
Lemma eulerization_drops_isolated_vertices_ComIsolado :
  wf_graph Exemplos.ComIsolado = true
  /\ nodes Exemplos.ComIsolado = ["A"; "B"; "D"]%string
  /\ exists eg aw,
       add_minimum_weight_matching ref_nx Exemplos.ComIsolado = Ok (eg, aw)
       /\ any_nodes eg = ["A"; "B"]%string
       /\ forall x, In x (any_nodes eg) <-> 0 < degree Exemplos.ComIsolado x.
Proof.
  assert (Hwf : wf_graph Exemplos.ComIsolado = true) by (vm_compute; reflexivity).
  split; [exact Hwf|]. split; [vm_compute; reflexivity|].
  eexists. eexists. split; [vm_compute; reflexivity|]. split; [reflexivity|].
  refine (proj2 (eulerization_drops_isolated_vertices ref_nx Exemplos.ComIsolado
                   _ _ Hwf _) _).
  - vm_compute; reflexivity.
  - vm_compute; discriminate.
Defined.

(** X12.  On a graph with no negative weight, with no start node given
    and the library routines behaving as documented,
    [solve_chinese_postman] ends in one of three ways: on the null graph
    it raises [NetworkXPointlessConcept]; on any other graph it returns a
    route or raises the [NetworkXError] of [find_eulerian_circuit]. *)
Theorem solve_ends_in_three_ways {V : Type} {V_dec : EqDec V}
    (nx : NxLib V) (g : Graph V) :
  wf_graph g = true ->
  nonneg_weights g = true ->
  nx_contract nx g ->
  (nodes g = [] ->
   solve_chinese_postman nx g None = Raise NetworkXPointlessConcept)
  /\ (nodes g <> [] ->
      (exists sol, solve_chinese_postman nx g None = Ok sol)
      \/ solve_chinese_postman nx g None = Raise NetworkXError).
Proof.
  intros Hwf _ Hnx. apply wf_graph_wf in Hwf. split.
  - apply solve_null.
  - now apply solve_outcomes.
Qed.

(** On the two streets with no end in common: the exception. *)
Lemma solve_ends_in_three_ways_Separados :
  wf_graph Exemplos.Separados = true
  /\ nonneg_weights Exemplos.Separados = true
  /\ nx_contract ref_nx Exemplos.Separados
  /\ ((exists sol, solve_chinese_postman ref_nx Exemplos.Separados None = Ok sol)
      \/ solve_chinese_postman ref_nx Exemplos.Separados None = Raise NetworkXError).
Proof.
  assert (Hwf : wf_graph Exemplos.Separados = true) by (vm_compute; reflexivity).
  assert (Hpos : nonneg_weights Exemplos.Separados = true) by (vm_compute; reflexivity).
  assert (Hnx : nx_contract ref_nx Exemplos.Separados)
    by (apply contract_cert_sound; vm_compute; reflexivity).
  split; [exact Hwf|]. split; [exact Hpos|]. split; [exact Hnx|].
  refine (proj2 (solve_ends_in_three_ways ref_nx Exemplos.Separados Hwf Hpos Hnx) _).
  vm_compute; discriminate.
Defined.

(** ** The table of edge labels *)

Section LabelFold.
Context {V : Type} {V_dec : EqDec V}.
Implicit Types (es acc : list (V * V * Z)) (key : V * V).

Lemma reported_cons key e es :
  reported key (e :: es)
  = if eq_dec (fst e) key then snd e :: reported key es else reported key es.
Proof. unfold reported. simpl. now destruct (eq_dec (fst e) key). Qed.

Lemma label_step_get acc e key :
  dict_get (label_step acc e) key
  = if eq_dec (fst e) key then Some (label_or_zero acc (fst e) + snd e)%Z
    else dict_get acc key.
Proof.
  unfold label_step, label_or_zero.
  destruct (dict_get acc (fst e)) as [x|]; rewrite dict_get_set;
    destruct (eq_dec (fst e) key); reflexivity.
Qed.

(** After the loop a pair has the label it had, plus the weights
    reported for it. *)
Lemma label_fold es :
  forall acc key,
    dict_get (fold_left label_step es acc) key
    = match reported key es with
      | [] => dict_get acc key
      | _ :: _ => Some (label_or_zero acc key + sum_Z (reported key es))%Z
      end.
Proof.
  induction es as [|e es IH]; intros acc key; [reflexivity|].
  cbn [fold_left]. rewrite IH, reported_cons.
  unfold label_or_zero at 1. rewrite label_step_get.
  destruct (eq_dec (fst e) key) as [->|Hne].
  - destruct (reported key es) as [|w ws].
    + f_equal. simpl. lia.
    + f_equal. change (sum_Z (snd e :: w :: ws)) with (snd e + sum_Z (w :: ws))%Z. lia.
  - reflexivity.
Qed.

Lemma dict_set_sum acc key (a : Z) :
  sum_Z (map snd (dict_set acc key a))
  = (sum_Z (map snd acc) - label_or_zero acc key + a)%Z.
Proof.
  unfold label_or_zero. induction acc as [|[k x] acc IH]; simpl.
  - lia.
  - destruct (eq_dec key k) as [->|Hne]; simpl; [lia|]. rewrite IH. lia.
Qed.

Lemma label_fold_sum es :
  forall acc,
    sum_Z (map snd (fold_left label_step es acc))
    = (sum_Z (map snd acc) + sum_Z (map snd es))%Z.
Proof.
  induction es as [|e es IH]; intros acc; [simpl; lia|].
  cbn [fold_left]. rewrite IH. cbn [map].
  change (sum_Z (snd e :: map snd es)) with (snd e + sum_Z (map snd es))%Z.
  unfold label_step. unfold label_or_zero.
  destruct (dict_get acc (fst e)) as [x|] eqn:E; rewrite dict_set_sum;
    unfold label_or_zero; rewrite E; lia.
Qed.

(** The dict comprehension. *)
Lemma set_fold_get es :
  forall acc key L,
    dict_get (fold_left (fun labels e => dict_set labels (fst e) (snd e)) es acc) key
    = Some L ->
    In (key, L) es \/ dict_get acc key = Some L.
Proof.
  induction es as [|[k w] es IH]; intros acc key L Hg; [now right|].
  cbn [fold_left fst snd] in Hg. apply IH in Hg. destruct Hg as [Hin|Hg].
  - left. now right.
  - rewrite dict_get_set in Hg. destruct (eq_dec k key) as [->|Hne].
    + injection Hg as ->. left. now left.
    + now right.
Qed.

Lemma set_fold_keeps es :
  forall acc key,
    dict_get acc key <> None ->
    dict_get (fold_left (fun labels e => dict_set labels (fst e) (snd e)) es acc) key
    <> None.
Proof.
  induction es as [|[k w] es IH]; intros acc key Hg; [assumption|].
  cbn [fold_left fst snd]. apply IH. rewrite dict_get_set.
  destruct (eq_dec k key); [discriminate | assumption].
Qed.

Lemma set_fold_has es :
  forall acc key w,
    In (key, w) es ->
    dict_get (fold_left (fun labels e => dict_set labels (fst e) (snd e)) es acc) key
    <> None.
Proof.
  induction es as [|[k x] es IH]; intros acc key w Hin; [destruct Hin|].
  cbn [fold_left fst snd]. destruct Hin as [[= -> ->]|Hin].
  - apply set_fold_keeps. rewrite dict_get_set.
    destruct (eq_dec key key); [discriminate | congruence].
  - now apply (IH _ key w).
Qed.

Lemma set_fold_sum es :
  forall acc,
    NoDup (map fst es) ->
    (forall e, In e es -> dict_get acc (fst e) = None) ->
    sum_Z (map snd (fold_left (fun labels e => dict_set labels (fst e) (snd e)) es acc))
    = (sum_Z (map snd acc) + sum_Z (map snd es))%Z.
Proof.
  induction es as [|[k w] es IH]; intros acc Hnd Hnew; [simpl; lia|].
  cbn [fold_left fst snd]. inversion Hnd as [|? ? Hnin Hnd']; subst.
  rewrite IH; [|assumption|].
  - rewrite dict_set_sum. unfold label_or_zero.
    pose proof (Hnew (k, w) (or_introl eq_refl)) as Hk. cbn [fst] in Hk.
    rewrite Hk. cbn [map snd].
    change (sum_Z (w :: map snd es)) with (w + sum_Z (map snd es))%Z. lia.
  - intros [k' w'] Hin. cbn [fst]. rewrite dict_get_set.
    destruct (eq_dec k k') as [->|Hne].
    + exfalso. apply Hnin. apply in_map_iff. now exists (k', w').
    + apply (Hnew (k', w')). now right.
Qed.
End LabelFold.

Section Items.
Context {V : Type} {V_dec : EqDec V} {A : Type} `{EdgeDataLaws A}.
Implicit Types (g : AdjMap V A).

(** [G.edges] reports every pair once. *)
Lemma edge_items_from_keys g :
  forall seen,
    NoDup (nodes g) ->
    (forall n nbrs, In (n, nbrs) g -> NoDup (map fst nbrs)) ->
    NoDup (map fst (edge_items_from seen g)).
Proof.
  induction g as [|[n nbrs] g IH]; intros seen Hnd Hkeys; [constructor|].
  cbn [edge_items_from]. rewrite map_app, map_map. cbn [fst].
  cbn [nodes map fst] in Hnd. inversion Hnd as [|? ? Hnin Hnd']; subst.
  apply NoDup_app.
  - assert (Hf := filter_keys_NoDup (fun k => negb (mem k seen)) nbrs
                    (Hkeys n nbrs (or_introl eq_refl))).
    rewrite <- (map_map fst (fun k => (n, k))).
    apply Finite.Injective_map_NoDup; [|exact Hf].
    intros a b [=]. assumption.
  - apply IH; [assumption|]. intros n' nbrs' Hin. apply (Hkeys n' nbrs'). now right.
  - intros [a b] Hin1 Hin2.
    apply in_map_iff in Hin1. destruct Hin1 as (e & Heq1 & _).
    injection Heq1 as Ha Hb.
    apply in_map_iff in Hin2. destruct Hin2 as ([[a' b'] x] & Heq2 & Hin2).
    cbn [fst] in Heq2. injection Heq2 as Ha' Hb'.
    apply In_edge_items_from in Hin2. destruct Hin2 as (nbrs' & Hin2 & _).
    apply Hnin. apply in_map_iff. exists (a', nbrs').
    split; [simpl; congruence | assumption].
Qed.

Lemma edge_items_keys g : wf g -> NoDup (map fst (edge_items g)).
Proof.
  intros Hwf. apply edge_items_from_keys; [apply (wf_nodes g Hwf)|].
  intros n nbrs Hin. rewrite <- (adj_In g n nbrs (wf_nodes g Hwf) Hin).
  apply (wf_keys g Hwf).
Qed.

Lemma reported_here (u v : V) (ws : list Z) :
  reported (u, v) (map (fun w => (u, v, w)) ws) = ws.
Proof.
  unfold reported. induction ws as [|w ws IHw]; [reflexivity|].
  cbn [map filter fst]. destruct (eq_dec (u, v) (u, v)); [|congruence].
  cbn [map snd]. f_equal. exact IHw.
Qed.

Lemma reported_none (key : V * V) (es : list (V * V * Z)) :
  ~ In key (map fst es) -> reported key es = [].
Proof.
  intros Hnin. unfold reported. induction es as [|[k w] es IH]; [reflexivity|].
  cbn [filter fst]. destruct (eq_dec k key) as [->|Hne].
  - exfalso. apply Hnin. now left.
  - apply IH. intros Hin. apply Hnin. now right.
Qed.

(** The weights reported for a pair are those of its entry. *)
Lemma reported_items (items : list (V * V * A)) key a :
  NoDup (map fst items) -> In (key, a) items ->
  reported key
    (flat_map (fun e => map (fun w => (fst (fst e), snd (fst e), w)) (weights (snd e)))
              items)
  = weights a.
Proof.
  induction items as [|[[u v] x] items IH]; intros Hnd Hin; [destruct Hin|].
  cbn [map fst] in Hnd. inversion Hnd as [|? ? Hnin Hnd']; subst.
  cbn [flat_map fst snd]. unfold reported. rewrite filter_app, map_app.
  fold (reported key (map (fun w => (u, v, w)) (weights x))).
  fold (reported key
          (flat_map (fun e => map (fun w => (fst (fst e), snd (fst e), w))
                                  (weights (snd e))) items)).
  destruct Hin as [[= <- <-]|Hin].
  - rewrite reported_here, reported_none; [apply app_nil_r|].
    intros Hk. apply Hnin. apply in_map_iff in Hk.
    destruct Hk as ([k w] & <- & Hk). apply in_flat_map in Hk.
    destruct Hk as ([[u' v'] x'] & Hin' & Hw). apply in_map_iff in Hw.
    destruct Hw as (w' & Heq & _). cbn [fst snd] in Heq. injection Heq as <- _.
    apply in_map_iff. now exists (u', v', x').
  - rewrite (reported_none key (map (fun w => (u, v, w)) (weights x))).
    + now apply IH.
    + intros Hk. apply Hnin. apply in_map_iff in Hk.
      destruct Hk as ([k w] & <- & Hk). apply in_map_iff in Hk.
      destruct Hk as (w' & Heq & _). injection Heq as <- _.
      apply in_map_iff. now exists (u, v, a).
Qed.
End Items.

Section LabelTable.
Context {V : Type} {V_dec : EqDec V}.

Lemma reported_some (key : V * V) (es : list (V * V * Z)) :
  In key (map fst es) -> reported key es <> [].
Proof.
  unfold reported. induction es as [|[k w] es IH]; intros Hin; [destruct Hin|].
  cbn [filter fst]. destruct (eq_dec k key) as [->|Hne]; [discriminate|].
  apply IH. destruct Hin as [Hh|Hin]; [contradiction | assumption].
Qed.

Lemma reported_In (key : V * V) (es : list (V * V * Z)) :
  reported key es <> [] -> In key (map fst es).
Proof.
  intros Hne. destruct (in_dec eq_dec key (map fst es)) as [Hin|Hnin]; [assumption|].
  now rewrite reported_none in Hne.
Qed.

Lemma edges_data_item {A : Type} `{EdgeData A} (g : AdjMap V A) u v w :
  In (u, v, w) (edges_data g) ->
  exists a, In (u, v, a) (edge_items g) /\ In w (weights a).
Proof.
  unfold edges_data. intros Hin. apply in_flat_map in Hin.
  destruct Hin as ([[u' v'] a] & Hin & Hw). apply in_map_iff in Hw.
  destruct Hw as (w' & Heq & Hw). cbn [fst snd] in Heq. injection Heq as -> -> ->.
  now exists a.
Qed.

Lemma edges_data_keys (g : Graph V) : map fst (edges_data g) = map fst (edge_items g).
Proof.
  unfold edges_data. induction (edge_items g) as [|[[u v] w] l IH]; [reflexivity|].
  cbn [flat_map]. rewrite map_app, IH. reflexivity.
Qed.

Lemma multi_labels (m : MultiGraph V) :
  wf m ->
  (forall u v L,
      dict_get (edge_labels (Multi m)) (u, v) = Some L ->
      any_weights (Multi m) u v <> [] /\ L = sum_Z (any_weights (Multi m) u v))
  /\ (forall u v, In (u, v) (edges m) ->
                  dict_get (edge_labels (Multi m)) (u, v) <> None)
  /\ sum_Z (map snd (edge_labels (Multi m))) = total_weight m.
Proof.
  intros Hwf. cbn [edge_labels any_weights]. split; [|split].
  - intros u v L. rewrite label_fold.
    destruct (reported (u, v) (edges_data m)) as [|w ws] eqn:Er; [discriminate|].
    intros [= <-].
    assert (Hin : In (u, v) (map fst (edges_data m)))
      by (apply reported_In; rewrite Er; discriminate).
    apply in_map_iff in Hin. destruct Hin as ([[u' v'] w'] & [= -> ->] & Hin).
    destruct (edges_data_item m u v w' Hin) as (kd & Hitem & _).
    pose proof (reported_items (edge_items m) (u, v) kd (edge_items_keys m Hwf) Hitem)
      as Hrep.
    fold (edges_data m) in Hrep. rewrite Er in Hrep.
    rewrite (In_edge_items_get m u v kd Hwf Hitem).
    cbn [weights MultiGraph_data] in Hrep. rewrite <- Hrep.
    split; [discriminate|]. unfold label_or_zero. simpl. lia.
  - intros u v Hin. rewrite label_fold.
    pose proof (reported_some (u, v) (edges_data m) Hin) as Hne.
    destruct (reported (u, v) (edges_data m)); [congruence | discriminate].
  - rewrite label_fold_sum. reflexivity.
Qed.

Lemma simple_labels (g : Graph V) :
  wf g ->
  (forall u v L,
      dict_get (edge_labels (Simple g)) (u, v) = Some L ->
      any_weights (Simple g) u v <> [] /\ L = sum_Z (any_weights (Simple g) u v))
  /\ (forall u v, In (u, v) (edges g) ->
                  dict_get (edge_labels (Simple g)) (u, v) <> None)
  /\ sum_Z (map snd (edge_labels (Simple g))) = total_weight g.
Proof.
  intros Hwf. cbn [edge_labels any_weights]. split; [|split].
  - intros u v L Hg. apply set_fold_get in Hg.
    destruct Hg as [Hin|Hg]; [|discriminate].
    rewrite (In_edges_data_get g u v L Hwf Hin).
    split; [discriminate | simpl; lia].
  - intros u v Hin. unfold edges in Hin. apply in_map_iff in Hin.
    destruct Hin as ([k w] & Hk & Hin). cbn [fst] in Hk. subst k.
    now apply (set_fold_has _ _ (u, v) w).
  - rewrite set_fold_sum.
    + reflexivity.
    + rewrite edges_data_keys. now apply edge_items_keys.
    + reflexivity.
Qed.
End LabelTable.

(** X13.  In the table of edge labels that [draw_graph] and
    [visualize_circuit] build, the label of a pair of vertices is the sum
    of the weights of all the edges between the two: the weight itself
    for a Graph, the parallel edges added up for a MultiGraph.  Every
    pair joined by an edge has a label, in one direction or the other,
    and the labels add up to the total weight of the graph. *)
Theorem edge_labels_sum_parallel_edges {V : Type} {V_dec : EqDec V}
    (graph : AnyGraph V) :
  any_wf graph ->
  (forall u v L,
      dict_get (edge_labels graph) (u, v) = Some L ->
      any_weights graph u v <> [] /\ L = sum_Z (any_weights graph u v))
  /\ (forall u v,
        0 < any_mult graph u v ->
        dict_get (edge_labels graph) (u, v) <> None
        \/ dict_get (edge_labels graph) (v, u) <> None)
  /\ sum_Z (map snd (edge_labels graph)) = any_total_weight graph.
Proof.
  intros Hwf. destruct graph as [g|m]; cbn [any_wf any_mult any_total_weight] in *.
  - destruct (simple_labels g Hwf) as (H1 & H2 & H3).
    split; [exact H1|]. split; [|exact H3].
    intros u v Hpos. rewrite <- (occ_edges g u v Hwf) in Hpos.
    destruct (occ_pos_In _ _ _ Hpos) as [Hin|Hin]; [left | right]; now apply H2.
  - destruct (multi_labels m Hwf) as (H1 & H2 & H3).
    split; [exact H1|]. split; [|exact H3].
    intros u v Hpos. rewrite <- (occ_edges m u v Hwf) in Hpos.
    destruct (occ_pos_In _ _ _ Hpos) as [Hin|Hin]; [left | right]; now apply H2.
Qed.

(** On the eulerized first graph of the driver the street A-C, walked
    twice, is labelled 30. *)
Lemma edge_labels_sum_parallel_edges_G :
  exists eg aw,
    add_minimum_weight_matching ref_nx Exemplos.G = Ok (eg, aw)
    /\ any_wf eg
    /\ dict_get (edge_labels eg) ("A", "C")%string = Some 30%Z
    /\ any_weights eg "A"%string "C"%string = [15%Z; 15%Z]
    /\ sum_Z (map snd (edge_labels eg)) = any_total_weight eg.
Proof.
  assert (Hwf : wf Exemplos.G) by (apply wf_graph_wf; vm_compute; reflexivity).
  destruct (add_minimum_weight_matching ref_nx Exemplos.G) as [[eg aw]|e] eqn:Hrun;
    [|vm_compute in Hrun; discriminate].
  destruct (eulerized_pairs ref_nx Exemplos.G eg aw Hwf Hrun) as (_ & _ & _ & Hok & _).
  assert (Hegwf : any_wf eg) by (destruct eg; [exact Hok | exact (proj1 Hok)]).
  exists eg, aw. split; [reflexivity|]. split; [exact Hegwf|].
  destruct (edge_labels_sum_parallel_edges eg Hegwf) as (_ & _ & Hsum).
  vm_compute in Hrun. injection Hrun as <- <-.
  split; [vm_compute; reflexivity|]. split; [vm_compute; reflexivity|]. exact Hsum.
Defined.
